(** * A shallow embedding of static_frame/core/archive_zip.py

    The read-only ZIP engine of static-frame: the record decoders, the
    end-of-central-directory locator ([_extract_end_archive]), the directory
    parser ([ZipFileRO._read_contents]), the shared file handle
    ([_SharedFileRO]), the entry reader ([ZipFilePartRO]) and the archive
    handle ([ZipFileRO]).  Python objects with mutable state are modelled by
    records threaded through a state-and-exception monad; the byte source is
    an [io] file object holding a list of bytes and a cursor. *)

From Stdlib Require Import String ZArith List Bool Lia RelationClasses.
From Stdlib Require Import Strings.Byte.
Import ListNotations.
Local Open Scope Z_scope.

Set Implicit Arguments.

(** ** Bytes and Python slicing *)

Definition bytes := list byte.

Definition len {A} (l : list A) : Z := Z.of_nat (length l).

Fixpoint bytes_eqb (a b : bytes) : bool :=
  match a, b with
  | [], [] => true
  | x :: a', y :: b' => Byte.eqb x y && bytes_eqb a' b'
  | _, _ => false
  end.

(** Python's clipping of a slice bound [i] for a sequence of length [n]. *)
Definition clip (n i : Z) : Z :=
  if i <? 0 then Z.max 0 (i + n) else Z.min i n.

(** [data[lo:hi]] *)
Definition slice {A} (data : list A) (lo hi : Z) : list A :=
  let l := clip (len data) lo in
  let h := clip (len data) hi in
  firstn (Z.to_nat (h - l)) (skipn (Z.to_nat l) data).

(** [data[lo:]] *)
Definition slice_from {A} (data : list A) (lo : Z) : list A :=
  skipn (Z.to_nat (clip (len data) lo)) data.

(** [data[:hi]] *)
Definition slice_to {A} (data : list A) (hi : Z) : list A :=
  firstn (Z.to_nat (clip (len data) hi)) data.

(** Little-endian unsigned integer held by a run of bytes ([struct] codes
    [B], [H], [L], [Q] under the [<] byte order). *)
Fixpoint le (bs : bytes) : Z :=
  match bs with
  | [] => 0
  | b :: r => Z.of_N (Byte.to_N b) + 256 * le r
  end.

(** The integer field of [width] bytes at offset [off] of a packed record. *)
Definition field (data : bytes) (off width : Z) : Z :=
  le (slice data off (off + width)).

(** [needle] is a prefix of [data]. *)
Fixpoint starts_with (needle data : bytes) : bool :=
  match needle, data with
  | [], _ => true
  | x :: n', y :: d' => Byte.eqb x y && starts_with n' d'
  | _ :: _, [] => false
  end.

(** [data.rfind(needle)], counted from index [i] of the first byte of [data]:
    the highest index at which [needle] occurs, [None] for Python's -1. *)
Fixpoint rfind_from (needle data : bytes) (i : Z) : option Z :=
  match data with
  | [] => None
  | _ :: tl =>
      match rfind_from needle tl (i + 1) with
      | Some j => Some j
      | None => if starts_with needle data then Some i else None
      end
  end.

Definition rfind (data needle : bytes) : option Z := rfind_from needle data 0.

(** ** Exceptions and the state-and-exception monad *)

Inductive exn : Type :=
| BadZipFile (msg : string)
| NotImplementedError (msg : string)
| AssertionError
| AttributeError (attr : string)
| KeyError
| ValueError (msg : string)
| OSError
| EOFError
| UnicodeDecodeError
| UnsupportedOperation.

(** The outcome of running a piece of Python: a value, a raised exception,
    or [OutOfFuel] when a bounded unrolling of a [while] loop was too short
    (never the case for the bounds used below, see the [*_fuel] lemmas). *)
Inductive outcome (A : Type) : Type :=
| Ok (a : A)
| Raise (e : exn)
| OutOfFuel.
Arguments Raise {A} e.
Arguments OutOfFuel {A}.

Definition M (S A : Type) : Type := S -> outcome A * S.

Definition ret {S A} (a : A) : M S A := fun s => (Ok a, s).
Definition raise {S A} (e : exn) : M S A := fun s => (Raise e, s).
Definition bind {S A B} (m : M S A) (k : A -> M S B) : M S B :=
  fun s => match m s with
           | (Ok a, s') => k a s'
           | (Raise e, s') => (Raise e, s')
           | (OutOfFuel, s') => (OutOfFuel, s')
           end.
Definition get {S} : M S S := fun s => (Ok s, s).
Definition put {S} (s : S) : M S unit := fun _ => (Ok tt, s).
Definition modify {S} (f : S -> S) : M S unit := fun s => (Ok tt, f s).
Definition out_of_fuel {S A} : M S A := fun s => (OutOfFuel, s).

(** Run a computation that owns a local object [l0] next to the state. *)
Definition run_local {S L A} (l0 : L) (m : M (S * L) A) : M S A :=
  fun s => let (r, sl) := m (s, l0) in (r, fst sl).

(** [try: body except: handler e] (a bare [except], any exception). *)
Definition try_except {S A} (body : M S A) (handler : exn -> M S A) : M S A :=
  fun s => match body s with
           | (Raise e, s') => handler e s'
           | r => r
           end.

(** [try: body finally: fin] *)
Definition try_finally {S A} (body : M S A) (fin : M S unit) : M S A :=
  fun s => match body s with
           | (Ok a, s') =>
               match fin s' with
               | (Ok _, s'') => (Ok a, s'')
               | (Raise e, s'') => (Raise e, s'')
               | (OutOfFuel, s'') => (OutOfFuel, s'')
               end
           | (Raise e, s') =>
               match fin s' with
               | (Ok _, s'') => (Raise e, s'')
               | (Raise e', s'') => (Raise e', s'')
               | (OutOfFuel, s'') => (OutOfFuel, s'')
               end
           | (OutOfFuel, s') => (OutOfFuel, s')
           end.

(** Run a computation on a component of the state. *)
Definition zoom {S T A} (proj : S -> T) (upd : T -> S -> S) (m : M T A) : M S A :=
  fun s => let (r, t') := m (proj s) in (r, upd t' s).

Declare Scope monad_scope.
Delimit Scope monad_scope with monad.
Notation "x <- m ;; k" := (bind m (fun x => k))
  (at level 61, m at next level, right associativity) : monad_scope.
Notation "m ;;; k" := (bind m (fun _ => k))
  (at level 61, right associativity) : monad_scope.
Local Open Scope monad_scope.

(** ** The byte source: an [io] file object *)

(** A raw file raises [OSError] on a seek before the start; [io.BytesIO]
    clamps a relative seek to 0 and raises [ValueError] on an absolute one. *)
Inductive file_kind : Type := RawFile | BytesIO.

Record PyFile : Type := mkFile {
  f_data : bytes;
  f_pos : Z;
  f_kind : file_kind;
  f_seekable : bool;
  f_closed : bool;
  f_close_calls : nat
}.

Definition closed_msg : string := "I/O operation on closed file."%string.

Definition set_pos (p : Z) (f : PyFile) : PyFile :=
  mkFile (f_data f) p (f_kind f) (f_seekable f) (f_closed f) (f_close_calls f).

Definition f_size (f : PyFile) : Z := len (f_data f).

Definition f_tell : M PyFile Z :=
  fun f => if f_closed f then (Raise (ValueError closed_msg), f) else (Ok (f_pos f), f).

Definition f_seek (offset whence : Z) : M PyFile Z :=
  fun f =>
    if f_closed f then (Raise (ValueError closed_msg), f) else
    let base := if whence =? 0 then 0
                else if whence =? 1 then f_pos f else f_size f in
    let p := base + offset in
    if p <? 0 then
      match f_kind f with
      | RawFile => (Raise OSError, f)
      | BytesIO => if whence =? 0 then (Raise (ValueError "negative seek value"%string), f)
                   else (Ok 0, set_pos 0 f)
      end
    else (Ok p, set_pos p f).

Definition read_length_msg : string := "read length must be non-negative or -1"%string.

(** [read(n)]; [None] or [-1] reads to the end of the source.  Below [-1]
    a raw file (the [io.BufferedReader] that [io.open(path, "rb")] returns)
    raises [ValueError], before it tests whether it is closed, and
    [io.BytesIO] reads to the end. *)
Definition f_read (n : option Z) : M PyFile bytes :=
  fun f =>
    if match n, f_kind f with
       | Some k, RawFile => k <? -1
       | _, _ => false
       end
    then (Raise (ValueError read_length_msg), f) else
    if f_closed f then (Raise (ValueError closed_msg), f) else
    let rest := skipn (Z.to_nat (f_pos f)) (f_data f) in
    let data := match n with
                | None => rest
                | Some k => if k <? 0 then rest else firstn (Z.to_nat k) rest
                end in
    (Ok data, set_pos (f_pos f + len data) f).

(** A length a source reads: any on [io.BytesIO], none below [-1] on a
    raw file. *)
Definition readable_length (f : PyFile) (n : option Z) : Prop :=
  match n with
  | Some k => -1 <= k \/ f_kind f = BytesIO
  | None => True
  end.

Definition f_is_seekable : M PyFile bool :=
  fun f => if f_closed f then (Raise (ValueError closed_msg), f) else (Ok (f_seekable f), f).

Definition f_close : M PyFile unit :=
  fun f => (Ok tt, mkFile (f_data f) (f_pos f) (f_kind f) (f_seekable f) true
                          (S (f_close_calls f))).

(** [try: body except OSError: handler] *)
Definition except_OSError {S A} (body : M S A) (handler : M S A) : M S A :=
  fun s => match body s with
           | (Raise OSError, s') => handler s'
           | r => r
           end.

(** ** Record codecs *)

Definition b (n : N) : byte :=
  match Byte.of_N n with Some x => x | None => x00 end.

Definition _END_ARCHIVE_STRING : bytes := [b 80; b 75; b 5; b 6].
Definition _END_ARCHIVE_SIZE : Z := 22.
Definition _CENTRAL_DIR_STRING : bytes := [b 80; b 75; b 1; b 2].
Definition _CENTRAL_DIR_SIZE : Z := 46.
Definition _FILE_HEADER_STRING : bytes := [b 80; b 75; b 3; b 4].
Definition _FILE_HEADER_SIZE : Z := 30.
Definition _END_ARCHIVE64_LOCATOR_STRING : bytes := [b 80; b 75; b 6; b 7].
Definition _END_ARCHIVE64_LOCATOR_SIZE : Z := 20.
Definition _END_ARCHIVE64_STRING : bytes := [b 80; b 75; b 6; b 6].
Definition _END_ARCHIVE64_SIZE : Z := 56.

Definition ZIP_STORED : Z := 0.

Definition _MASK_ENCRYPTED : Z := Z.shiftl 1 0.
Definition _MASK_COMPRESSED_PATCH : Z := Z.shiftl 1 5.
Definition _MASK_STRONG_ENCRYPTION : Z := Z.shiftl 1 6.
Definition _MASK_UTF_FILENAME : Z := Z.shiftl 1 11.

(** [flags & mask] as a Python truth value. *)
Definition has_flag (flags mask : Z) : bool := negb (Z.land flags mask =? 0).

(** The [endrec] list of [_extract_end_archive]: the eight items of
    [_END_ARCHIVE_STRUCT = "<4s4H2LH"], then the comment and the offset at
    which the record was found; fields are named after the index constants. *)
Record EndRec : Type := mkEndRec {
  ECD_SIGNATURE : bytes;
  ECD_DISK_NUMBER : Z;
  ECD_DISK_START : Z;
  ECD_ENTRIES_THIS_DISK : Z;
  ECD_ENTRIES_TOTAL : Z;
  ECD_SIZE : Z;
  ECD_OFFSET : Z;
  ECD_COMMENT_SIZE : Z;
  ECD_COMMENT : bytes;
  ECD_LOCATION : Z
}.

(** [list(struct.unpack(_END_ARCHIVE_STRUCT, data))] followed by the two
    [append]s. *)
Definition unpack_end_archive (data comment : bytes) (location : Z) : EndRec :=
  mkEndRec (slice data 0 4) (field data 4 2) (field data 6 2) (field data 8 2)
           (field data 10 2) (field data 12 4) (field data 16 4) (field data 20 2)
           comment location.

(** [struct.unpack(_CENTRAL_DIR_STRUCT, cdir)], ["<4s4B4HL2L5H2L"]. *)
Record CentralDir : Type := mkCentralDir {
  CD_SIGNATURE : bytes;
  CD_CREATE_VERSION : Z;
  CD_CREATE_SYSTEM : Z;
  CD_EXTRACT_VERSION : Z;
  CD_EXTRACT_SYSTEM : Z;
  CD_FLAG_BITS : Z;
  CD_COMPRESS_TYPE : Z;
  CD_TIME : Z;
  CD_DATE : Z;
  CD_CRC : Z;
  CD_COMPRESSED_SIZE : Z;
  CD_UNCOMPRESSED_SIZE : Z;
  CD_FILENAME_LENGTH : Z;
  CD_EXTRA_FIELD_LENGTH : Z;
  CD_COMMENT_LENGTH : Z;
  CD_DISK_NUMBER_START : Z;
  CD_INTERNAL_FILE_ATTRIBUTES : Z;
  CD_EXTERNAL_FILE_ATTRIBUTES : Z;
  CD_LOCAL_HEADER_OFFSET : Z
}.

Definition unpack_central_dir (d : bytes) : CentralDir :=
  mkCentralDir (slice d 0 4) (field d 4 1) (field d 5 1) (field d 6 1) (field d 7 1)
               (field d 8 2) (field d 10 2) (field d 12 2) (field d 14 2)
               (field d 16 4) (field d 20 4) (field d 24 4)
               (field d 28 2) (field d 30 2) (field d 32 2) (field d 34 2) (field d 36 2)
               (field d 38 4) (field d 42 4).

(** [struct.unpack(_FILE_HEADER_STRUCT, fheader)], ["<4s2B4HL2L2H"]. *)
Record FileHeader : Type := mkFileHeader {
  FH_SIGNATURE : bytes;
  FH_EXTRACT_VERSION : Z;
  FH_EXTRACT_SYSTEM : Z;
  FH_GENERAL_PURPOSE_FLAG_BITS : Z;
  FH_COMPRESSION_METHOD : Z;
  FH_LAST_MOD_TIME : Z;
  FH_LAST_MOD_DATE : Z;
  FH_CRC : Z;
  FH_COMPRESSED_SIZE : Z;
  FH_UNCOMPRESSED_SIZE : Z;
  FH_FILENAME_LENGTH : Z;
  FH_EXTRA_FIELD_LENGTH : Z
}.

Definition unpack_file_header (d : bytes) : FileHeader :=
  mkFileHeader (slice d 0 4) (field d 4 1) (field d 5 1)
               (field d 6 2) (field d 8 2) (field d 10 2) (field d 12 2)
               (field d 14 4) (field d 18 4) (field d 22 4)
               (field d 26 2) (field d 28 2).

(** ** Directory locator *)

Definition multi_disk_msg : string :=
  "zipfiles that span multiple disks are not supported"%string.

(** [_end_archive_update_zip64(fpin, offset, endrec)]; the two records are
    unpacked with ["<4sLQL"] and ["<4sQ2H2L4Q"].  Only the first [seek] is
    inside the [try]. *)
Definition _end_archive_update_zip64 (offset : Z) (endrec : EndRec) : M PyFile EndRec :=
  sought <- except_OSError
              (_ <- f_seek (offset - _END_ARCHIVE64_LOCATOR_SIZE) 2 ;; ret true)
              (ret false) ;;
  if negb sought then ret endrec else
  data <- f_read (Some _END_ARCHIVE64_LOCATOR_SIZE) ;;
  if negb (len data =? _END_ARCHIVE64_LOCATOR_SIZE) then ret endrec else
  let sig := slice data 0 4 in
  let diskno := field data 4 4 in
  let disks := field data 16 4 in
  if negb (bytes_eqb sig _END_ARCHIVE64_LOCATOR_STRING) then ret endrec else
  if negb (diskno =? 0) || (1 <? disks) then raise (BadZipFile multi_disk_msg) else
  _ <- f_seek (offset - _END_ARCHIVE64_LOCATOR_SIZE - _END_ARCHIVE64_SIZE) 2 ;;
  data <- f_read (Some _END_ARCHIVE64_SIZE) ;;
  if negb (len data =? _END_ARCHIVE64_SIZE) then ret endrec else
  let sig := slice data 0 4 in
  let disk_num := field data 16 4 in
  let disk_dir := field data 20 4 in
  let dircount := field data 24 8 in
  let dircount2 := field data 32 8 in
  let dirsize := field data 40 8 in
  let diroffset := field data 48 8 in
  if negb (bytes_eqb sig _END_ARCHIVE64_STRING) then ret endrec else
  ret (mkEndRec sig disk_num disk_dir dircount dircount2 dirsize diroffset
                (ECD_COMMENT_SIZE endrec) (ECD_COMMENT endrec) (ECD_LOCATION endrec)).

(** The second half of [_extract_end_archive]: the search of the last 64KiB
    (plus the record) for the signature, run when the record is not the
    last item of the file. *)
Definition _extract_end_archive_scan (filesize : Z) : M PyFile (option EndRec) :=
  let comment_max_start := Z.max (filesize - Z.shiftl 1 16 - _END_ARCHIVE_SIZE) 0 in
  _ <- f_seek comment_max_start 0 ;;
  data <- f_read None ;;
  match rfind data _END_ARCHIVE_STRING with
  | Some start =>
      let recData := slice data start (start + _END_ARCHIVE_SIZE) in
      if negb (len recData =? _END_ARCHIVE_SIZE) then ret None else
      let commentSize := field recData 20 2 in
      let comment := slice data (start + _END_ARCHIVE_SIZE)
                                (start + _END_ARCHIVE_SIZE + commentSize) in
      let endrec := unpack_end_archive recData comment (comment_max_start + start) in
      r <- _end_archive_update_zip64 (comment_max_start + start - filesize) endrec ;;
      ret (Some r)
  | None => ret None
  end.

(** The test of the first half: the data read is a whole record, carries the
    signature and ends with a zero comment length. *)
Definition is_bare_end_archive (data : bytes) : bool :=
  (len data =? _END_ARCHIVE_SIZE)
  && bytes_eqb (slice data 0 4) _END_ARCHIVE_STRING
  && bytes_eqb (slice_from data (-2)) [x00; x00].

(** [_extract_end_archive(fpin)]; [None] is Python's [None]. *)
Definition _extract_end_archive : M PyFile (option EndRec) :=
  _ <- f_seek 0 2 ;;
  filesize <- f_tell ;;
  sought <- except_OSError (_ <- f_seek (- _END_ARCHIVE_SIZE) 2 ;; ret true) (ret false) ;;
  if negb sought then ret None else
  data <- f_read None ;;
  if is_bare_end_archive data then
    let endrec := unpack_end_archive data [] (filesize - _END_ARCHIVE_SIZE) in
    r <- _end_archive_update_zip64 (- _END_ARCHIVE_SIZE) endrec ;;
    ret (Some r)
  else _extract_end_archive_scan filesize.

(** ** Entry metadata and the entry table *)

(** A Python [str]: its code points. *)
Definition str := list N.

Fixpoint str_eqb (a c : str) : bool :=
  match a, c with
  | [], [] => true
  | x :: a', y :: c' => N.eqb x y && str_eqb a' c'
  | _, _ => false
  end.

(** The two codecs of [bytes.decode] used for entry names.  They belong to
    the Python runtime, not to this module, and are taken as a parameter;
    [decode_utf8] is [None] where Python raises [UnicodeDecodeError]. *)
Record Codec : Type := mkCodec {
  decode_utf8 : bytes -> option str;
  decode_cp437 : bytes -> str
}.

Module ZipInfoRO.
Record t : Type := mk {
  filename : str;
  flag_bits : Z;
  header_offset : Z;
  compress_size : Z;
  file_size : Z
}.
End ZipInfoRO.

(** A Python [dict] keyed by [str]: insertion-ordered, an assignment to a
    key already present replaces its value in place. *)
Definition dict (V : Type) : Type := list (str * V).

Fixpoint dict_get {V} (d : dict V) (k : str) : option V :=
  match d with
  | [] => None
  | (k', v) :: r => if str_eqb k' k then Some v else dict_get r k
  end.

Fixpoint dict_set {V} (d : dict V) (k : str) (v : V) : dict V :=
  match d with
  | [] => [(k, v)]
  | (k', v') :: r => if str_eqb k' k then (k', v) :: r else (k', v') :: dict_set r k v
  end.

Definition dict_keys {V} (d : dict V) : list str := map fst d.
Definition dict_values {V} (d : dict V) : list V := map snd d.

(** ** The shared file handle *)

Module SharedFileRO.
(** [_file] is [true] while the slot holds the file object and [false]
    once it holds [None]; the [_close] slot holds the archive's [_close]
    method, passed to [close] below. *)
Record t : Type := mk {
  _file : bool;
  _pos : Z
}.

Definition St : Type := (PyFile * t)%type.

Definition on_file {A} (m : M PyFile A) : M St A :=
  zoom fst (fun f s => (f, snd s)) m.
Definition self : M St t := fun s => (Ok (snd s), s).
Definition set_pos (p : Z) : M St unit :=
  modify (fun s => (fst s, mk (_file (snd s)) p)).

(** An attribute looked up on [None]. *)
Definition the_file (attr : string) : M St unit :=
  o <- self ;; if _file o then ret tt else raise (AttributeError attr).

(** [fileobj.seekable()]: the property hands out the file's own method. *)
Definition seekable : M St bool :=
  the_file "seekable" ;;; on_file f_is_seekable.

Definition tell : M St Z := o <- self ;; ret (_pos o).

Definition seek (offset whence : Z) : M St Z :=
  the_file "seek" ;;;
  _ <- on_file (f_seek offset whence) ;;
  p <- on_file f_tell ;;
  set_pos p ;;;
  ret p.

Definition read (n : Z) : M St bytes :=
  the_file "seek" ;;;
  o <- self ;;
  _ <- on_file (f_seek (_pos o) 0) ;;
  data <- on_file (f_read (Some n)) ;;
  p <- on_file f_tell ;;
  set_pos p ;;;
  ret data.

(** [close()]; [cb] is the callable of the [_close] slot, run on the
    state [W] of its owner. *)
Definition close {W} (cb : M W unit) : M (W * t) unit :=
  o <- (fun s => (Ok (snd s), s)) ;;
  if _file o then
    modify (fun s => (fst s, mk false (_pos (snd s)))) ;;;
    zoom fst (fun w s => (w, snd s)) cb
  else ret tt.
End SharedFileRO.

(** ** The entry reader *)

Module ZipFilePartRO.
(** The instance attributes.  [_compress_type] and [_expected_crc] are
    [None] while the instance has no such attribute: [__init__] assigns
    neither (both assignments are commented out in the source). *)
Record t : Type := mk {
  _fileobj : SharedFileRO.t;
  _close_fileobj : bool;
  _compress_left : Z;
  _left : Z;
  _eof : bool;
  _readbuffer : bytes;
  _offset : Z;
  name : str;
  _seekable : bool;
  _orig_compress_start : Z;
  _orig_compress_size : Z;
  _orig_file_size : Z;
  closed : bool;
  _compress_type : option Z;
  _expected_crc : option (option Z)
}.

Definition MAX_N : Z := Z.shiftl 1 (31 - 1).
Definition MIN_READ_SIZE : Z := 4096.
Definition MAX_SEEK_READ : Z := Z.shiftl 1 24.

Definition St : Type := (PyFile * t)%type.

Definition set_fileobj v r := mk v (_close_fileobj r) (_compress_left r) (_left r) (_eof r)
  (_readbuffer r) (_offset r) (name r) (_seekable r) (_orig_compress_start r)
  (_orig_compress_size r) (_orig_file_size r) (closed r) (_compress_type r) (_expected_crc r).
Definition set_compress_left v r := mk (_fileobj r) (_close_fileobj r) v (_left r) (_eof r)
  (_readbuffer r) (_offset r) (name r) (_seekable r) (_orig_compress_start r)
  (_orig_compress_size r) (_orig_file_size r) (closed r) (_compress_type r) (_expected_crc r).
Definition set_left v r := mk (_fileobj r) (_close_fileobj r) (_compress_left r) v (_eof r)
  (_readbuffer r) (_offset r) (name r) (_seekable r) (_orig_compress_start r)
  (_orig_compress_size r) (_orig_file_size r) (closed r) (_compress_type r) (_expected_crc r).
Definition set_eof v r := mk (_fileobj r) (_close_fileobj r) (_compress_left r) (_left r) v
  (_readbuffer r) (_offset r) (name r) (_seekable r) (_orig_compress_start r)
  (_orig_compress_size r) (_orig_file_size r) (closed r) (_compress_type r) (_expected_crc r).
Definition set_readbuffer v r := mk (_fileobj r) (_close_fileobj r) (_compress_left r)
  (_left r) (_eof r) v (_offset r) (name r) (_seekable r) (_orig_compress_start r)
  (_orig_compress_size r) (_orig_file_size r) (closed r) (_compress_type r) (_expected_crc r).
Definition set_offset v r := mk (_fileobj r) (_close_fileobj r) (_compress_left r) (_left r)
  (_eof r) (_readbuffer r) v (name r) (_seekable r) (_orig_compress_start r)
  (_orig_compress_size r) (_orig_file_size r) (closed r) (_compress_type r) (_expected_crc r).
Definition set_closed v r := mk (_fileobj r) (_close_fileobj r) (_compress_left r) (_left r)
  (_eof r) (_readbuffer r) (_offset r) (name r) (_seekable r) (_orig_compress_start r)
  (_orig_compress_size r) (_orig_file_size r) v (_compress_type r) (_expected_crc r).
Definition set_expected_crc v r := mk (_fileobj r) (_close_fileobj r) (_compress_left r)
  (_left r) (_eof r) (_readbuffer r) (_offset r) (name r) (_seekable r)
  (_orig_compress_start r) (_orig_compress_size r) (_orig_file_size r) (closed r)
  (_compress_type r) v.

Definition self : M St t := fun s => (Ok (snd s), s).
Definition upd (g : t -> t) : M St unit := modify (fun s => (fst s, g (snd s))).
Definition on_fileobj {A} (m : M SharedFileRO.St A) : M St A :=
  zoom (fun s => (fst s, _fileobj (snd s)))
       (fun fs s => (fst fs, set_fileobj (snd fs) (snd s))) m.

(** [ZipFilePartRO(fileobj, zipinfo, close_fileobj)], run on the file and
    the shared handle it is given. *)
Definition init (zipinfo : ZipInfoRO.t) (close_fileobj : bool)
  : M SharedFileRO.St t :=
  sk <- SharedFileRO.seekable ;;
  if sk then
    start <- SharedFileRO.tell ;;
    fileobj <- SharedFileRO.self ;;
    ret (mk fileobj close_fileobj
            (ZipInfoRO.compress_size zipinfo) (ZipInfoRO.file_size zipinfo)
            false [] 0 (ZipInfoRO.filename zipinfo)
            true start (ZipInfoRO.compress_size zipinfo) (ZipInfoRO.file_size zipinfo)
            false None None)
  else raise (NotImplementedError "not expecting an unseekable file").

Definition tell : M St Z :=
  r <- self ;;
  if closed r then raise (ValueError "tell on closed file.") else
  if negb (_seekable r) then raise UnsupportedOperation else
  ret (_orig_file_size r - _left r - len (_readbuffer r) + _offset r).

Definition _read2 (n : Z) : M St bytes :=
  r <- self ;;
  if _compress_left r <=? 0 then ret [] else
  let n := Z.max n MIN_READ_SIZE in
  let n := Z.min n (_compress_left r) in
  data <- on_fileobj (SharedFileRO.read n) ;;
  upd (fun r => set_compress_left (_compress_left r - len data) r) ;;;
  match data with
  | [] => raise EOFError
  | _ => ret data
  end.

Definition _read1 (n : Z) : M St bytes :=
  r <- self ;;
  if _eof r || (n <=? 0) then ret [] else
  data <- _read2 n ;;
  upd (fun r => set_eof (_compress_left r <=? 0) r) ;;;
  r <- self ;;
  let data := slice_to data (_left r) in
  upd (set_left (_left r - len data)) ;;;
  r <- self ;;
  (if _left r <=? 0 then upd (set_eof true) else ret tt) ;;;
  ret data.

(** [while not self._eof: buf += self._read1(self.MAX_N)] *)
Fixpoint read_all_loop (fuel : nat) (buf : bytes) : M St bytes :=
  r <- self ;;
  if _eof r then ret buf else
  match fuel with
  | O => out_of_fuel
  | S k => data <- _read1 MAX_N ;; read_all_loop k (buf ++ data)
  end.

(** [while n > 0 and not self._eof: ...] *)
Fixpoint read_loop (fuel : nat) (n : Z) (buf : bytes) : M St bytes :=
  r <- self ;;
  if (0 <? n) && negb (_eof r) then
    match fuel with
    | O => out_of_fuel
    | S k =>
        data <- _read1 n ;;
        if n <? len data then
          upd (set_readbuffer data) ;;;
          upd (set_offset n) ;;;
          ret (buf ++ slice_to data n)
        else read_loop k (n - len data) (buf ++ data)
    end
  else ret buf.

(** Every turn of either loop that does not end it takes at least one
    byte off [_compress_left]. *)
Definition read_fuel (r : t) : nat := S (Z.to_nat (_compress_left r)).

(** [read(n)]; [None] is Python's [None]. *)
Definition read (n : option Z) : M St bytes :=
  r <- self ;;
  if closed r then raise (ValueError "read from closed file.") else
  let unbounded := match n with None => true | Some k => k <? 0 end in
  if unbounded then
    let buf := slice_from (_readbuffer r) (_offset r) in
    upd (set_readbuffer []) ;;;
    upd (set_offset 0) ;;;
    read_all_loop (read_fuel r) buf
  else
    let n := match n with Some k => k | None => 0 end in
    let end_ := n + _offset r in
    if end_ <? len (_readbuffer r) then
      let buf := slice (_readbuffer r) (_offset r) end_ in
      upd (set_offset end_) ;;;
      ret buf
    else
      let n := end_ - len (_readbuffer r) in
      let buf := slice_from (_readbuffer r) (_offset r) in
      upd (set_readbuffer []) ;;;
      upd (set_offset 0) ;;;
      read_loop (read_fuel r) n buf.

(** [while read_offset > 0: ...]; every turn takes [MAX_SEEK_READ] off
    [read_offset], or ends the loop. *)
Fixpoint seek_loop (fuel : nat) (read_offset : Z) : M St unit :=
  if 0 <? read_offset then
    match fuel with
    | O => out_of_fuel
    | S k =>
        let read_len := Z.min MAX_SEEK_READ read_offset in
        _ <- read (Some read_len) ;;
        seek_loop k (read_offset - read_len)
    end
  else ret tt.

Definition seek_fuel (read_offset : Z) : nat :=
  S (Z.to_nat (read_offset / MAX_SEEK_READ)).

Definition whence_msg : string :=
  "whence must be os.SEEK_SET (0), os.SEEK_CUR (1), or os.SEEK_END (2)".

(** [self._compress_type], an attribute lookup on the instance. *)
Definition get_compress_type : M St Z :=
  r <- self ;;
  match _compress_type r with
  | Some v => ret v
  | None => raise (AttributeError "_compress_type")
  end.

(** [seek(offset, whence)] *)
Definition seek (offset whence : Z) : M St Z :=
  r <- self ;;
  if closed r then raise (ValueError "seek on closed file.") else
  if negb (_seekable r) then raise UnsupportedOperation else
  curr_pos <- tell ;;
  new_pos <- (if whence =? 0 then ret offset
              else if whence =? 1 then ret (curr_pos + offset)
              else if whence =? 2 then ret (_orig_file_size r + offset)
              else raise (ValueError whence_msg)) ;;
  let new_pos := if _orig_file_size r <? new_pos then _orig_file_size r else new_pos in
  let new_pos := if new_pos <? 0 then 0 else new_pos in
  let read_offset := new_pos - curr_pos in
  let buff_offset := read_offset + _offset r in
  read_offset <-
    (if (0 <=? buff_offset) && (buff_offset <? len (_readbuffer r)) then
       (* the new position is in the read buffer *)
       upd (set_offset buff_offset) ;;;
       ret 0
     else
       compress_type <- get_compress_type ;;
       if (compress_type =? ZIP_STORED) && (0 <? read_offset) then
         upd (set_expected_crc (Some None)) ;;;
         r <- self ;;
         let read_offset := read_offset - (len (_readbuffer r) - _offset r) in
         _ <- on_fileobj (SharedFileRO.seek read_offset 1) ;;
         upd (fun r => set_left (_left r - read_offset) r) ;;;
         upd (set_readbuffer []) ;;;
         upd (set_offset 0) ;;;
         ret 0
       else if read_offset <? 0 then
         (* before the current position: reset the reader *)
         _ <- on_fileobj (SharedFileRO.seek (_orig_compress_start r) 0) ;;
         upd (set_compress_left (_orig_compress_size r)) ;;;
         upd (set_left (_orig_file_size r)) ;;;
         upd (set_readbuffer []) ;;;
         upd (set_offset 0) ;;;
         upd (set_eof false) ;;;
         ret new_pos
       else ret read_offset) ;;
  seek_loop (seek_fuel read_offset) read_offset ;;;
  tell.

(** [close()]: the shared handle is released under [try], then
    [io.BufferedIOBase.close] marks the reader closed.  [cb] is the
    callable held by the shared handle. *)
Definition close {W} (cb : M W unit) : M (W * t) unit :=
  try_finally
    (r <- (fun s => (Ok (snd s), s)) ;;
     if _close_fileobj r then
       zoom (fun s => (fst s, _fileobj (snd s)))
            (fun ws s => (fst ws, set_fileobj (snd ws) (snd s)))
            (SharedFileRO.close cb)
     else ret tt)
    (modify (fun s => (fst s, set_closed true (snd s)))).
(** [peek(n)] *)
Definition peek (n : Z) : M St bytes :=
  r <- self ;;
  (if len (_readbuffer r) - _offset r <? n then
     chunk <- read (Some n) ;;
     r <- self ;;
     if _offset r <? len chunk then
       upd (set_readbuffer (chunk ++ slice_from (_readbuffer r) (_offset r))) ;;;
       upd (set_offset 0)
     else upd (set_offset (_offset r - len chunk))
   else ret tt) ;;;
  r <- self ;;
  ret (slice (_readbuffer r) (_offset r) (_offset r + 512)).

(** [readable()] *)
Definition readable : M St bool :=
  r <- self ;;
  if closed r then raise (ValueError "I/O operation on closed file.") else ret true.

(** [seekable()] *)
Definition seekable : M St bool :=
  r <- self ;;
  if closed r then raise (ValueError "I/O operation on closed file.") else ret (_seekable r).
End ZipFilePartRO.

(** ** The archive handle *)

Module ZipFileRO.
(** The slots of the handle.  [_file] is [true] while the slot holds the
    file object and [false] once it holds [None]; [_start_dir] is [None]
    until [_read_contents] assigns it. *)
Record t : Type := mk {
  _start_dir : option Z;
  _name_to_info : dict ZipInfoRO.t;
  _file_passed : bool;
  _file : bool;
  _file_ref_count : Z
}.

(** The objects reachable from a handle: the byte source and the handle. *)
Record World : Type := mkWorld {
  w_file : PyFile;
  w_zip : t
}.

Definition on_file {A} (m : M PyFile A) : M World A :=
  zoom w_file (fun f w => mkWorld f (w_zip w)) m.
Definition self : M World t := fun w => (Ok (w_zip w), w).
Definition upd (g : t -> t) : M World unit :=
  modify (fun w => mkWorld (w_file w) (g (w_zip w))).

Definition set_ref_count (n : Z) (z : t) : t :=
  mk (_start_dir z) (_name_to_info z) (_file_passed z) (_file z) n.
Definition set_file (v : bool) (z : t) : t :=
  mk (_start_dir z) (_name_to_info z) (_file_passed z) v (_file_ref_count z).
Definition set_start_dir (v : Z) (z : t) : t :=
  mk (Some v) (_name_to_info z) (_file_passed z) (_file z) (_file_ref_count z).
Definition set_name_to_info (d : dict ZipInfoRO.t) (z : t) : t :=
  mk (_start_dir z) d (_file_passed z) (_file z) (_file_ref_count z).

(** [_close(self, file)] *)
Definition _close : M World unit :=
  z <- self ;;
  if negb (0 <? _file_ref_count z) then raise AssertionError else
  upd (set_ref_count (_file_ref_count z - 1)) ;;;
  z <- self ;;
  if (_file_ref_count z =? 0) && negb (_file_passed z) then on_file f_close
  else ret tt.

(** [close(self)] *)
Definition close : M World unit :=
  z <- self ;;
  if negb (_file z) then ret tt else
  upd (set_file false) ;;;
  _close.

(** [namelist(self)] *)
Definition namelist : M World (list str) :=
  z <- self ;; ret (dict_keys (_name_to_info z)).

(** [infolist(self)] *)
Definition infolist : M World (list ZipInfoRO.t) :=
  z <- self ;; ret (dict_values (_name_to_info z)).

(** [getinfo(self, name)] *)
Definition getinfo (name : str) : M World ZipInfoRO.t :=
  z <- self ;;
  match dict_get (_name_to_info z) name with
  | None => raise KeyError
  | Some info => ret info
  end.

Definition not_zip_msg : string := "File is not a zip file".
Definition bad_offset_msg : string := "Bad offset for central directory".
Definition truncated_cd_msg : string := "Truncated central directory".
Definition bad_cd_magic_msg : string := "Bad magic number for central directory".

(** [concat] of [_read_contents]: zero unless the archive was appended to
    another file. *)
Definition concat_of (endrec : EndRec) : Z :=
  let concat := ECD_LOCATION endrec - ECD_SIZE endrec - ECD_OFFSET endrec in
  if bytes_eqb (ECD_SIGNATURE endrec) _END_ARCHIVE64_STRING
  then concat - (_END_ARCHIVE64_SIZE + _END_ARCHIVE64_LOCATOR_SIZE)
  else concat.

(** The state of the directory loop: the [io.BytesIO] over the directory
    bytes and [self._name_to_info]. *)
Definition CdSt : Type := (PyFile * dict ZipInfoRO.t)%type.
Definition on_fp {A} (m : M PyFile A) : M CdSt A :=
  zoom fst (fun f s => (f, snd s)) m.

Definition decode_name (codec : Codec) (flags : Z) (raw : bytes) {S} : M S str :=
  if has_flag flags _MASK_UTF_FILENAME then
    match decode_utf8 codec raw with
    | Some s => ret s
    | None => raise UnicodeDecodeError
    end
  else ret (decode_cp437 codec raw).

(** [while total < size_cd: ...] of [_read_contents]. *)
Fixpoint cd_loop (codec : Codec) (fuel : nat) (size_cd concat total : Z)
  : M CdSt unit :=
  if total <? size_cd then
    match fuel with
    | O => out_of_fuel
    | S k =>
        cdir <- on_fp (f_read (Some _CENTRAL_DIR_SIZE)) ;;
        if negb (len cdir =? _CENTRAL_DIR_SIZE) then
          raise (BadZipFile truncated_cd_msg) else
        let cdir := unpack_central_dir cdir in
        if negb (bytes_eqb (CD_SIGNATURE cdir) _CENTRAL_DIR_STRING) then
          raise (BadZipFile bad_cd_magic_msg) else
        let filename_length := CD_FILENAME_LENGTH cdir in
        filename <- on_fp (f_read (Some filename_length)) ;;
        let flags := CD_FLAG_BITS cdir in
        filename <- decode_name codec flags filename ;;
        let extra_length := CD_EXTRA_FIELD_LENGTH cdir in
        _ <- on_fp (f_read (Some extra_length)) ;;
        let comment_length := CD_COMMENT_LENGTH cdir in
        _ <- on_fp (f_read (Some comment_length)) ;;
        let compress_type := CD_COMPRESS_TYPE cdir in
        if negb (compress_type =? ZIP_STORED) then raise AssertionError else
        let zinfo := ZipInfoRO.mk filename (CD_FLAG_BITS cdir)
                       (CD_LOCAL_HEADER_OFFSET cdir + concat)
                       (CD_COMPRESSED_SIZE cdir) (CD_UNCOMPRESSED_SIZE cdir) in
        modify (fun s => (fst s, dict_set (snd s) (ZipInfoRO.filename zinfo) zinfo)) ;;;
        cd_loop codec k size_cd concat
                (total + _CENTRAL_DIR_SIZE + filename_length + extra_length
                 + comment_length)
    end
  else ret tt.

(** Every turn of the loop that does not end it consumes a whole
    46-byte record of the directory bytes. *)
Definition cd_fuel (data : bytes) : nat := S (length data).

Definition BytesIO_of (data : bytes) : PyFile := mkFile data 0 BytesIO true false 0.

(** [_read_contents(self)] *)
Definition _read_contents (codec : Codec) : M World unit :=
  endrec <- on_file (fun f => match _extract_end_archive f with
                              | (Raise OSError, f') => (Raise (BadZipFile not_zip_msg), f')
                              | r => r
                              end) ;;
  match endrec with
  | None => raise (BadZipFile not_zip_msg)
  | Some endrec =>
      let size_cd := ECD_SIZE endrec in
      let offset_cd := ECD_OFFSET endrec in
      let concat := concat_of endrec in
      upd (set_start_dir (offset_cd + concat)) ;;;
      if offset_cd + concat <? 0 then raise (BadZipFile bad_offset_msg) else
      _ <- on_file (f_seek (offset_cd + concat) 0) ;;
      data <- on_file (f_read (Some size_cd)) ;;
      zoom (fun w => (BytesIO_of data, _name_to_info (w_zip w)))
           (fun s w => mkWorld (w_file w) (set_name_to_info (snd s) (w_zip w)))
           (cd_loop codec (cd_fuel data) size_cd concat 0)
  end.

(** [__init__(self, file)] from the point where [self._file] holds the
    byte source: [file_passed] tells whether the caller passed a file
    object ([True]) or a path that [__init__] opened itself. *)
Definition init (codec : Codec) : M World unit :=
  try_except (_read_contents codec)
             (fun e => upd (set_file false) ;;; _close ;;; raise e).

Definition fresh (file_passed : bool) : t := mk None [] file_passed true 1.

(** [ZipFileRO(file)] *)
Definition new (codec : Codec) (file_passed : bool) (file : PyFile)
  : outcome unit * World :=
  init codec (mkWorld file (fresh file_passed)).

Definition closed_zip_msg : string :=
  "Attempt to use ZIP archive that was already closed".
Definition truncated_fh_msg : string := "Truncated file header".
Definition bad_fh_magic_msg : string := "Bad magic number for file header".
Definition name_differs_msg : string :=
  "File name in directory and header differ.".

(** The [try] block of [open], run on the byte source and the shared
    handle [zef_file]. *)
Definition open_body (codec : Codec) (zinfo : ZipInfoRO.t)
  : M SharedFileRO.St ZipFilePartRO.t :=
  fheader <- SharedFileRO.read _FILE_HEADER_SIZE ;;
  if negb (len fheader =? _FILE_HEADER_SIZE) then
    raise (BadZipFile truncated_fh_msg) else
  let fheader := unpack_file_header fheader in
  if negb (bytes_eqb (FH_SIGNATURE fheader) _FILE_HEADER_STRING) then
    raise (BadZipFile bad_fh_magic_msg) else
  fname <- SharedFileRO.read (FH_FILENAME_LENGTH fheader) ;;
  (if negb (FH_EXTRA_FIELD_LENGTH fheader =? 0)
   then _ <- SharedFileRO.seek (FH_EXTRA_FIELD_LENGTH fheader) 1 ;; ret tt
   else ret tt) ;;;
  if has_flag (ZipInfoRO.flag_bits zinfo) _MASK_COMPRESSED_PATCH then
    raise (NotImplementedError "compressed patched data (flag bit 5)") else
  if has_flag (ZipInfoRO.flag_bits zinfo) _MASK_STRONG_ENCRYPTION then
    raise (NotImplementedError "strong encryption (flag bit 6)") else
  fname_str <- decode_name codec (FH_GENERAL_PURPOSE_FLAG_BITS fheader) fname ;;
  if negb (str_eqb fname_str (ZipInfoRO.filename zinfo)) then
    raise (BadZipFile name_differs_msg) else
  let is_encrypted := has_flag (ZipInfoRO.flag_bits zinfo) _MASK_ENCRYPTED in
  if is_encrypted then raise (NotImplementedError EmptyString) else
  ZipFilePartRO.init zinfo true.

(** [open(self, name)]; [name] is a [str] or a [ZipInfoRO]. *)
Definition open (codec : Codec) (name : str + ZipInfoRO.t)
  : M World ZipFilePartRO.t :=
  z <- self ;;
  if negb (_file z) then raise (ValueError closed_zip_msg) else
  zinfo <- match name with
           | inr zinfo => ret zinfo
           | inl name => getinfo name
           end ;;
  upd (fun z => set_ref_count (_file_ref_count z + 1) z) ;;;
  let zef_file := SharedFileRO.mk true (ZipInfoRO.header_offset zinfo) in
  run_local zef_file
    (try_except
       (zoom (fun s => (w_file (fst s), snd s))
             (fun fs s => (mkWorld (fst fs) (w_zip (fst s)), snd fs))
             (open_body codec zinfo))
       (fun e => SharedFileRO.close _close ;;; raise e)).

(** [part.close()] for a reader issued by this handle. *)
Definition close_part : M (World * ZipFilePartRO.t) unit :=
  ZipFilePartRO.close _close.
End ZipFileRO.

(** ** The codecs of the Python runtime *)

Module PyCodec.
Local Open Scope N_scope.

(** A UTF-8 continuation byte, as its six payload bits. *)
Definition cont (x : byte) : option N :=
  let n := Byte.to_N x in
  if (128 <=? n) && (n <=? 191) then Some (n - 128) else None.

(** [bytes.decode("utf-8")] with the default strict error handling:
    overlong forms, surrogates and values past U+10FFFF are errors. *)
Fixpoint utf8 (bs : bytes) : option str :=
  match bs with
  | [] => Some []
  | b0 :: r =>
      let n0 := Byte.to_N b0 in
      if n0 <? 128 then option_map (cons n0) (utf8 r)
      else if (194 <=? n0) && (n0 <=? 223) then
        match r with
        | b1 :: r1 =>
            match cont b1 with
            | Some c1 => option_map (cons ((n0 - 192) * 64 + c1)) (utf8 r1)
            | None => None
            end
        | _ => None
        end
      else if (224 <=? n0) && (n0 <=? 239) then
        match r with
        | b1 :: b2 :: r2 =>
            match cont b1, cont b2 with
            | Some c1, Some c2 =>
                let cp := (n0 - 224) * 4096 + c1 * 64 + c2 in
                if (cp <? 2048) || ((55296 <=? cp) && (cp <=? 57343)) then None
                else option_map (cons cp) (utf8 r2)
            | _, _ => None
            end
        | _ => None
        end
      else if (240 <=? n0) && (n0 <=? 244) then
        match r with
        | b1 :: b2 :: b3 :: r3 =>
            match cont b1, cont b2, cont b3 with
            | Some c1, Some c2, Some c3 =>
                let cp := (n0 - 240) * 262144 + c1 * 4096 + c2 * 64 + c3 in
                if (cp <? 65536) || (1114111 <? cp) then None
                else option_map (cons cp) (utf8 r3)
            | _, _, _ => None
            end
        | _ => None
        end
      else None
  end.

(** The upper half of code page 437. *)
Definition cp437_high : list N :=
  [199; 252; 233; 226; 228; 224; 229; 231; 234; 235; 232; 239; 238; 236; 196; 197;
   201; 230; 198; 244; 246; 242; 251; 249; 255; 214; 220; 162; 163; 165; 8359; 402;
   225; 237; 243; 250; 241; 209; 170; 186; 191; 8976; 172; 189; 188; 161; 171; 187;
   9617; 9618; 9619; 9474; 9508; 9569; 9570; 9558; 9557; 9571; 9553; 9559; 9565;
   9564; 9563; 9488; 9492; 9524; 9516; 9500; 9472; 9532; 9566; 9567; 9562; 9556;
   9577; 9574; 9568; 9552; 9580; 9575; 9576; 9572; 9573; 9561; 9560; 9554; 9555;
   9579; 9578; 9496; 9484; 9608; 9604; 9612; 9616; 9600; 945; 223; 915; 960; 931;
   963; 181; 964; 934; 920; 937; 948; 8734; 966; 949; 8745; 8801; 177; 8805; 8804;
   8992; 8993; 247; 8776; 176; 8729; 183; 8730; 8319; 178; 9632; 160].

(** [bytes.decode("cp437")] *)
Definition cp437 (bs : bytes) : str :=
  map (fun x => let n := Byte.to_N x in
                if n <? 128 then n else nth (N.to_nat (n - 128)) cp437_high 0) bs.

Definition python : Codec := mkCodec utf8 cp437.
End PyCodec.

(** ** Sample archives *)

Module Sample.
(** [width] bytes of [v], little-endian. *)
Fixpoint enc (width : nat) (v : Z) : bytes :=
  match width with
  | O => []
  | S w => b (Z.to_N (v mod 256)) :: enc w (v / 256)
  end.

Definition ascii (s : string) : bytes := list_byte_of_string s.

(** A local file header for a stored entry, its name and its contents. *)
Definition local_entry (name : bytes) (crc : Z) (content : bytes) : bytes :=
  _FILE_HEADER_STRING ++ enc 1 20 ++ enc 1 0 ++ enc 2 0 ++ enc 2 ZIP_STORED
    ++ enc 2 0 ++ enc 2 33 ++ enc 4 crc ++ enc 4 (len content) ++ enc 4 (len content)
    ++ enc 2 (len name) ++ enc 2 0 ++ name ++ content.

(** A central-directory record. *)
Definition central_entry (flags method : Z) (name : bytes) (crc size offset : Z)
  : bytes :=
  _CENTRAL_DIR_STRING ++ enc 1 20 ++ enc 1 3 ++ enc 1 20 ++ enc 1 0
    ++ enc 2 flags ++ enc 2 method ++ enc 2 0 ++ enc 2 33 ++ enc 4 crc
    ++ enc 4 size ++ enc 4 size ++ enc 2 (len name) ++ enc 2 0 ++ enc 2 0
    ++ enc 2 0 ++ enc 2 0 ++ enc 4 0 ++ enc 4 offset ++ name.

(** An end-of-central-directory record and its comment. *)
Definition end_record (entries size_cd offset_cd : Z) (comment : bytes) : bytes :=
  _END_ARCHIVE_STRING ++ enc 2 0 ++ enc 2 0 ++ enc 2 entries ++ enc 2 entries
    ++ enc 4 size_cd ++ enc 4 offset_cd ++ enc 2 (len comment) ++ comment.

Definition hello : bytes := ascii "hello".
Definition zeros : bytes := repeat x00 5000.

Definition entry_a : bytes := local_entry (ascii "a.txt") 907060870 hello.
Definition entry_b : bytes := local_entry (ascii "dir/b.bin") 3638890152 zeros.
Definition directory : bytes :=
  central_entry 0 ZIP_STORED (ascii "a.txt") 907060870 5 0
    ++ central_entry 0 ZIP_STORED (ascii "dir/b.bin") 3638890152 5000 (len entry_a).

(** The archive of the scenario: ["a.txt"] holding [b"hello"], then
    ["dir/b.bin"] holding 5000 zero bytes. *)
Definition archive : bytes :=
  entry_a ++ entry_b ++ directory
    ++ end_record 2 (len directory) (len entry_a + len entry_b) [].

(** A byte source as [io.open(path, "rb")] returns it. *)
Definition raw_file (data : bytes) : PyFile := mkFile data 0 RawFile true false 0.
(** A byte source as [io.BytesIO(data)] returns it. *)
Definition memory_file (data : bytes) : PyFile := mkFile data 0 BytesIO true false 0.

(** The sample archive with the archive comment [b"hi!"]. *)
Definition commented : bytes :=
  entry_a ++ entry_b ++ directory
    ++ end_record 2 (len directory) (len entry_a + len entry_b) (ascii "hi!").

(** A source of 22 bytes that is one end-of-central-directory record with
    no comment and an empty directory, whose two entry-count fields hold
    the bytes of the record signature. *)
Definition tricky_end : bytes :=
  _END_ARCHIVE_STRING ++ enc 2 0 ++ enc 2 0 ++ [b 80; b 75] ++ [b 5; b 6]
    ++ enc 4 0 ++ enc 4 0 ++ enc 2 0.

(** Bytes that hold no signature. *)
Definition garbage : bytes := ascii "This is not an archive at all.".

(** A record that announces five bytes of directory in a source that
    holds nothing before the record. *)
Definition overlong_directory : bytes := end_record 0 5 0 [].

(** Bytes to put before an archive, as a self-extracting stub would be. *)
Definition stub : bytes := ascii "#!/bin/sh -- stub".

(** The sample archive with the second entry declared deflated (method 8)
    in the directory. *)
Definition deflated_directory : bytes :=
  central_entry 0 ZIP_STORED (ascii "a.txt") 907060870 5 0
    ++ central_entry 0 8 (ascii "dir/b.bin") 3638890152 5000 (len entry_a).
Definition deflated : bytes :=
  entry_a ++ entry_b ++ deflated_directory
    ++ end_record 2 (len deflated_directory) (len entry_a + len entry_b) [].

(** The sample archive with the first entry marked encrypted (flag bit 0)
    in the directory. *)
Definition encrypted_directory : bytes :=
  central_entry 1 ZIP_STORED (ascii "a.txt") 907060870 5 0
    ++ central_entry 0 ZIP_STORED (ascii "dir/b.bin") 3638890152 5000 (len entry_a).
Definition encrypted : bytes :=
  entry_a ++ entry_b ++ encrypted_directory
    ++ end_record 2 (len encrypted_directory) (len entry_a + len entry_b) [].

(** The sample archive with the first entry marked encrypted and its
    directory record pointing seven bytes into the source, where no local
    header starts. *)
Definition encrypted_astray_directory : bytes :=
  central_entry 1 ZIP_STORED (ascii "a.txt") 907060870 5 7
    ++ central_entry 0 ZIP_STORED (ascii "dir/b.bin") 3638890152 5000 (len entry_a).
Definition encrypted_astray : bytes :=
  entry_a ++ entry_b ++ encrypted_astray_directory
    ++ end_record 2 (len encrypted_astray_directory) (len entry_a + len entry_b) [].

(** An archive with no entry: the end-of-central-directory record alone,
    as [zipfile] writes it for an empty archive. *)
Definition empty_archive : bytes := end_record 0 0 0 [].

(** A ZIP64 end-of-central-directory record and a ZIP64 locator. *)
Definition zip64_record (entries size_cd offset_cd : Z) : bytes :=
  _END_ARCHIVE64_STRING ++ enc 8 44 ++ enc 2 45 ++ enc 2 45 ++ enc 4 0 ++ enc 4 0
    ++ enc 8 entries ++ enc 8 entries ++ enc 8 size_cd ++ enc 8 offset_cd.
Definition zip64_locator (reloff : Z) : bytes :=
  _END_ARCHIVE64_LOCATOR_STRING ++ enc 4 0 ++ enc 8 reloff ++ enc 4 1.

(** Bytes that end the way a ZIP64 archive does before its last record: a
    directory of one record for ["x"], the ZIP64 record, the ZIP64
    locator. *)
Definition directory_like : bytes :=
  central_entry 0 ZIP_STORED (ascii "x") 0 0 0 ++ zip64_record 1 47 0 ++ zip64_locator 47.

(** A source of a directory and its end record, with no local header: one
    record for ["a"], whose 20-byte extra field holds the bytes of a ZIP64
    locator. *)
Definition directory_only : bytes :=
  _CENTRAL_DIR_STRING ++ enc 1 20 ++ enc 1 3 ++ enc 1 20 ++ enc 1 0
    ++ enc 2 0 ++ enc 2 ZIP_STORED ++ enc 2 0 ++ enc 2 33 ++ enc 4 0
    ++ enc 4 0 ++ enc 4 0 ++ enc 2 1 ++ enc 2 20 ++ enc 2 0
    ++ enc 2 0 ++ enc 2 0 ++ enc 4 0 ++ enc 4 0 ++ ascii "a" ++ zip64_locator 0
    ++ end_record 1 67 0 [].

(** Nine bytes that start with the signature of the ZIP64 record. *)
Definition zip64_magic : bytes := _END_ARCHIVE64_STRING ++ enc 5 0.

Definition name_x : str := PyCodec.cp437 (ascii "x").
Definition name_lone : str := PyCodec.cp437 (ascii "a").

Definition name_a : str := PyCodec.cp437 (ascii "a.txt").
Definition name_b : str := PyCodec.cp437 (ascii "dir/b.bin").
(** The directory entry of ["a.txt"] in the sample archive. *)
Definition info_a : ZipInfoRO.t := ZipInfoRO.mk name_a 0 0 5 5.

(** A ZIP64 record, a ZIP64 locator that counts two disks, and the end
    record of an empty archive. *)
Definition two_disks : bytes :=
  zip64_record 0 0 0
    ++ (_END_ARCHIVE64_LOCATOR_STRING ++ enc 4 0 ++ enc 8 0 ++ enc 4 2)
    ++ end_record 0 0 0 [].
End Sample.


(** ** Scenarios over the sample archive *)

Module Scenario.
Import Sample.

(** [ZipFileRO(path)] on the sample archive. *)
Definition opened : outcome unit * ZipFileRO.World :=
  ZipFileRO.new PyCodec.python false (raw_file archive).
Definition world0 : ZipFileRO.World := snd opened.

(** [part = zf.open(name)] followed by the calls [m] on [part]. *)
Definition with_part {A} (w : ZipFileRO.World) (name : str)
  (m : M ZipFilePartRO.St A) : outcome A :=
  match ZipFileRO.open PyCodec.python (inl name) w with
  | (Ok part, w') => fst (m (ZipFileRO.w_file w', part))
  | (Raise e, _) => Raise e
  | (OutOfFuel, _) => OutOfFuel
  end.

(** [ZipFileRO(path)] on the archive with an entry marked encrypted. *)
Definition encrypted_world : ZipFileRO.World :=
  snd (ZipFileRO.new PyCodec.python false (raw_file encrypted)).

(** The sample handle after [zf.close()]. *)
Definition closed_world : ZipFileRO.World := snd (ZipFileRO.close world0).
(** The reader [zf.open("a.txt")] returns on the sample handle, and the
    reader of ["dir/b.bin"]. *)
Definition reader_a : ZipFilePartRO.t :=
  ZipFilePartRO.mk (SharedFileRO.mk true 35) true 5 5 false [] 0 name_a
                   true 35 5 5 false None None.
Definition reader_b : ZipFilePartRO.t :=
  ZipFilePartRO.mk (SharedFileRO.mk true 79) true 5000 5000 false [] 0 name_b
                   true 79 5000 5000 false None None.

(** The sample handle after [zf.open("a.txt")]. *)
Definition world_a : ZipFileRO.World :=
  snd (ZipFileRO.open PyCodec.python (inl name_a) world0).

(** The source and the reader of ["a.txt"] after [part.read(2)]. *)
Definition after_read2 : ZipFilePartRO.St :=
  snd (ZipFilePartRO.read (Some 2) (raw_file archive, reader_a)).
End Scenario.

(** ** The directory locator in the words of its specification *)

Module LocatorSpec.
Definition EOCD_SIZE : Z := 22.
Definition KiB64 : Z := 65536.

(** The last [n] bytes of a source (all of it when it is shorter). *)
Definition last_bytes (n : Z) (data : bytes) : bytes :=
  skipn (Z.to_nat (len data - n)) data.

(** The fixed-size record at the start of [rec], with the comment and the
    offset it was found at. *)
Definition decode (rec comment : bytes) (offset : Z) : EndRec :=
  unpack_end_archive rec comment offset.

Definition signature_matches (rec : bytes) : bool :=
  bytes_eqb (firstn 4 rec) _END_ARCHIVE_STRING.

Definition comment_length (rec : bytes) : Z := field rec 20 2.

(** Step 2: the record read from the last [EOCD_SIZE] bytes, accepted if
    it carries the signature and a zero comment length. *)
Definition fast (data : bytes) : option EndRec :=
  let tail := last_bytes EOCD_SIZE data in
  if (len tail =? EOCD_SIZE) && signature_matches tail && (comment_length tail =? 0)
  then Some (decode tail [] (len data - EOCD_SIZE))
  else None.

(** Step 3: the record at the last occurrence of the signature in the last
    [min(size, 64KiB + EOCD_SIZE)] bytes, with the comment bytes its
    comment-length field implies. *)
Definition scan (data : bytes) : option EndRec :=
  let size := len data in
  let window := last_bytes (Z.min size (KiB64 + EOCD_SIZE)) data in
  match rfind window _END_ARCHIVE_STRING with
  | Some start =>
      let rec := firstn (Z.to_nat EOCD_SIZE) (skipn (Z.to_nat start) window) in
      if len rec =? EOCD_SIZE then
        let comment := firstn (Z.to_nat (comment_length rec))
                              (skipn (Z.to_nat (start + EOCD_SIZE)) window) in
        Some (decode rec comment (size - len window + start))
      else None
  | None => None
  end.

(** Steps 2 to 4: the fast path, otherwise the scan, otherwise nothing and
    the source is not a recognized archive. *)
Definition locate (data : bytes) : option EndRec :=
  match fast data with
  | Some endrec => Some endrec
  | None => scan data
  end.

(** Step 5 applied to a record found: the ZIP64 probe, run on the source
    with the record's distance from the end. *)
Definition upgrade (f : PyFile) (found : option EndRec) : outcome (option EndRec) :=
  match found with
  | Some endrec =>
      fst ((r <- _end_archive_update_zip64 (ECD_LOCATION endrec - f_size f) endrec ;;
            ret (Some r)) f)
  | None => Ok None
  end.
End LocatorSpec.

(** ** Archives with bytes put before them *)

Module Prefixed.
(** The byte source [f] with [pre] put before its bytes. *)
Definition prepend (pre : bytes) (f : PyFile) : PyFile :=
  mkFile (pre ++ f_data f) (f_pos f) (f_kind f) (f_seekable f) (f_closed f)
         (f_close_calls f).

(** Entry metadata with its local-header offset moved by [n]. *)
Definition shift_info (n : Z) (zinfo : ZipInfoRO.t) : ZipInfoRO.t :=
  ZipInfoRO.mk (ZipInfoRO.filename zinfo) (ZipInfoRO.flag_bits zinfo)
               (ZipInfoRO.header_offset zinfo + n)
               (ZipInfoRO.compress_size zinfo) (ZipInfoRO.file_size zinfo).

(** An entry table with every local-header offset moved by [n]: same
    names, same order. *)
Definition shift_table (n : Z) (d : dict ZipInfoRO.t) : dict ZipInfoRO.t :=
  map (fun kv => (fst kv, shift_info n (snd kv))) d.

(** A record found [n] bytes further into the source. *)
Definition shift_location (n : Z) (e : EndRec) : EndRec :=
  mkEndRec (ECD_SIGNATURE e) (ECD_DISK_NUMBER e) (ECD_DISK_START e)
           (ECD_ENTRIES_THIS_DISK e) (ECD_ENTRIES_TOTAL e) (ECD_SIZE e) (ECD_OFFSET e)
           (ECD_COMMENT_SIZE e) (ECD_COMMENT e) (ECD_LOCATION e + n).

(** The [size] bytes at [start], as [fp.seek(start); fp.read(size)] returns
    them. *)
Definition directory_bytes (f : PyFile) (start size : Z) : bytes :=
  let rest := skipn (Z.to_nat start) (f_data f) in
  if size <? 0 then rest else firstn (Z.to_nat size) rest.

(** The result of the directory loop with the table it built moved by [n]. *)
Definition shift_state (n : Z) (x : outcome unit * ZipFileRO.CdSt)
  : outcome unit * ZipFileRO.CdSt :=
  (fst x, (fst (snd x), shift_table n (snd (snd x)))).

(** The room the two ZIP64 probes need before the record: 20 bytes for the
    locator and 56 for the ZIP64 record.  Any archive with an entry has it
    (a 30-byte local header and a 46-byte directory record). *)
Definition probe_room : Z := _END_ARCHIVE64_LOCATOR_SIZE + _END_ARCHIVE64_SIZE.
End Prefixed.

(** ** The records of a central directory *)

Module Directory.
(** The record that the loop of [_read_contents] unpacks in the turn it
    starts with the running total [total]: the 46 bytes of the directory
    bytes at [total]. *)
Definition record (data : bytes) (total : Z) : CentralDir :=
  unpack_central_dir (slice data total (total + _CENTRAL_DIR_SIZE)).

(** The running total after that turn. *)
Definition next (data : bytes) (total : Z) : Z :=
  let cdir := record data total in
  total + _CENTRAL_DIR_SIZE + CD_FILENAME_LENGTH cdir + CD_EXTRA_FIELD_LENGTH cdir
  + CD_COMMENT_LENGTH cdir.

(** The running totals at which the loop starts a turn. *)
Fixpoint offsets (fuel : nat) (data : bytes) (size_cd total : Z) : list Z :=
  if total <? size_cd then
    match fuel with
    | O => []
    | S k => total :: offsets k data size_cd (next data total)
    end
  else [].

(** The records of a directory of declared size [size_cd]. *)
Definition records (data : bytes) (size_cd : Z) : list CentralDir :=
  map (record data) (offsets (ZipFileRO.cd_fuel data) data size_cd 0).
End Directory.

(** The entry metadata that [open(name)] works on. *)
Definition resolves (name : str + ZipInfoRO.t) (w : ZipFileRO.World)
  (zinfo : ZipInfoRO.t) : Prop :=
  match name with
  | inr zi => zi = zinfo
  | inl n => dict_get (ZipFileRO._name_to_info (ZipFileRO.w_zip w)) n = Some zinfo
  end.

(** ** Frame conditions *)

(** [m] relates every state it starts from to the state it leaves, whatever
    the outcome. *)
Definition keeps {S A} (R : S -> S -> Prop) (m : M S A) : Prop :=
  forall s r s', m s = (r, s') -> R s s'.

(** Only the cursor of the byte source moved. *)
Definition file_frame (f f' : PyFile) : Prop :=
  f_data f' = f_data f /\ f_kind f' = f_kind f /\ f_seekable f' = f_seekable f
  /\ f_closed f' = f_closed f /\ f_close_calls f' = f_close_calls f.

(** Only cursors moved: the source keeps its bytes and the shared handle
    still holds (or still does not hold) its file. *)
Definition shared_frame (s s' : SharedFileRO.St) : Prop :=
  file_frame (fst s) (fst s') /\ SharedFileRO._file (snd s') = SharedFileRO._file (snd s).

(** ** Sessions: a handle and the readers it issued *)

Module Session.
(** What a client may do, in any order: open an entry, close or use the
    [i]-th reader issued so far, close the handle.  A reader or handle
    dropped by the garbage collector is closed by its [__del__], which is
    the same call. *)
Inductive op : Type :=
| Open (name : str + ZipInfoRO.t)
| ClosePart (i : nat)
| CloseZip
| Read (i : nat) (n : option Z)
| Seek (i : nat) (offset whence : Z).

Record t : Type := mk {
  world : ZipFileRO.World;
  parts : list ZipFilePartRO.t
}.

Fixpoint set_nth {A} (i : nat) (x : A) (l : list A) : list A :=
  match l, i with
  | [], _ => []
  | _ :: r, O => x :: r
  | y :: r, S j => y :: set_nth j x r
  end.

(** A method of a reader that only touches the byte source, run next to
    the handle. *)
Definition on_source {A} (m : M ZipFilePartRO.St A) : M (ZipFileRO.World * ZipFilePartRO.t) A :=
  zoom (fun s => (ZipFileRO.w_file (fst s), snd s))
       (fun fs s => (ZipFileRO.mkWorld (fst fs) (ZipFileRO.w_zip (fst s)), snd fs)) m.

(** A call on the [i]-th reader; exceptions are left to the client, the
    objects keep what the call did to them. *)
Definition on_part {A} (i : nat) (m : M (ZipFileRO.World * ZipFilePartRO.t) A) (s : t) : t :=
  match nth_error (parts s) i with
  | Some p => let (_, wp) := m (world s, p) in mk (fst wp) (set_nth i (snd wp) (parts s))
  | None => s
  end.

Definition step (codec : Codec) (s : t) (o : op) : t :=
  match o with
  | Open name =>
      match ZipFileRO.open codec name (world s) with
      | (Ok p, w) => mk w (parts s ++ [p])
      | (_, w) => mk w (parts s)
      end
  | ClosePart i => on_part i ZipFileRO.close_part s
  | CloseZip => mk (snd (ZipFileRO.close (world s))) (parts s)
  | Read i n => on_part i (on_source (ZipFilePartRO.read n)) s
  | Seek i offset whence => on_part i (on_source (ZipFilePartRO.seek offset whence)) s
  end.

Definition run (codec : Codec) (ops : list op) (s : t) : t :=
  fold_left (step codec) ops s.

(** A reader still holds its share of the byte source. *)
Definition live (p : ZipFilePartRO.t) : bool :=
  SharedFileRO._file (ZipFilePartRO._fileobj p).

(** The holders of the byte source: the handle until it is closed, and
    every reader that has not released its shared handle. *)
Definition holders (s : t) : Z :=
  (if ZipFileRO._file (ZipFileRO.w_zip (world s)) then 1 else 0)
  + len (filter live (parts s)).

(** The reference count is the number of holders; the source was closed by
    the engine once if nobody holds it and the engine opened it, and not at
    all otherwise.  [calls0] is the number of [close()] calls the source
    had seen before the handle was built. *)
Definition invariant (file_passed : bool) (calls0 : nat) (s : t) : Prop :=
  ZipFileRO._file_ref_count (ZipFileRO.w_zip (world s)) = holders s
  /\ ZipFileRO._file_passed (ZipFileRO.w_zip (world s)) = file_passed
  /\ Forall (fun p => ZipFilePartRO._close_fileobj p = true) (parts s)
  /\ f_close_calls (ZipFileRO.w_file (world s))
     = (calls0 + if (holders s =? 0)%Z && negb file_passed then 1 else 0)%nat.
(** The reference count after operation [o], told from the state before
    it: one more for an [open] that returns a reader, one less for the
    close of a reader that still holds its share or of the open handle,
    unchanged otherwise. *)
Definition count_after (s : t) (o : op) (codec : Codec) : Z :=
  ZipFileRO._file_ref_count (ZipFileRO.w_zip (world s))
  + match o with
    | Open name =>
        match fst (ZipFileRO.open codec name (world s)) with Ok _ => 1 | _ => 0 end
    | ClosePart i =>
        match nth_error (parts s) i with
        | Some p => if live p then -1 else 0
        | None => 0
        end
    | CloseZip => if ZipFileRO._file (ZipFileRO.w_zip (world s)) then -1 else 0
    | Read _ _ | Seek _ _ _ => 0
    end.
End Session.

(** Only the cursor of the byte source moved and the handle's table or
    directory offset changed: its file slot, ownership flag and reference
    count are the same. *)
Definition world_frame (w w' : ZipFileRO.World) : Prop :=
  file_frame (ZipFileRO.w_file w) (ZipFileRO.w_file w')
  /\ ZipFileRO._file (ZipFileRO.w_zip w') = ZipFileRO._file (ZipFileRO.w_zip w)
  /\ ZipFileRO._file_passed (ZipFileRO.w_zip w') = ZipFileRO._file_passed (ZipFileRO.w_zip w)
  /\ ZipFileRO._file_ref_count (ZipFileRO.w_zip w')
     = ZipFileRO._file_ref_count (ZipFileRO.w_zip w).

(** A reader's calls moved cursors and buffers only: the source keeps its
    bytes, the reader its share of the source. *)
Definition part_frame (s s' : ZipFilePartRO.St) : Prop :=
  file_frame (fst s) (fst s')
  /\ Session.live (snd s') = Session.live (snd s)
  /\ ZipFilePartRO._close_fileobj (snd s') = ZipFilePartRO._close_fileobj (snd s).

(** The errors by which the code reports a feature it does not support:
    each such [raise] of the source (flag bits 5 and 6, the encrypted flag,
    a source that cannot seek) is a [NotImplementedError]. *)
Definition unsupported_feature (e : exn) : bool :=
  match e with
  | NotImplementedError _ => true
  | _ => false
  end.

(** [m] never runs out of fuel. *)
Definition total {S A} (m : M S A) : Prop :=
  forall s, fst (m s) <> OutOfFuel.

(** ** The bytes a reader has yet to deliver *)

Module Stream.
Import ZipFilePartRO.

(** The cursor of the reader's shared handle. *)
Definition source_pos (r : t) : Z := SharedFileRO._pos (_fileobj r).

(** The bytes of the entry not yet read from the byte source: what is left
    of the [_compress_left] bytes at the cursor, cut to [_left]. *)
Definition pending (f : PyFile) (r : t) : bytes :=
  firstn (Z.to_nat (_left r))
    (firstn (Z.to_nat (_compress_left r)) (skipn (Z.to_nat (source_pos r)) (f_data f))).

(** The bytes the reader has yet to deliver: the unread part of its buffer,
    then the pending bytes. *)
Definition remaining (f : PyFile) (r : t) : bytes :=
  skipn (Z.to_nat (_offset r)) (_readbuffer r) ++ pending f r.

(** The value [tell()] computes. *)
Definition position (r : t) : Z :=
  _orig_file_size r - _left r - len (_readbuffer r) + _offset r.

(** A reader in working order on the byte source [f]: neither is closed,
    the reader holds its share of the source, the counters are not
    negative, the offset lies in the buffer, the bytes the directory
    promises are in the source, and [_eof] is only set when nothing is
    pending. *)
Record ok (f : PyFile) (r : t) : Prop := mk_ok {
  ok_source : f_closed f = false;
  ok_share : SharedFileRO._file (_fileobj r) = true;
  ok_open : closed r = false;
  ok_pos : 0 <= source_pos r;
  ok_offset : 0 <= _offset r <= len (_readbuffer r);
  ok_left : 0 <= _left r;
  ok_compress_left : 0 <= _compress_left r;
  ok_present : source_pos r + _compress_left r <= len (f_data f);
  ok_eof : _eof r = true -> _compress_left r <= 0 \/ _left r <= 0
}.

(** The bytes of the entry the reader was opened on, as the byte source
    holds them: [_orig_compress_size] bytes at [_orig_compress_start], cut
    to [_orig_file_size]. *)
Definition content (f : PyFile) (r : t) : bytes :=
  firstn (Z.to_nat (_orig_file_size r))
    (firstn (Z.to_nat (_orig_compress_size r))
       (skipn (Z.to_nat (_orig_compress_start r)) (f_data f))).

(** A reader in working order whose buffer and pending bytes are the bytes
    of its entry from the position the buffer starts at. *)
Definition sound (f : PyFile) (r : t) : Prop :=
  ok f r
  /\ 0 <= position r - _offset r
  /\ _readbuffer r ++ pending f r
     = skipn (Z.to_nat (position r - _offset r)) (content f r).

(** Where the data of an entry starts in the bytes [data] of the source:
    after the 30 bytes of the local header at [header_offset], the name
    read after them and the extra field the header announces. *)
Definition data_start (data : bytes) (zinfo : ZipInfoRO.t) : Z :=
  let off := ZipInfoRO.header_offset zinfo in
  let fheader := unpack_file_header (slice data off (off + _FILE_HEADER_SIZE)) in
  let fname := slice data (off + _FILE_HEADER_SIZE)
                 (off + _FILE_HEADER_SIZE + FH_FILENAME_LENGTH fheader) in
  off + _FILE_HEADER_SIZE + len fname + FH_EXTRA_FIELD_LENGTH fheader.

(** What no read changes of a reader: the entry it reads and its standing. *)
Definition same_entry (r r' : t) : Prop :=
  _orig_file_size r' = _orig_file_size r
  /\ _orig_compress_size r' = _orig_compress_size r
  /\ _orig_compress_start r' = _orig_compress_start r
  /\ _seekable r' = _seekable r
  /\ closed r' = closed r
  /\ _close_fileobj r' = _close_fileobj r
  /\ name r' = name r
  /\ _compress_type r' = _compress_type r.
End Stream.

(** ** The entry table of a directory *)

Module EntryTable.
Import Directory.
(** The name of the record at [total], decoded as the loop decodes it;
    [None] where the decoding raises. *)
Definition name (codec : Codec) (data : bytes) (total : Z) : option str :=
  let cdir := record data total in
  let raw := slice data (total + _CENTRAL_DIR_SIZE)
               (total + _CENTRAL_DIR_SIZE + CD_FILENAME_LENGTH cdir) in
  if has_flag (CD_FLAG_BITS cdir) _MASK_UTF_FILENAME then decode_utf8 codec raw
  else Some (decode_cp437 codec raw).

(** The [ZipInfoRO] the loop builds for the record at [total]. *)
Definition info (codec : Codec) (data : bytes) (concat total : Z) : option ZipInfoRO.t :=
  let cdir := record data total in
  option_map (fun n => ZipInfoRO.mk n (CD_FLAG_BITS cdir)
                         (CD_LOCAL_HEADER_OFFSET cdir + concat)
                         (CD_COMPRESSED_SIZE cdir) (CD_UNCOMPRESSED_SIZE cdir))
             (name codec data total).

(** [self._name_to_info[zinfo.filename] = zinfo] for the record at [total]. *)
Definition add (codec : Codec) (data : bytes) (concat : Z)
  (d : dict ZipInfoRO.t) (total : Z) : dict ZipInfoRO.t :=
  match info codec data concat total with
  | Some zinfo => dict_set d (ZipInfoRO.filename zinfo) zinfo
  | None => d
  end.

(** The entry table of a directory: its records added in the order of the
    walk. *)
Definition table (codec : Codec) (data : bytes) (size_cd concat : Z) : dict ZipInfoRO.t :=
  fold_left (add codec data concat) (offsets (ZipFileRO.cd_fuel data) data size_cd 0) [].

(** A record the loop accepts: whole, with the directory signature, a name
    that decodes and the stored method. *)
Definition accepted (codec : Codec) (data : bytes) (total : Z) : Prop :=
  total + _CENTRAL_DIR_SIZE <= len data
  /\ bytes_eqb (CD_SIGNATURE (record data total)) _CENTRAL_DIR_STRING = true
  /\ name codec data total <> None
  /\ CD_COMPRESS_TYPE (record data total) = ZIP_STORED.
End EntryTable.

(** The table properties that every method of the handle relies on: no
    name twice, every entry filed under its own name, no negative size. *)
Definition well_keyed (d : dict ZipInfoRO.t) : Prop :=
  NoDup (dict_keys d)
  /\ Forall (fun kv => ZipInfoRO.filename (snd kv) = fst kv
                       /\ 0 <= ZipInfoRO.compress_size (snd kv)
                       /\ 0 <= ZipInfoRO.file_size (snd kv)) d.

(** A record the search finds: where it lies and what its comment is. *)
Definition located (data : bytes) (e : EndRec) : Prop :=
  0 <= ECD_LOCATION e
  /\ ECD_LOCATION e + _END_ARCHIVE_SIZE <= len data
  /\ slice data (ECD_LOCATION e) (ECD_LOCATION e + 4) = _END_ARCHIVE_STRING
  /\ ECD_COMMENT_SIZE e = field data (ECD_LOCATION e + 20) 2
  /\ ECD_COMMENT e = slice data (ECD_LOCATION e + _END_ARCHIVE_SIZE)
                       (ECD_LOCATION e + _END_ARCHIVE_SIZE + ECD_COMMENT_SIZE e).

(** * Properties *)

(** ** The scenario of the sample archive *)

(** C1. On the archive holding ["a.txt"] ([b"hello"]) and ["dir/b.bin"]
    (5000 zero bytes), the handle is built, [namelist()] is
    [["a.txt", "dir/b.bin"]] and [open("a.txt").read()] is [b"hello"]; but
    [open("dir/b.bin").seek(4999)] raises [AttributeError] on the
    attribute [_compress_type], which [ZipFilePartRO.__init__] never
    assigns, so the [read(10)] that should return one byte is not reached. *)
Theorem C1_scenario_seek_raises :
  fst Scenario.opened = Ok tt
  /\ fst (ZipFileRO.namelist Scenario.world0) = Ok [Sample.name_a; Sample.name_b]
  /\ Scenario.with_part Scenario.world0 Sample.name_a (ZipFilePartRO.read None)
     = Ok Sample.hello
  /\ Scenario.with_part Scenario.world0 Sample.name_b (ZipFilePartRO.seek 4999 0)
     = Raise (AttributeError "_compress_type")
  /\ Scenario.with_part Scenario.world0 Sample.name_b
       (ZipFilePartRO.seek 4999 0 ;;; ZipFilePartRO.read (Some 10))
     = Raise (AttributeError "_compress_type").
Proof. repeat split; vm_compute; reflexivity. Qed.

(** ** Seeking in an entry reader *)

(** No reader built by [ZipFilePartRO.__init__] has the attribute
    [_compress_type]. *)
Lemma init_no_compress_type zinfo c s r s' :
  ZipFilePartRO.init zinfo c s = (Ok r, s') ->
  ZipFilePartRO._compress_type r = None.
Proof.
  unfold ZipFilePartRO.init, bind.
  destruct (SharedFileRO.seekable s) as [[sk | e |] s1]; try discriminate.
  destruct sk; [| discriminate].
  unfold SharedFileRO.tell, SharedFileRO.self, bind, ret.
  intros H; inversion H; reflexivity.
Qed.

(** A seek whose target lies past the declared size never clamps: with no
    [_compress_type] attribute it raises, whatever the buffer holds. *)
Lemma seek_past_end_raises f r offset :
  ZipFilePartRO.closed r = false ->
  ZipFilePartRO._seekable r = true ->
  ZipFilePartRO._compress_type r = None ->
  0 <= ZipFilePartRO._left r ->
  ZipFilePartRO._orig_file_size r < offset ->
  ZipFilePartRO.seek offset 0 (f, r) = (Raise (AttributeError "_compress_type"), (f, r)).
Proof.
  intros Hc Hs Ht Hl Ho.
  assert (E1 : (ZipFilePartRO._orig_file_size r <? offset) = true) by (apply Z.ltb_lt; lia).
  cbv [ZipFilePartRO.seek ZipFilePartRO.tell ZipFilePartRO.self bind ret raise snd fst].
  change (0 =? 0) with true.
  repeat (progress (rewrite ?Hc, ?Hs, ?E1; cbv beta iota zeta delta [negb])).
  match goal with |- context [(0 <=? ?x) && (?x <? ?y)] =>
      assert (E3 : (x <? y) = false) end.
  { apply Z.ltb_ge. unfold len.
    destruct (ZipFilePartRO._orig_file_size r <? 0) eqn:E2; lia. }
  rewrite E3, andb_false_r.
  cbv [ZipFilePartRO.get_compress_type ZipFilePartRO.self bind ret raise snd fst].
  rewrite Ht. reflexivity.
Qed.

(** C2. On the sample entry ["a.txt"] (5 bytes): a [read(10)] returns the
    5 declared bytes although the source holds more, and a read at the end
    of the stream returns [b""]; but [seek(10)], whose target exceeds the
    size, and [seek(-1)], whose target is negative, both raise
    [AttributeError] instead of clamping the position to 5 and to 0. *)
Theorem C2_seek_clamp_raises :
  Scenario.with_part Scenario.world0 Sample.name_a (ZipFilePartRO.read (Some 10))
  = Ok Sample.hello
  /\ Scenario.with_part Scenario.world0 Sample.name_a
       (ZipFilePartRO.read None ;;; ZipFilePartRO.read (Some 10)) = Ok []
  /\ Scenario.with_part Scenario.world0 Sample.name_a (ZipFilePartRO.seek 10 0)
     = Raise (AttributeError "_compress_type")
  /\ Scenario.with_part Scenario.world0 Sample.name_a (ZipFilePartRO.seek (-1) 0)
     = Raise (AttributeError "_compress_type").
Proof. repeat split; vm_compute; reflexivity. Qed.

(** C3. On the sample entries: a seek to the current position raises
    [AttributeError] on a fresh reader and on a reader at the end of its
    stream, and a backward seek out of the buffer raises it too instead of
    resetting the reader; a seek inside the buffered bytes moves the buffer
    offset and nothing else. *)
Theorem C3_seek_current_and_backward_raise :
  Scenario.with_part Scenario.world0 Sample.name_a (ZipFilePartRO.seek 0 0)
  = Raise (AttributeError "_compress_type")
  /\ Scenario.with_part Scenario.world0 Sample.name_a
       (ZipFilePartRO.read None ;;;
        here <- ZipFilePartRO.tell ;; ZipFilePartRO.seek here 0)
     = Raise (AttributeError "_compress_type")
  /\ Scenario.with_part Scenario.world0 Sample.name_a
       (ZipFilePartRO.read None ;;; ZipFilePartRO.seek 0 0)
     = Raise (AttributeError "_compress_type")
  /\ Scenario.with_part Scenario.world0 Sample.name_b
       (ZipFilePartRO.read (Some 4999) ;;; ZipFilePartRO.seek 0 0)
     = Raise (AttributeError "_compress_type")
  /\ Scenario.with_part Scenario.world0 Sample.name_b
       (ZipFilePartRO.read (Some 3) ;;; ZipFilePartRO.seek 0 0) = Ok 0.
Proof. repeat split; vm_compute; reflexivity. Qed.

(** ** Use of a closed archive handle *)

Lemma close_clears_file w : ZipFileRO._file (ZipFileRO.w_zip (snd (ZipFileRO.close w))) = false.
Proof.
  cbv [ZipFileRO.close ZipFileRO.self ZipFileRO.upd ZipFileRO._close ZipFileRO.on_file
       zoom modify bind ret raise snd fst].
  destruct (ZipFileRO._file (ZipFileRO.w_zip w)) eqn:E; cbn; [| exact E].
  destruct (0 <? ZipFileRO._file_ref_count (ZipFileRO.w_zip w)); cbn; [| reflexivity].
  destruct ((ZipFileRO._file_ref_count (ZipFileRO.w_zip w) - 1 =? 0)
            && negb (ZipFileRO._file_passed (ZipFileRO.w_zip w))); reflexivity.
Qed.

Lemma close_keeps_names w :
  ZipFileRO._name_to_info (ZipFileRO.w_zip (snd (ZipFileRO.close w)))
  = ZipFileRO._name_to_info (ZipFileRO.w_zip w).
Proof.
  cbv [ZipFileRO.close ZipFileRO.self ZipFileRO.upd ZipFileRO._close ZipFileRO.on_file
       zoom modify bind ret raise snd fst].
  destruct (ZipFileRO._file (ZipFileRO.w_zip w)); cbn; [| reflexivity].
  destruct (0 <? ZipFileRO._file_ref_count (ZipFileRO.w_zip w)); cbn; [| reflexivity].
  destruct ((ZipFileRO._file_ref_count (ZipFileRO.w_zip w) - 1 =? 0)
            && negb (ZipFileRO._file_passed (ZipFileRO.w_zip w))); reflexivity.
Qed.

(** C9, as the claim states it, fails: on the closed sample handle
    [namelist()], [infolist()] and [getinfo("a.txt")] return their usual
    results instead of the already-closed error. *)
Lemma C9_closed_namelist_answers :
  ZipFileRO._file (ZipFileRO.w_zip Scenario.closed_world) = false
  /\ fst (ZipFileRO.namelist Scenario.closed_world) = Ok [Sample.name_a; Sample.name_b]
  /\ fst (ZipFileRO.infolist Scenario.closed_world)
     = Ok [ZipInfoRO.mk Sample.name_a 0 0 5 5; ZipInfoRO.mk Sample.name_b 0 40 5000 5000]
  /\ fst (ZipFileRO.getinfo Sample.name_a Scenario.closed_world)
     = Ok (ZipInfoRO.mk Sample.name_a 0 0 5 5)
  /\ fst (ZipFileRO.namelist Scenario.closed_world)
     <> Raise (ValueError ZipFileRO.closed_zip_msg).
Proof. repeat split; try (vm_compute; reflexivity). vm_compute. discriminate. Qed.

(** C9, amended.  After [close()], [open()] raises the already-closed
    [ValueError] and leaves the handle as it is, whatever it is asked to
    open; [namelist()], [infolist()] and [getinfo()] make no such check and
    still answer from the entry table as it was before the close. *)
Theorem C9_closed_handle codec w name :
  let w' := snd (ZipFileRO.close w) in
  let table := ZipFileRO._name_to_info (ZipFileRO.w_zip w) in
  ZipFileRO.open codec name w' = (Raise (ValueError ZipFileRO.closed_zip_msg), w')
  /\ ZipFileRO.namelist w' = (Ok (dict_keys table), w')
  /\ ZipFileRO.infolist w' = (Ok (dict_values table), w')
  /\ forall n, ZipFileRO.getinfo n w'
               = (match dict_get table n with
                  | Some info => Ok info
                  | None => Raise KeyError
                  end, w').
Proof.
  intros w' table.
  pose proof (close_clears_file w) as Hf. pose proof (close_keeps_names w) as Hn.
  fold w' in Hf, Hn. fold table in Hn.
  repeat split.
  - cbv [ZipFileRO.open ZipFileRO.self bind raise]. rewrite Hf. reflexivity.
  - cbv [ZipFileRO.namelist ZipFileRO.self bind ret]. rewrite Hn. reflexivity.
  - cbv [ZipFileRO.infolist ZipFileRO.self bind ret]. rewrite Hn. reflexivity.
  - intros n. cbv [ZipFileRO.getinfo ZipFileRO.self bind ret raise]. rewrite Hn.
    destruct (dict_get table n); reflexivity.
Qed.

(** ** Frame lemmas *)

Section Keeps.
Context {S : Type} (R : S -> S -> Prop) `{!PreOrder R}.

Lemma keeps_ret A (a : A) : keeps R (ret a).
Proof. intros s r s' H; inversion H; reflexivity. Qed.

Lemma keeps_raise A e : keeps R (@raise S A e).
Proof. intros s r s' H; inversion H; reflexivity. Qed.

Lemma keeps_out_of_fuel A : keeps R (@out_of_fuel S A).
Proof. intros s r s' H; inversion H; reflexivity. Qed.

Lemma keeps_get : keeps R get.
Proof. intros s r s' H; inversion H; reflexivity. Qed.

Lemma keeps_bind A B (m : M S A) (k : A -> M S B) :
  keeps R m -> (forall a, keeps R (k a)) -> keeps R (bind m k).
Proof.
  intros Hm Hk s r s' H. unfold bind in H.
  destruct (m s) as [[a | e |] s1] eqn:E; apply Hm in E.
  - apply Hk in H. etransitivity; eassumption.
  - inversion H; subst; assumption.
  - inversion H; subst; assumption.
Qed.

Lemma keeps_except_OSError A (m h : M S A) :
  keeps R m -> keeps R h -> keeps R (except_OSError m h).
Proof.
  intros Hm Hh s r s' H. unfold except_OSError in H.
  destruct (m s) as [[a | e |] s1] eqn:E; apply Hm in E;
    try (inversion H; subst; assumption).
  destruct e; try (inversion H; subst; assumption).
  apply Hh in H. etransitivity; eassumption.
Qed.

Lemma keeps_try_except A (m : M S A) h :
  keeps R m -> (forall e, keeps R (h e)) -> keeps R (try_except m h).
Proof.
  intros Hm Hh s r s' H. unfold try_except in H.
  destruct (m s) as [[a | e |] s1] eqn:E; apply Hm in E;
    try (inversion H; subst; assumption).
  apply Hh in H. etransitivity; eassumption.
Qed.
End Keeps.

#[global] Instance file_frame_preorder : PreOrder file_frame.
Proof.
  split.
  - intros f; repeat split.
  - intros f g h (A1 & A2 & A3 & A4 & A5) (B1 & B2 & B3 & B4 & B5).
    repeat split; congruence.
Qed.

#[global] Instance shared_frame_preorder : PreOrder shared_frame.
Proof.
  split.
  - intros s; split; reflexivity.
  - intros s1 s2 s3 [A1 A2] [B1 B2]. split; [etransitivity; eassumption | congruence].
Qed.

(** Structural steps of a frame proof. *)
Ltac keeps_step :=
  cbv beta;
  lazymatch goal with
  | |- keeps _ (bind _ _) => apply keeps_bind; [ typeclasses eauto | | intros ? ]
  | |- keeps _ (ret _) => apply keeps_ret; typeclasses eauto
  | |- keeps _ (raise _) => apply keeps_raise; typeclasses eauto
  | |- keeps _ out_of_fuel => apply keeps_out_of_fuel; typeclasses eauto
  | |- keeps _ (except_OSError _ _) => apply keeps_except_OSError; [ typeclasses eauto | | ]
  | |- keeps _ (if ?c then _ else _) => destruct c
  | |- keeps _ (match ?x with _ => _ end) => destruct x
  | |- keeps _ (let _ := _ in _) => cbv zeta
  end.

Lemma f_tell_frame : keeps file_frame f_tell.
Proof.
  intros f r f' H. unfold f_tell in H.
  destruct (f_closed f); inversion H; reflexivity.
Qed.

Lemma set_pos_frame p f : file_frame f (set_pos p f).
Proof. repeat split. Qed.

Lemma f_seek_frame o w : keeps file_frame (f_seek o w).
Proof.
  intros f r f' H. unfold f_seek in H.
  destruct (f_closed f); [inversion H; reflexivity |].
  match type of H with (if ?c then _ else _) = _ => destruct c end.
  - destruct (f_kind f); [inversion H; reflexivity |].
    destruct (w =? 0); inversion H; subst; [reflexivity | apply set_pos_frame].
  - inversion H; subst; apply set_pos_frame.
Qed.

Lemma f_read_frame n : keeps file_frame (f_read n).
Proof.
  intros f r f' H. unfold f_read in H.
  match type of H with (if ?c then _ else _) = _ => destruct c end;
    [inversion H; reflexivity |].
  destruct (f_closed f); inversion H; subst; [reflexivity | apply set_pos_frame].
Qed.

Lemma f_is_seekable_frame : keeps file_frame f_is_seekable.
Proof.
  intros f r f' H. unfold f_is_seekable in H.
  destruct (f_closed f); inversion H; reflexivity.
Qed.

Create HintDb frame.
#[global] Hint Resolve f_tell_frame f_seek_frame f_read_frame f_is_seekable_frame : frame.

Lemma _end_archive_update_zip64_frame o e : keeps file_frame (_end_archive_update_zip64 o e).
Proof.
  unfold _end_archive_update_zip64.
  repeat (keeps_step; auto with frame).
Qed.
#[global] Hint Resolve _end_archive_update_zip64_frame : frame.

Lemma _extract_end_archive_scan_frame sz : keeps file_frame (_extract_end_archive_scan sz).
Proof.
  unfold _extract_end_archive_scan.
  repeat (keeps_step; auto with frame).
Qed.
#[global] Hint Resolve _extract_end_archive_scan_frame : frame.

Lemma _extract_end_archive_frame : keeps file_frame _extract_end_archive.
Proof.
  unfold _extract_end_archive.
  repeat (keeps_step; auto with frame).
Qed.
#[global] Hint Resolve _extract_end_archive_frame : frame.

Lemma keeps_zoom {S T A} (R : S -> S -> Prop) (Q : T -> T -> Prop)
  (proj : S -> T) (upd : T -> S -> S) (m : M T A) :
  (forall s t', Q (proj s) t' -> R s (upd t' s)) ->
  keeps Q m -> keeps R (zoom proj upd m).
Proof.
  intros Hup Hm s r s' H. unfold zoom in H.
  destruct (m (proj s)) as [r1 t'] eqn:E. inversion H; subst.
  apply Hup. eapply Hm; eassumption.
Qed.

Lemma keeps_modify {S} (R : S -> S -> Prop) (g : S -> S) :
  (forall s, R s (g s)) -> keeps R (modify g).
Proof. intros Hg s r s' H. inversion H; subst. apply Hg. Qed.

Lemma shared_on_file A (m : M PyFile A) :
  keeps file_frame m -> keeps shared_frame (SharedFileRO.on_file m).
Proof.
  intros Hm. apply keeps_zoom with (Q := file_frame); [| exact Hm].
  intros s t' Ht. split; [exact Ht | reflexivity].
Qed.

Lemma shared_self : keeps shared_frame SharedFileRO.self.
Proof. intros s r s' H; inversion H; reflexivity. Qed.

Lemma shared_set_pos p : keeps shared_frame (SharedFileRO.set_pos p).
Proof. apply keeps_modify. intros s. split; reflexivity. Qed.

#[global] Hint Resolve shared_on_file shared_self shared_set_pos : frame.

Lemma shared_the_file a : keeps shared_frame (SharedFileRO.the_file a).
Proof. unfold SharedFileRO.the_file. repeat (keeps_step; auto with frame). Qed.
#[global] Hint Resolve shared_the_file : frame.

Lemma shared_tell : keeps shared_frame SharedFileRO.tell.
Proof. unfold SharedFileRO.tell. repeat (keeps_step; auto with frame). Qed.

Lemma shared_seek o w : keeps shared_frame (SharedFileRO.seek o w).
Proof. unfold SharedFileRO.seek. repeat (keeps_step; auto with frame). Qed.

Lemma shared_read n : keeps shared_frame (SharedFileRO.read n).
Proof. unfold SharedFileRO.read. repeat (keeps_step; auto with frame). Qed.

Lemma shared_seekable : keeps shared_frame SharedFileRO.seekable.
Proof. unfold SharedFileRO.seekable. repeat (keeps_step; auto with frame). Qed.

#[global] Hint Resolve shared_tell shared_seek shared_read shared_seekable : frame.

Lemma decode_name_keeps {S} (R : S -> S -> Prop) `{!PreOrder R} codec flags raw :
  keeps R (ZipFileRO.decode_name codec flags raw).
Proof. unfold ZipFileRO.decode_name. repeat keeps_step. Qed.

Lemma part_init_frame zinfo c : keeps shared_frame (ZipFilePartRO.init zinfo c).
Proof. unfold ZipFilePartRO.init. repeat (keeps_step; auto with frame). Qed.
#[global] Hint Resolve part_init_frame : frame.

Lemma open_body_frame codec zinfo : keeps shared_frame (ZipFileRO.open_body codec zinfo).
Proof.
  unfold ZipFileRO.open_body.
  repeat (keeps_step; auto using decode_name_keeps with frame typeclass_instances).
Qed.

(** ** Unwinding a failed [open] *)

Lemma set_ref_count_back z :
  ZipFileRO.set_ref_count (ZipFileRO._file_ref_count z + 1 - 1) (ZipFileRO.set_ref_count (ZipFileRO._file_ref_count z + 1) z) = z.
Proof.
  destruct z; unfold ZipFileRO.set_ref_count; cbn. f_equal. lia.
Qed.

Lemma failed_open_restores codec name w e w' :
  0 < ZipFileRO._file_ref_count (ZipFileRO.w_zip w) ->
  ZipFileRO.open codec name w = (Raise e, w') ->
  ZipFileRO.w_zip w' = ZipFileRO.w_zip w /\ file_frame (ZipFileRO.w_file w) (ZipFileRO.w_file w').
Proof.
  intros Hpos H.
  unfold ZipFileRO.open in H.
  cbv [ZipFileRO.self bind] in H.
  destruct (ZipFileRO._file (ZipFileRO.w_zip w)) eqn:Ef; cbn [negb] in H;
    [| inversion H; subst; split; reflexivity].
  assert (Hz : exists zinfo,
    run_local (SharedFileRO.mk true (ZipInfoRO.header_offset zinfo))
      (try_except
         (zoom (fun s => (ZipFileRO.w_file (fst s), snd s))
               (fun fs s => (ZipFileRO.mkWorld (fst fs) (ZipFileRO.w_zip (fst s)), snd fs))
               (ZipFileRO.open_body codec zinfo))
         (fun e => SharedFileRO.close ZipFileRO._close ;;; raise e))
      (ZipFileRO.mkWorld (ZipFileRO.w_file w) (ZipFileRO.set_ref_count (ZipFileRO._file_ref_count (ZipFileRO.w_zip w) + 1) (ZipFileRO.w_zip w)))
    = (Raise e, w') \/ w' = w).
  { destruct name as [n | zi].
    - cbv [ZipFileRO.getinfo ZipFileRO.self bind ret raise] in H.
      destruct (dict_get (ZipFileRO._name_to_info (ZipFileRO.w_zip w)) n) as [zi |].
      + exists zi. left. exact H.
      + exists (ZipInfoRO.mk [] 0 0 0 0). right. inversion H; reflexivity.
    - exists zi. left. exact H. }
  destruct Hz as [zinfo [Hrun | ->]]; [| split; reflexivity].
  clear H.
  unfold run_local, try_except, zoom in Hrun. cbn [fst snd ZipFileRO.w_file ZipFileRO.w_zip] in Hrun.
  destruct (ZipFileRO.open_body codec zinfo
              (ZipFileRO.w_file w, SharedFileRO.mk true (ZipInfoRO.header_offset zinfo)))
    as [r [f1 zef1]] eqn:Eb.
  apply open_body_frame in Eb. destruct Eb as [Hf Hzef]. cbn [fst snd] in Hf, Hzef.
  destruct r as [part | e1 |].
  - inversion Hrun.
  - unfold SharedFileRO.close, bind, modify, zoom, raise, ret in Hrun.
    cbn [fst snd] in Hrun.
    cbn [SharedFileRO._file] in Hzef. rewrite Hzef in Hrun.
    unfold ZipFileRO._close, ZipFileRO.self, ZipFileRO.upd, ZipFileRO.on_file, bind, modify, zoom, raise, ret in Hrun.
    cbn [fst snd ZipFileRO.w_zip ZipFileRO.w_file ZipFileRO._file_ref_count ZipFileRO.set_ref_count ZipFileRO._file_passed] in Hrun.
    assert (E1 : (0 <? ZipFileRO._file_ref_count (ZipFileRO.w_zip w) + 1) = true) by (apply Z.ltb_lt; lia).
    assert (E2 : (ZipFileRO._file_ref_count (ZipFileRO.w_zip w) + 1 - 1 =? 0) = false) by (apply Z.eqb_neq; lia).
    rewrite E1, E2 in Hrun. cbn in Hrun.
    inversion Hrun; subst. cbn [ZipFileRO.w_zip ZipFileRO.w_file]. split; [| exact Hf].
    apply set_ref_count_back.
  - inversion Hrun.
Qed.



(** Each failure of [open] named by C5 occurs on the sample handle, for
    entry metadata passed as [ZipInfoRO] objects: a header cut short by the
    end of the source, a header that does not start with the signature, a
    name other than the header's, the three flags, and a source that does
    not report itself seekable. *)
Example open_failures_on_sample :
  let open_info zinfo := fst (ZipFileRO.open PyCodec.python (inr zinfo) Scenario.world0) in
  open_info (ZipInfoRO.mk Sample.name_a 0 5200 5 5)
  = Raise (BadZipFile ZipFileRO.truncated_fh_msg)
  /\ open_info (ZipInfoRO.mk Sample.name_a 0 1 5 5)
     = Raise (BadZipFile ZipFileRO.bad_fh_magic_msg)
  /\ open_info (ZipInfoRO.mk Sample.name_b 0 0 5 5)
     = Raise (BadZipFile ZipFileRO.name_differs_msg)
  /\ open_info (ZipInfoRO.mk Sample.name_a 32 0 5 5)
     = Raise (NotImplementedError "compressed patched data (flag bit 5)")
  /\ open_info (ZipInfoRO.mk Sample.name_a 64 0 5 5)
     = Raise (NotImplementedError "strong encryption (flag bit 6)")
  /\ open_info (ZipInfoRO.mk Sample.name_a 1 0 5 5)
     = Raise (NotImplementedError EmptyString)
  /\ fst (ZipFileRO.open PyCodec.python (inl Sample.name_a)
            (ZipFileRO.mkWorld (mkFile Sample.archive 0 RawFile false false 0)
                               (ZipFileRO.w_zip Scenario.world0)))
     = Raise (NotImplementedError "not expecting an unseekable file").
Proof. repeat split; vm_compute; reflexivity. Qed.

(** ** Termination of the loop-free methods *)

Lemma total_ret {S A} (a : A) : total (@ret S A a).
Proof. intros s; discriminate. Qed.

Lemma total_raise {S A} e : total (@raise S A e).
Proof. intros s; discriminate. Qed.

Lemma total_bind {S A B} (m : M S A) (k : A -> M S B) :
  total m -> (forall a, total (k a)) -> total (bind m k).
Proof.
  intros Hm Hk s. unfold bind. specialize (Hm s).
  destruct (m s) as [[a | e |] s1]; cbn in *; try discriminate.
  - apply Hk.
  - congruence.
Qed.

Lemma total_zoom {S T A} (proj : S -> T) upd (m : M T A) :
  total m -> total (zoom proj upd m).
Proof.
  intros Hm s. unfold zoom. specialize (Hm (proj s)).
  destruct (m (proj s)) as [r t']; exact Hm.
Qed.

Lemma total_modify {S} (g : S -> S) : total (modify g).
Proof. intros s; discriminate. Qed.

Lemma total_except_OSError {S A} (m h : M S A) :
  total m -> total h -> total (except_OSError m h).
Proof.
  intros Hm Hh s. unfold except_OSError. specialize (Hm s).
  destruct (m s) as [[a | e |] s1]; cbn in *; try discriminate; try congruence.
  all: destruct e; try discriminate; apply Hh.
Qed.

Lemma total_try_except {S A} (m : M S A) h :
  total m -> (forall e, total (h e)) -> total (try_except m h).
Proof.
  intros Hm Hh s. unfold try_except. specialize (Hm s).
  destruct (m s) as [[a | e |] s1]; cbn in *; try discriminate; try congruence.
  all: apply Hh.
Qed.

Lemma total_run_local {S L A} (l0 : L) (m : M (S * L) A) :
  total m -> total (run_local l0 m).
Proof.
  intros Hm s. unfold run_local. specialize (Hm (s, l0)).
  destruct (m (s, l0)) as [r sl]; exact Hm.
Qed.

Lemma total_f_tell : total f_tell.
Proof. intros f; unfold f_tell; destruct (f_closed f); discriminate. Qed.

Lemma total_f_seek o w : total (f_seek o w).
Proof.
  intros f; unfold f_seek. destruct (f_closed f); [discriminate |].
  match goal with |- context [if ?c then _ else _] => destruct c end; [| discriminate].
  destruct (f_kind f); [discriminate |]. destruct (w =? 0); discriminate.
Qed.

Lemma total_f_read n : total (f_read n).
Proof.
  intros f; unfold f_read.
  match goal with |- context [if ?c then _ else _] => destruct c end; [discriminate |].
  destruct (f_closed f); discriminate.
Qed.

Lemma total_f_is_seekable : total f_is_seekable.
Proof. intros f; unfold f_is_seekable; destruct (f_closed f); discriminate. Qed.

Lemma total_f_close : total f_close.
Proof. intros f; discriminate. Qed.

Create HintDb total.
#[global] Hint Resolve total_f_tell total_f_seek total_f_read total_f_is_seekable
  total_f_close : total.

Ltac total_step :=
  cbv beta;
  lazymatch goal with
  | |- total (bind _ _) => apply total_bind; [ | intros ? ]
  | |- total (ret _) => apply total_ret
  | |- total (raise _) => apply total_raise
  | |- total (modify _) => apply total_modify
  | |- total (zoom _ _ _) => apply total_zoom
  | |- total (except_OSError _ _) => apply total_except_OSError
  | |- total (try_except _ _) => apply total_try_except; [ | intros ? ]
  | |- total (run_local _ _) => apply total_run_local
  | |- total (if ?c then _ else _) => destruct c
  | |- total (match ?x with _ => _ end) => destruct x
  | |- total (let _ := _ in _) => cbv zeta
  end.

Ltac total_tac := repeat (total_step; auto with total).

Lemma total_shared_self : total SharedFileRO.self.
Proof. intros s; discriminate. Qed.
#[global] Hint Resolve total_shared_self : total.

Lemma total_shared_read n : total (SharedFileRO.read n).
Proof.
  unfold SharedFileRO.read, SharedFileRO.the_file, SharedFileRO.on_file, SharedFileRO.set_pos.
  total_tac.
Qed.

Lemma total_shared_seek o w : total (SharedFileRO.seek o w).
Proof.
  unfold SharedFileRO.seek, SharedFileRO.the_file, SharedFileRO.on_file, SharedFileRO.set_pos.
  total_tac.
Qed.

Lemma total_shared_seekable : total SharedFileRO.seekable.
Proof.
  unfold SharedFileRO.seekable, SharedFileRO.the_file, SharedFileRO.on_file.
  total_tac.
Qed.

Lemma total_shared_tell : total SharedFileRO.tell.
Proof. unfold SharedFileRO.tell. total_tac. Qed.

#[global] Hint Resolve total_shared_read total_shared_seek total_shared_seekable
  total_shared_tell : total.

Lemma total_zip_self : total ZipFileRO.self.
Proof. intros s; discriminate. Qed.
#[global] Hint Resolve total_zip_self : total.

Lemma total__close : total ZipFileRO._close.
Proof. unfold ZipFileRO._close, ZipFileRO.upd, ZipFileRO.on_file. total_tac. Qed.
#[global] Hint Resolve total__close : total.

Lemma total_open_body codec zinfo : total (ZipFileRO.open_body codec zinfo).
Proof.
  unfold ZipFileRO.open_body, ZipFileRO.decode_name, ZipFilePartRO.init.
  total_tac.
Qed.
#[global] Hint Resolve total_open_body : total.

Lemma total_open codec name : total (ZipFileRO.open codec name).
Proof.
  unfold ZipFileRO.open, ZipFileRO.getinfo, ZipFileRO.upd, SharedFileRO.close.
  total_tac. intros s; discriminate.
Qed.

(** ** What a successful [open] returns *)

Lemma bind_ok_inv {S A B} (m : M S A) (k : A -> M S B) s r s' :
  bind m k s = (Ok r, s') ->
  exists a s1, m s = (Ok a, s1) /\ k a s1 = (Ok r, s').
Proof.
  unfold bind. destruct (m s) as [[a | e |] s1]; try discriminate.
  intros H. exists a, s1. split; [reflexivity | exact H].
Qed.

Lemma part_init_ok zinfo c s r s' :
  ZipFilePartRO.init zinfo c s = (Ok r, s') ->
  ZipFilePartRO._fileobj r = snd s' /\ ZipFilePartRO._close_fileobj r = c.
Proof.
  unfold ZipFilePartRO.init. intros H.
  apply bind_ok_inv in H. destruct H as (sk & s1 & _ & H).
  destruct sk; [| discriminate].
  cbv [SharedFileRO.tell SharedFileRO.self bind ret] in H.
  inversion H; subst. split; reflexivity.
Qed.

(** Steps of an inversion of a successful run: peel one [bind], decide one
    test, discard a [raise]. *)
Ltac ok_step H :=
  lazymatch type of H with
  | bind _ _ _ = (Ok _, _) =>
      let a := fresh "a" in let s1 := fresh "s" in let Hm := fresh "Hm" in
      apply bind_ok_inv in H; destruct H as (a & s1 & Hm & H); cbv beta in H
  | (if ?c then _ else _) _ = (Ok _, _) => destruct c eqn:?; try discriminate H
  | raise _ _ = (Ok _, _) => discriminate H
  end.

Lemma open_body_ok codec zinfo s r s' :
  ZipFileRO.open_body codec zinfo s = (Ok r, s') ->
  ZipFilePartRO._fileobj r = snd s' /\ ZipFilePartRO._close_fileobj r = true.
Proof.
  unfold ZipFileRO.open_body. intros H.
  repeat ok_step H.
  all: eapply part_init_ok; exact H.
Qed.

Lemma open_ok codec name w p w' :
  ZipFileRO.open codec name w = (Ok p, w') ->
  ZipFileRO._file (ZipFileRO.w_zip w) = true
  /\ ZipFileRO.w_zip w'
     = ZipFileRO.set_ref_count (ZipFileRO._file_ref_count (ZipFileRO.w_zip w) + 1)
                               (ZipFileRO.w_zip w)
  /\ file_frame (ZipFileRO.w_file w) (ZipFileRO.w_file w')
  /\ Session.live p = true
  /\ ZipFilePartRO._close_fileobj p = true.
Proof.
  intros H. unfold ZipFileRO.open in H.
  apply bind_ok_inv in H. destruct H as (z & w1 & Hz & H).
  cbv [ZipFileRO.self] in Hz. inversion Hz; subst z w1. clear Hz.
  destruct (ZipFileRO._file (ZipFileRO.w_zip w)) eqn:Ef; [| discriminate H].
  cbn [negb] in H. split; [reflexivity |].
  apply bind_ok_inv in H. destruct H as (zinfo & w1 & Hz & H).
  assert (w1 = w) as ->.
  { destruct name; cbv [ZipFileRO.getinfo ZipFileRO.self bind ret raise] in Hz.
    - destruct (dict_get _ _); inversion Hz; reflexivity.
    - inversion Hz; reflexivity. }
  clear Hz.
  apply bind_ok_inv in H. destruct H as (u & w1 & Hu & H).
  cbv [ZipFileRO.upd modify] in Hu. inversion Hu; subst u w1. clear Hu.
  unfold run_local, try_except, zoom in H. cbn [fst snd ZipFileRO.w_file ZipFileRO.w_zip] in H.
  destruct (ZipFileRO.open_body codec zinfo
              (ZipFileRO.w_file w, SharedFileRO.mk true (ZipInfoRO.header_offset zinfo)))
    as [r [f1 zef1]] eqn:Eb.
  pose proof Eb as Hfr. apply open_body_frame in Hfr. destruct Hfr as [Hf Hzef].
  cbn [fst snd] in H. cbn [fst snd SharedFileRO._file] in Hf, Hzef.
  destruct r as [part | e1 |].
  - apply open_body_ok in Eb. destruct Eb as [Hfo Hc]. cbn [snd] in Hfo.
    rewrite <- Hfo in Hzef. clear Hfo.
    inversion H; subst. cbn [ZipFileRO.w_zip ZipFileRO.w_file].
    unfold Session.live.
    repeat split; try apply Hf; assumption.
  - exfalso. revert H.
    unfold SharedFileRO.close, bind, modify, zoom, raise, ret. cbn [fst snd].
    rewrite Hzef.
    match goal with |- context [ZipFileRO._close ?x] => destruct (ZipFileRO._close x) as [[|?|] ?] end;
      discriminate.
  - discriminate H.
Qed.

(** ** A reader's calls leave the holders alone *)

#[global] Instance part_frame_preorder : PreOrder part_frame.
Proof.
  split.
  - intros s; repeat split; reflexivity.
  - intros s1 s2 s3 (A1 & A2 & A3) (B1 & B2 & B3).
    split; [etransitivity; eassumption | split; congruence].
Qed.

Lemma part_upd g :
  (forall r, ZipFilePartRO._fileobj (g r) = ZipFilePartRO._fileobj r
             /\ ZipFilePartRO._close_fileobj (g r) = ZipFilePartRO._close_fileobj r) ->
  keeps part_frame (ZipFilePartRO.upd g).
Proof.
  intros Hg. apply keeps_modify. intros s. destruct (Hg (snd s)) as [H1 H2].
  repeat split; cbn [fst snd]; try assumption. unfold Session.live. congruence.
Qed.

Lemma part_on_fileobj A (m : M SharedFileRO.St A) :
  keeps shared_frame m -> keeps part_frame (ZipFilePartRO.on_fileobj m).
Proof.
  intros Hm. apply keeps_zoom with (Q := shared_frame); [| exact Hm].
  intros s t' [Hf Hl]. cbn [fst snd] in *.
  repeat split; cbn [fst snd]; try apply Hf.
  unfold Session.live. destruct (snd s); cbn in *. exact Hl.
Qed.

Lemma part_self : keeps part_frame ZipFilePartRO.self.
Proof. intros s r s' H; inversion H; reflexivity. Qed.

#[global] Hint Resolve part_on_fileobj part_self : frame.
#[global] Hint Extern 1 (keeps part_frame (ZipFilePartRO.upd _)) =>
  apply part_upd; intros []; split; reflexivity : frame.

Lemma part_read2 n : keeps part_frame (ZipFilePartRO._read2 n).
Proof. unfold ZipFilePartRO._read2. repeat (keeps_step; auto with frame). Qed.
#[global] Hint Resolve part_read2 : frame.

Lemma part_read1 n : keeps part_frame (ZipFilePartRO._read1 n).
Proof. unfold ZipFilePartRO._read1. repeat (keeps_step; auto with frame). Qed.
#[global] Hint Resolve part_read1 : frame.

Lemma part_read_all_loop fuel : forall buf, keeps part_frame (ZipFilePartRO.read_all_loop fuel buf).
Proof.
  induction fuel as [| k IH]; intros buf; cbn [ZipFilePartRO.read_all_loop];
    repeat (keeps_step; auto with frame).
Qed.

Lemma part_read_loop fuel : forall n buf, keeps part_frame (ZipFilePartRO.read_loop fuel n buf).
Proof.
  induction fuel as [| k IH]; intros n buf; cbn [ZipFilePartRO.read_loop];
    repeat (keeps_step; auto with frame).
Qed.
#[global] Hint Resolve part_read_all_loop part_read_loop : frame.

Lemma part_read n : keeps part_frame (ZipFilePartRO.read n).
Proof. unfold ZipFilePartRO.read. repeat (keeps_step; auto with frame). Qed.
#[global] Hint Resolve part_read : frame.

Lemma part_tell : keeps part_frame ZipFilePartRO.tell.
Proof. unfold ZipFilePartRO.tell. repeat (keeps_step; auto with frame). Qed.
#[global] Hint Resolve part_tell : frame.

Lemma part_seek_loop fuel : forall n, keeps part_frame (ZipFilePartRO.seek_loop fuel n).
Proof.
  induction fuel as [| k IH]; intros n; cbn [ZipFilePartRO.seek_loop];
    repeat (keeps_step; auto with frame).
Qed.
#[global] Hint Resolve part_seek_loop : frame.

Lemma part_seek o w : keeps part_frame (ZipFilePartRO.seek o w).
Proof.
  unfold ZipFilePartRO.seek, ZipFilePartRO.get_compress_type.
  repeat (keeps_step; auto with frame).
Qed.
#[global] Hint Resolve part_seek : frame.

(** ** The reference count along a session *)

Section SessionFacts.
Import Session.

Lemma len_nonneg {A} (l : list A) : 0 <= len l.
Proof. unfold len. lia. Qed.

Lemma len_app {A} (l1 l2 : list A) : len (l1 ++ l2) = len l1 + len l2.
Proof. unfold len. rewrite length_app. lia. Qed.

Lemma live_count_app l p :
  len (filter live (l ++ [p])) = len (filter live l) + (if live p then 1 else 0).
Proof.
  rewrite filter_app, len_app. cbn [filter]. destruct (live p); reflexivity.
Qed.

Lemma live_count_set_nth l : forall i p p',
  nth_error l i = Some p ->
  len (filter live (set_nth i p' l))
  = len (filter live l) - (if live p then 1 else 0) + (if live p' then 1 else 0).
Proof.
  induction l as [| x l IH]; intros [| i] p p' H; cbn in H; try discriminate.
  - inversion H; subst. cbn [set_nth filter].
    destruct (live p), (live p'); unfold len; cbn [length]; lia.
  - cbn [set_nth filter]. specialize (IH i p p' H).
    destruct (live x); unfold len in *; cbn [length]; lia.
Qed.

Lemma Forall_set_nth {A} (P : A -> Prop) l : forall i x,
  Forall P l -> P x -> Forall P (set_nth i x l).
Proof.
  induction l as [| y l IH]; intros [| i] x Hl Hx; cbn; auto;
    inversion Hl; subst; constructor; auto.
Qed.

Lemma holders_ge_live s i p :
  nth_error (parts s) i = Some p -> live p = true -> 1 <= len (filter live (parts s)).
Proof.
  intros Hn Hl.
  assert (In p (filter live (parts s))) as Hin.
  { apply filter_In. split; [eapply nth_error_In; eassumption | assumption]. }
  destruct (filter live (parts s)); [inversion Hin |]. unfold len; cbn [length]; lia.
Qed.

(** [_close] with a positive count: one reference less, and the physical
    close when it was the last and the source is owned. *)
Lemma _close_spec w :
  0 < ZipFileRO._file_ref_count (ZipFileRO.w_zip w) ->
  let n := ZipFileRO._file_ref_count (ZipFileRO.w_zip w) - 1 in
  let last := (n =? 0) && negb (ZipFileRO._file_passed (ZipFileRO.w_zip w)) in
  ZipFileRO._close w
  = (Ok tt, ZipFileRO.mkWorld
              (if last then snd (f_close (ZipFileRO.w_file w)) else ZipFileRO.w_file w)
              (ZipFileRO.set_ref_count n (ZipFileRO.w_zip w))).
Proof.
  intros Hpos n last.
  unfold ZipFileRO._close, ZipFileRO.self, ZipFileRO.upd, ZipFileRO.on_file,
    bind, modify, zoom, ret, raise.
  cbn [ZipFileRO.w_zip ZipFileRO.w_file].
  assert (E : (0 <? ZipFileRO._file_ref_count (ZipFileRO.w_zip w)) = true)
    by (apply Z.ltb_lt; lia).
  rewrite E. cbn [negb ZipFileRO.set_ref_count ZipFileRO._file_ref_count ZipFileRO._file_passed].
  fold n. fold last. destruct last; reflexivity.
Qed.

Lemma close_part_spec w p :
  ZipFilePartRO._close_fileobj p = true ->
  (live p = true -> 0 < ZipFileRO._file_ref_count (ZipFileRO.w_zip w)) ->
  exists p',
    ZipFileRO.close_part (w, p)
    = (Ok tt, (if live p then snd (ZipFileRO._close w) else w, p'))
    /\ live p' = false /\ ZipFilePartRO._close_fileobj p' = true.
Proof.
  intros Hc Hpos.
  unfold ZipFileRO.close_part, ZipFilePartRO.close, try_finally, bind, zoom, modify.
  cbn [fst snd]. rewrite Hc.
  unfold SharedFileRO.close, bind, modify, zoom, ret. cbn [fst snd].
  unfold live in *. destruct (SharedFileRO._file (ZipFilePartRO._fileobj p)) eqn:El.
  - cbv beta. cbn [fst snd]. rewrite !(@_close_spec w (Hpos eq_refl)). cbn [fst snd].
    eexists. split; [reflexivity |]. split; [reflexivity | exact Hc].
  - eexists. split; [reflexivity |]. cbn. split; [exact El | exact Hc].
Qed.

Lemma zip_close_spec w :
  (ZipFileRO._file (ZipFileRO.w_zip w) = true ->
   0 < ZipFileRO._file_ref_count (ZipFileRO.w_zip w)) ->
  ZipFileRO.close w
  = (Ok tt, if ZipFileRO._file (ZipFileRO.w_zip w)
            then snd (ZipFileRO._close
                        (ZipFileRO.mkWorld (ZipFileRO.w_file w)
                                           (ZipFileRO.set_file false (ZipFileRO.w_zip w))))
            else w).
Proof.
  intros Hpos. unfold ZipFileRO.close, ZipFileRO.self, ZipFileRO.upd, bind, modify, ret.
  cbn [ZipFileRO.w_zip]. destruct (ZipFileRO._file (ZipFileRO.w_zip w)) eqn:Ef; cbn [negb].
  - rewrite _close_spec; [reflexivity |]. cbn. apply Hpos. reflexivity.
  - reflexivity.
Qed.

Lemma holders_pos_of_file s :
  ZipFileRO._file (ZipFileRO.w_zip (world s)) = true -> 0 < holders s.
Proof.
  intros H. unfold holders. rewrite H. pose proof (len_nonneg (filter live (parts s))). lia.
Qed.

Lemma close_calls_f_close f : f_close_calls (snd (f_close f)) = S (f_close_calls f).
Proof. reflexivity. Qed.

Lemma step_on_source fp c0 s i A (m : M ZipFilePartRO.St A) :
  keeps part_frame m ->
  invariant fp c0 s ->
  invariant fp c0 (on_part i (on_source m) s)
  /\ ZipFileRO._file_ref_count (ZipFileRO.w_zip (world (on_part i (on_source m) s)))
     = ZipFileRO._file_ref_count (ZipFileRO.w_zip (world s)).
Proof.
  intros Hm (Hc & Hp & Hall & Hcalls).
  unfold on_part. destruct (nth_error (parts s) i) as [p |] eqn:En;
    [| split; [repeat split; assumption | reflexivity]].
  unfold on_source, zoom. cbn [fst snd].
  destruct (m (ZipFileRO.w_file (world s), p)) as [r [f' p']] eqn:Em.
  apply Hm in Em. destruct Em as (Hf & Hl & Hcf). cbn [fst snd] in *.
  assert (Hh : holders (mk (ZipFileRO.mkWorld f' (ZipFileRO.w_zip (world s)))
                           (set_nth i p' (parts s))) = holders s).
  { unfold holders. cbn [world parts ZipFileRO.w_zip].
    rewrite (@live_count_set_nth (parts s) i p p' En), Hl. lia. }
  split; [| reflexivity].
  unfold invariant. rewrite Hh. cbn [world parts ZipFileRO.w_zip ZipFileRO.w_file].
  repeat split; try assumption.
  - apply Forall_set_nth; [assumption |]. rewrite Hcf.
    rewrite Forall_forall in Hall. apply Hall. eapply nth_error_In; eassumption.
  - destruct Hf as (_ & _ & _ & _ & Hcc). rewrite Hcc. exact Hcalls.
Qed.

Lemma invariant_last_close fp c0 (s s' : t) :
  invariant fp c0 s ->
  0 < holders s ->
  holders s' = holders s - 1 ->
  let z := ZipFileRO.w_zip (world s) in
  let last := (ZipFileRO._file_ref_count z - 1 =? 0) && negb (ZipFileRO._file_passed z) in
  ZipFileRO._file_ref_count (ZipFileRO.w_zip (world s')) = ZipFileRO._file_ref_count z - 1 ->
  ZipFileRO._file_passed (ZipFileRO.w_zip (world s')) = ZipFileRO._file_passed z ->
  f_close_calls (ZipFileRO.w_file (world s'))
  = f_close_calls (if last then snd (f_close (ZipFileRO.w_file (world s)))
                   else ZipFileRO.w_file (world s)) ->
  Forall (fun p => ZipFilePartRO._close_fileobj p = true) (parts s') ->
  invariant fp c0 s'.
Proof.
  intros (Hc & Hp & Hall & Hcalls) Hpos Hh z last Hc' Hp' Hf' Hall'.
  subst z last. unfold invariant. rewrite Hc', Hp', Hh, Hc, Hp.
  repeat split; try assumption.
  rewrite Hf'. rewrite Hc, Hp.
  assert (E : (holders s =? 0) = false) by (apply Z.eqb_neq; lia).
  rewrite E in Hcalls. cbn [andb] in Hcalls.
  destruct ((holders s - 1 =? 0) && negb fp).
  - rewrite close_calls_f_close, Hcalls. lia.
  - rewrite Hcalls. lia.
Qed.

Lemma step_close_part codec fp c0 s i :
  invariant fp c0 s ->
  invariant fp c0 (step codec s (ClosePart i))
  /\ ZipFileRO._file_ref_count (ZipFileRO.w_zip (world (step codec s (ClosePart i))))
     = count_after s (ClosePart i) codec
  /\ forall p', nth_error (parts (step codec s (ClosePart i))) i = Some p' -> live p' = false.
Proof.
  intros Hinv. pose proof Hinv as (Hc & Hp & Hall & Hcalls).
  unfold count_after. cbn [step]. unfold on_part.
  destruct (nth_error (parts s) i) as [p |] eqn:En.
  2:{ split; [exact Hinv |]. split; [lia |]. intros p' H. congruence. }
  assert (Hcf : ZipFilePartRO._close_fileobj p = true).
  { rewrite Forall_forall in Hall. apply Hall. eapply nth_error_In; eassumption. }
  assert (Hpos : live p = true -> 0 < ZipFileRO._file_ref_count (ZipFileRO.w_zip (world s))).
  { intros Hl. rewrite Hc. unfold holders.
    pose proof (@holders_ge_live s i p En Hl).
    destruct (ZipFileRO._file (ZipFileRO.w_zip (world s))); lia. }
  destruct (@close_part_spec (world s) p Hcf Hpos) as (p' & Hcp & Hl' & Hcf').
  rewrite Hcp. cbn [fst snd].
  assert (Hnth : forall q, nth_error (set_nth i p' (parts s)) i = Some q -> live q = false).
  { clear - En Hl'. revert i En. induction (parts s) as [| x l IH]; intros [| i] En q Hq;
      cbn in *; try discriminate.
    - inversion Hq; subst; assumption.
    - eapply IH; eassumption. }
  destruct (live p) eqn:El.
  - specialize (Hpos eq_refl). rewrite (@_close_spec (world s) Hpos). cbn [snd].
    split; [| split; [cbn; lia | exact Hnth]].
    apply (@invariant_last_close fp c0 s); try assumption; cbn [world parts ZipFileRO.w_zip
      ZipFileRO.w_file ZipFileRO.set_ref_count ZipFileRO._file_ref_count ZipFileRO._file_passed];
      try reflexivity.
    + rewrite <- Hc. exact Hpos.
    + unfold holders. cbn [world parts ZipFileRO.w_zip ZipFileRO.set_ref_count ZipFileRO._file].
      rewrite (@live_count_set_nth (parts s) i p p' En), El, Hl'.
      destruct (ZipFileRO._file (ZipFileRO.w_zip (world s))); lia.
    + apply Forall_set_nth; assumption.
  - split; [| split; [cbn; lia | exact Hnth]].
    assert (Hh : holders (mk (world s) (set_nth i p' (parts s))) = holders s).
    { unfold holders. cbn [world parts].
      rewrite (@live_count_set_nth (parts s) i p p' En), El, Hl'. lia. }
    unfold invariant. rewrite Hh. cbn [world parts].
    repeat split; try assumption. apply Forall_set_nth; assumption.
Qed.

Lemma step_close_zip codec fp c0 s :
  invariant fp c0 s ->
  invariant fp c0 (step codec s CloseZip)
  /\ ZipFileRO._file_ref_count (ZipFileRO.w_zip (world (step codec s CloseZip)))
     = count_after s CloseZip codec
  /\ ZipFileRO._file (ZipFileRO.w_zip (world (step codec s CloseZip))) = false.
Proof.
  intros Hinv. pose proof Hinv as (Hc & Hp & Hall & Hcalls).
  unfold count_after. cbn [step].
  assert (Hpos : ZipFileRO._file (ZipFileRO.w_zip (world s)) = true ->
                 0 < ZipFileRO._file_ref_count (ZipFileRO.w_zip (world s))).
  { intros Hf. rewrite Hc. apply holders_pos_of_file. exact Hf. }
  rewrite (@zip_close_spec (world s) Hpos). cbn [snd].
  destruct (ZipFileRO._file (ZipFileRO.w_zip (world s))) eqn:Ef.
  - specialize (Hpos eq_refl).
    rewrite _close_spec by (cbn; exact Hpos). cbn [snd].
    cbn [world parts ZipFileRO.w_zip ZipFileRO.w_file ZipFileRO.set_ref_count
         ZipFileRO.set_file ZipFileRO._file_ref_count ZipFileRO._file_passed ZipFileRO._file].
    split; [| split; [lia | reflexivity]].
    apply (@invariant_last_close fp c0 s); try assumption; cbn [world parts ZipFileRO.w_zip
      ZipFileRO.w_file ZipFileRO.set_ref_count ZipFileRO._file_ref_count ZipFileRO._file_passed];
      try reflexivity.
    + rewrite <- Hc. exact Hpos.
    + unfold holders. cbn [world parts ZipFileRO.w_zip ZipFileRO._file ZipFileRO.set_file
        ZipFileRO.set_ref_count]. rewrite Ef. lia.
  - split; [| split; [cbn; lia | exact Ef]].
    destruct s as [w ps]; exact Hinv.
Qed.

Lemma step_open codec fp c0 s name :
  invariant fp c0 s ->
  invariant fp c0 (step codec s (Open name))
  /\ ZipFileRO._file_ref_count (ZipFileRO.w_zip (world (step codec s (Open name))))
     = count_after s (Open name) codec.
Proof.
  intros Hinv. pose proof Hinv as (Hc & Hp & Hall & Hcalls).
  unfold count_after. cbn [step].
  destruct (ZipFileRO.open codec name (world s)) as [r w'] eqn:Eo. cbn [fst].
  destruct r as [p | e |].
  - apply open_ok in Eo. destruct Eo as (Hfile & Hz & Hf & Hl & Hcf).
    cbn [world]. rewrite Hz. cbn [ZipFileRO.set_ref_count ZipFileRO._file_ref_count].
    split; [| reflexivity].
    assert (Hh : holders (mk w' (parts s ++ [p])) = holders s + 1).
    { unfold holders. cbn [world parts]. rewrite Hz, live_count_app, Hl.
      cbn [ZipFileRO.set_ref_count ZipFileRO._file]. lia. }
    pose proof (holders_pos_of_file s Hfile) as Hpos.
    unfold invariant. rewrite Hh. cbn [world parts]. rewrite Hz.
    cbn [ZipFileRO.set_ref_count ZipFileRO._file_ref_count ZipFileRO._file_passed].
    repeat split.
    + lia.
    + exact Hp.
    + apply Forall_app. split; [assumption | constructor; [assumption | constructor]].
    + destruct Hf as (_ & _ & _ & _ & Hcc). rewrite Hcc, Hcalls.
      assert (E1 : (holders s =? 0) = false) by (apply Z.eqb_neq; lia).
      assert (E2 : (holders s + 1 =? 0) = false) by (apply Z.eqb_neq; lia).
      rewrite E1, E2. reflexivity.
  - cbn [world]. destruct (ZipFileRO._file (ZipFileRO.w_zip (world s))) eqn:Ef.
    + pose proof (holders_pos_of_file s Ef) as Hpos. rewrite <- Hc in Hpos.
      destruct (@failed_open_restores codec name (world s) e w' Hpos Eo) as [Hz Hf].
      split; [| rewrite Hz; lia].
      unfold invariant, holders. cbn [world parts]. rewrite Hz.
      repeat split; try assumption.
      destruct Hf as (_ & _ & _ & _ & Hcc). rewrite Hcc. exact Hcalls.
    + assert (w' = world s) as ->.
      { unfold ZipFileRO.open, ZipFileRO.self, bind, raise in Eo. rewrite Ef in Eo.
        inversion Eo; reflexivity. }
      split; [| lia]. destruct s; exact Hinv.
  - exfalso. pose proof (total_open codec name (world s)) as Ht. rewrite Eo in Ht.
    apply Ht. reflexivity.
Qed.

Lemma step_invariant codec fp c0 s o :
  invariant fp c0 s ->
  invariant fp c0 (step codec s o)
  /\ ZipFileRO._file_ref_count (ZipFileRO.w_zip (world (step codec s o)))
     = count_after s o codec.
Proof.
  intros Hinv. destruct o as [name | i | | i n | i off wh].
  - apply step_open; assumption.
  - destruct (step_close_part codec i Hinv) as (H1 & H2 & _). split; assumption.
  - destruct (step_close_zip codec Hinv) as (H1 & H2 & _). split; assumption.
  - cbn [step]. unfold count_after. rewrite Z.add_0_r.
    apply step_on_source; [apply part_read | assumption].
  - cbn [step]. unfold count_after. rewrite Z.add_0_r.
    apply step_on_source; [apply part_seek | assumption].
Qed.

Lemma run_invariant codec fp c0 ops : forall s,
  invariant fp c0 s -> invariant fp c0 (run codec ops s).
Proof.
  induction ops as [| o ops IH]; intros s Hinv; cbn; [assumption |].
  apply IH. apply step_invariant. assumption.
Qed.

End SessionFacts.

(** ** Building the handle *)

#[global] Instance world_frame_preorder : PreOrder world_frame.
Proof.
  split.
  - intros w; repeat split; reflexivity.
  - intros w1 w2 w3 (A1 & A2 & A3 & A4) (B1 & B2 & B3 & B4).
    split; [etransitivity; eassumption | repeat split; congruence].
Qed.

Lemma world_on_file A (m : M PyFile A) :
  keeps file_frame m -> keeps world_frame (ZipFileRO.on_file m).
Proof.
  intros Hm. apply keeps_zoom with (Q := file_frame); [| exact Hm].
  intros w f' Hf. repeat split; cbn; apply Hf.
Qed.

Lemma world_upd g :
  (forall z, ZipFileRO._file (g z) = ZipFileRO._file z
             /\ ZipFileRO._file_passed (g z) = ZipFileRO._file_passed z
             /\ ZipFileRO._file_ref_count (g z) = ZipFileRO._file_ref_count z) ->
  keeps world_frame (ZipFileRO.upd g).
Proof.
  intros Hg. apply keeps_modify. intros w. destruct (Hg (ZipFileRO.w_zip w)) as (H1 & H2 & H3).
  repeat split; cbn; assumption.
Qed.

Lemma extract_wrapped_frame :
  keeps file_frame
    (fun f => match _extract_end_archive f with
              | (Raise OSError, f') => (Raise (BadZipFile ZipFileRO.not_zip_msg), f')
              | r => r
              end).
Proof.
  intros f r f' H.
  destruct (_extract_end_archive f) as [r0 f0] eqn:E. apply _extract_end_archive_frame in E.
  destruct r0 as [a | e |]; try (inversion H; subst; exact E).
  destruct e; inversion H; subst; exact E.
Qed.

Lemma read_contents_frame codec : keeps world_frame (ZipFileRO._read_contents codec).
Proof.
  unfold ZipFileRO._read_contents.
  apply keeps_bind; [typeclasses eauto | apply world_on_file, extract_wrapped_frame |].
  intros [endrec |]; [| apply keeps_raise; typeclasses eauto].
  cbv zeta.
  apply keeps_bind; [typeclasses eauto | apply world_upd; intros []; repeat split |].
  intros _. destruct (_ <? 0); [apply keeps_raise; typeclasses eauto |].
  apply keeps_bind; [typeclasses eauto | apply world_on_file; auto with frame |].
  intros _.
  apply keeps_bind; [typeclasses eauto | apply world_on_file; auto with frame |].
  intros data.
  apply keeps_zoom with (Q := fun _ _ => True); [| intros ? ? ? ?; exact I].
  intros w t' _. repeat split; reflexivity.
Qed.

Section SessionTheorems.
Import Session.

(** A handle that was built holds the source once. *)
Lemma new_ok codec file_passed file w0 :
  ZipFileRO.new codec file_passed file = (Ok tt, w0) ->
  ZipFileRO._read_contents codec (ZipFileRO.mkWorld file (ZipFileRO.fresh file_passed))
  = (Ok tt, w0)
  /\ ZipFileRO._file_ref_count (ZipFileRO.w_zip w0) = 1
  /\ invariant file_passed (f_close_calls file) (mk w0 []).
Proof.
  unfold ZipFileRO.new, ZipFileRO.init, try_except. intros H.
  destruct (ZipFileRO._read_contents codec
              (ZipFileRO.mkWorld file (ZipFileRO.fresh file_passed))) as [r w1] eqn:E.
  destruct r as [[] | e |].
  - inversion H; subst w1. split; [reflexivity |].
    apply read_contents_frame in E. destruct E as (Hf & H1 & H2 & H3).
    cbn [ZipFileRO.w_zip ZipFileRO.w_file ZipFileRO.fresh ZipFileRO._file
         ZipFileRO._file_passed ZipFileRO._file_ref_count] in *.
    split; [exact H3 |].
    unfold invariant, holders. cbn [world parts filter]. rewrite H1, H2, H3.
    repeat split; [constructor |].
    destruct Hf as (_ & _ & _ & _ & Hcc). rewrite Hcc. cbn. lia.
  - exfalso. revert H. unfold bind, raise.
    destruct (ZipFileRO.upd _ w1) as [[|?|] ?]; try discriminate.
    destruct (ZipFileRO._close _) as [[|?|] ?]; discriminate.
  - discriminate.
Qed.

End SessionTheorems.


(** Two readers over one handle: after the first reader is closed the
    source is still open; after both readers and the handle are closed the
    source was closed once if the engine opened it, and not at all if the
    caller passed it in. *)
Example two_readers_one_source :
  let ops1 := [Session.Open (inl Sample.name_a); Session.Open (inl Sample.name_b);
               Session.ClosePart 0] in
  let ops2 := ops1 ++ [Session.ClosePart 1; Session.CloseZip] in
  let owned := Session.mk Scenario.world0 [] in
  let passed :=
    Session.mk (snd (ZipFileRO.new PyCodec.python true (Sample.memory_file Sample.archive)))
               [] in
  let source s := ZipFileRO.w_file (Session.world s) in
  let count s := ZipFileRO._file_ref_count (ZipFileRO.w_zip (Session.world s)) in
  let after ops s := Session.run PyCodec.python ops s in
  (count (after ops1 owned), f_closed (source (after ops1 owned)),
   f_close_calls (source (after ops1 owned))) = (2, false, 0%nat)
  /\ (count (after ops2 owned), f_closed (source (after ops2 owned)),
      f_close_calls (source (after ops2 owned))) = (0, true, 1%nat)
  /\ (count (after ops2 passed), f_closed (source (after ops2 passed)),
      f_close_calls (source (after ops2 passed))) = (0, false, 0%nat).
Proof. repeat split; vm_compute; reflexivity. Qed.

(** ** Slices *)

Lemma len_skipn {A} k (l : list A) : len (skipn k l) = Z.max 0 (len l - Z.of_nat k).
Proof. unfold len. rewrite length_skipn. lia. Qed.

Lemma len_firstn {A} k (l : list A) : len (firstn k l) = Z.min (Z.of_nat k) (len l).
Proof. unfold len. rewrite length_firstn. lia. Qed.

Lemma firstn_clip {A} (l : list A) k1 k2 :
  Nat.min k1 (length l) = Nat.min k2 (length l) -> firstn k1 l = firstn k2 l.
Proof.
  intros H. destruct (Nat.le_ge_cases k1 (length l)) as [H1 | H1],
                     (Nat.le_ge_cases k2 (length l)) as [H2 | H2].
  - replace k2 with k1 by lia. reflexivity.
  - rewrite (firstn_all2 l H2). replace k1 with (length l) by lia. apply firstn_all.
  - rewrite (firstn_all2 l H1). replace k2 with (length l) by lia. symmetry. apply firstn_all.
  - rewrite (firstn_all2 l H1), (firstn_all2 l H2). reflexivity.
Qed.

(** [data[a:a+k]] for a start inside the data. *)
Lemma slice_at {A} (data : list A) a k :
  0 <= a <= len data -> 0 <= k ->
  slice data a (a + k) = firstn (Z.to_nat k) (skipn (Z.to_nat a) data).
Proof.
  intros Ha Hk. unfold slice, clip.
  destruct (a <? 0) eqn:E1; [apply Z.ltb_lt in E1; lia |].
  destruct (a + k <? 0) eqn:E2; [apply Z.ltb_lt in E2; lia |].
  replace (Z.min a (len data)) with a by lia.
  apply firstn_clip. rewrite length_skipn. unfold len in *. lia.
Qed.

Lemma slice_0 {A} (data : list A) k :
  0 <= k -> slice data 0 k = firstn (Z.to_nat k) data.
Proof.
  intros Hk. pose proof (@slice_at A data 0 k) as H. cbn [Z.add] in H.
  rewrite H; [reflexivity | unfold len; lia | lia].
Qed.

Lemma slice_from_neg {A} (data : list A) k :
  0 < k -> slice_from data (- k) = skipn (Z.to_nat (len data - k)) data.
Proof.
  intros Hk. unfold slice_from, clip.
  destruct (- k <? 0) eqn:E; [| apply Z.ltb_ge in E; lia].
  f_equal. lia.
Qed.

Lemma skipn_app_l {A} (p w : list A) k :
  (length p <= k)%nat -> skipn k (p ++ w) = skipn (k - length p) w.
Proof.
  intros H. rewrite skipn_app. rewrite (skipn_all2 p H). reflexivity.
Qed.

(** ** The last occurrence *)

Lemma starts_with_app needle (d rest : bytes) :
  starts_with needle d = true -> starts_with needle (d ++ rest) = true.
Proof.
  revert d. induction needle as [| x n IH]; intros d H; [reflexivity |].
  destruct d as [| y d]; [discriminate |]. cbn in *.
  apply andb_true_iff in H. destruct H as [H1 H2]. rewrite H1. cbn. apply IH. exact H2.
Qed.

Lemma rfind_from_shift needle data : forall i,
  rfind_from needle data i = option_map (Z.add i) (rfind_from needle data 0).
Proof.
  induction data as [| x tl IH]; intros i; [reflexivity |].
  cbn [rfind_from]. rewrite (IH (i + 1)), (IH (0 + 1)).
  destruct (rfind_from needle tl 0) as [k |]; cbn [option_map].
  - f_equal. lia.
  - destruct (starts_with needle (x :: tl)); cbn [option_map]; [f_equal; lia | reflexivity].
Qed.

Lemma rfind_from_app needle (pre tail : bytes) : forall i j,
  rfind_from needle tail (i + len pre) = Some j ->
  rfind_from needle (pre ++ tail) i = Some j.
Proof.
  induction pre as [| x pre IH]; intros i j H.
  - cbn. replace (i + len (@nil byte)) with i in H by (unfold len; cbn; lia). exact H.
  - cbn [app rfind_from]. rewrite (IH (i + 1) j); [reflexivity |].
    replace (i + 1 + len pre) with (i + len (x :: pre)); [exact H |].
    unfold len. cbn [length]. lia.
Qed.

(** The last occurrence in a window is still the last one when bytes are
    put before the window. *)
Lemma rfind_app data needle (pre : bytes) i :
  rfind data needle = Some i -> rfind (pre ++ data) needle = Some (len pre + i).
Proof.
  unfold rfind. intros H. apply rfind_from_app.
  rewrite rfind_from_shift, H. cbn. f_equal.
Qed.

Lemma rfind_from_bounds needle data : forall i j,
  rfind_from needle data i = Some j -> i <= j < i + len data.
Proof.
  induction data as [| x tl IH]; intros i j H; [discriminate |].
  cbn [rfind_from] in H. unfold len in *. cbn [length].
  destruct (rfind_from needle tl (i + 1)) as [k |] eqn:E.
  - inversion H; subst. apply IH in E. lia.
  - destruct (starts_with needle (x :: tl)); inversion H; subst. lia.
Qed.

Lemma rfind_bounds data needle i :
  rfind data needle = Some i -> 0 <= i < len data.
Proof. unfold rfind. intros H. apply rfind_from_bounds in H. lia. Qed.

(** [rfind] finds an occurrence, and no occurrence starts after it. *)
Lemma rfind_from_last needle data : forall i,
  match rfind_from needle data i with
  | Some j =>
      starts_with needle (skipn (Z.to_nat (j - i)) data) = true
      /\ forall k, (Z.to_nat (j - i) < k < length data)%nat ->
                   starts_with needle (skipn k data) = false
  | None => forall k, (k < length data)%nat -> starts_with needle (skipn k data) = false
  end.
Proof.
  induction data as [| x tl IH]; intros i; cbn [rfind_from].
  - intros k Hk. cbn in Hk. lia.
  - specialize (IH (i + 1)).
    destruct (rfind_from needle tl (i + 1)) as [j |] eqn:E.
    + pose proof (rfind_from_bounds _ _ _ E) as Hb. destruct IH as [H1 H2].
      replace (Z.to_nat (j - i)) with (S (Z.to_nat (j - (i + 1)))) by lia.
      split; [exact H1 |]. intros [| k] Hk; [lia |]. cbn [skipn]. apply H2.
      cbn [length] in Hk. lia.
    + destruct (starts_with needle (x :: tl)) eqn:Es.
      * replace (i - i) with 0 by lia. split; [exact Es |].
        intros [| k] Hk; [cbn in Hk; lia |]. cbn [skipn]. apply IH. cbn [length] in Hk. lia.
      * intros [| k] Hk; [exact Es |]. cbn [skipn]. apply IH. cbn [length] in Hk. lia.
Qed.

(** ** Evaluating the calls on an open byte source *)

Lemma f_seek_set f o :
  f_closed f = false -> 0 <= o -> f_seek o 0 f = (Ok o, set_pos o f).
Proof.
  intros Hc Ho. unfold f_seek. rewrite Hc. cbn [Z.eqb Z.add].
  destruct (o <? 0) eqn:E; [apply Z.ltb_lt in E; lia | reflexivity].
Qed.

Lemma f_seek_end f o :
  f_closed f = false -> 0 <= f_size f + o ->
  f_seek o 2 f = (Ok (f_size f + o), set_pos (f_size f + o) f).
Proof.
  intros Hc Ho. unfold f_seek. rewrite Hc.
  change (2 =? 0) with false. change (2 =? 1) with false. cbv iota.
  destruct (f_size f + o <? 0) eqn:E; [apply Z.ltb_lt in E; lia | reflexivity].
Qed.

Lemma f_read_eval f n :
  f_closed f = false -> readable_length f n ->
  f_read n f
  = (let rest := skipn (Z.to_nat (f_pos f)) (f_data f) in
     let data := match n with
                 | None => rest
                 | Some k => if k <? 0 then rest else firstn (Z.to_nat k) rest
                 end in
     (Ok data, set_pos (f_pos f + len data) f)).
Proof.
  intros Hc Hn. unfold f_read. rewrite Hc.
  destruct n as [k |]; [| reflexivity].
  destruct (f_kind f) eqn:Ek; [| reflexivity].
  destruct Hn as [Hn | Hn]; [| congruence].
  replace (k <? -1) with false by (symmetry; apply Z.ltb_ge; lia). reflexivity.
Qed.

Ltac read_len :=
  first [ assumption | exact I
        | left; unfold _END_ARCHIVE64_LOCATOR_SIZE, _END_ARCHIVE64_SIZE, _CENTRAL_DIR_SIZE; lia ].

Lemma f_read_below f k :
  f_kind f = RawFile -> k < -1 ->
  f_read (Some k) f = (Raise (ValueError read_length_msg), f).
Proof.
  intros Hk Hn. unfold f_read. rewrite Hk.
  replace (k <? -1) with true by (symmetry; apply Z.ltb_lt; exact Hn). reflexivity.
Qed.

Lemma set_pos_set_pos p q f : set_pos p (set_pos q f) = set_pos p f.
Proof. reflexivity. Qed.

Lemma f_seek_end_pos x f p :
  (exists e, f_seek x 2 (set_pos p f) = (Raise e, set_pos p f)
             /\ f_seek x 2 f = (Raise e, f))
  \/ (exists v s, f_seek x 2 (set_pos p f) = (Ok v, s) /\ f_seek x 2 f = (Ok v, s)).
Proof.
  unfold f_seek, f_size.
  change (f_closed (set_pos p f)) with (f_closed f).
  change (f_data (set_pos p f)) with (f_data f).
  change (f_kind (set_pos p f)) with (f_kind f).
  change (2 =? 0) with false. change (2 =? 1) with false. cbv iota.
  destruct (f_closed f); [left; eexists; split; reflexivity |].
  destruct (len (f_data f) + x <? 0).
  - destruct (f_kind f).
    + left; eexists; split; reflexivity.
    + right; eexists; eexists; split; reflexivity.
  - right; eexists; eexists; split; reflexivity.
Qed.

Lemma bind_eq {S A B} (m : M S A) (k : A -> M S B) s :
  bind m k s = match m s with
               | (Ok a, s') => k a s'
               | (Raise e, s') => (Raise e, s')
               | (OutOfFuel, s') => (OutOfFuel, s')
               end.
Proof. reflexivity. Qed.

(** The ZIP64 probe starts with a seek from the end: where the cursor was
    does not matter to what it returns. *)
Lemma update_pos_indep o e f p :
  fst (_end_archive_update_zip64 o e (set_pos p f))
  = fst (_end_archive_update_zip64 o e f).
Proof.
  unfold _end_archive_update_zip64.
  lazymatch goal with
  | |- fst (bind ?m ?k ?s1) = fst (bind _ _ ?s2) =>
      rewrite (bind_eq m k s1), (bind_eq m k s2)
  end.
  unfold except_OSError.
  lazymatch goal with
  | |- context [bind ?m ?k (set_pos p f)] =>
      rewrite (bind_eq m k (set_pos p f)), (bind_eq m k f)
  end.
  destruct (f_seek_end_pos (o - _END_ARCHIVE64_LOCATOR_SIZE) f p)
    as [(ex & H1 & H2) | (v & s & H1 & H2)]; rewrite H1, H2.
  - destruct ex; reflexivity.
  - reflexivity.
Qed.

(** ** The locator refines its specification *)

Lemma le_nonneg bs : 0 <= le bs.
Proof. induction bs as [| x r IH]; cbn [le]; lia. Qed.

Lemma field_nonneg data off w : 0 <= field data off w.
Proof. apply le_nonneg. Qed.

Lemma fst_bind_ret {S A B} (m : M S A) (g : A -> B) s :
  fst (bind m (fun r => ret (g r)) s)
  = match fst (m s) with
    | Ok r => Ok (g r)
    | Raise e => Raise e
    | OutOfFuel => OutOfFuel
    end.
Proof. unfold bind, ret. destruct (m s) as [[a | e |] s']; reflexivity. Qed.

Lemma upgrade_pos_indep o e f p :
  fst ((r <- _end_archive_update_zip64 o e ;; ret (Some r)) (set_pos p f))
  = fst ((r <- _end_archive_update_zip64 o e ;; ret (Some r)) f).
Proof. rewrite !fst_bind_ret, update_pos_indep. reflexivity. Qed.

Lemma window_eq data :
  skipn (Z.to_nat (Z.max (len data - Z.shiftl 1 16 - _END_ARCHIVE_SIZE) 0)) data
  = LocatorSpec.last_bytes (Z.min (len data) (LocatorSpec.KiB64 + LocatorSpec.EOCD_SIZE)) data.
Proof.
  unfold LocatorSpec.last_bytes, LocatorSpec.KiB64, LocatorSpec.EOCD_SIZE, _END_ARCHIVE_SIZE.
  change (Z.shiftl 1 16) with 65536. f_equal. lia.
Qed.

Lemma scan_refines f :
  f_closed f = false ->
  fst (_extract_end_archive_scan (f_size f) f)
  = LocatorSpec.upgrade f (LocatorSpec.scan (f_data f)).
Proof.
  intros Hc. unfold _extract_end_archive_scan. cbv zeta.
  set (cms := Z.max (f_size f - Z.shiftl 1 16 - _END_ARCHIVE_SIZE) 0).
  assert (Hcms : 0 <= cms <= f_size f).
  { subst cms. unfold f_size, len, _END_ARCHIVE_SIZE. change (Z.shiftl 1 16) with 65536. lia. }
  rewrite bind_eq, (@f_seek_set f cms Hc (proj1 Hcms)).
  rewrite bind_eq, f_read_eval by read_len. cbv zeta.
  change (f_pos (set_pos cms f)) with cms. change (f_data (set_pos cms f)) with (f_data f).
  rewrite set_pos_set_pos.
  unfold LocatorSpec.scan. cbv zeta.
  rewrite <- window_eq. fold (f_size f). fold cms.
  set (window := skipn (Z.to_nat cms) (f_data f)).
  assert (Hlen : len window = f_size f - cms).
  { subst window. rewrite len_skipn. unfold f_size in *. lia. }
  destruct (rfind window _END_ARCHIVE_STRING) as [start |] eqn:Er; [| reflexivity].
  pose proof (rfind_bounds _ _ Er) as Hb.
  rewrite (slice_at window (a := start) (k := _END_ARCHIVE_SIZE)) by (unfold _END_ARCHIVE_SIZE; lia).
  change LocatorSpec.EOCD_SIZE with _END_ARCHIVE_SIZE.
  set (rec := firstn (Z.to_nat _END_ARCHIVE_SIZE) (skipn (Z.to_nat start) window)).
  destruct (len rec =? _END_ARCHIVE_SIZE) eqn:El; cbn [negb]; [| reflexivity].
  apply Z.eqb_eq in El.
  assert (Hroom : start + _END_ARCHIVE_SIZE <= len window).
  { subst rec. rewrite len_firstn, len_skipn in El. unfold _END_ARCHIVE_SIZE in *. lia. }
  rewrite (slice_at window (a := start + _END_ARCHIVE_SIZE) (k := field rec 20 2))
    by (first [apply field_nonneg | unfold _END_ARCHIVE_SIZE in *; lia]).
  unfold LocatorSpec.upgrade, LocatorSpec.decode, LocatorSpec.comment_length.
  cbn [ECD_LOCATION unpack_end_archive].
  rewrite Hlen.
  replace (f_size f - (f_size f - cms) + start) with (cms + start) by lia.
  apply upgrade_pos_indep.
Qed.

Lemma byte_zero x : Byte.to_N x = 0%N -> x = x00.
Proof.
  intros H. pose proof (Byte.of_to_N x) as E. rewrite H in E. cbn in E. congruence.
Qed.

Lemma bytes_eqb_refl a : bytes_eqb a a = true.
Proof.
  induction a as [| x a IH]; [reflexivity |]. cbn.
  rewrite (Byte.byte_dec_lb (eq_refl x)). exact IH.
Qed.

Lemma bytes_eqb_eq a c : bytes_eqb a c = true -> a = c.
Proof.
  revert c. induction a as [| x a IH]; intros [| y c] H; try discriminate; [reflexivity |].
  cbn in H. apply andb_true_iff in H. destruct H as [H1 H2].
  apply Byte.byte_dec_bl in H1. subst. f_equal. apply IH. exact H2.
Qed.

(** For a whole record, the test on the last two bytes is the test that
    the comment-length field is zero. *)
Lemma zero_comment_test tail :
  len tail = _END_ARCHIVE_SIZE ->
  bytes_eqb (slice_from tail (-2)) [x00; x00] = (field tail 20 2 =? 0).
Proof.
  intros Hl. change (slice_from tail (-2)) with (slice_from tail (Z.opp 2)).
  rewrite (slice_from_neg tail (k := 2)) by lia. rewrite Hl.
  unfold field. rewrite (slice_at tail (a := 20) (k := 2)) by (rewrite ?Hl; unfold _END_ARCHIVE_SIZE; lia).
  change (Z.to_nat (_END_ARCHIVE_SIZE - 2)) with 20%nat. change (Z.to_nat 20) with 20%nat.
  change (Z.to_nat 2) with 2%nat.
  assert (H2 : length (skipn 20 tail) = 2%nat).
  { rewrite length_skipn. unfold len, _END_ARCHIVE_SIZE in Hl. lia. }
  destruct (skipn 20 tail) as [| x [| y [| z r]]]; try discriminate.
  cbn [firstn le bytes_eqb].
  destruct (Byte.eqb x x00) eqn:Ex; cbn [andb].
  - apply Byte.byte_dec_bl in Ex. subst x.
    destruct (Byte.eqb y x00) eqn:Ey; cbn [andb].
    + apply Byte.byte_dec_bl in Ey. subst y. reflexivity.
    + symmetry. apply Z.eqb_neq. intros H.
      change (Byte.to_N x00) with 0%N in H.
      assert (Byte.to_N y = 0%N) by lia.
      apply byte_zero in H0. subst y. discriminate.
  - symmetry. apply Z.eqb_neq. intros H.
    assert (Byte.to_N x = 0%N) by lia.
    apply byte_zero in H0. subst x. discriminate.
Qed.

Lemma fast_test tail :
  is_bare_end_archive tail
  = (len tail =? LocatorSpec.EOCD_SIZE) && LocatorSpec.signature_matches tail
    && (LocatorSpec.comment_length tail =? 0).
Proof.
  unfold is_bare_end_archive, LocatorSpec.signature_matches, LocatorSpec.comment_length.
  change LocatorSpec.EOCD_SIZE with _END_ARCHIVE_SIZE.
  destruct (len tail =? _END_ARCHIVE_SIZE) eqn:El; [| reflexivity].
  apply Z.eqb_eq in El. cbn [andb].
  rewrite (zero_comment_test tail El). rewrite slice_0 by lia. reflexivity.
Qed.

Lemma upgrade_set_pos f p found :
  LocatorSpec.upgrade (set_pos p f) found = LocatorSpec.upgrade f found.
Proof.
  destruct found as [e |]; [| reflexivity]. unfold LocatorSpec.upgrade.
  change (f_size (set_pos p f)) with (f_size f). apply upgrade_pos_indep.
Qed.

Lemma last_bytes_short n (data : bytes) :
  len data <= n -> LocatorSpec.last_bytes n data = data.
Proof.
  intros H. unfold LocatorSpec.last_bytes.
  replace (Z.to_nat (len data - n)) with 0%nat by lia. reflexivity.
Qed.

Lemma fast_short data :
  len data < LocatorSpec.EOCD_SIZE -> LocatorSpec.fast data = None.
Proof.
  intros H. unfold LocatorSpec.fast. cbv zeta.
  rewrite last_bytes_short by lia.
  destruct (len data =? LocatorSpec.EOCD_SIZE) eqn:E; [apply Z.eqb_eq in E; lia | reflexivity].
Qed.

Lemma scan_short data :
  len data < LocatorSpec.EOCD_SIZE -> LocatorSpec.scan data = None.
Proof.
  intros H. unfold LocatorSpec.scan. cbv zeta.
  rewrite last_bytes_short by (unfold LocatorSpec.KiB64, LocatorSpec.EOCD_SIZE in *; lia).
  destruct (rfind data _END_ARCHIVE_STRING) as [start |]; [| reflexivity].
  match goal with |- context [len ?r =? _] => assert (Hr : len r <= len data) end.
  { rewrite len_firstn, len_skipn. pose proof (len_nonneg data). lia. }
  match goal with |- context [?a =? ?c] => destruct (a =? c) eqn:E end;
    [apply Z.eqb_eq in E; lia | reflexivity].
Qed.

(** The locator computes what its specification says, for every open
    byte source. *)
Lemma extract_refines f :
  f_closed f = false ->
  fst (_extract_end_archive f)
  = LocatorSpec.upgrade f (LocatorSpec.locate (f_data f)).
Proof.
  intros Hc. unfold _extract_end_archive.
  assert (H0 : 0 <= f_size f + 0) by (unfold f_size, len; lia).
  rewrite bind_eq, (@f_seek_end f 0 Hc H0). rewrite Z.add_0_r.
  set (f1 := set_pos (f_size f) f).
  assert (Hc1 : f_closed f1 = false) by exact Hc.
  rewrite bind_eq. unfold f_tell at 1. rewrite Hc1.
  change (f_pos f1) with (f_size f).
  rewrite bind_eq. unfold except_OSError. rewrite bind_eq.
  unfold LocatorSpec.locate.
  destruct (Z.ltb_spec (f_size f1 + - _END_ARCHIVE_SIZE) 0) as [Hlt | Hge].
  - (* the source is shorter than a record *)
    change (f_size f1) with (f_size f) in Hlt. unfold _END_ARCHIVE_SIZE in Hlt.
    rewrite fast_short by (unfold LocatorSpec.EOCD_SIZE, f_size in *; lia).
    replace (LocatorSpec.scan (f_data f)) with (@None EndRec)
      by (symmetry; apply scan_short; unfold LocatorSpec.EOCD_SIZE, f_size in *; lia).
    unfold f_seek. rewrite Hc1.
    change (2 =? 0) with false. change (2 =? 1) with false. cbv iota.
    change (f_size f1) with (f_size f).
    destruct (Z.ltb_spec (f_size f + - _END_ARCHIVE_SIZE) 0) as [_ | Hx];
      [| unfold _END_ARCHIVE_SIZE in Hx; lia].
    change (f_kind f1) with (f_kind f). destruct (f_kind f).
    + reflexivity.
    + cbn [ret negb]. rewrite bind_eq, f_read_eval by read_len.
      cbv zeta. change (f_pos (set_pos 0 f1)) with 0. cbn [Z.to_nat skipn].
      change (f_data (set_pos 0 f1)) with (f_data f).
      assert (Hb : is_bare_end_archive (f_data f) = false).
      { unfold is_bare_end_archive.
        destruct (len (f_data f) =? _END_ARCHIVE_SIZE) eqn:E; [| reflexivity].
        apply Z.eqb_eq in E. unfold f_size, _END_ARCHIVE_SIZE in *. lia. }
      rewrite Hb. subst f1. rewrite !set_pos_set_pos.
      change (f_size f) with (f_size (set_pos (0 + len (f_data f)) f)) at 1.
      rewrite scan_refines by exact Hc.
      rewrite upgrade_set_pos. change (f_data (set_pos (0 + len (f_data f)) f)) with (f_data f).
      rewrite scan_short by (unfold LocatorSpec.EOCD_SIZE, f_size in *; lia). reflexivity.
  - (* the last 22 bytes *)
    rewrite (@f_seek_end f1 _ Hc1 Hge). cbn [ret negb].
    change (f_size f1) with (f_size f) in *.
    rewrite bind_eq, f_read_eval by read_len. cbv zeta.
    change (f_pos (set_pos (f_size f + - _END_ARCHIVE_SIZE) f1))
      with (f_size f + - _END_ARCHIVE_SIZE).
    change (f_data (set_pos (f_size f + - _END_ARCHIVE_SIZE) f1)) with (f_data f).
    subst f1. rewrite !set_pos_set_pos.
    set (tail := skipn (Z.to_nat (f_size f + - _END_ARCHIVE_SIZE)) (f_data f)).
    assert (Ht : LocatorSpec.last_bytes LocatorSpec.EOCD_SIZE (f_data f) = tail).
    { unfold LocatorSpec.last_bytes, tail, f_size. f_equal. }
    unfold LocatorSpec.fast. cbv zeta. rewrite Ht, <- fast_test.
    destruct (is_bare_end_archive tail).
    + unfold LocatorSpec.upgrade, LocatorSpec.decode. cbn [ECD_LOCATION unpack_end_archive].
      change LocatorSpec.EOCD_SIZE with _END_ARCHIVE_SIZE. fold (f_size f).
      replace (f_size f - _END_ARCHIVE_SIZE - f_size f) with (- _END_ARCHIVE_SIZE) by lia.
      apply upgrade_pos_indep.
    + match goal with |- context [_extract_end_archive_scan _ (set_pos ?q f)] =>
        change (f_size f) with (f_size (set_pos q f)) at 1;
        rewrite (@scan_refines (set_pos q f) Hc); rewrite upgrade_set_pos
      end.
      reflexivity.
Qed.

Lemma read_contents_not_found codec f z :
  fst (_extract_end_archive f) = Ok None ->
  fst (ZipFileRO._read_contents codec (ZipFileRO.mkWorld f z))
  = Raise (BadZipFile ZipFileRO.not_zip_msg).
Proof.
  intros H. unfold ZipFileRO._read_contents. rewrite bind_eq.
  unfold ZipFileRO.on_file, zoom. cbn [ZipFileRO.w_file].
  destruct (_extract_end_archive f) as [r f'] eqn:E. cbn [fst] in H. subst r.
  reflexivity.
Qed.

(** C7. On every open byte source the locator returns what the three
    steps of its specification say, in that order ([LocatorSpec.locate]:
    the record in the last 22 bytes when it carries the signature and a
    zero comment length, else the record at the last occurrence of the
    signature in the last [min(size, 64KiB + 22)] bytes with the comment its
    length field implies, else nothing), followed by the ZIP64 probe on the
    record found; when the steps find nothing the directory parser raises
    [BadZipFile("File is not a zip file")]; and the occurrence the scan
    takes is the last one of its window: the signature starts there and
    nowhere after. *)
Theorem C7_locator_order f :
  f_closed f = false ->
  fst (_extract_end_archive f) = LocatorSpec.upgrade f (LocatorSpec.locate (f_data f))
  /\ (LocatorSpec.locate (f_data f) = None ->
      forall codec z,
        fst (ZipFileRO._read_contents codec (ZipFileRO.mkWorld f z))
        = Raise (BadZipFile ZipFileRO.not_zip_msg))
  /\ (forall window,
        match rfind window _END_ARCHIVE_STRING with
        | Some start =>
            starts_with _END_ARCHIVE_STRING (skipn (Z.to_nat start) window) = true
            /\ forall k, (Z.to_nat start < k < length window)%nat ->
                         starts_with _END_ARCHIVE_STRING (skipn k window) = false
        | None =>
            forall k, (k < length window)%nat ->
                      starts_with _END_ARCHIVE_STRING (skipn k window) = false
        end).
Proof.
  intros Hc. split; [apply extract_refines; exact Hc |]. split.
  - intros Hn codec z. apply read_contents_not_found.
    rewrite extract_refines by exact Hc. rewrite Hn. reflexivity.
  - intros window. pose proof (rfind_from_last _END_ARCHIVE_STRING window 0) as H.
    unfold rfind. destruct (rfind_from _END_ARCHIVE_STRING window 0) as [start |].
    + replace (start - 0) with start in H by lia. exact H.
    + exact H.
Qed.

Lemma fast_scan_agree data :
  let tail := LocatorSpec.last_bytes LocatorSpec.EOCD_SIZE data in
  is_bare_end_archive tail = true ->
  rfind tail _END_ARCHIVE_STRING = Some 0 ->
  LocatorSpec.fast data = Some (unpack_end_archive tail [] (len data - _END_ARCHIVE_SIZE))
  /\ LocatorSpec.scan data = LocatorSpec.fast data.
Proof.
  intros tail Hb Hr.
  assert (Hfast : LocatorSpec.fast data
                  = Some (unpack_end_archive tail [] (len data - _END_ARCHIVE_SIZE))).
  { unfold LocatorSpec.fast. cbv zeta. fold tail. rewrite <- fast_test, Hb. reflexivity. }
  split; [exact Hfast |]. rewrite Hfast.
  rewrite fast_test in Hb. apply andb_true_iff in Hb. destruct Hb as [Hb Hz].
  apply andb_true_iff in Hb. destruct Hb as [Hl _].
  apply Z.eqb_eq in Hl. apply Z.eqb_eq in Hz.
  change LocatorSpec.EOCD_SIZE with _END_ARCHIVE_SIZE in *.
  unfold LocatorSpec.comment_length in Hz.
  assert (Hsize : _END_ARCHIVE_SIZE <= len data).
  { subst tail. unfold LocatorSpec.last_bytes in Hl. rewrite len_skipn in Hl.
    unfold _END_ARCHIVE_SIZE in *. lia. }
  unfold LocatorSpec.scan. cbv zeta.
  set (w := Z.min (len data) (LocatorSpec.KiB64 + LocatorSpec.EOCD_SIZE)).
  assert (Hw : _END_ARCHIVE_SIZE <= w <= len data).
  { subst w. unfold LocatorSpec.KiB64, LocatorSpec.EOCD_SIZE, _END_ARCHIVE_SIZE in *. lia. }
  set (window := LocatorSpec.last_bytes w data).
  assert (Hlw : len window = w).
  { subst window. unfold LocatorSpec.last_bytes. rewrite len_skipn.
    unfold _END_ARCHIVE_SIZE in *. lia. }
  set (pre := firstn (Z.to_nat (w - _END_ARCHIVE_SIZE)) window).
  assert (Hsplit : window = pre ++ tail).
  { subst pre tail window. unfold LocatorSpec.last_bytes.
    rewrite <- (firstn_skipn (Z.to_nat (w - _END_ARCHIVE_SIZE))
                             (skipn (Z.to_nat (len data - w)) data)) at 1.
    f_equal. rewrite skipn_skipn. f_equal.
    unfold _END_ARCHIVE_SIZE, LocatorSpec.EOCD_SIZE in *. lia. }
  assert (Hlp : len pre = w - _END_ARCHIVE_SIZE).
  { subst pre. rewrite len_firstn. unfold _END_ARCHIVE_SIZE in *. lia. }
  rewrite Hsplit at 1. rewrite (@rfind_app tail _END_ARCHIVE_STRING pre 0 Hr). rewrite Z.add_0_r.
  assert (Hrec : firstn (Z.to_nat _END_ARCHIVE_SIZE) (skipn (Z.to_nat (len pre)) window) = tail).
  { rewrite Hsplit. rewrite skipn_app_l by (unfold len; lia).
    replace (Z.to_nat (len pre) - length pre)%nat with 0%nat by (unfold len; lia).
    cbn [skipn]. apply firstn_all2. unfold len in Hl. lia. }
  change LocatorSpec.EOCD_SIZE with _END_ARCHIVE_SIZE.
  rewrite Hrec, Hl, Z.eqb_refl.
  unfold LocatorSpec.comment_length. rewrite Hz. cbn [Z.to_nat firstn].
  unfold LocatorSpec.decode. do 2 f_equal. lia.
Qed.

(** C10, amended.  For an open byte source whose last 22 bytes are a record
    with the signature and a zero comment length, and in which the
    signature does not occur again inside those 22 bytes: the fast path
    accepts the record, the scan finds the same record (same fields, same
    empty comment, same offset [size - 22]), and running the scanning
    fallback returns what the locator returns, ZIP64 probe included. *)
Theorem C10_fast_and_scan_agree f :
  f_closed f = false ->
  let tail := LocatorSpec.last_bytes LocatorSpec.EOCD_SIZE (f_data f) in
  is_bare_end_archive tail = true ->
  rfind tail _END_ARCHIVE_STRING = Some 0 ->
  LocatorSpec.fast (f_data f)
  = Some (unpack_end_archive tail [] (f_size f - _END_ARCHIVE_SIZE))
  /\ LocatorSpec.scan (f_data f) = LocatorSpec.fast (f_data f)
  /\ fst (_extract_end_archive_scan (f_size f) f) = fst (_extract_end_archive f).
Proof.
  intros Hc tail Hb Hr.
  destruct (@fast_scan_agree (f_data f) Hb Hr) as [Hfast Hscan].
  split; [exact Hfast |]. split; [exact Hscan |].
  rewrite scan_refines, extract_refines by exact Hc.
  unfold LocatorSpec.locate. rewrite Hscan, Hfast. reflexivity.
Qed.

(** The hypothesis of C7 holds for the sample archive, for the sample
    archive with a comment and for bytes without a signature; on the last
    the steps find nothing and the parser reports that the source is not an
    archive. *)
Lemma C7_locator_order_witness :
  fst (_extract_end_archive (Sample.raw_file Sample.archive))
  = LocatorSpec.upgrade (Sample.raw_file Sample.archive) (LocatorSpec.locate Sample.archive)
  /\ fst (_extract_end_archive (Sample.raw_file Sample.commented))
     = LocatorSpec.upgrade (Sample.raw_file Sample.commented)
                           (LocatorSpec.locate Sample.commented)
  /\ fst (ZipFileRO._read_contents PyCodec.python
            (ZipFileRO.mkWorld (Sample.raw_file Sample.garbage) (ZipFileRO.fresh false)))
     = Raise (BadZipFile ZipFileRO.not_zip_msg).
Proof.
  split; [| split].
  - apply (proj1 (@C7_locator_order (Sample.raw_file Sample.archive) eq_refl)).
  - apply (proj1 (@C7_locator_order (Sample.raw_file Sample.commented) eq_refl)).
  - apply (proj1 (proj2 (@C7_locator_order (Sample.raw_file Sample.garbage) eq_refl))).
    vm_compute; reflexivity.
Defined.

(** What the locator finds on the three sample sources: the record at the
    very end, the record before a three-byte comment together with that
    comment, and nothing. *)
Example locate_samples :
  LocatorSpec.locate Sample.archive
  = Some (mkEndRec _END_ARCHIVE_STRING 0 0 2 2 106 5079 0 [] 5185)
  /\ LocatorSpec.fast Sample.commented = None
  /\ LocatorSpec.locate Sample.commented
     = Some (mkEndRec _END_ARCHIVE_STRING 0 0 2 2 106 5079 3 (Sample.ascii "hi!") 5185)
  /\ LocatorSpec.locate Sample.garbage = None.
Proof. repeat split; vm_compute; reflexivity. Qed.

(** The hypotheses of C10 hold for the sample archive. *)
Lemma C10_fast_and_scan_agree_witness :
  let f := Sample.raw_file Sample.archive in
  let tail := LocatorSpec.last_bytes LocatorSpec.EOCD_SIZE (f_data f) in
  f_closed f = false
  /\ is_bare_end_archive tail = true
  /\ rfind tail _END_ARCHIVE_STRING = Some 0
  /\ LocatorSpec.fast (f_data f)
     = Some (unpack_end_archive tail [] (f_size f - _END_ARCHIVE_SIZE))
  /\ LocatorSpec.scan (f_data f) = LocatorSpec.fast (f_data f)
  /\ fst (_extract_end_archive_scan (f_size f) f) = fst (_extract_end_archive f).
Proof.
  intros f tail.
  assert (H1 : f_closed f = false) by reflexivity.
  assert (H2 : is_bare_end_archive tail = true) by (vm_compute; reflexivity).
  assert (H3 : rfind tail _END_ARCHIVE_STRING = Some 0) by (vm_compute; reflexivity).
  split; [exact H1 |]. split; [exact H2 |]. split; [exact H3 |].
  exact (@C10_fast_and_scan_agree f H1 H2 H3).
Defined.

(** C10, as the claim states it, fails: on a 22-byte source that is one
    record with a zero-length comment, and that the engine opens as an
    empty archive, the fast path accepts the record while the scanning
    fallback finds the signature again inside the record's entry-count
    fields, cannot read a whole record from there, and returns nothing. *)
Lemma C10_fast_accepts_scan_rejects :
  let f := Sample.raw_file Sample.tricky_end in
  fst (_extract_end_archive f)
  = Ok (Some (mkEndRec _END_ARCHIVE_STRING 0 0 19280 1541 0 0 0 [] 0))
  /\ fst (_extract_end_archive_scan (f_size f) f) = Ok None
  /\ fst (_extract_end_archive_scan (f_size f) f) <> fst (_extract_end_archive f)
  /\ fst (ZipFileRO.new PyCodec.python false f) = Ok tt.
Proof.
  repeat split; try (vm_compute; reflexivity). vm_compute. discriminate.
Qed.

(** ** The concatenation offset *)

Section PrefixFacts.
Import Prefixed.

Lemma dict_set_shift n (d : dict ZipInfoRO.t) k v :
  dict_set (shift_table n d) k (shift_info n v) = shift_table n (dict_set d k v).
Proof.
  induction d as [| [k' v'] d IH]; [reflexivity |].
  cbn [shift_table map dict_set fst snd]. destruct (str_eqb k' k); [reflexivity |].
  cbn [map fst snd]. f_equal. exact IH.
Qed.

Lemma on_fp_eval {A} (m : M PyFile A) fp (d : dict ZipInfoRO.t) :
  ZipFileRO.on_fp m (fp, d) = (fst (m fp), (snd (m fp), d)).
Proof. unfold ZipFileRO.on_fp, zoom. cbn [fst snd]. destruct (m fp); reflexivity. Qed.

(** The directory loop run with a concatenation offset larger by [n]
    builds the same table with every offset larger by [n]. *)
Lemma cd_loop_shift codec n size concat fuel : forall total fp d,
  ZipFileRO.cd_loop codec fuel size (concat + n) total (fp, shift_table n d)
  = shift_state n (ZipFileRO.cd_loop codec fuel size concat total (fp, d)).
Proof.
  induction fuel as [| k IH]; intros total fp d; cbn [ZipFileRO.cd_loop].
  - destruct (total <? size); reflexivity.
  - destruct (total <? size); [| reflexivity].
    rewrite !bind_eq, !on_fp_eval. cbn [fst snd].
    destruct (f_read (Some _CENTRAL_DIR_SIZE) fp) as [[cdir | e |] fp1]; try reflexivity.
    cbn [fst snd].
    destruct (negb (len cdir =? _CENTRAL_DIR_SIZE)); [reflexivity |].
    cbv zeta.
    destruct (negb (bytes_eqb (CD_SIGNATURE (unpack_central_dir cdir)) _CENTRAL_DIR_STRING));
      [reflexivity |].
    rewrite !bind_eq, !on_fp_eval. cbn [fst snd].
    destruct (f_read (Some (CD_FILENAME_LENGTH (unpack_central_dir cdir))) fp1)
      as [[raw | e |] fp2]; try reflexivity.
    cbn [fst snd]. rewrite !bind_eq.
    unfold ZipFileRO.decode_name.
    destruct (has_flag (CD_FLAG_BITS (unpack_central_dir cdir)) _MASK_UTF_FILENAME).
    + destruct (decode_utf8 codec raw) as [nm |]; [| reflexivity].
      cbn [ret]. rewrite !bind_eq, !on_fp_eval. cbn [fst snd].
      destruct (f_read (Some (CD_EXTRA_FIELD_LENGTH (unpack_central_dir cdir))) fp2)
        as [[ex | e |] fp3]; try reflexivity.
      cbn [fst snd]. rewrite !bind_eq, !on_fp_eval. cbn [fst snd].
      destruct (f_read (Some (CD_COMMENT_LENGTH (unpack_central_dir cdir))) fp3)
        as [[cm | e |] fp4]; try reflexivity.
      cbn [fst snd].
      destruct (negb (CD_COMPRESS_TYPE (unpack_central_dir cdir) =? ZIP_STORED));
        [reflexivity |].
      rewrite !bind_eq. cbn [modify fst snd ZipInfoRO.filename].
      rewrite <- IH. f_equal. f_equal. f_equal.
      rewrite <- dict_set_shift. unfold shift_info. cbn. do 2 f_equal. lia.
    + cbn [ret]. rewrite !bind_eq, !on_fp_eval. cbn [fst snd].
      destruct (f_read (Some (CD_EXTRA_FIELD_LENGTH (unpack_central_dir cdir))) fp2)
        as [[ex | e |] fp3]; try reflexivity.
      cbn [fst snd]. rewrite !bind_eq, !on_fp_eval. cbn [fst snd].
      destruct (f_read (Some (CD_COMMENT_LENGTH (unpack_central_dir cdir))) fp3)
        as [[cm | e |] fp4]; try reflexivity.
      cbn [fst snd].
      destruct (negb (CD_COMPRESS_TYPE (unpack_central_dir cdir) =? ZIP_STORED));
        [reflexivity |].
      rewrite !bind_eq. cbn [modify fst snd ZipInfoRO.filename].
      rewrite <- IH. f_equal. f_equal. f_equal.
      rewrite <- dict_set_shift. unfold shift_info. cbn. do 2 f_equal. lia.
Qed.

Lemma last_bytes_app_long m (pre data : bytes) :
  0 <= m <= len data ->
  LocatorSpec.last_bytes m (pre ++ data) = LocatorSpec.last_bytes m data.
Proof.
  intros H. unfold LocatorSpec.last_bytes. rewrite len_app.
  rewrite skipn_app_l by (unfold len in *; lia). f_equal. unfold len in *. lia.
Qed.

Lemma last_bytes_app_short m (pre data : bytes) :
  len data <= m ->
  LocatorSpec.last_bytes m (pre ++ data)
  = LocatorSpec.last_bytes (m - len data) pre ++ data.
Proof.
  intros H. unfold LocatorSpec.last_bytes. rewrite len_app, skipn_app.
  f_equal; [f_equal; lia |].
  replace (Z.to_nat (len pre + len data - m) - length pre)%nat with 0%nat
    by (unfold len in *; lia).
  reflexivity.
Qed.

(** Bytes put before a source in which the locator finds a record leave
    the record found as it is, [len pre] bytes further. *)
Lemma locate_prepend pre data e :
  LocatorSpec.locate data = Some e ->
  LocatorSpec.locate (pre ++ data) = Some (shift_location (len pre) e).
Proof.
  intros H.
  assert (Hsize : LocatorSpec.EOCD_SIZE <= len data).
  { destruct (Z.le_gt_cases LocatorSpec.EOCD_SIZE (len data)) as [Hle | Hgt]; [exact Hle |].
    unfold LocatorSpec.locate in H.
    rewrite fast_short, scan_short in H by lia. discriminate. }
  assert (Htail : LocatorSpec.last_bytes LocatorSpec.EOCD_SIZE (pre ++ data)
                  = LocatorSpec.last_bytes LocatorSpec.EOCD_SIZE data).
  { apply last_bytes_app_long. unfold LocatorSpec.EOCD_SIZE in *. lia. }
  unfold LocatorSpec.locate in *. unfold LocatorSpec.fast in *. cbv zeta in *.
  rewrite Htail.
  set (tail := LocatorSpec.last_bytes LocatorSpec.EOCD_SIZE data) in *.
  destruct ((len tail =? LocatorSpec.EOCD_SIZE) && LocatorSpec.signature_matches tail
            && (LocatorSpec.comment_length tail =? 0)).
  - inversion H; subst e. unfold shift_location, LocatorSpec.decode, unpack_end_archive.
    cbn [ECD_SIGNATURE ECD_DISK_NUMBER ECD_DISK_START ECD_ENTRIES_THIS_DISK
         ECD_ENTRIES_TOTAL ECD_SIZE ECD_OFFSET ECD_COMMENT_SIZE ECD_COMMENT ECD_LOCATION].
    do 2 f_equal. rewrite len_app. lia.
  - unfold LocatorSpec.scan in *. cbv zeta in *.
    set (wf := LocatorSpec.last_bytes
                 (Z.min (len data) (LocatorSpec.KiB64 + LocatorSpec.EOCD_SIZE)) data) in *.
    set (wg := LocatorSpec.last_bytes
                 (Z.min (len (pre ++ data)) (LocatorSpec.KiB64 + LocatorSpec.EOCD_SIZE))
                 (pre ++ data)).
    assert (Hw : exists p', wg = p' ++ wf
                            /\ len (pre ++ data) - len wg + len p' = len pre + (len data - len wf)).
    { subst wf wg. rewrite len_app.
      pose proof (len_nonneg pre) as Hp. pose proof (len_nonneg data) as Hd.
      destruct (Z.le_gt_cases (LocatorSpec.KiB64 + LocatorSpec.EOCD_SIZE) (len data))
        as [Hbig | Hsmall].
      - exists []. rewrite !Z.min_r by lia.
        rewrite last_bytes_app_long by (unfold LocatorSpec.KiB64, LocatorSpec.EOCD_SIZE in *; lia).
        split; [reflexivity |]. change (len (@nil byte)) with 0. lia.
      - rewrite (Z.min_l (len data)) by lia.
        rewrite (last_bytes_short (n := len data) data) by lia.
        rewrite last_bytes_app_short by lia.
        eexists. split; [reflexivity |].
        rewrite len_app. lia. }
    destruct Hw as (p' & Hwg & Hloc).
    destruct (rfind wf _END_ARCHIVE_STRING) as [start |] eqn:Er; [| discriminate].
    pose proof (rfind_bounds _ _ Er) as Hb.
    rewrite Hwg at 1. rewrite (@rfind_app wf _END_ARCHIVE_STRING p' start Er).
    assert (Hskip : forall a, 0 <= a ->
              skipn (Z.to_nat (len p' + a)) wg = skipn (Z.to_nat a) wf).
    { intros a Ha. rewrite Hwg. rewrite skipn_app_l by (unfold len; lia).
      f_equal. unfold len. lia. }
    rewrite (Hskip start) by lia.
    replace (len p' + start + LocatorSpec.EOCD_SIZE)
      with (len p' + (start + LocatorSpec.EOCD_SIZE)) by lia.
    rewrite (Hskip (start + LocatorSpec.EOCD_SIZE)) by (unfold LocatorSpec.EOCD_SIZE; lia).
    destruct (len (firstn (Z.to_nat LocatorSpec.EOCD_SIZE) (skipn (Z.to_nat start) wf))
              =? LocatorSpec.EOCD_SIZE); [| discriminate].
    inversion H; subst e. unfold shift_location, LocatorSpec.decode, unpack_end_archive.
    cbn [ECD_SIGNATURE ECD_DISK_NUMBER ECD_DISK_START ECD_ENTRIES_THIS_DISK
         ECD_ENTRIES_TOTAL ECD_SIZE ECD_OFFSET ECD_COMMENT_SIZE ECD_COMMENT ECD_LOCATION].
    do 2 f_equal. lia.
Qed.

Lemma read_prepend pre f p k :
  0 <= p -> 0 <= k ->
  firstn (Z.to_nat k) (skipn (Z.to_nat (len pre + p)) (pre ++ f_data f))
  = firstn (Z.to_nat k) (skipn (Z.to_nat p) (f_data f)).
Proof.
  intros Hp Hk. rewrite skipn_app_l by (unfold len; lia). do 2 f_equal. unfold len. lia.
Qed.

(** With room for both probes before the record, the ZIP64 probe reads the
    same bytes whatever is put before the source. *)
Lemma update_prepend pre o e f :
  f_closed f = false ->
  probe_room <= f_size f + o ->
  fst (_end_archive_update_zip64 o (shift_location (len pre) e) (prepend pre f))
  = match fst (_end_archive_update_zip64 o e f) with
    | Ok r => Ok (shift_location (len pre) r)
    | Raise x => Raise x
    | OutOfFuel => OutOfFuel
    end.
Proof.
  intros Hc Hroom. unfold probe_room, _END_ARCHIVE64_LOCATOR_SIZE, _END_ARCHIVE64_SIZE in Hroom.
  set (g := prepend pre f).
  assert (Hcg : f_closed g = false) by exact Hc.
  assert (Hsg : f_size g = len pre + f_size f).
  { unfold g, prepend, f_size. cbn [f_data]. apply len_app. }
  pose proof (len_nonneg pre) as Hpre.
  unfold _end_archive_update_zip64.
  rewrite !bind_eq. unfold except_OSError. rewrite !bind_eq.
  rewrite (@f_seek_end f (o - _END_ARCHIVE64_LOCATOR_SIZE) Hc)
    by (unfold _END_ARCHIVE64_LOCATOR_SIZE; lia).
  rewrite (@f_seek_end g (o - _END_ARCHIVE64_LOCATOR_SIZE) Hcg)
    by (rewrite Hsg; unfold _END_ARCHIVE64_LOCATOR_SIZE; lia).
  cbn [ret negb]. rewrite !bind_eq, !f_read_eval by read_len. cbv zeta.
  match goal with |- context [set_pos ?p g] =>
    change (f_pos (set_pos p g)) with p; change (f_data (set_pos p g)) with (pre ++ f_data f)
  end.
  match goal with |- context [set_pos ?p f] =>
    change (f_pos (set_pos p f)) with p; change (f_data (set_pos p f)) with (f_data f)
  end.
  change (_END_ARCHIVE64_LOCATOR_SIZE <? 0) with false. cbv iota.
  rewrite Hsg.
  replace (len pre + f_size f + (o - _END_ARCHIVE64_LOCATOR_SIZE))
    with (len pre + (f_size f + (o - _END_ARCHIVE64_LOCATOR_SIZE))) by lia.
  rewrite read_prepend by (unfold _END_ARCHIVE64_LOCATOR_SIZE; lia).
  set (d1 := firstn (Z.to_nat _END_ARCHIVE64_LOCATOR_SIZE)
                    (skipn (Z.to_nat (f_size f + (o - _END_ARCHIVE64_LOCATOR_SIZE))) (f_data f))).
  rewrite !set_pos_set_pos.
  destruct (negb (len d1 =? _END_ARCHIVE64_LOCATOR_SIZE)); [reflexivity |].
  destruct (negb (bytes_eqb (slice d1 0 4) _END_ARCHIVE64_LOCATOR_STRING)); [reflexivity |].
  destruct (negb (field d1 4 4 =? 0) || (1 <? field d1 16 4)); [reflexivity |].
  rewrite !bind_eq.
  match goal with |- context [f_seek ?x 2 (set_pos ?p f)] =>
    rewrite (@f_seek_end (set_pos p f) x Hc)
      by (change (f_size (set_pos p f)) with (f_size f);
          unfold _END_ARCHIVE64_LOCATOR_SIZE, _END_ARCHIVE64_SIZE; lia)
  end.
  match goal with |- context [f_seek ?x 2 (set_pos ?p g)] =>
    rewrite (@f_seek_end (set_pos p g) x Hcg)
      by (change (f_size (set_pos p g)) with (f_size g); rewrite Hsg;
          unfold _END_ARCHIVE64_LOCATOR_SIZE, _END_ARCHIVE64_SIZE; lia)
  end.
  rewrite !bind_eq, !f_read_eval by read_len. cbv zeta.
  change (_END_ARCHIVE64_SIZE <? 0) with false. cbv iota.
  repeat match goal with |- context [f_size (set_pos ?p ?x)] =>
    change (f_size (set_pos p x)) with (f_size x) end.
  repeat match goal with |- context [f_pos (set_pos ?p ?x)] =>
    change (f_pos (set_pos p x)) with p end.
  repeat match goal with |- context [f_data (set_pos ?p ?x)] =>
    change (f_data (set_pos p x)) with (f_data x) end.
  change (f_data g) with (pre ++ f_data f). rewrite Hsg.
  replace (len pre + f_size f + (o - _END_ARCHIVE64_LOCATOR_SIZE - _END_ARCHIVE64_SIZE))
    with (len pre + (f_size f + (o - _END_ARCHIVE64_LOCATOR_SIZE - _END_ARCHIVE64_SIZE))) by lia.
  rewrite read_prepend by (unfold _END_ARCHIVE64_LOCATOR_SIZE, _END_ARCHIVE64_SIZE; lia).
  set (d2 := firstn (Z.to_nat _END_ARCHIVE64_SIZE) _).
  destruct (negb (len d2 =? _END_ARCHIVE64_SIZE)); [reflexivity |].
  destruct (negb (bytes_eqb (slice d2 0 4) _END_ARCHIVE64_STRING)); reflexivity.
Qed.

Lemma update_location o e : forall s r s',
  _end_archive_update_zip64 o e s = (Ok r, s') -> ECD_LOCATION r = ECD_LOCATION e.
Proof.
  intros s r s' H. unfold _end_archive_update_zip64 in H.
  repeat ok_step H.
  all: unfold ret in H; inversion H; reflexivity.
Qed.

Lemma update_size o e : forall s r s',
  0 <= ECD_SIZE e ->
  _end_archive_update_zip64 o e s = (Ok r, s') -> 0 <= ECD_SIZE r.
Proof.
  intros s r s' He H. unfold _end_archive_update_zip64 in H.
  repeat ok_step H.
  all: unfold ret in H; inversion H; subst; try exact He.
  cbn [ECD_SIZE]. apply field_nonneg.
Qed.

Lemma locate_size data e : LocatorSpec.locate data = Some e -> 0 <= ECD_SIZE e.
Proof.
  unfold LocatorSpec.locate, LocatorSpec.fast, LocatorSpec.scan, LocatorSpec.decode,
    unpack_end_archive.
  cbv zeta. intros H.
  repeat match type of H with
         | match (if ?c then _ else _) with _ => _ end = _ => destruct c
         | (if ?c then _ else _) = _ => destruct c
         | match ?x with Some _ => _ | None => _ end = _ => destruct x
         end;
    try discriminate H; inversion H; cbn [ECD_SIZE]; apply field_nonneg.
Qed.

(** The directory size of a record the locator returns is not negative:
    it is an unsigned field of the record or of the ZIP64 record. *)
Lemma extract_size f e :
  f_closed f = false -> fst (_extract_end_archive f) = Ok (Some e) -> 0 <= ECD_SIZE e.
Proof.
  intros Hc H. rewrite (@extract_refines f Hc) in H.
  destruct (LocatorSpec.locate (f_data f)) as [e0 |] eqn:El; [| discriminate H].
  apply locate_size in El. cbn [LocatorSpec.upgrade] in H.
  destruct (_end_archive_update_zip64 (ECD_LOCATION e0 - f_size f) e0 f)
    as [[r | x |] f1] eqn:Eu;
    unfold bind in H; rewrite Eu in H; try discriminate H.
  cbv [ret fst] in H. inversion H; subst r.
  exact (@update_size _ _ _ _ _ El Eu).
Qed.

(** What [_read_contents] does once the locator has returned a record. *)
Lemma read_contents_unfold codec f z endrec :
  f_closed f = false ->
  fst (_extract_end_archive f) = Ok (Some endrec) ->
  let start := ECD_OFFSET endrec + ZipFileRO.concat_of endrec in
  let data := directory_bytes f start (ECD_SIZE endrec) in
  let r := ZipFileRO.cd_loop codec (ZipFileRO.cd_fuel data) (ECD_SIZE endrec)
             (ZipFileRO.concat_of endrec) 0
             (ZipFileRO.BytesIO_of data, ZipFileRO._name_to_info z) in
  exists f1 f2,
    ZipFileRO._read_contents codec (ZipFileRO.mkWorld f z)
    = if start <? 0
      then (Raise (BadZipFile ZipFileRO.bad_offset_msg),
            ZipFileRO.mkWorld f1 (ZipFileRO.set_start_dir start z))
      else (fst r, ZipFileRO.mkWorld f2
                     (ZipFileRO.set_name_to_info (snd (snd r))
                                                 (ZipFileRO.set_start_dir start z))).
Proof.
  intros Hc He start data r.
  pose proof (@extract_size f endrec Hc He) as Hsize.
  unfold ZipFileRO._read_contents. rewrite bind_eq.
  unfold ZipFileRO.on_file at 1. unfold zoom. cbn [ZipFileRO.w_file ZipFileRO.w_zip].
  destruct (_extract_end_archive f) as [r0 f1] eqn:Ex. cbn [fst] in He. subst r0.
  pose proof Ex as Hfr. apply _extract_end_archive_frame in Hfr.
  destruct Hfr as (Hd & _ & _ & Hc1 & _). rewrite Hc in Hc1.
  cbv zeta. rewrite bind_eq. unfold ZipFileRO.upd at 1. unfold modify.
  cbn [ZipFileRO.w_file ZipFileRO.w_zip]. fold start.
  exists f1. destruct (start <? 0) eqn:Es; [exists f1; reflexivity |].
  apply Z.ltb_ge in Es.
  rewrite bind_eq. unfold ZipFileRO.on_file at 1. unfold zoom.
  cbn [ZipFileRO.w_file ZipFileRO.w_zip].
  rewrite (@f_seek_set f1 start Hc1 Es). cbv beta iota.
  rewrite bind_eq. unfold ZipFileRO.on_file at 1. unfold zoom.
  cbn [ZipFileRO.w_file ZipFileRO.w_zip].
  rewrite f_read_eval by (first [exact Hc1 | left; lia]). cbv beta iota zeta.
  change (f_pos (set_pos start f1)) with start.
  change (f_data (set_pos start f1)) with (f_data f1). rewrite Hd.
  unfold zoom. cbn [ZipFileRO.w_file ZipFileRO.w_zip ZipFileRO.set_start_dir
                     ZipFileRO._name_to_info].
  subst r data. unfold directory_bytes. cbv zeta.
  eexists.
  match goal with |- _ = (fst ?X, _) => set (R := X) end.
  match goal with |- (let (_, _) := ?Y in _) = _ => change Y with R end.
  destruct R as [rr [fp' d']]. cbn [fst snd]. reflexivity.
Qed.

Lemma directory_bytes_prepend pre f start size :
  0 <= start ->
  directory_bytes (prepend pre f) (start + len pre) size = directory_bytes f start size.
Proof.
  intros Hs. unfold directory_bytes, prepend. cbn [f_data].
  rewrite skipn_app_l by (unfold len; lia).
  replace (Z.to_nat (start + len pre) - length pre)%nat with (Z.to_nat start)
    by (unfold len; lia).
  reflexivity.
Qed.

Lemma concat_of_shift n e :
  ZipFileRO.concat_of (shift_location n e) = ZipFileRO.concat_of e + n.
Proof.
  unfold ZipFileRO.concat_of, shift_location. cbn [ECD_LOCATION ECD_SIZE ECD_OFFSET ECD_SIGNATURE].
  destruct (bytes_eqb (ECD_SIGNATURE e) _END_ARCHIVE64_STRING); lia.
Qed.

(** The record the locator returns for a source with bytes put before it. *)
Lemma extract_prepend pre f endrec :
  f_closed f = false ->
  fst (_extract_end_archive f) = Ok (Some endrec) ->
  probe_room <= ECD_LOCATION endrec ->
  fst (_extract_end_archive (prepend pre f)) = Ok (Some (shift_location (len pre) endrec)).
Proof.
  intros Hc He Hroom.
  rewrite extract_refines in He by exact Hc.
  rewrite extract_refines by exact Hc.
  change (f_data (prepend pre f)) with (pre ++ f_data f).
  destruct (LocatorSpec.locate (f_data f)) as [e0 |] eqn:El; [| discriminate He].
  rewrite (locate_prepend pre _ El).
  unfold LocatorSpec.upgrade in *. rewrite fst_bind_ret in *.
  destruct (_end_archive_update_zip64 (ECD_LOCATION e0 - f_size f) e0 f) as [r0 f'] eqn:Eu.
  cbn [fst] in He. destruct r0 as [r0 | |]; try discriminate He.
  inversion He; subst r0.
  pose proof (update_location _ _ _ Eu) as Hloc.
  assert (Hsg : f_size (prepend pre f) = len pre + f_size f).
  { unfold prepend, f_size. cbn [f_data]. apply len_app. }
  cbn [ECD_LOCATION shift_location]. rewrite Hsg.
  replace (ECD_LOCATION e0 + len pre - (len pre + f_size f))
    with (ECD_LOCATION e0 - f_size f) by lia.
  rewrite update_prepend; [| exact Hc | lia].
  rewrite Eu. reflexivity.
Qed.

Lemma new_of_read_contents codec file_passed f :
  fst (ZipFileRO.new codec file_passed f)
  = fst (ZipFileRO._read_contents codec (ZipFileRO.mkWorld f (ZipFileRO.fresh file_passed)))
  /\ (fst (ZipFileRO._read_contents codec (ZipFileRO.mkWorld f (ZipFileRO.fresh file_passed)))
      = Ok tt ->
      ZipFileRO.new codec file_passed f
      = ZipFileRO._read_contents codec (ZipFileRO.mkWorld f (ZipFileRO.fresh file_passed))).
Proof.
  unfold ZipFileRO.new, ZipFileRO.init, try_except.
  destruct (ZipFileRO._read_contents codec
              (ZipFileRO.mkWorld f (ZipFileRO.fresh file_passed))) as [r w] eqn:E.
  pose proof E as Hfr. apply read_contents_frame in Hfr.
  destruct Hfr as (_ & _ & _ & Hcount).
  cbn [ZipFileRO.w_zip ZipFileRO.fresh ZipFileRO._file_ref_count] in Hcount.
  destruct r as [[] | e |]; cbn [fst].
  - split; [reflexivity | intros _; reflexivity].
  - split; [| discriminate].
    rewrite bind_eq. unfold ZipFileRO.upd at 1. unfold modify. cbv beta iota.
    rewrite bind_eq. rewrite _close_spec by (cbn; lia). reflexivity.
  - split; [reflexivity | discriminate].
Qed.

End PrefixFacts.

(** ** Entries this reader does not support *)

(** A read of [n] bytes from an open source whose cursor is at the running
    total [t] or past the end: what it returns, and where it leaves the
    cursor. *)
Lemma f_read_inv fp n t :
  f_closed fp = false -> 0 <= n -> 0 <= f_pos fp ->
  (f_pos fp = t \/ len (f_data fp) <= f_pos fp) ->
  exists bs fp',
    f_read (Some n) fp = (Ok bs, fp')
    /\ bs = firstn (Z.to_nat n) (skipn (Z.to_nat (f_pos fp)) (f_data fp))
    /\ len bs = Z.min n (Z.max 0 (len (f_data fp) - f_pos fp))
    /\ f_data fp' = f_data fp /\ f_closed fp' = false
    /\ f_pos fp' = f_pos fp + len bs
    /\ (f_pos fp' = t + n \/ len (f_data fp) <= f_pos fp').
Proof.
  intros Hc Hn Hp Hi.
  assert (Hr : readable_length fp (Some n)) by (left; lia).
  rewrite (@f_read_eval fp (Some n) Hc Hr). cbv zeta.
  destruct (n <? 0) eqn:En; [apply Z.ltb_lt in En; lia |].
  set (bs := firstn (Z.to_nat n) (skipn (Z.to_nat (f_pos fp)) (f_data fp))).
  assert (Hl : len bs = Z.min n (Z.max 0 (len (f_data fp) - f_pos fp))).
  { unfold bs. rewrite len_firstn, len_skipn. lia. }
  exists bs, (set_pos (f_pos fp + len bs) fp).
  repeat split; try reflexivity; try assumption.
  cbn [set_pos f_pos]. lia.
Qed.

Section Unsupported.
Variable codec : Codec.

(** The directory loop on the bytes [data]: it does not run out of fuel,
    and when it ends without an error every record it went through is a
    stored one. *)
Lemma cd_loop_stored size_cd concat data : forall fuel total fp d,
  f_data fp = data -> f_closed fp = false -> 0 <= total -> 0 <= f_pos fp ->
  (f_pos fp = total \/ len data <= f_pos fp) ->
  Z.max 0 (len data - f_pos fp) < Z.of_nat fuel ->
  let r := fst (ZipFileRO.cd_loop codec fuel size_cd concat total (fp, d)) in
  r <> OutOfFuel
  /\ (r = Ok tt ->
      Forall (fun off => CD_COMPRESS_TYPE (Directory.record data off) = ZIP_STORED)
             (Directory.offsets fuel data size_cd total)).
Proof.
  induction fuel as [| k IH]; intros total fp d Hd Hc Ht Hp Hi Hf; [lia |].
  cbn [ZipFileRO.cd_loop Directory.offsets].
  destruct (total <? size_cd) eqn:Et;
    [| cbn; split; [discriminate | intros _; constructor]].
  rewrite !bind_eq, !on_fp_eval.
  assert (H46 : 0 <= _CENTRAL_DIR_SIZE) by (unfold _CENTRAL_DIR_SIZE; lia).
  destruct (@f_read_inv fp _CENTRAL_DIR_SIZE total Hc H46 Hp)
    as (raw & fp1 & E1 & Hraw & Hl1 & Hd1 & Hc1 & Hp1 & Hi1);
    [rewrite Hd; exact Hi |].
  rewrite E1. cbn [fst snd].
  destruct (len raw =? _CENTRAL_DIR_SIZE) eqn:El; cbn [negb];
    [| cbn; split; discriminate].
  apply Z.eqb_eq in El.
  assert (Hpos : f_pos fp = total).
  { destruct Hi as [Hi | Hi]; [exact Hi |]. rewrite Hd in Hl1.
    unfold _CENTRAL_DIR_SIZE in *. lia. }
  assert (Hrec : unpack_central_dir raw = Directory.record data total).
  { unfold Directory.record. rewrite slice_at.
    - rewrite Hraw, Hd, Hpos. reflexivity.
    - rewrite Hd in Hl1. unfold _CENTRAL_DIR_SIZE in *. lia.
    - exact H46. }
  cbv zeta. set (cdir := unpack_central_dir raw) in *.
  destruct (bytes_eqb (CD_SIGNATURE cdir) _CENTRAL_DIR_STRING); cbn [negb];
    [| cbn; split; discriminate].
  rewrite !bind_eq, !on_fp_eval.
  assert (Hp1' : 0 <= f_pos fp1) by (pose proof (len_nonneg raw); lia).
  destruct (@f_read_inv fp1 (CD_FILENAME_LENGTH cdir) (total + _CENTRAL_DIR_SIZE) Hc1
              (field_nonneg _ _ _) Hp1')
    as (nm & fp2 & E2 & _ & Hl2 & Hd2 & Hc2 & Hp2 & Hi2);
    [rewrite Hd1, Hd; lia |].
  rewrite E2. cbn [fst snd]. rewrite !bind_eq.
  assert (Hp2' : 0 <= f_pos fp2) by (pose proof (len_nonneg nm); lia).
  destruct (@f_read_inv fp2 (CD_EXTRA_FIELD_LENGTH cdir)
              (total + _CENTRAL_DIR_SIZE + CD_FILENAME_LENGTH cdir) Hc2
              (field_nonneg _ _ _) Hp2')
    as (ex & fp3 & E3 & _ & Hl3 & Hd3 & Hc3 & Hp3 & Hi3);
    [rewrite Hd2; exact Hi2 |].
  assert (Hp3' : 0 <= f_pos fp3) by (pose proof (len_nonneg ex); lia).
  destruct (@f_read_inv fp3 (CD_COMMENT_LENGTH cdir)
              (total + _CENTRAL_DIR_SIZE + CD_FILENAME_LENGTH cdir
               + CD_EXTRA_FIELD_LENGTH cdir) Hc3
              (field_nonneg _ _ _) Hp3')
    as (cm & fp4 & E4 & _ & Hl4 & Hd4 & Hc4 & Hp4 & Hi4);
    [rewrite Hd3; exact Hi3 |].
  assert (Hnext : total + _CENTRAL_DIR_SIZE + CD_FILENAME_LENGTH cdir
                  + CD_EXTRA_FIELD_LENGTH cdir + CD_COMMENT_LENGTH cdir
                  = Directory.next data total).
  { unfold Directory.next. cbv zeta. rewrite <- Hrec. reflexivity. }
  assert (Hrest : forall name d',
    let r := fst (bind (ZipFileRO.on_fp (f_read (Some (CD_EXTRA_FIELD_LENGTH cdir))))
               (fun _ => bind (ZipFileRO.on_fp (f_read (Some (CD_COMMENT_LENGTH cdir))))
               (fun _ =>
                  if negb (CD_COMPRESS_TYPE cdir =? ZIP_STORED) then raise AssertionError else
                  bind (modify (fun s : ZipFileRO.CdSt =>
                          (fst s, dict_set (snd s)
                             (ZipInfoRO.filename
                                (ZipInfoRO.mk name (CD_FLAG_BITS cdir)
                                   (CD_LOCAL_HEADER_OFFSET cdir + concat)
                                   (CD_COMPRESSED_SIZE cdir) (CD_UNCOMPRESSED_SIZE cdir)))
                             (ZipInfoRO.mk name (CD_FLAG_BITS cdir)
                                   (CD_LOCAL_HEADER_OFFSET cdir + concat)
                                   (CD_COMPRESSED_SIZE cdir) (CD_UNCOMPRESSED_SIZE cdir)))))
                    (fun _ => ZipFileRO.cd_loop codec k size_cd concat
                       (total + _CENTRAL_DIR_SIZE + CD_FILENAME_LENGTH cdir
                        + CD_EXTRA_FIELD_LENGTH cdir + CD_COMMENT_LENGTH cdir))))
               (fp2, d')) in
    r <> OutOfFuel
    /\ (r = Ok tt ->
        Forall (fun off => CD_COMPRESS_TYPE (Directory.record data off) = ZIP_STORED)
               (total :: Directory.offsets k data size_cd (Directory.next data total)))).
  { intros name d'. cbv zeta.
    rewrite !bind_eq, !on_fp_eval. rewrite E3. cbn [fst snd].
    rewrite !bind_eq, !on_fp_eval. rewrite E4. cbn [fst snd].
    destruct (CD_COMPRESS_TYPE cdir =? ZIP_STORED) eqn:Em; cbn [negb];
      [| cbn; split; discriminate].
    apply Z.eqb_eq in Em.
    rewrite bind_eq. cbn [modify fst snd].
    rewrite Hnext.
    match goal with
    | |- context [ZipFileRO.cd_loop codec k size_cd concat _ (fp4, ?D)] =>
        destruct (IH (Directory.next data total) fp4 D) as [Hn Hok]
    end.
    - rewrite Hd4, Hd3, Hd2, Hd1. exact Hd.
    - exact Hc4.
    - rewrite <- Hnext. pose proof (field_nonneg raw 28 2). pose proof (field_nonneg raw 30 2).
      pose proof (field_nonneg raw 32 2).
      unfold cdir, unpack_central_dir, _CENTRAL_DIR_SIZE. cbn [CD_FILENAME_LENGTH CD_EXTRA_FIELD_LENGTH CD_COMMENT_LENGTH]. lia.
    - pose proof (len_nonneg cm). lia.
    - rewrite <- Hnext. rewrite Hd3, Hd2, Hd1, Hd in Hi4. exact Hi4.
    - pose proof (len_nonneg cm). pose proof (len_nonneg ex). pose proof (len_nonneg nm).
      rewrite Hd in Hl1. unfold _CENTRAL_DIR_SIZE in *. lia.
    - split; [exact Hn |]. intros Hr. constructor; [| exact (Hok Hr)].
      rewrite <- Hrec. exact Em. }
  unfold ZipFileRO.decode_name.
  destruct (has_flag (CD_FLAG_BITS cdir) _MASK_UTF_FILENAME).
  - destruct (decode_utf8 codec nm) as [name |]; [| cbn; split; discriminate].
    cbn [ret]. exact (Hrest name d).
  - cbn [ret]. exact (Hrest (decode_cp437 codec nm) d).
Qed.
End Unsupported.

Section UnsupportedOpen.
Variable codec : Codec.

(** On an open handle that holds a reference, [open] ends as its [try]
    block does. *)
Lemma open_eval name w zinfo :
  ZipFileRO._file (ZipFileRO.w_zip w) = true ->
  resolves name w zinfo ->
  0 < ZipFileRO._file_ref_count (ZipFileRO.w_zip w) ->
  fst (ZipFileRO.open codec name w)
  = fst (ZipFileRO.open_body codec zinfo
           (ZipFileRO.w_file w, SharedFileRO.mk true (ZipInfoRO.header_offset zinfo))).
Proof.
  intros Hf Hr Hpos. unfold ZipFileRO.open.
  rewrite bind_eq. cbv [ZipFileRO.self]. rewrite Hf. cbn [negb].
  rewrite bind_eq.
  assert (Hz : (match name with
                | inl name0 => ZipFileRO.getinfo name0
                | inr zinfo0 => ret zinfo0
                end) w = (Ok zinfo, w)).
  { destruct name as [n | zi]; cbn in Hr.
    - cbv [ZipFileRO.getinfo ZipFileRO.self bind ret raise]. rewrite Hr. reflexivity.
    - subst zi. reflexivity. }
  rewrite Hz. rewrite bind_eq. cbv [ZipFileRO.upd modify].
  unfold run_local, try_except, zoom. cbn [fst snd ZipFileRO.w_file ZipFileRO.w_zip].
  destruct (ZipFileRO.open_body codec zinfo
              (ZipFileRO.w_file w, SharedFileRO.mk true (ZipInfoRO.header_offset zinfo)))
    as [r [f1 zef1]] eqn:Eb.
  apply open_body_frame in Eb. destruct Eb as [_ Hzef]. cbn [fst snd] in Hzef.
  destruct r as [part | e1 |]; cbn [fst snd]; try reflexivity.
  unfold SharedFileRO.close, bind, modify, zoom, raise, ret. cbn [fst snd].
  cbn [SharedFileRO._file] in Hzef. rewrite Hzef.
  unfold ZipFileRO._close, ZipFileRO.self, ZipFileRO.upd, ZipFileRO.on_file, bind, modify, zoom, raise, ret.
  cbn [fst snd ZipFileRO.w_zip ZipFileRO.w_file ZipFileRO._file_ref_count ZipFileRO.set_ref_count ZipFileRO._file_passed].
  assert (E1 : (0 <? ZipFileRO._file_ref_count (ZipFileRO.w_zip w) + 1) = true) by (apply Z.ltb_lt; lia).
  assert (E2 : (ZipFileRO._file_ref_count (ZipFileRO.w_zip w) + 1 - 1 =? 0) = false) by (apply Z.eqb_neq; lia).
  rewrite E1, E2. reflexivity.
Qed.

(** The [try] block of [open] returns no reader for an entry with the
    encrypted flag. *)
Lemma open_body_encrypted zinfo s :
  has_flag (ZipInfoRO.flag_bits zinfo) _MASK_ENCRYPTED = true ->
  forall p s', ZipFileRO.open_body codec zinfo s <> (Ok p, s').
Proof.
  intros He p s' H. unfold ZipFileRO.open_body in H. cbv zeta in H.
  rewrite He in H.
  repeat ok_step H.
Qed.

(** Where the [try] block of [open] returns a reader for an entry, it
    raises [NotImplementedError] for an entry of the same name, with or
    without the other two flags, that is marked encrypted. *)
Lemma open_body_flagged zinfo zinfo0 s p s' :
  ZipInfoRO.filename zinfo0 = ZipInfoRO.filename zinfo ->
  has_flag (ZipInfoRO.flag_bits zinfo) _MASK_ENCRYPTED = true ->
  ZipFileRO.open_body codec zinfo0 s = (Ok p, s') ->
  exists msg, fst (ZipFileRO.open_body codec zinfo s) = Raise (NotImplementedError msg).
Proof.
  intros Hn He H. unfold ZipFileRO.open_body in *. cbv zeta in *.
  rewrite He. rewrite Hn in H.
  rewrite bind_eq in *.
  destruct (SharedFileRO.read _FILE_HEADER_SIZE s) as [[fh | e |] s1]; try discriminate H.
  destruct (negb (len fh =? _FILE_HEADER_SIZE)); [discriminate H |].
  destruct (negb (bytes_eqb (FH_SIGNATURE (unpack_file_header fh)) _FILE_HEADER_STRING));
    [discriminate H |].
  rewrite bind_eq in *.
  destruct (SharedFileRO.read (FH_FILENAME_LENGTH (unpack_file_header fh)) s1)
    as [[fname | e |] s2]; try discriminate H.
  rewrite bind_eq in *.
  match type of H with
  | match ?m s2 with _ => _ end = _ => destruct (m s2) as [[[] | e |] s3]; try discriminate H
  end.
  destruct (has_flag (ZipInfoRO.flag_bits zinfo0) _MASK_COMPRESSED_PATCH); [discriminate H |].
  destruct (has_flag (ZipInfoRO.flag_bits zinfo0) _MASK_STRONG_ENCRYPTION); [discriminate H |].
  destruct (has_flag (ZipInfoRO.flag_bits zinfo) _MASK_COMPRESSED_PATCH); [eexists; reflexivity |].
  destruct (has_flag (ZipInfoRO.flag_bits zinfo) _MASK_STRONG_ENCRYPTION); [eexists; reflexivity |].
  rewrite bind_eq in *.
  destruct (ZipFileRO.decode_name codec
              (FH_GENERAL_PURPOSE_FLAG_BITS (unpack_file_header fh)) fname s3)
    as [[nm | e |] s4]; try discriminate H.
  destruct (negb (str_eqb nm (ZipInfoRO.filename zinfo))); [discriminate H |].
  eexists; reflexivity.
Qed.

(** An entry marked encrypted: [open] raises, the handle is as before, and
    the error is [NotImplementedError] wherever the same entry without the
    flags would have been opened. *)
Lemma open_encrypted name w zinfo :
  resolves name w zinfo ->
  has_flag (ZipInfoRO.flag_bits zinfo) _MASK_ENCRYPTED = true ->
  0 < ZipFileRO._file_ref_count (ZipFileRO.w_zip w) ->
  exists e w',
    ZipFileRO.open codec name w = (Raise e, w')
    /\ ZipFileRO.w_zip w' = ZipFileRO.w_zip w
    /\ forall zinfo0 p w0,
         ZipInfoRO.filename zinfo0 = ZipInfoRO.filename zinfo ->
         ZipInfoRO.header_offset zinfo0 = ZipInfoRO.header_offset zinfo ->
         ZipFileRO.open codec (inr zinfo0) w = (Ok p, w0) ->
         exists msg, e = NotImplementedError msg.
Proof.
  intros Hr He Hpos.
  destruct (ZipFileRO._file (ZipFileRO.w_zip w)) eqn:Ef.
  - pose proof (@open_eval name w zinfo Ef Hr Hpos) as Hev.
    destruct (ZipFileRO.open codec name w) as [[p | e |] w'] eqn:E; cbn [fst] in Hev.
    + exfalso.
      destruct (ZipFileRO.open_body codec zinfo
                  (ZipFileRO.w_file w, SharedFileRO.mk true (ZipInfoRO.header_offset zinfo)))
        as [r s'] eqn:Eb.
      cbn [fst] in Hev. subst r. exact (@open_body_encrypted zinfo _ He p s' Eb).
    + exists e, w'. split; [reflexivity |].
      split; [exact (proj1 (@failed_open_restores codec name w e w' Hpos E)) |].
      intros zinfo0 p w0 Hn Ho H0.
      assert (Hr0 : resolves (inr zinfo0) w zinfo0) by reflexivity.
      pose proof (@open_eval (inr zinfo0) w zinfo0 Ef Hr0 Hpos) as Hev0.
      rewrite H0, Ho in Hev0. cbn [fst] in Hev0.
      destruct (ZipFileRO.open_body codec zinfo0
                  (ZipFileRO.w_file w, SharedFileRO.mk true (ZipInfoRO.header_offset zinfo)))
        as [r0 s0] eqn:Eb0.
      cbn [fst] in Hev0. subst r0.
      destruct (@open_body_flagged zinfo zinfo0 _ p s0 Hn He Eb0) as [msg Hm].
      exists msg. rewrite Hm in Hev. congruence.
    + exfalso. apply (@total_open codec name w). rewrite E. reflexivity.
  - exists (ValueError ZipFileRO.closed_zip_msg), w.
    split; [| split; [reflexivity |]].
    + unfold ZipFileRO.open. rewrite bind_eq. cbv [ZipFileRO.self]. rewrite Ef. reflexivity.
    + intros zinfo0 p w0 _ _ H0. apply open_ok in H0. destruct H0 as [H0 _]. congruence.
Qed.
End UnsupportedOpen.


Section UnsupportedParse.
Variable codec : Codec.

(** A turn of the directory loop on a whole record with the directory
    signature and a name that decodes, whose compression method is not
    [ZIP_STORED]: the [assert] fails. *)
Lemma cd_loop_method fuel size_cd concat total fp d :
  f_closed fp = false -> 0 <= total -> f_pos fp = total -> total < size_cd ->
  total + _CENTRAL_DIR_SIZE <= len (f_data fp) ->
  let cdir := Directory.record (f_data fp) total in
  bytes_eqb (CD_SIGNATURE cdir) _CENTRAL_DIR_STRING = true ->
  (has_flag (CD_FLAG_BITS cdir) _MASK_UTF_FILENAME = true ->
   decode_utf8 codec (slice (f_data fp) (total + _CENTRAL_DIR_SIZE)
                        (total + _CENTRAL_DIR_SIZE + CD_FILENAME_LENGTH cdir)) <> None) ->
  CD_COMPRESS_TYPE cdir <> ZIP_STORED ->
  fst (ZipFileRO.cd_loop codec (S fuel) size_cd concat total (fp, d)) = Raise AssertionError.
Proof.
  intros Hc Ht Hpos Hlt Hlen cdir Hsig Hname Hm.
  cbn [ZipFileRO.cd_loop].
  replace (total <? size_cd) with true by (symmetry; apply Z.ltb_lt; exact Hlt).
  rewrite !bind_eq, !on_fp_eval.
  assert (H46 : 0 <= _CENTRAL_DIR_SIZE) by (unfold _CENTRAL_DIR_SIZE; lia).
  assert (Hp : 0 <= f_pos fp) by lia.
  destruct (@f_read_inv fp _CENTRAL_DIR_SIZE total Hc H46 Hp (or_introl Hpos))
    as (raw & fp1 & E1 & Hraw & Hl1 & Hd1 & Hc1 & Hp1 & Hi1).
  rewrite E1. cbn [fst snd].
  assert (El : len raw = _CENTRAL_DIR_SIZE) by lia.
  rewrite El, Z.eqb_refl. cbn [negb]. cbv zeta.
  assert (Hrec : unpack_central_dir raw = cdir).
  { unfold cdir, Directory.record. rewrite slice_at by lia.
    rewrite Hraw, Hpos. reflexivity. }
  rewrite Hrec, Hsig. cbn [negb].
  rewrite !bind_eq, !on_fp_eval.
  assert (Hp1' : 0 <= f_pos fp1) by lia.
  destruct (@f_read_inv fp1 (CD_FILENAME_LENGTH cdir) (total + _CENTRAL_DIR_SIZE) Hc1
              (field_nonneg _ _ _) Hp1')
    as (nm & fp2 & E2 & Hnm & Hl2 & Hd2 & Hc2 & Hp2 & Hi2); [left; lia |].
  rewrite E2. cbn [fst snd]. rewrite !bind_eq.
  assert (Hp2' : 0 <= f_pos fp2) by (pose proof (len_nonneg nm); lia).
  destruct (@f_read_inv fp2 (CD_EXTRA_FIELD_LENGTH cdir) (f_pos fp2) Hc2
              (field_nonneg _ _ _) Hp2' (or_introl eq_refl))
    as (ex & fp3 & E3 & _ & Hl3 & Hd3 & Hc3 & Hp3 & Hi3).
  assert (Hp3' : 0 <= f_pos fp3) by (pose proof (len_nonneg ex); lia).
  destruct (@f_read_inv fp3 (CD_COMMENT_LENGTH cdir) (f_pos fp3) Hc3
              (field_nonneg _ _ _) Hp3' (or_introl eq_refl))
    as (cm & fp4 & E4 & _ & Hl4 & Hd4 & Hc4 & Hp4 & Hi4).
  assert (Em : (CD_COMPRESS_TYPE cdir =? ZIP_STORED) = false) by (apply Z.eqb_neq; exact Hm).
  assert (Hslice : nm = slice (f_data fp) (total + _CENTRAL_DIR_SIZE)
                          (total + _CENTRAL_DIR_SIZE + CD_FILENAME_LENGTH cdir)).
  { rewrite slice_at; [| lia | apply field_nonneg].
    rewrite Hnm, Hd1. f_equal. f_equal. f_equal. lia. }
  unfold ZipFileRO.decode_name.
  destruct (has_flag (CD_FLAG_BITS cdir) _MASK_UTF_FILENAME) eqn:Eu.
  - specialize (Hname eq_refl). rewrite <- Hslice in Hname.
    destruct (decode_utf8 codec nm) as [name |]; [| congruence].
    cbn [ret]. rewrite !bind_eq, !on_fp_eval. rewrite E3. cbn [fst snd].
    rewrite !bind_eq, !on_fp_eval. rewrite E4. cbn [fst snd].
    rewrite Em. reflexivity.
  - cbn [ret]. rewrite !bind_eq, !on_fp_eval. rewrite E3. cbn [fst snd].
    rewrite !bind_eq, !on_fp_eval. rewrite E4. cbn [fst snd].
    rewrite Em. reflexivity.
Qed.

(** [ZipFileRO(file)] on a source in which the locator finds a record:
    it raises, or it returns and every record of the directory is a stored
    one. *)
Lemma new_stored file_passed f endrec :
  f_closed f = false ->
  fst (_extract_end_archive f) = Ok (Some endrec) ->
  let data := Prefixed.directory_bytes f (ECD_OFFSET endrec + ZipFileRO.concat_of endrec)
                (ECD_SIZE endrec) in
  (exists e, fst (ZipFileRO.new codec file_passed f) = Raise e)
  \/ (fst (ZipFileRO.new codec file_passed f) = Ok tt
      /\ Forall (fun cdir => CD_COMPRESS_TYPE cdir = ZIP_STORED)
                (Directory.records data (ECD_SIZE endrec))).
Proof.
  intros Hc He data.
  rewrite (proj1 (@new_of_read_contents codec file_passed f)).
  destruct (@read_contents_unfold codec f (ZipFileRO.fresh file_passed) endrec Hc He)
    as (f1 & f2 & Hrc).
  rewrite Hrc. fold data.
  destruct (ECD_OFFSET endrec + ZipFileRO.concat_of endrec <? 0);
    [left; eexists; reflexivity |].
  cbn [fst ZipFileRO.fresh ZipFileRO._name_to_info].
  destruct (@cd_loop_stored codec (ECD_SIZE endrec) (ZipFileRO.concat_of endrec) data
              (ZipFileRO.cd_fuel data) 0 (ZipFileRO.BytesIO_of data) [])
    as [Hn Hok]; try reflexivity; try (cbn; lia).
  { cbn [ZipFileRO.BytesIO_of f_pos]. unfold ZipFileRO.cd_fuel, len. lia. }
  cbv zeta in Hn, Hok.
  match type of Hn with
  | ?R <> _ =>
      change ((exists e, R = Raise e)
              \/ (R = Ok tt
                  /\ Forall (fun cdir => CD_COMPRESS_TYPE cdir = ZIP_STORED)
                            (Directory.records data (ECD_SIZE endrec))));
      set (r := R) in *
  end.
  clearbody r. destruct r as [[] | e |].
  - right. split; [reflexivity |].
    unfold Directory.records. apply Forall_map. exact (Hok eq_refl).
  - left. exists e. reflexivity.
  - contradiction.
Qed.
End UnsupportedParse.

(** ** The first record the directory loop refuses *)

Section FirstRefused.
Variable codec : Codec.

Lemma next_ge data total : total + _CENTRAL_DIR_SIZE <= Directory.next data total.
Proof.
  unfold Directory.next, Directory.record, unpack_central_dir. cbv zeta.
  cbn [CD_FILENAME_LENGTH CD_EXTRA_FIELD_LENGTH CD_COMMENT_LENGTH].
  pose proof (field_nonneg (slice data total (total + _CENTRAL_DIR_SIZE)) 28 2).
  pose proof (field_nonneg (slice data total (total + _CENTRAL_DIR_SIZE)) 30 2).
  pose proof (field_nonneg (slice data total (total + _CENTRAL_DIR_SIZE)) 32 2).
  lia.
Qed.

Lemma offsets_ge data size_cd : forall fuel total off,
  In off (Directory.offsets fuel data size_cd total) -> total <= off.
Proof.
  induction fuel as [| k IH]; intros total off H; cbn [Directory.offsets] in H;
    destruct (total <? size_cd); try contradiction.
  destruct H as [H | H]; [lia |].
  apply IH in H. pose proof (next_ge data total). unfold _CENTRAL_DIR_SIZE in *. lia.
Qed.

(** A turn of the loop on an accepted record that the directory bytes hold
    with its name, extra field and comment: the entry is added and the loop
    goes on at the next running total. *)
Lemma cd_loop_turn fuel size_cd concat total fp d :
  f_closed fp = false -> 0 <= total -> f_pos fp = total -> total < size_cd ->
  EntryTable.accepted codec (f_data fp) total ->
  Directory.next (f_data fp) total <= len (f_data fp) ->
  exists fp',
    f_data fp' = f_data fp /\ f_closed fp' = false
    /\ f_pos fp' = Directory.next (f_data fp) total
    /\ ZipFileRO.cd_loop codec (S fuel) size_cd concat total (fp, d)
       = ZipFileRO.cd_loop codec fuel size_cd concat (Directory.next (f_data fp) total)
           (fp', EntryTable.add codec (f_data fp) concat d total).
Proof.
  intros Hc Ht Hpos Hlt (Hlen & Hsig & Hname & Hm) Hnext.
  set (cdir := Directory.record (f_data fp) total) in *.
  cbn [ZipFileRO.cd_loop].
  replace (total <? size_cd) with true by (symmetry; apply Z.ltb_lt; exact Hlt).
  rewrite !bind_eq, !on_fp_eval.
  assert (H46 : 0 <= _CENTRAL_DIR_SIZE) by (unfold _CENTRAL_DIR_SIZE; lia).
  assert (Hp : 0 <= f_pos fp) by lia.
  destruct (@f_read_inv fp _CENTRAL_DIR_SIZE total Hc H46 Hp (or_introl Hpos))
    as (raw & fp1 & E1 & Hraw & Hl1 & Hd1 & Hc1 & Hp1 & Hi1).
  rewrite E1. cbn [fst snd].
  assert (El : len raw = _CENTRAL_DIR_SIZE) by lia.
  rewrite El, Z.eqb_refl. cbn [negb]. cbv zeta.
  assert (Hrec : unpack_central_dir raw = cdir).
  { unfold cdir, Directory.record. rewrite slice_at by lia.
    rewrite Hraw, Hpos. reflexivity. }
  rewrite Hrec, Hsig. cbn [negb].
  assert (Hn : Directory.next (f_data fp) total
               = total + _CENTRAL_DIR_SIZE + CD_FILENAME_LENGTH cdir
                 + CD_EXTRA_FIELD_LENGTH cdir + CD_COMMENT_LENGTH cdir) by reflexivity.
  pose proof (field_nonneg (slice (f_data fp) total (total + _CENTRAL_DIR_SIZE)) 28 2) as Hf1.
  pose proof (field_nonneg (slice (f_data fp) total (total + _CENTRAL_DIR_SIZE)) 30 2) as Hf2.
  pose proof (field_nonneg (slice (f_data fp) total (total + _CENTRAL_DIR_SIZE)) 32 2) as Hf3.
  change (field (slice (f_data fp) total (total + _CENTRAL_DIR_SIZE)) 28 2)
    with (CD_FILENAME_LENGTH cdir) in Hf1.
  change (field (slice (f_data fp) total (total + _CENTRAL_DIR_SIZE)) 30 2)
    with (CD_EXTRA_FIELD_LENGTH cdir) in Hf2.
  change (field (slice (f_data fp) total (total + _CENTRAL_DIR_SIZE)) 32 2)
    with (CD_COMMENT_LENGTH cdir) in Hf3.
  rewrite !bind_eq, !on_fp_eval.
  assert (Hp1' : 0 <= f_pos fp1) by lia.
  destruct (@f_read_inv fp1 (CD_FILENAME_LENGTH cdir) (total + _CENTRAL_DIR_SIZE) Hc1
              Hf1 Hp1')
    as (nm & fp2 & E2 & Hnm & Hl2 & Hd2 & Hc2 & Hp2 & Hi2); [left; lia |].
  rewrite E2. cbn [fst snd]. rewrite !bind_eq.
  assert (Hp2' : 0 <= f_pos fp2) by (pose proof (len_nonneg nm); lia).
  destruct (@f_read_inv fp2 (CD_EXTRA_FIELD_LENGTH cdir) (f_pos fp2) Hc2
              Hf2 Hp2' (or_introl eq_refl))
    as (ex & fp3 & E3 & _ & Hl3 & Hd3 & Hc3 & Hp3 & Hi3).
  assert (Hp3' : 0 <= f_pos fp3) by (pose proof (len_nonneg ex); lia).
  destruct (@f_read_inv fp3 (CD_COMMENT_LENGTH cdir) (f_pos fp3) Hc3
              Hf3 Hp3' (or_introl eq_refl))
    as (cm & fp4 & E4 & _ & Hl4 & Hd4 & Hc4 & Hp4 & Hi4).
  assert (Em : (CD_COMPRESS_TYPE cdir =? ZIP_STORED) = true) by (apply Z.eqb_eq; exact Hm).
  assert (Hslice : nm = slice (f_data fp) (total + _CENTRAL_DIR_SIZE)
                          (total + _CENTRAL_DIR_SIZE + CD_FILENAME_LENGTH cdir)).
  { rewrite slice_at; [| lia | exact Hf1].
    rewrite Hnm, Hd1. f_equal. f_equal. f_equal. lia. }
  assert (Hpos4 : f_pos fp4 = Directory.next (f_data fp) total).
  { rewrite Hd3, Hd2, Hd1 in Hl4. rewrite Hd2, Hd1 in Hl3. rewrite Hd1 in Hl2. lia. }
  exists fp4.
  split; [rewrite Hd4, Hd3, Hd2, Hd1; reflexivity |]. split; [exact Hc4 |].
  split; [exact Hpos4 |].
  assert (Hrest : forall name,
    EntryTable.name codec (f_data fp) total = Some name ->
    bind (ZipFileRO.on_fp (f_read (Some (CD_EXTRA_FIELD_LENGTH cdir))))
      (fun _ => bind (ZipFileRO.on_fp (f_read (Some (CD_COMMENT_LENGTH cdir))))
      (fun _ =>
         if negb (CD_COMPRESS_TYPE cdir =? ZIP_STORED) then raise AssertionError else
         bind (modify (fun s : ZipFileRO.CdSt =>
                 (fst s, dict_set (snd s)
                    (ZipInfoRO.filename
                       (ZipInfoRO.mk name (CD_FLAG_BITS cdir)
                          (CD_LOCAL_HEADER_OFFSET cdir + concat)
                          (CD_COMPRESSED_SIZE cdir) (CD_UNCOMPRESSED_SIZE cdir)))
                    (ZipInfoRO.mk name (CD_FLAG_BITS cdir)
                          (CD_LOCAL_HEADER_OFFSET cdir + concat)
                          (CD_COMPRESSED_SIZE cdir) (CD_UNCOMPRESSED_SIZE cdir)))))
           (fun _ => ZipFileRO.cd_loop codec fuel size_cd concat
              (total + _CENTRAL_DIR_SIZE + CD_FILENAME_LENGTH cdir
               + CD_EXTRA_FIELD_LENGTH cdir + CD_COMMENT_LENGTH cdir))))
      (fp2, d)
    = ZipFileRO.cd_loop codec fuel size_cd concat (Directory.next (f_data fp) total)
        (fp4, EntryTable.add codec (f_data fp) concat d total)).
  { intros name Hnm'.
    rewrite !bind_eq, !on_fp_eval. rewrite E3. cbn [fst snd].
    rewrite !bind_eq, !on_fp_eval. rewrite E4. cbn [fst snd].
    rewrite Em. cbn [negb].
    rewrite bind_eq. cbn [modify fst snd]. rewrite <- Hn.
    unfold EntryTable.add, EntryTable.info. cbv zeta. rewrite Hnm'. reflexivity. }
  unfold ZipFileRO.decode_name.
  assert (Hnm_eq : EntryTable.name codec (f_data fp) total
                   = if has_flag (CD_FLAG_BITS cdir) _MASK_UTF_FILENAME
                     then decode_utf8 codec nm else Some (decode_cp437 codec nm)).
  { unfold EntryTable.name. cbv zeta. fold cdir. rewrite <- Hslice. reflexivity. }
  destruct (has_flag (CD_FLAG_BITS cdir) _MASK_UTF_FILENAME) eqn:Eu.
  - destruct (decode_utf8 codec nm) as [name |] eqn:Ed;
      [| rewrite Hnm_eq in Hname; congruence].
    cbn [ret]. apply (Hrest name). exact Hnm_eq.
  - cbn [ret]. apply (Hrest (decode_cp437 codec nm)). exact Hnm_eq.
Qed.

(** The loop on a directory whose records are accepted up to one that is
    whole, carries the signature and has a name that decodes, but is not
    stored: the [assert] of that turn fails. *)
Lemma cd_loop_first_unstored size_cd concat data : forall fuel total fp d pre off post,
  f_data fp = data -> f_closed fp = false -> 0 <= total -> f_pos fp = total ->
  Directory.offsets fuel data size_cd total = pre ++ off :: post ->
  Forall (EntryTable.accepted codec data) pre ->
  off + _CENTRAL_DIR_SIZE <= len data ->
  bytes_eqb (CD_SIGNATURE (Directory.record data off)) _CENTRAL_DIR_STRING = true ->
  EntryTable.name codec data off <> None ->
  CD_COMPRESS_TYPE (Directory.record data off) <> ZIP_STORED ->
  fst (ZipFileRO.cd_loop codec fuel size_cd concat total (fp, d)) = Raise AssertionError.
Proof.
  induction fuel as [| k IH]; intros total fp d pre off post Hd Hc Ht Hpos Ho Hacc Hlen Hsig
    Hname Hm.
  { cbn [Directory.offsets] in Ho. destruct (total <? size_cd);
      destruct pre; discriminate Ho. }
  cbn [Directory.offsets] in Ho.
  destruct (total <? size_cd) eqn:Elt; [| destruct pre; discriminate Ho].
  apply Z.ltb_lt in Elt.
  destruct pre as [| a pre].
  - cbn [app] in Ho. inversion Ho; subst off. clear Ho.
    subst data. apply cd_loop_method; try assumption.
    intros Hflag. unfold EntryTable.name in Hname. cbv zeta in Hname.
    rewrite Hflag in Hname. exact Hname.
  - cbn [app] in Ho. inversion Ho as [[Ha Hrest]]. subst a.
    inversion Hacc as [| x l Hat Hacc']; subst x l.
    assert (Hin : In off (Directory.offsets k data size_cd (Directory.next data total))).
    { rewrite Hrest. apply in_or_app. right. left. reflexivity. }
    apply offsets_ge in Hin.
    assert (Hnext : Directory.next (f_data fp) total <= len (f_data fp)).
    { rewrite Hd. unfold _CENTRAL_DIR_SIZE in *. lia. }
    rewrite <- Hd in Hat.
    destruct (@cd_loop_turn k size_cd concat total fp d Hc Ht Hpos Elt Hat Hnext)
      as (fp' & Hd' & Hc' & Hp' & E).
    rewrite E. rewrite Hd in *.
    apply (IH (Directory.next data total) fp' _ pre off post); try assumption.
    + pose proof (next_ge data total). unfold _CENTRAL_DIR_SIZE in *. lia.
Qed.

(** [ZipFileRO(file)] on a source whose directory has a record that is not
    stored, behind records that are accepted: [AssertionError]. *)
Lemma new_first_unstored file_passed f endrec pre off post :
  f_closed f = false ->
  fst (_extract_end_archive f) = Ok (Some endrec) ->
  let concat := ZipFileRO.concat_of endrec in
  let start := ECD_OFFSET endrec + concat in
  let data := Prefixed.directory_bytes f start (ECD_SIZE endrec) in
  0 <= start ->
  Directory.offsets (ZipFileRO.cd_fuel data) data (ECD_SIZE endrec) 0 = pre ++ off :: post ->
  Forall (EntryTable.accepted codec data) pre ->
  off + _CENTRAL_DIR_SIZE <= len data ->
  bytes_eqb (CD_SIGNATURE (Directory.record data off)) _CENTRAL_DIR_STRING = true ->
  EntryTable.name codec data off <> None ->
  CD_COMPRESS_TYPE (Directory.record data off) <> ZIP_STORED ->
  fst (ZipFileRO.new codec file_passed f) = Raise AssertionError.
Proof.
  intros Hc He concat start data Hs Ho Hacc Hlen Hsig Hname Hm.
  rewrite (proj1 (@new_of_read_contents codec file_passed f)).
  destruct (@read_contents_unfold codec f (ZipFileRO.fresh file_passed) endrec Hc He)
    as (f1 & f2 & Hrc).
  fold concat start data in Hrc. rewrite Hrc.
  destruct (Z.ltb_spec start 0) as [Hx | _]; [lia |].
  cbn [fst ZipFileRO.fresh ZipFileRO._name_to_info].
  apply (@cd_loop_first_unstored (ECD_SIZE endrec) concat data (ZipFileRO.cd_fuel data) 0
           (ZipFileRO.BytesIO_of data) [] pre off post); try assumption; try reflexivity;
    lia.
Qed.
End FirstRefused.

(** C4. A directory record whose compression method is not [ZIP_STORED]
    is refused when the directory is parsed, never later: on a source in
    which the locator finds a record, the constructor raises whenever such
    a record is among those of the directory, so no handle and no reader
    exist for it; and when the records before it are accepted and it is
    itself whole, with the directory signature and a name that decodes,
    what the constructor raises is the [AssertionError] of the [assert] of
    its turn.  An entry with the encrypted flag is refused by [open]: the
    call raises, the handle is left as it was, its reference count
    included, and the error is a [NotImplementedError], the error of an
    unsupported feature, wherever the local header is one that [open]
    accepts for the same entry without the flags. *)
Theorem C4_unsupported_entry codec :
  (forall file_passed f endrec,
     f_closed f = false ->
     fst (_extract_end_archive f) = Ok (Some endrec) ->
     let data := Prefixed.directory_bytes f
                   (ECD_OFFSET endrec + ZipFileRO.concat_of endrec) (ECD_SIZE endrec) in
     forall cdir,
       In cdir (Directory.records data (ECD_SIZE endrec)) ->
       CD_COMPRESS_TYPE cdir <> ZIP_STORED ->
       exists e, fst (ZipFileRO.new codec file_passed f) = Raise e)
  /\ (forall file_passed f endrec pre off post,
        f_closed f = false ->
        fst (_extract_end_archive f) = Ok (Some endrec) ->
        let start := ECD_OFFSET endrec + ZipFileRO.concat_of endrec in
        let data := Prefixed.directory_bytes f start (ECD_SIZE endrec) in
        0 <= start ->
        Directory.offsets (ZipFileRO.cd_fuel data) data (ECD_SIZE endrec) 0
        = pre ++ off :: post ->
        Forall (EntryTable.accepted codec data) pre ->
        off + _CENTRAL_DIR_SIZE <= len data ->
        bytes_eqb (CD_SIGNATURE (Directory.record data off)) _CENTRAL_DIR_STRING = true ->
        EntryTable.name codec data off <> None ->
        CD_COMPRESS_TYPE (Directory.record data off) <> ZIP_STORED ->
        fst (ZipFileRO.new codec file_passed f) = Raise AssertionError)
  /\ (forall name w zinfo,
        resolves name w zinfo ->
        has_flag (ZipInfoRO.flag_bits zinfo) _MASK_ENCRYPTED = true ->
        0 < ZipFileRO._file_ref_count (ZipFileRO.w_zip w) ->
        exists e w',
          ZipFileRO.open codec name w = (Raise e, w')
          /\ ZipFileRO.w_zip w' = ZipFileRO.w_zip w
          /\ forall zinfo0 p w0,
               ZipInfoRO.filename zinfo0 = ZipInfoRO.filename zinfo ->
               ZipInfoRO.header_offset zinfo0 = ZipInfoRO.header_offset zinfo ->
               ZipFileRO.open codec (inr zinfo0) w = (Ok p, w0) ->
               unsupported_feature e = true).
Proof.
  split; [| split].
  - intros file_passed f endrec Hc He data cdir Hin Hm.
    destruct (@new_stored codec file_passed f endrec Hc He) as [H | [_ H]]; [exact H |].
    exfalso. apply Hm. fold data in H.
    rewrite Forall_forall in H. exact (H cdir Hin).
  - intros file_passed f endrec pre off post Hc He start data Hs Ho Hacc Hlen Hsig Hname Hm.
    exact (@new_first_unstored codec file_passed f endrec pre off post Hc He Hs Ho Hacc Hlen
             Hsig Hname Hm).
  - intros name w zinfo Hr Hf Hpos.
    destruct (@open_encrypted codec name w zinfo Hr Hf Hpos) as (e & w' & E & Hw & Hmsg).
    exists e, w'. split; [exact E |]. split; [exact Hw |].
    intros zinfo0 p w0 Hn Ho H0. destruct (Hmsg zinfo0 p w0 Hn Ho H0) as [msg ->].
    reflexivity.
Qed.

(** The hypotheses of C4 hold on the sample archive with its second entry
    declared deflated, at the second record of its directory, and on the
    handle of the sample archive with its first entry marked encrypted. *)
Lemma C4_unsupported_entry_witness :
  let f := Sample.raw_file Sample.deflated in
  let endrec := mkEndRec _END_ARCHIVE_STRING 0 0 2 2 106 5079 0 [] 5185 in
  let w := Scenario.encrypted_world in
  let zinfo := ZipInfoRO.mk Sample.name_a 1 0 5 5 in
  (fst (_extract_end_archive f) = Ok (Some endrec)
   /\ map CD_COMPRESS_TYPE (Directory.records Sample.deflated_directory 106) = [0; 8]
   /\ exists e, fst (ZipFileRO.new PyCodec.python false f) = Raise e)
  /\ fst (ZipFileRO.new PyCodec.python false f) = Raise AssertionError
  /\ (resolves (inl Sample.name_a) w zinfo
      /\ exists e w',
           ZipFileRO.open PyCodec.python (inl Sample.name_a) w = (Raise e, w')
           /\ ZipFileRO.w_zip w' = ZipFileRO.w_zip w
           /\ forall zinfo0 p w0,
                ZipInfoRO.filename zinfo0 = ZipInfoRO.filename zinfo ->
                ZipInfoRO.header_offset zinfo0 = ZipInfoRO.header_offset zinfo ->
                ZipFileRO.open PyCodec.python (inr zinfo0) w = (Ok p, w0) ->
                unsupported_feature e = true).
Proof.
  intros f endrec w zinfo.
  assert (H1 : f_closed f = false) by reflexivity.
  assert (H2 : fst (_extract_end_archive f) = Ok (Some endrec)) by (vm_compute; reflexivity).
  assert (H3 : resolves (inl Sample.name_a) w zinfo) by (vm_compute; reflexivity).
  split; [split; [exact H2 | split; [vm_compute; reflexivity |]] | split; [| split; [exact H3 |]]].
  - apply (proj1 (C4_unsupported_entry PyCodec.python) false f endrec H1 H2
             (Directory.record Sample.deflated_directory 51)).
    + vm_compute. right. left. reflexivity.
    + vm_compute. discriminate.
  - apply (proj1 (proj2 (C4_unsupported_entry PyCodec.python)) false f endrec [0] 51 []
             H1 H2).
    + vm_compute. discriminate.
    + vm_compute. reflexivity.
    + constructor; [| constructor].
      split; [vm_compute; discriminate |].
      split; [vm_compute; reflexivity |].
      split; [vm_compute; discriminate | vm_compute; reflexivity].
    + vm_compute. discriminate.
    + vm_compute. reflexivity.
    + vm_compute. discriminate.
    + vm_compute. discriminate.
  - apply (proj2 (proj2 (C4_unsupported_entry PyCodec.python)) (inl Sample.name_a) w zinfo H3).
    + vm_compute. reflexivity.
    + vm_compute. reflexivity.
Defined.

(** C4, as the claim has it.  The sample archive with its second entry
    declared deflated: the constructor raises [AssertionError], which is
    not the error of an unsupported feature.  The sample archive with its
    first entry marked encrypted and no local header where its directory
    record points: [open] raises [BadZipFile] for the header before it
    looks at the flag. *)
Lemma C4_not_the_unsupported_error :
  (let r := fst (ZipFileRO.new PyCodec.python false (Sample.raw_file Sample.deflated)) in
   r = Raise AssertionError
   /\ ~ (exists e, r = Raise e /\ unsupported_feature e = true))
  /\ (let built := ZipFileRO.new PyCodec.python false
                     (Sample.raw_file Sample.encrypted_astray) in
      let r := fst (ZipFileRO.open PyCodec.python (inl Sample.name_a) (snd built)) in
      fst built = Ok tt
      /\ option_map (fun zinfo => has_flag (ZipInfoRO.flag_bits zinfo) _MASK_ENCRYPTED)
           (dict_get (ZipFileRO._name_to_info (ZipFileRO.w_zip (snd built))) Sample.name_a)
         = Some true
      /\ r = Raise (BadZipFile ZipFileRO.bad_fh_magic_msg)
      /\ ~ (exists e, r = Raise e /\ unsupported_feature e = true)).
Proof.
  split; cbv zeta.
  - assert (H : fst (ZipFileRO.new PyCodec.python false (Sample.raw_file Sample.deflated))
                = Raise AssertionError) by (vm_compute; reflexivity).
    split; [exact H |].
    intros (e & He & Hu). rewrite H in He. inversion He; subst e. discriminate Hu.
  - assert (H : fst (ZipFileRO.open PyCodec.python (inl Sample.name_a)
                       (snd (ZipFileRO.new PyCodec.python false
                               (Sample.raw_file Sample.encrypted_astray))))
                = Raise (BadZipFile ZipFileRO.bad_fh_magic_msg)) by (vm_compute; reflexivity).
    split; [vm_compute; reflexivity |]. split; [vm_compute; reflexivity |].
    split; [exact H |].
    intros (e & He & Hu). rewrite H in He. inversion He; subst e. discriminate Hu.
Qed.

(** The two archives: the constructor fails on the one with a deflated
    entry; the one with an encrypted entry gives a handle that lists both
    names, refuses to open the encrypted entry, keeps its reference count
    at 1 and still serves the other entry. *)
Example unsupported_samples :
  fst (ZipFileRO.new PyCodec.python false (Sample.raw_file Sample.deflated))
  = Raise AssertionError
  /\ fst (ZipFileRO.new PyCodec.python false (Sample.raw_file Sample.encrypted)) = Ok tt
  /\ fst (ZipFileRO.namelist Scenario.encrypted_world) = Ok [Sample.name_a; Sample.name_b]
  /\ (let r := ZipFileRO.open PyCodec.python (inl Sample.name_a) Scenario.encrypted_world in
      fst r = Raise (NotImplementedError EmptyString)
      /\ ZipFileRO._file_ref_count (ZipFileRO.w_zip (snd r)) = 1)
  /\ Scenario.with_part Scenario.encrypted_world Sample.name_b (ZipFilePartRO.read None)
     = Ok Sample.zeros.
Proof. repeat split; vm_compute; reflexivity. Qed.


(** * The reader as a stream *)

(** ** Reading through the shared handle *)

Lemma shared_read_eval n f o :
  f_closed f = false -> SharedFileRO._file o = true -> 0 <= SharedFileRO._pos o ->
  -1 <= n \/ f_kind f = BytesIO ->
  let rest := skipn (Z.to_nat (SharedFileRO._pos o)) (f_data f) in
  let data := if n <? 0 then rest else firstn (Z.to_nat n) rest in
  SharedFileRO.read n (f, o)
  = (Ok data, (set_pos (SharedFileRO._pos o + len data) f,
               SharedFileRO.mk true (SharedFileRO._pos o + len data))).
Proof.
  intros Hc Hf Hp Hn rest data.
  unfold SharedFileRO.read, SharedFileRO.the_file.
  rewrite !bind_eq. cbv [SharedFileRO.self]. cbn [fst snd]. rewrite Hf. cbv [ret].
  rewrite !bind_eq.
  unfold SharedFileRO.on_file at 1. unfold zoom. cbn [fst snd].
  rewrite (@f_seek_set f (SharedFileRO._pos o) Hc Hp).
  rewrite !bind_eq.
  unfold SharedFileRO.on_file at 1. unfold zoom. cbn [fst snd].
  assert (Hr : readable_length (set_pos (SharedFileRO._pos o) f) (Some n)) by exact Hn.
  rewrite (@f_read_eval (set_pos (SharedFileRO._pos o) f) (Some n) Hc Hr). cbv zeta.
  cbn [f_pos f_data set_pos].
  rewrite !bind_eq.
  unfold SharedFileRO.on_file at 1. unfold zoom. cbn [fst snd].
  unfold f_tell. cbn [f_closed set_pos f_pos]. rewrite Hc.
  rewrite !bind_eq. unfold SharedFileRO.set_pos, modify. cbn [fst snd].
  rewrite Hf. reflexivity.
Qed.

(** A length below [-1] on a raw file: the handle has moved the cursor of
    the source to its own position when the read raises. *)
Lemma shared_read_below n f o :
  f_closed f = false -> SharedFileRO._file o = true -> 0 <= SharedFileRO._pos o ->
  n < -1 -> f_kind f = RawFile ->
  SharedFileRO.read n (f, o)
  = (Raise (ValueError read_length_msg), (set_pos (SharedFileRO._pos o) f, o)).
Proof.
  intros Hc Hf Hp Hn Hk.
  unfold SharedFileRO.read, SharedFileRO.the_file.
  rewrite !bind_eq. cbv [SharedFileRO.self]. cbn [fst snd]. rewrite Hf. cbv [ret].
  rewrite !bind_eq.
  unfold SharedFileRO.on_file at 1. unfold zoom. cbn [fst snd].
  rewrite (@f_seek_set f (SharedFileRO._pos o) Hc Hp).
  rewrite !bind_eq.
  unfold SharedFileRO.on_file at 1. unfold zoom. cbn [fst snd].
  rewrite (@f_read_below (set_pos (SharedFileRO._pos o) f) n Hk Hn).
  reflexivity.
Qed.

Lemma on_fileobj_eval {A} (m : M SharedFileRO.St A) f r :
  ZipFilePartRO.on_fileobj m (f, r)
  = (fst (m (f, ZipFilePartRO._fileobj r)),
     (fst (snd (m (f, ZipFilePartRO._fileobj r))),
      ZipFilePartRO.set_fileobj (snd (snd (m (f, ZipFilePartRO._fileobj r)))) r)).
Proof.
  unfold ZipFilePartRO.on_fileobj, zoom. cbn [fst snd].
  destruct (m (f, ZipFilePartRO._fileobj r)) as [x [f1 o1]]. reflexivity.
Qed.

Section ReaderFacts.
Import ZipFilePartRO Stream.

(** [_read2(n)] while compressed bytes are left: one read of the source,
    of [min(max(n, MIN_READ_SIZE), _compress_left)] bytes. *)
Lemma _read2_eval n f r :
  ok f r -> 0 < _compress_left r ->
  let c := Z.min (Z.max n MIN_READ_SIZE) (_compress_left r) in
  let chunk := firstn (Z.to_nat c) (skipn (Z.to_nat (source_pos r)) (f_data f)) in
  len chunk = c
  /\ _read2 n (f, r)
     = (Ok chunk,
        (set_pos (source_pos r + c) f,
         set_compress_left (_compress_left r - c)
           (set_fileobj (SharedFileRO.mk true (source_pos r + c)) r))).
Proof.
  intros H Hcl c chunk.
  destruct H as [Hc Hs Ho Hp Hoff Hl Hcl0 Hpres Heof].
  assert (Hc1 : 1 <= c <= _compress_left r) by (unfold c, MIN_READ_SIZE; lia).
  assert (Hlen : len chunk = c).
  { unfold chunk. rewrite len_firstn, len_skipn. unfold source_pos in *. lia. }
  split; [exact Hlen |].
  unfold _read2. rewrite bind_eq. cbv [self]. cbn [fst snd].
  destruct (_compress_left r <=? 0) eqn:E; [apply Z.leb_le in E; lia |].
  cbv zeta. rewrite bind_eq, on_fileobj_eval.
  fold c.
  assert (Hlen1 : -1 <= c \/ f_kind f = BytesIO) by (left; lia).
  rewrite (@shared_read_eval c f (_fileobj r) Hc Hs Hp Hlen1). cbv zeta.
  destruct (c <? 0) eqn:E2; [apply Z.ltb_lt in E2; lia |].
  cbn [fst snd]. fold (source_pos r). fold chunk. rewrite Hlen.
  rewrite bind_eq. unfold upd, modify. cbn [fst snd].
  destruct chunk as [| x chunk']; [change (len (@nil byte)) with 0 in Hlen; lia |].
  reflexivity.
Qed.

Lemma same_entry_refl r : same_entry r r.
Proof. repeat split. Qed.

Lemma same_entry_trans r1 r2 r3 : same_entry r1 r2 -> same_entry r2 r3 -> same_entry r1 r3.
Proof.
  unfold same_entry. intros (A1 & A2 & A3 & A4 & A5 & A6 & A7 & A8) (B1 & B2 & B3 & B4 & B5 & B6 & B7 & B8).
  repeat split; congruence.
Qed.

Lemma pending_nil f r :
  ok f r -> _eof r = true -> pending f r = [].
Proof.
  intros H He. destruct (ok_eof H He) as [Hz | Hz]; unfold pending.
  - replace (Z.to_nat (_compress_left r)) with 0%nat by lia. cbn. apply firstn_nil.
  - replace (Z.to_nat (_left r)) with 0%nat by lia. reflexivity.
Qed.

Lemma len_pending f r :
  ok f r -> len (pending f r) = Z.min (_left r) (_compress_left r).
Proof.
  intros H. destruct H. unfold pending. rewrite !len_firstn, len_skipn. lia.
Qed.

(** [_read1(n)] for a positive [n] on a reader not at its end: the next
    [min(max(n, MIN_READ_SIZE), _compress_left)] pending bytes (all of them
    if fewer are pending) leave the source and are returned. *)
Lemma _read1_spec n f r :
  ok f r -> _eof r = false -> 0 < n ->
  let c := Z.min (Z.max n MIN_READ_SIZE) (_compress_left r) in
  exists f' r',
    _read1 n (f, r) = (Ok (firstn (Z.to_nat c) (pending f r)), (f', r'))
    /\ pending f' r' = skipn (Z.to_nat c) (pending f r)
    /\ ok f' r'
    /\ (_eof r' = true \/ _compress_left r' < _compress_left r)
    /\ _left r' = _left r - len (firstn (Z.to_nat c) (pending f r))
    /\ _readbuffer r' = _readbuffer r /\ _offset r' = _offset r
    /\ same_entry r r'
    /\ f_data f' = f_data f.
Proof.
  intros H He Hn c.
  pose proof H as [Hc Hs Ho Hp Hoff Hl Hcl0 Hpres Heof].
  unfold _read1. rewrite bind_eq. cbv [self]. cbn [fst snd]. rewrite He.
  destruct (n <=? 0) eqn:En; [apply Z.leb_le in En; lia |]. cbn [orb].
  rewrite bind_eq.
  destruct (Z.le_gt_cases (_compress_left r) 0) as [Hz | Hz].
  - (* nothing left to read from the source *)
    assert (Hc0 : Z.to_nat c = 0%nat) by (unfold c, MIN_READ_SIZE; lia).
    rewrite Hc0. cbn [firstn skipn].
    assert (Ez : (_compress_left r <=? 0) = true) by (apply Z.leb_le; exact Hz).
    unfold _read2, upd, modify, bind, ret, self. cbn [fst snd].
    rewrite Ez. cbn [fst snd set_eof set_left _left _compress_left].
    unfold slice_to. rewrite firstn_nil. change (len (@nil byte)) with 0.
    rewrite Ez. replace (_left r - 0) with (_left r) by lia.
    destruct (_left r <=? 0); cbn [fst snd];
      (eexists; eexists; split; [reflexivity |]);
      (split; [reflexivity |]);
      (split; [constructor; cbn; try assumption; intros _; left; exact Hz |]);
      (split; [left; reflexivity |]);
      repeat split.
  - (* a chunk is read *)
    destruct (@_read2_eval n f r H Hz) as [Hlen E2]. fold c in Hlen, E2.
    set (chunk := firstn (Z.to_nat c) (skipn (Z.to_nat (source_pos r)) (f_data f))) in *.
    rewrite E2.
    assert (Hc1 : 1 <= c <= _compress_left r) by (unfold c, MIN_READ_SIZE; lia).
    assert (Hdata : slice_to chunk (_left r) = firstn (Z.to_nat c) (pending f r)).
    { unfold slice_to, clip, pending. rewrite Hlen.
      destruct (_left r <? 0) eqn:E; [apply Z.ltb_lt in E; lia |].
      unfold chunk. rewrite !firstn_firstn. f_equal. lia. }
    unfold upd, modify, bind, ret, self.
    cbn [fst snd set_compress_left set_fileobj set_eof set_left _left _compress_left].
    rewrite Hdata.
    set (data := firstn (Z.to_nat c) (pending f r)) in *.
    assert (Hld : len data = Z.min (_left r) c).
    { unfold data. rewrite len_firstn, (len_pending H). lia. }
    assert (Hpend : forall r', source_pos r' = source_pos r + c ->
              _left r' = _left r - len data -> _compress_left r' = _compress_left r - c ->
              pending (set_pos (source_pos r + c) f) r' = skipn (Z.to_nat c) (pending f r)).
    { intros r' F1 F2 F3. unfold pending. rewrite F1, F2, F3. cbn [f_data set_pos].
      rewrite Hld. rewrite !firstn_firstn, skipn_firstn_comm.
      replace (Z.to_nat (source_pos r + c)) with (Z.to_nat c + Z.to_nat (source_pos r))%nat by lia.
      rewrite <- skipn_skipn. f_equal. lia. }
    destruct (_left r - len data <=? 0) eqn:E3; cbn [fst snd];
      (eexists; eexists; split; [reflexivity |]);
      (split; [apply Hpend; reflexivity |]);
      (split; [constructor; cbn; unfold source_pos in *; cbn; try assumption; try lia |]);
      try (split; [first [left; reflexivity | right; cbn; lia] |]);
      try (repeat split; fail).
Qed.

Lemma firstn_split_at {A} (l : list A) c n :
  (length (firstn c l) <= n)%nat ->
  firstn n l = firstn c l ++ firstn (n - length (firstn c l)) (skipn c l).
Proof.
  intros H. rewrite <- (firstn_skipn c l) at 1.
  rewrite firstn_app. f_equal. apply firstn_all2. exact H.
Qed.

Lemma skipn_split_at {A} (l : list A) c n :
  (length (firstn c l) <= n)%nat ->
  skipn (n - length (firstn c l)) (skipn c l) = skipn n l.
Proof.
  intros H. rewrite <- (firstn_skipn c l) at 3.
  rewrite skipn_app. rewrite (skipn_all2 (firstn c l)) by exact H. reflexivity.
Qed.

(** The loop of a bounded [read], entered with an empty buffer: it
    delivers the next [n] pending bytes, or all of them if fewer are
    pending. *)
Lemma read_loop_spec : forall fuel n buf f r,
  ok f r -> _readbuffer r = [] -> _offset r = 0 ->
  (_eof r = true \/ (Z.to_nat (_compress_left r) < fuel)%nat) ->
  let out := firstn (Z.to_nat n) (pending f r) in
  exists f' r',
    read_loop fuel n buf (f, r) = (Ok (buf ++ out), (f', r'))
    /\ remaining f' r' = skipn (Z.to_nat n) (pending f r)
    /\ ok f' r'
    /\ position r' = position r + len out
    /\ same_entry r r'
    /\ f_data f' = f_data f
    /\ exists pre, buf ++ out = pre ++ firstn (Z.to_nat (_offset r')) (_readbuffer r').
Proof.
  induction fuel as [| k IH]; intros n buf f r H HB Ho Hfuel out.
  - destruct Hfuel as [He | Hlt]; [| lia].
    cbn [read_loop]. rewrite bind_eq. cbv [self]. cbn [fst snd]. rewrite He.
    rewrite andb_false_r. cbv [ret].
    exists f, r. unfold out. rewrite (pending_nil H He), firstn_nil, skipn_nil, app_nil_r.
    unfold remaining. rewrite HB, Ho, (pending_nil H He).
    split; [reflexivity |]. split; [reflexivity |]. split; [exact H |].
    split; [change (len (@nil byte)) with 0; lia |].
    split; [apply same_entry_refl |]. split; [reflexivity |].
    exists buf. rewrite firstn_nil, app_nil_r. reflexivity.
  - cbn [read_loop]. rewrite bind_eq. cbv [self]. cbn [fst snd].
    destruct ((0 <? n) && negb (_eof r)) eqn:Et.
    + apply andb_true_iff in Et. destruct Et as [En Ee].
      apply Z.ltb_lt in En. apply negb_true_iff in Ee.
      destruct (@_read1_spec n f r H Ee En)
        as (f1 & r1 & E1 & Hp1 & Hok1 & Hf1 & Hl1 & HB1 & Ho1 & Hs1 & Hd1).
      set (c := Z.min (Z.max n MIN_READ_SIZE) (_compress_left r)) in *.
      set (data := firstn (Z.to_nat c) (pending f r)) in *.
      rewrite bind_eq, E1.
      destruct (n <? len data) eqn:Elt.
      * (* more than asked for: the rest stays in the buffer *)
        apply Z.ltb_lt in Elt.
        unfold upd, modify, bind, ret. cbn [fst snd].
        assert (Hout : slice_to data n = out).
        { unfold slice_to, clip. destruct (n <? 0) eqn:E0; [apply Z.ltb_lt in E0; lia |].
          unfold out, data. rewrite firstn_firstn.
          replace (Z.min n (len (firstn (Z.to_nat c) (pending f r)))) with n by (fold data; lia).
          f_equal. unfold data in Elt. rewrite len_firstn in Elt. lia. }
        rewrite Hout.
        exists f1, (set_offset n (set_readbuffer data r1)).
        split; [reflexivity |].
        assert (Hlo : len out = n).
        { rewrite <- Hout. unfold slice_to, clip.
          destruct (n <? 0) eqn:E0; [apply Z.ltb_lt in E0; lia |].
          rewrite len_firstn. lia. }
        split.
        { unfold remaining. cbn [set_offset set_readbuffer _offset _readbuffer].
          change (pending f1 (set_offset n (set_readbuffer data r1))) with (pending f1 r1).
          rewrite Hp1. unfold data.
          rewrite <- (firstn_skipn (Z.to_nat c) (pending f r)) at 3.
          rewrite skipn_app.
          replace (Z.to_nat n - length (firstn (Z.to_nat c) (pending f r)))%nat with 0%nat
            by (fold data; unfold len in Elt; lia).
          reflexivity. }
        split.
        { destruct Hok1. constructor; cbn; try assumption. lia. }
        split.
        { unfold position in *. cbn [set_offset set_readbuffer _offset _readbuffer _left _orig_file_size].
          destruct Hs1 as (Hs1 & _). rewrite Hs1, Hl1, HB, Ho, Hlo.
          change (len (@nil byte)) with 0. fold data. lia. }
        split; [exact Hs1 |]. split; [exact Hd1 |].
        exists buf. cbn [set_offset set_readbuffer _offset _readbuffer].
        rewrite <- Hout. unfold slice_to, clip.
        destruct (n <? 0) eqn:E0; [apply Z.ltb_lt in E0; lia |].
        do 2 f_equal. lia.
      * (* all of it is delivered, the loop goes on *)
        apply Z.ltb_ge in Elt.
        assert (Hfuel1 : _eof r1 = true \/ (Z.to_nat (_compress_left r1) < k)%nat).
        { destruct Hf1 as [He1 | Hlt1]; [left; exact He1 |].
          right. destruct Hfuel as [He0 | Hk]; [congruence |].
          destruct Hok1. lia. }
        rewrite HB in HB1. rewrite Ho in Ho1.
        destruct (IH (n - len data) (buf ++ data) f1 r1 Hok1 HB1 Ho1 Hfuel1)
          as (f2 & r2 & E2 & Hrem2 & Hok2 & Hpos2 & Hs2 & Hd2 & pre & Hpre).
        exists f2, r2. rewrite E2. rewrite Hp1 in *.
        assert (Hlen : (length data <= Z.to_nat n)%nat) by (unfold len in Elt; lia).
        assert (Hsplit : out = data ++ firstn (Z.to_nat (n - len data))
                                         (skipn (Z.to_nat c) (pending f r))).
        { unfold out. rewrite (firstn_split_at (pending f r) (Z.to_nat c)) by exact Hlen.
          fold data. do 2 f_equal. unfold len. lia. }
        split; [rewrite Hsplit, app_assoc; reflexivity |].
        split.
        { rewrite Hrem2. rewrite <- (@skipn_split_at _ (pending f r) (Z.to_nat c) (Z.to_nat n) Hlen).
          fold data. f_equal. unfold len. lia. }
        split; [exact Hok2 |].
        split.
        { rewrite Hpos2. unfold position. destruct Hs1 as (Hs1 & _).
          rewrite Hs1, Hl1, HB1, Ho1, HB, Ho. fold data.
          rewrite Hsplit, len_app. lia. }
        split; [exact (same_entry_trans Hs1 Hs2) |]. split; [congruence |].
        exists pre. rewrite Hsplit, app_assoc. exact Hpre.
    + cbv [ret]. exists f, r.
      assert (Hnil : out = []).
      { apply andb_false_iff in Et. destruct Et as [En | Ee].
        - apply Z.ltb_ge in En. unfold out.
          replace (Z.to_nat n) with 0%nat by lia. reflexivity.
        - apply negb_false_iff in Ee. unfold out.
          rewrite (pending_nil H Ee). apply firstn_nil. }
      rewrite Hnil, app_nil_r. split; [reflexivity |].
      split.
      { unfold remaining. rewrite HB, Ho. cbn [skipn app].
        apply andb_false_iff in Et. destruct Et as [En | Ee].
        - apply Z.ltb_ge in En. replace (Z.to_nat n) with 0%nat by lia. reflexivity.
        - apply negb_false_iff in Ee. rewrite (pending_nil H Ee). symmetry. apply skipn_nil. }
      split; [exact H |].
      split; [change (len (@nil byte)) with 0; lia |].
      split; [apply same_entry_refl |]. split; [reflexivity |].
      exists buf. rewrite HB, firstn_nil, app_nil_r. reflexivity.
Qed.

Lemma MAX_N_pos : 0 < MAX_N.
Proof. reflexivity. Qed.

(** The loop of an unbounded [read], entered with an empty buffer: it
    delivers every pending byte and leaves the reader at its end. *)
Lemma read_all_loop_spec : forall fuel buf f r,
  ok f r -> _readbuffer r = [] -> _offset r = 0 ->
  (_eof r = true \/ (Z.to_nat (_compress_left r) < fuel)%nat) ->
  exists f' r',
    read_all_loop fuel buf (f, r) = (Ok (buf ++ pending f r), (f', r'))
    /\ remaining f' r' = []
    /\ ok f' r'
    /\ _eof r' = true
    /\ position r' = position r + len (pending f r)
    /\ same_entry r r'
    /\ f_data f' = f_data f
    /\ _readbuffer r' = [] /\ _offset r' = 0.
Proof.
  induction fuel as [| k IH]; intros buf f r H HB Ho Hfuel.
  - destruct Hfuel as [He | Hlt]; [| lia].
    cbn [read_all_loop]. rewrite bind_eq. cbv [self]. cbn [fst snd]. rewrite He. cbv [ret].
    exists f, r. rewrite (pending_nil H He), app_nil_r.
    unfold remaining. rewrite HB, Ho, (pending_nil H He).
    split; [reflexivity |]. split; [reflexivity |]. split; [exact H |].
    split; [exact He |].
    split; [change (len (@nil byte)) with 0; lia |].
    split; [apply same_entry_refl |]. repeat split; assumption.
  - cbn [read_all_loop]. rewrite bind_eq. cbv [self]. cbn [fst snd].
    destruct (_eof r) eqn:He.
    + cbv [ret]. exists f, r. rewrite (pending_nil H He), app_nil_r.
      unfold remaining. rewrite HB, Ho, (pending_nil H He).
      split; [reflexivity |]. split; [reflexivity |]. split; [exact H |].
      split; [exact He |].
      split; [change (len (@nil byte)) with 0; lia |].
      split; [apply same_entry_refl |]. repeat split; assumption.
    + destruct (@_read1_spec MAX_N f r H He MAX_N_pos)
        as (f1 & r1 & E1 & Hp1 & Hok1 & Hf1 & Hl1 & HB1 & Ho1 & Hs1 & Hd1).
      set (c := Z.min (Z.max MAX_N MIN_READ_SIZE) (_compress_left r)) in *.
      set (data := firstn (Z.to_nat c) (pending f r)) in *.
      rewrite bind_eq, E1.
      assert (Hfuel1 : _eof r1 = true \/ (Z.to_nat (_compress_left r1) < k)%nat).
      { destruct Hf1 as [He1 | Hlt1]; [left; exact He1 |].
        right. destruct Hfuel as [He0 | Hk]; [congruence |].
        destruct Hok1. lia. }
      rewrite HB in HB1. rewrite Ho in Ho1.
      destruct (IH (buf ++ data) f1 r1 Hok1 HB1 Ho1 Hfuel1)
        as (f2 & r2 & E2 & Hrem2 & Hok2 & He2 & Hpos2 & Hs2 & Hd2 & HB2 & Ho2).
      exists f2, r2. rewrite E2, Hp1.
      assert (Hsplit : pending f r = data ++ skipn (Z.to_nat c) (pending f r))
        by (symmetry; apply firstn_skipn).
      split; [rewrite <- app_assoc, <- Hsplit; reflexivity |].
      split; [exact Hrem2 |]. split; [exact Hok2 |]. split; [exact He2 |].
      split.
      { rewrite Hpos2, Hp1. unfold position. destruct Hs1 as (Hs1 & _).
        rewrite Hs1, Hl1, HB1, Ho1, HB, Ho.
        rewrite Hsplit at 2. rewrite len_app. lia. }
      split; [exact (same_entry_trans Hs1 Hs2) |]. split; [congruence |].
      split; assumption.
Qed.

Lemma remaining_cleared f r :
  remaining f (set_offset 0 (set_readbuffer [] r)) = pending f r.
Proof. reflexivity. Qed.

Lemma ok_cleared f r : ok f r -> ok f (set_offset 0 (set_readbuffer [] r)).
Proof.
  intros []. constructor; cbn; try assumption. change (len (@nil byte)) with 0. lia.
Qed.

(** [read(n)] for [n >= 0] on a reader in working order: the next [n]
    bytes that remain, or all of them if fewer remain. *)
Lemma read_bounded_spec n f r :
  ok f r -> 0 <= n ->
  let out := firstn (Z.to_nat n) (remaining f r) in
  exists f' r',
    read (Some n) (f, r) = (Ok out, (f', r'))
    /\ remaining f' r' = skipn (Z.to_nat n) (remaining f r)
    /\ ok f' r'
    /\ position r' = position r + len out
    /\ same_entry r r'
    /\ f_data f' = f_data f
    /\ exists pre, firstn (Z.to_nat (_offset r)) (_readbuffer r) ++ out
                   = pre ++ firstn (Z.to_nat (_offset r')) (_readbuffer r').
Proof.
  intros H Hn out.
  pose proof H as [Hc Hs Ho Hp Hoff Hl Hcl0 Hpres Heof].
  unfold read. rewrite bind_eq. cbv [self]. cbn [fst snd]. rewrite Ho.
  destruct (n <? 0) eqn:E0; [apply Z.ltb_lt in E0; lia |]. cbv zeta.
  set (B := _readbuffer r) in *. set (o := _offset r) in *.
  assert (HlB : len (skipn (Z.to_nat o) B) = len B - o) by (rewrite len_skipn; lia).
  destruct (n + o <? len B) eqn:Eend.
  - (* served from the buffer *)
    apply Z.ltb_lt in Eend.
    unfold upd, modify, bind, ret. cbn [fst snd].
    exists f, (set_offset (n + o) r).
    assert (Hout : slice B o (n + o) = out).
    { replace (n + o) with (o + n) by lia. rewrite slice_at by lia.
      unfold out, remaining. fold B o. rewrite firstn_app.
      replace (Z.to_nat n - length (skipn (Z.to_nat o) B))%nat with 0%nat
        by (unfold len in *; lia).
      cbn [firstn]. rewrite app_nil_r. reflexivity. }
    rewrite Hout. split; [reflexivity |].
    assert (Hlo : len out = n).
    { rewrite <- Hout. replace (n + o) with (o + n) by lia. rewrite slice_at by lia.
      rewrite len_firstn. lia. }
    split.
    { unfold remaining. cbn [set_offset _offset _readbuffer]. fold B o.
      change (pending f (set_offset (n + o) r)) with (pending f r).
      rewrite skipn_app.
      replace (Z.to_nat n - length (skipn (Z.to_nat o) B))%nat with 0%nat
        by (unfold len in *; lia).
      cbn [skipn]. rewrite skipn_skipn. do 2 f_equal. lia. }
    split; [constructor; cbn; try assumption; fold B; lia |].
    split; [unfold position; cbn; fold B o; lia |].
    split; [repeat split |]. split; [reflexivity |].
    exists []. cbn [set_offset _offset _readbuffer app]. fold B.
    rewrite <- Hout. replace (n + o) with (o + n) by lia. rewrite slice_at by lia.
    replace (Z.to_nat (o + n)) with (Z.to_nat o + Z.to_nat n)%nat by lia.
    rewrite <- (firstn_skipn (Z.to_nat o) B) at 3.
    rewrite firstn_app.
    assert (Hfo : length (firstn (Z.to_nat o) B) = Z.to_nat o)
      by (rewrite length_firstn; unfold len in *; lia).
    rewrite Hfo.
    rewrite (@firstn_all2 _ (Z.to_nat o + Z.to_nat n) (firstn (Z.to_nat o) B)) by lia.
    f_equal. f_equal. lia.
  - (* the buffer is used up and the loop reads on *)
    apply Z.ltb_ge in Eend.
    rewrite bind_eq. unfold upd at 1. unfold modify. cbn [fst snd].
    rewrite bind_eq. unfold upd at 1. unfold modify. cbn [fst snd].
    set (r0 := set_offset 0 (set_readbuffer [] r)).
    assert (Hfuel : _eof r0 = true \/ (Z.to_nat (_compress_left r0) < read_fuel r)%nat)
      by (right; unfold read_fuel; cbn; lia).
    destruct (@read_loop_spec (read_fuel r) (n + o - len B) (slice_from B o) f r0
                (ok_cleared H) eq_refl eq_refl Hfuel)
      as (f2 & r2 & E2 & Hrem2 & Hok2 & Hpos2 & Hs2 & Hd2 & pre & Hpre).
    exists f2, r2. rewrite E2.
    change (pending f r0) with (pending f r) in *.
    assert (Hsf : slice_from B o = skipn (Z.to_nat o) B).
    { unfold slice_from, clip. destruct (o <? 0) eqn:E; [apply Z.ltb_lt in E; lia |].
      f_equal. lia. }
    assert (Hlen : (length (skipn (Z.to_nat o) B) <= Z.to_nat n)%nat)
      by (unfold len in *; lia).
    assert (Hk : Z.to_nat (n + o - len B) = (Z.to_nat n - length (skipn (Z.to_nat o) B))%nat)
      by (unfold len in *; lia).
    assert (Hout : out = slice_from B o ++ firstn (Z.to_nat (n + o - len B)) (pending f r)).
    { unfold out, remaining. fold B o. rewrite firstn_app, Hsf, Hk.
      rewrite firstn_all2 by exact Hlen. reflexivity. }
    split; [rewrite Hout; reflexivity |].
    split.
    { rewrite Hrem2. unfold remaining. fold B o. rewrite skipn_app, Hk.
      rewrite (skipn_all2 (skipn (Z.to_nat o) B) Hlen). reflexivity. }
    split; [exact Hok2 |].
    split.
    { rewrite Hpos2. unfold position. cbn. fold B o. rewrite Hout, len_app, Hsf, HlB.
      change (len (@nil byte)) with 0. lia. }
    split; [eapply same_entry_trans; [| exact Hs2]; repeat split |].
    split; [exact Hd2 |].
    exists (firstn (Z.to_nat o) B ++ pre). rewrite Hout, <- app_assoc, <- Hpre. reflexivity.
Qed.

(** [read()], [read(None)] or [read(n)] for a negative [n] on a reader in
    working order: every byte that remains. *)
Lemma read_all_spec n f r :
  ok f r -> match n with None => True | Some k => k < 0 end ->
  exists f' r',
    read n (f, r) = (Ok (remaining f r), (f', r'))
    /\ remaining f' r' = []
    /\ ok f' r'
    /\ _eof r' = true
    /\ position r' = position r + len (remaining f r)
    /\ same_entry r r'
    /\ f_data f' = f_data f
    /\ _readbuffer r' = [] /\ _offset r' = 0.
Proof.
  intros H Hn.
  pose proof H as [Hc Hs Ho Hp Hoff Hl Hcl0 Hpres Heof].
  unfold read. rewrite bind_eq. cbv [self]. cbn [fst snd]. rewrite Ho.
  replace (match n with Some k => k <? 0 | None => true end) with true
    by (destruct n as [k |]; [symmetry; apply Z.ltb_lt; exact Hn | reflexivity]).
  cbv zeta.
  rewrite bind_eq. unfold upd at 1. unfold modify. cbn [fst snd].
  rewrite bind_eq. unfold upd at 1. unfold modify. cbn [fst snd].
  set (r0 := set_offset 0 (set_readbuffer [] r)).
  set (B := _readbuffer r) in *. set (o := _offset r) in *.
  assert (Hfuel : _eof r0 = true \/ (Z.to_nat (_compress_left r0) < read_fuel r)%nat)
    by (right; unfold read_fuel; cbn; lia).
  destruct (@read_all_loop_spec (read_fuel r) (slice_from B o) f r0
              (ok_cleared H) eq_refl eq_refl Hfuel)
    as (f2 & r2 & E2 & Hrem2 & Hok2 & He2 & Hpos2 & Hs2 & Hd2 & HB2 & Ho2).
  exists f2, r2. rewrite E2.
  change (pending f r0) with (pending f r) in *.
  assert (Hsf : slice_from B o = skipn (Z.to_nat o) B).
  { unfold slice_from, clip. destruct (o <? 0) eqn:E; [apply Z.ltb_lt in E; lia |].
    f_equal. lia. }
  split; [rewrite Hsf; reflexivity |].
  split; [exact Hrem2 |]. split; [exact Hok2 |]. split; [exact He2 |].
  split.
  { rewrite Hpos2. unfold position, remaining. cbn. fold B o.
    rewrite len_app, len_skipn. change (len (@nil byte)) with 0. lia. }
  split; [eapply same_entry_trans; [| exact Hs2]; repeat split |].
  repeat split; assumption.
Qed.

Lemma skipn_app_le {A} (l1 l2 : list A) n :
  (n <= length l1)%nat -> skipn n (l1 ++ l2) = skipn n l1 ++ l2.
Proof.
  intros H. rewrite skipn_app. replace (n - length l1)%nat with 0%nat by lia. reflexivity.
Qed.

Lemma content_same f f' r r' :
  f_data f' = f_data f -> same_entry r r' -> content f' r' = content f r.
Proof.
  intros Hd (H1 & H2 & H3 & _). unfold content. rewrite Hd, H1, H2, H3. reflexivity.
Qed.

(** What a sound reader has yet to deliver is its entry from [tell()] on. *)
Lemma sound_remaining f r :
  sound f r -> remaining f r = skipn (Z.to_nat (position r)) (content f r).
Proof.
  intros (H & Hs & Hb). destruct H.
  unfold remaining. rewrite <- skipn_app_le by (unfold len in *; lia).
  rewrite Hb, skipn_skipn. f_equal. lia.
Qed.

(** A read that leaves a reader in working order, with the bytes before
    its offset a tail of what was before the offset and what was
    delivered, leaves a sound reader sound. *)
Lemma sound_after f r f' r' out pre :
  sound f r -> ok f' r' ->
  remaining f r = out ++ remaining f' r' ->
  position r' = position r + len out ->
  f_data f' = f_data f -> same_entry r r' ->
  firstn (Z.to_nat (_offset r)) (_readbuffer r) ++ out
  = pre ++ firstn (Z.to_nat (_offset r')) (_readbuffer r') ->
  sound f' r'.
Proof.
  intros (H & Hs & Hb) H' Hrem Hpos Hd Hse Hpre.
  assert (Ho : 0 <= _offset r <= len (_readbuffer r)) by (destruct H; assumption).
  assert (Ho' : 0 <= _offset r' <= len (_readbuffer r')) by (destruct H'; assumption).
  assert (Hlen : len pre + _offset r' = _offset r + len out).
  { apply (f_equal (@length byte)) in Hpre. rewrite !length_app, !length_firstn in Hpre.
    unfold len in *. lia. }
  assert (HT : _readbuffer r ++ pending f r = pre ++ (_readbuffer r' ++ pending f' r')).
  { rewrite <- (firstn_skipn (Z.to_nat (_offset r)) (_readbuffer r)) at 1.
    rewrite <- app_assoc. fold (remaining f r). rewrite Hrem.
    rewrite app_assoc, Hpre, <- app_assoc. f_equal.
    rewrite <- (firstn_skipn (Z.to_nat (_offset r')) (_readbuffer r')) at 2.
    rewrite <- app_assoc. reflexivity. }
  split; [exact H' |].
  split; [pose proof (len_nonneg pre); lia |].
  rewrite (@content_same f f' r r' Hd Hse).
  replace (Z.to_nat (position r' - _offset r'))
    with (length pre + Z.to_nat (position r - _offset r))%nat
    by (unfold len in *; lia).
  rewrite <- skipn_skipn, <- Hb, HT.
  rewrite skipn_app, skipn_all, Nat.sub_diag. reflexivity.
Qed.

Lemma tell_eval f r :
  closed r = false -> _seekable r = true -> tell (f, r) = (Ok (position r), (f, r)).
Proof.
  intros Hc Hs. unfold tell. rewrite bind_eq. cbv [self]. cbn [fst snd].
  rewrite Hc, Hs. reflexivity.
Qed.

(** [read(n)], [n >= 0], on a sound reader at position [p]: the bytes
    [p .. p+n) of the entry (fewer at its end); the reader is sound at the
    position after them. *)
Lemma read_sound n f r :
  sound f r -> 0 <= n ->
  let out := firstn (Z.to_nat n) (skipn (Z.to_nat (position r)) (content f r)) in
  exists f' r',
    read (Some n) (f, r) = (Ok out, (f', r'))
    /\ sound f' r'
    /\ position r' = position r + len out
    /\ f_data f' = f_data f
    /\ same_entry r r'.
Proof.
  intros Hs Hn out.
  destruct (@read_bounded_spec n f r (proj1 Hs) Hn)
    as (f' & r' & E & Hrem & Hok & Hpos & Hse & Hd & pre & Hpre).
  rewrite (sound_remaining Hs) in E, Hrem, Hpos, Hpre. fold out in E, Hpos, Hpre.
  exists f', r'. split; [exact E |].
  split; [| split; [exact Hpos | split; [exact Hd | exact Hse]]].
  apply (@sound_after f r f' r' out pre Hs Hok); try assumption.
  rewrite Hrem, (sound_remaining Hs). unfold out. symmetry. apply firstn_skipn.
Qed.

(** [read()] on a sound reader at position [p]: the entry from [p] on; the
    reader is sound at the end of the entry. *)
Lemma read_all_sound n f r :
  sound f r -> match n with None => True | Some k => k < 0 end ->
  let out := skipn (Z.to_nat (position r)) (content f r) in
  exists f' r',
    read n (f, r) = (Ok out, (f', r'))
    /\ sound f' r'
    /\ position r' = position r + len out
    /\ remaining f' r' = []
    /\ f_data f' = f_data f
    /\ same_entry r r'.
Proof.
  intros Hs Hn out.
  destruct (@read_all_spec n f r (proj1 Hs) Hn)
    as (f' & r' & E & Hrem & Hok & He & Hpos & Hse & Hd & HB & Ho).
  rewrite (sound_remaining Hs) in E, Hpos. fold out in E, Hpos.
  exists f', r'. split; [exact E |].
  split; [| split; [exact Hpos | split; [exact Hrem | split; [exact Hd | exact Hse]]]].
  apply (@sound_after f r f' r' out (firstn (Z.to_nat (_offset r)) (_readbuffer r) ++ out)
           Hs Hok); try assumption.
  - rewrite Hrem, app_nil_r. apply (sound_remaining Hs).
  - rewrite HB, firstn_nil, app_nil_r. reflexivity.
Qed.

Lemma firstn_prefix_app {A} (l1 l2 : list A) k :
  firstn k l1 = firstn (length (firstn k l1)) (l1 ++ l2).
Proof.
  rewrite firstn_app, length_firstn.
  replace (Nat.min k (length l1) - length l1)%nat with 0%nat by lia.
  cbn [firstn]. rewrite app_nil_r.
  apply firstn_clip. lia.
Qed.

Lemma slice_512 (B : bytes) o :
  0 <= o <= len B -> slice B o (o + 512) = firstn 512 (skipn (Z.to_nat o) B).
Proof. intros H. rewrite slice_at by lia. reflexivity. Qed.

(** [peek(n)] on a sound reader: a prefix of the entry from the current
    position, of at most 512 bytes and of at least [min(n, 512)] bytes when
    that many remain; the reader stays sound at the same position. *)
Lemma peek_sound n f r :
  sound f r ->
  let rest := skipn (Z.to_nat (position r)) (content f r) in
  exists out f' r',
    ZipFilePartRO.peek n (f, r) = (Ok out, (f', r'))
    /\ sound f' r'
    /\ position r' = position r
    /\ f_data f' = f_data f
    /\ same_entry r r'
    /\ out = firstn (length out) rest
    /\ len out <= 512
    /\ Z.min (Z.min n 512) (len rest) <= len out.
Proof.
  intros Hs rest.
  pose proof Hs as (Hok & Hbs & Hb).
  pose proof Hok as [Hc Hsh Ho Hp Hoff Hl Hcl0 Hpres Heof].
  unfold ZipFilePartRO.peek. rewrite bind_eq. cbv [self]. cbn [fst snd].
  destruct (len (_readbuffer r) - _offset r <? n) eqn:En.
  - (* not enough in the buffer: read, then put back *)
    apply Z.ltb_lt in En.
    assert (Hn : 0 <= n) by lia.
    destruct (@read_sound n f r Hs Hn) as (f1 & r1 & E1 & Hs1 & Hpos1 & Hd1 & Hse1).
    fold rest in E1, Hpos1.
    set (chunk := firstn (Z.to_nat n) rest) in *.
    pose proof Hs1 as (Hok1 & Hbs1 & Hb1).
    pose proof Hok1 as [Hc1 Hsh1 Ho1 Hp1 Hoff1 Hl1 Hcl1 Hpres1 Heof1].
    rewrite !bind_eq, E1. rewrite bind_eq. cbn [fst snd].
    assert (Hrest1 : remaining f1 r1 = skipn (Z.to_nat n) rest).
    { rewrite (sound_remaining Hs1), (@content_same f f1 r r1 Hd1 Hse1), Hpos1.
      unfold rest. rewrite skipn_skipn.
      destruct (Z.le_gt_cases n (len rest)) as [Hle | Hgt].
      - f_equal. unfold chunk. rewrite len_firstn. lia.
      - rewrite !skipn_all2; [reflexivity | |];
          unfold chunk in *; rewrite ?len_firstn in *; unfold rest, len in *;
          rewrite ?length_skipn in *; lia. }
    assert (Hlc : len chunk = Z.min n (len rest)) by (unfold chunk; rewrite len_firstn; lia).
    destruct (_offset r1 <? len chunk) eqn:Eo.
    + apply Z.ltb_lt in Eo.
      unfold upd, modify, bind, ret. cbn [fst snd].
      set (B2 := chunk ++ slice_from (_readbuffer r1) (_offset r1)).
      set (r2 := set_offset 0 (set_readbuffer B2 r1)).
      assert (Hsf : slice_from (_readbuffer r1) (_offset r1)
                    = skipn (Z.to_nat (_offset r1)) (_readbuffer r1)).
      { unfold slice_from, clip.
        destruct (_offset r1 <? 0) eqn:E; [apply Z.ltb_lt in E; lia |]. f_equal. lia. }
      assert (HB2 : B2 ++ pending f1 r1 = rest).
      { unfold B2. rewrite Hsf, <- app_assoc. fold (remaining f1 r1). rewrite Hrest1.
        apply firstn_skipn. }
      assert (Hpos2 : position r2 = position r).
      { unfold position in *. cbn. unfold B2. rewrite len_app, Hsf, len_skipn.
        change (len (@nil byte)) with 0 in *. lia. }
      exists (slice B2 0 (0 + 512)), f1, r2.
      cbn [set_offset set_readbuffer _offset _readbuffer]. split; [reflexivity |].
      split.
      { split; [constructor; cbn; try assumption; pose proof (len_nonneg B2); lia |].
        rewrite Hpos2. change (_offset r2) with 0. split; [lia |].
        change (_readbuffer r2) with B2.
        change (pending f1 r2) with (pending f1 r1). rewrite HB2.
        rewrite (@content_same f f1 r r2 Hd1) by exact Hse1.
        unfold rest. f_equal. lia. }
      split; [exact Hpos2 |]. split; [exact Hd1 |]. split; [exact Hse1 |].
      rewrite slice_512 by (pose proof (len_nonneg B2); lia). cbn [Z.to_nat skipn].
      split; [rewrite <- HB2; apply firstn_prefix_app |].
      rewrite len_firstn. unfold B2. rewrite len_app. pose proof (len_nonneg (slice_from (_readbuffer r1) (_offset r1))).
      lia.
    + apply Z.ltb_ge in Eo.
      unfold upd, modify, bind, ret. cbn [fst snd].
      set (o2 := _offset r1 - len chunk).
      set (r2 := set_offset o2 r1).
      assert (Hpos2 : position r2 = position r).
      { unfold position in *. cbn. unfold o2. lia. }
      assert (Hs2 : sound f1 r2).
      { split; [constructor; cbn; try assumption; unfold o2; pose proof (len_nonneg chunk); lia |].
        rewrite Hpos2. change (_offset r2) with o2. change (_readbuffer r2) with (_readbuffer r1).
        change (pending f1 r2) with (pending f1 r1).
        replace (position r - o2) with (position r1 - _offset r1) by (unfold o2; lia).
        split; [exact Hbs1 | exact Hb1]. }
      exists (slice (_readbuffer r1) o2 (o2 + 512)), f1, r2.
      cbn [set_offset _offset _readbuffer]. split; [reflexivity |].
      split; [exact Hs2 |]. split; [exact Hpos2 |]. split; [exact Hd1 |]. split; [exact Hse1 |].
      rewrite slice_512 by (unfold o2; pose proof (len_nonneg chunk); lia).
      assert (Hrem2 : skipn (Z.to_nat o2) (_readbuffer r1) ++ pending f1 r1 = rest).
      { change (skipn (Z.to_nat o2) (_readbuffer r1) ++ pending f1 r1) with (remaining f1 r2).
        rewrite (sound_remaining Hs2), Hpos2, (@content_same f f1 r r2 Hd1) by exact Hse1.
        reflexivity. }
      split; [rewrite <- Hrem2; apply firstn_prefix_app |].
      rewrite len_firstn, len_skipn. unfold o2. lia.
  - (* the buffer holds enough *)
    apply Z.ltb_ge in En.
    cbv [ret]. rewrite bind_eq. cbn [fst snd].
    exists (slice (_readbuffer r) (_offset r) (_offset r + 512)), f, r.
    split; [reflexivity |]. split; [exact Hs |]. split; [reflexivity |].
    split; [reflexivity |]. split; [apply same_entry_refl |].
    rewrite slice_512 by lia.
    assert (Hrem : skipn (Z.to_nat (_offset r)) (_readbuffer r) ++ pending f r = rest)
      by (apply (sound_remaining Hs)).
    split; [rewrite <- Hrem; apply firstn_prefix_app |].
    rewrite len_firstn, len_skipn. lia.
Qed.
End ReaderFacts.

(** ** What [open] hands out *)

Lemma shared_read_ok_inv n f o d s' :
  SharedFileRO.read n (f, o) = (Ok d, s') ->
  f_closed f = false /\ SharedFileRO._file o = true /\ 0 <= SharedFileRO._pos o.
Proof.
  unfold SharedFileRO.read, SharedFileRO.the_file. rewrite !bind_eq.
  cbv [SharedFileRO.self]. cbn [fst snd].
  destruct (SharedFileRO._file o); [| discriminate]. cbv [ret].
  rewrite !bind_eq. unfold SharedFileRO.on_file at 1. unfold zoom. cbn [fst snd].
  unfold f_seek. destruct (f_closed f); [discriminate |].
  change (0 =? 0) with true. cbv iota zeta.
  destruct (0 + SharedFileRO._pos o <? 0) eqn:E.
  - destruct (f_kind f); discriminate.
  - apply Z.ltb_ge in E. intros _. repeat split. lia.
Qed.

Lemma shared_read_nonneg n f o :
  f_closed f = false -> SharedFileRO._file o = true -> 0 <= SharedFileRO._pos o -> 0 <= n ->
  SharedFileRO.read n (f, o)
  = (Ok (firstn (Z.to_nat n) (skipn (Z.to_nat (SharedFileRO._pos o)) (f_data f))),
     (set_pos (SharedFileRO._pos o
               + len (firstn (Z.to_nat n) (skipn (Z.to_nat (SharedFileRO._pos o)) (f_data f)))) f,
      SharedFileRO.mk true
        (SharedFileRO._pos o
         + len (firstn (Z.to_nat n) (skipn (Z.to_nat (SharedFileRO._pos o)) (f_data f)))))).
Proof.
  intros Hc Hf Hp Hn.
  assert (Hlen1 : -1 <= n \/ f_kind f = BytesIO) by (left; lia).
  rewrite (@shared_read_eval n f o Hc Hf Hp Hlen1). cbv zeta.
  destruct (n <? 0) eqn:E; [apply Z.ltb_lt in E; lia | reflexivity].
Qed.

Lemma shared_seek_cur_eval k f o :
  f_closed f = false -> SharedFileRO._file o = true -> 0 <= f_pos f + k ->
  SharedFileRO.seek k 1 (f, o)
  = (Ok (f_pos f + k), (set_pos (f_pos f + k) f, SharedFileRO.mk true (f_pos f + k))).
Proof.
  intros Hc Hf Hk.
  unfold SharedFileRO.seek, SharedFileRO.the_file. rewrite !bind_eq.
  cbv [SharedFileRO.self]. cbn [fst snd]. rewrite Hf. cbv [ret].
  rewrite !bind_eq. unfold SharedFileRO.on_file at 1. unfold zoom. cbn [fst snd].
  unfold f_seek. rewrite Hc. change (1 =? 0) with false. change (1 =? 1) with true.
  cbv iota zeta.
  destruct (f_pos f + k <? 0) eqn:E; [apply Z.ltb_lt in E; lia |].
  rewrite !bind_eq. unfold SharedFileRO.on_file at 1. unfold zoom. cbn [fst snd].
  unfold f_tell. cbn [f_closed set_pos f_pos]. rewrite Hc.
  rewrite !bind_eq. unfold SharedFileRO.set_pos, modify. cbn [fst snd].
  rewrite Hf. reflexivity.
Qed.

Section OpenFacts.
Variable codec : Codec.
Import ZipFilePartRO Stream.

Lemma open_body_reader zinfo f p f' zef' :
  ZipFileRO.open_body codec zinfo (f, SharedFileRO.mk true (ZipInfoRO.header_offset zinfo))
  = (Ok p, (f', zef')) ->
  let start := data_start (f_data f) zinfo in
  f_closed f' = false /\ f_data f' = f_data f
  /\ p = mk (SharedFileRO.mk true start) true
            (ZipInfoRO.compress_size zinfo) (ZipInfoRO.file_size zinfo)
            false [] 0 (ZipInfoRO.filename zinfo)
            true start (ZipInfoRO.compress_size zinfo) (ZipInfoRO.file_size zinfo)
            false None None
  /\ 0 <= ZipInfoRO.header_offset zinfo
  /\ ZipInfoRO.header_offset zinfo + _FILE_HEADER_SIZE <= len (f_data f).
Proof.
  intros H start.
  unfold ZipFileRO.open_body in H.
  apply bind_ok_inv in H. destruct H as (fh & s1 & E1 & H).
  destruct (shared_read_ok_inv _ _ _ E1) as (Hc & _ & Hoff). cbn [SharedFileRO._pos] in Hoff.
  set (off := ZipInfoRO.header_offset zinfo) in *.
  assert (H30 : 0 <= _FILE_HEADER_SIZE) by (unfold _FILE_HEADER_SIZE; lia).
  rewrite (@shared_read_nonneg _FILE_HEADER_SIZE f (SharedFileRO.mk true off) Hc eq_refl Hoff H30)
    in E1.
  cbn [SharedFileRO._pos] in E1.
  apply pair_equal_spec in E1. destruct E1 as [E1 Es1].
  assert (E1' : firstn (Z.to_nat _FILE_HEADER_SIZE) (skipn (Z.to_nat off) (f_data f)) = fh)
    by congruence.
  clear E1. rename E1' into E1. rewrite E1 in Es1. subst s1.
  destruct (negb (len fh =? _FILE_HEADER_SIZE)) eqn:El; [discriminate H |].
  apply negb_false_iff, Z.eqb_eq in El.
  assert (Hwhole : off + _FILE_HEADER_SIZE <= len (f_data f)).
  { rewrite <- E1 in El. rewrite len_firstn, len_skipn in El.
    unfold _FILE_HEADER_SIZE in *. lia. }
  assert (Hfh : fh = slice (f_data f) off (off + _FILE_HEADER_SIZE)).
  { rewrite slice_at by (unfold _FILE_HEADER_SIZE; lia). symmetry. exact E1. }
  rewrite El in H. cbv zeta in H.
  destruct (negb (bytes_eqb (FH_SIGNATURE (unpack_file_header fh)) _FILE_HEADER_STRING));
    [discriminate H |].
  apply bind_ok_inv in H. destruct H as (fname & s2 & E2 & H).
  assert (Hp1 : 0 <= off + _FILE_HEADER_SIZE) by (unfold _FILE_HEADER_SIZE; lia).
  rewrite (@shared_read_nonneg (FH_FILENAME_LENGTH (unpack_file_header fh))
             (set_pos (off + _FILE_HEADER_SIZE) f)
             (SharedFileRO.mk true (off + _FILE_HEADER_SIZE)) Hc eq_refl Hp1
             (field_nonneg _ _ _)) in E2.
  cbn [SharedFileRO._pos f_data set_pos] in E2.
  apply pair_equal_spec in E2. destruct E2 as [E2 Es2].
  assert (E2' : firstn (Z.to_nat (FH_FILENAME_LENGTH (unpack_file_header fh)))
                  (skipn (Z.to_nat (off + _FILE_HEADER_SIZE)) (f_data f)) = fname)
    by congruence.
  clear E2. rename E2' into E2. rewrite E2 in Es2. subst s2.
  assert (Hfname : fname = slice (f_data f) (off + _FILE_HEADER_SIZE)
                            (off + _FILE_HEADER_SIZE + FH_FILENAME_LENGTH (unpack_file_header fh))).
  { rewrite slice_at; [symmetry; exact E2 | lia | apply field_nonneg]. }
  set (pos2 := off + _FILE_HEADER_SIZE + len fname) in *.
  apply bind_ok_inv in H. destruct H as (u & s3 & E3 & H).
  assert (Hs3 : s3 = (set_pos start f, SharedFileRO.mk true start)).
  { assert (Hstart : start = pos2 + FH_EXTRA_FIELD_LENGTH (unpack_file_header fh)).
    { unfold start, data_start. cbv zeta. fold off. rewrite <- Hfh, <- Hfname. reflexivity. }
    destruct (negb (FH_EXTRA_FIELD_LENGTH (unpack_file_header fh) =? 0)) eqn:Ex.
    - apply bind_ok_inv in E3. destruct E3 as (v & s3' & E3 & E3').
      cbv [ret] in E3'. apply pair_equal_spec in E3'. destruct E3' as [_ ->].
      pose proof (field_nonneg fh 28 2) as Hex.
      change (field fh 28 2) with (FH_EXTRA_FIELD_LENGTH (unpack_file_header fh)) in Hex.
      pose proof (len_nonneg fname) as Hfn.
      rewrite (@shared_seek_cur_eval (FH_EXTRA_FIELD_LENGTH (unpack_file_header fh))
                 (set_pos pos2 (set_pos (off + _FILE_HEADER_SIZE) f))
                 (SharedFileRO.mk true pos2) Hc eq_refl) in E3
        by (cbn [f_pos set_pos]; unfold pos2; lia).
      cbn [f_pos set_pos] in E3. apply pair_equal_spec in E3. destruct E3 as [_ E3].
      rewrite <- E3, Hstart. reflexivity.
    - apply negb_false_iff, Z.eqb_eq in Ex. cbv [ret] in E3.
      apply pair_equal_spec in E3. destruct E3 as [_ E3].
      rewrite <- E3, Hstart, Ex, Z.add_0_r. reflexivity. }
  subst s3.
  repeat ok_step H.
  assert (Hs : s = (set_pos start f, SharedFileRO.mk true start)).
  { unfold ZipFileRO.decode_name in Hm.
    destruct (has_flag (FH_GENERAL_PURPOSE_FLAG_BITS (unpack_file_header fh)) _MASK_UTF_FILENAME).
    - destruct (decode_utf8 codec fname); [| discriminate Hm].
      cbv [ret] in Hm. apply pair_equal_spec in Hm. symmetry. apply Hm.
    - cbv [ret] in Hm. apply pair_equal_spec in Hm. symmetry. apply Hm. }
  subst s.
  unfold init in H. apply bind_ok_inv in H. destruct H as (sk & s4 & E4 & H).
  destruct sk; [| discriminate H].
  assert (Hs4 : s4 = (set_pos start f, SharedFileRO.mk true start)).
  { unfold SharedFileRO.seekable, SharedFileRO.the_file in E4. rewrite !bind_eq in E4.
    cbv [SharedFileRO.self ret] in E4. cbn [fst snd SharedFileRO._file] in E4.
    rewrite ?bind_eq in E4. unfold SharedFileRO.on_file, zoom, f_is_seekable in E4.
    cbn [fst snd f_closed set_pos] in E4. rewrite Hc in E4.
    apply pair_equal_spec in E4. symmetry. apply E4. }
  subst s4.
  cbv [SharedFileRO.tell SharedFileRO.self bind ret] in H. cbn [fst snd SharedFileRO._pos] in H.
  apply pair_equal_spec in H. destruct H as [Hp Hs].
  apply pair_equal_spec in Hs. destruct Hs as [Hf' Hz'].
  subst f'. cbn [f_closed f_data set_pos].
  split; [exact Hc |]. split; [reflexivity |].
  split; [congruence |]. split; assumption.
Qed.

Lemma open_ok_body name w zinfo p w' :
  ZipFileRO.open codec name w = (Ok p, w') ->
  resolves name w zinfo ->
  exists zef',
    ZipFileRO.open_body codec zinfo
      (ZipFileRO.w_file w, SharedFileRO.mk true (ZipInfoRO.header_offset zinfo))
    = (Ok p, (ZipFileRO.w_file w', zef')).
Proof.
  intros H Hr. unfold ZipFileRO.open in H.
  apply bind_ok_inv in H. destruct H as (z & w1 & Hz & H).
  cbv [ZipFileRO.self] in Hz. inversion Hz; subst z w1. clear Hz.
  destruct (ZipFileRO._file (ZipFileRO.w_zip w)) eqn:Ef; [| discriminate H].
  cbn [negb] in H.
  apply bind_ok_inv in H. destruct H as (zi & w1 & Hz & H).
  assert (zi = zinfo /\ w1 = w) as [-> ->].
  { destruct name as [n | z0]; cbn in Hr.
    - cbv [ZipFileRO.getinfo ZipFileRO.self bind ret raise] in Hz. rewrite Hr in Hz.
      inversion Hz; split; reflexivity.
    - inversion Hz; subst; split; reflexivity. }
  clear Hz.
  apply bind_ok_inv in H. destruct H as (u & w1 & Hu & H).
  cbv [ZipFileRO.upd modify] in Hu. inversion Hu; subst u w1. clear Hu.
  unfold run_local, try_except, zoom in H. cbn [fst snd ZipFileRO.w_file ZipFileRO.w_zip] in H.
  destruct (ZipFileRO.open_body codec zinfo
              (ZipFileRO.w_file w, SharedFileRO.mk true (ZipInfoRO.header_offset zinfo)))
    as [r [f1 zef1]] eqn:Eb.
  cbn [fst snd] in H.
  destruct r as [part | e1 |].
  - inversion H; subst. exists zef1. reflexivity.
  - exfalso. revert H.
    unfold SharedFileRO.close, bind, modify, zoom, raise, ret. cbn [fst snd].
    destruct (SharedFileRO._file zef1); cbn [fst snd].
    + destruct (ZipFileRO._close _) as [[[] | e |] w2]; cbn [fst snd]; discriminate.
    + discriminate.
  - discriminate H.
Qed.

(** A reader that [open] returns for an entry whose sizes are not negative
    and whose data lies in the byte source is sound, at position 0, and
    its entry is the [compress_size] bytes after the local header, cut to
    [file_size]. *)
Lemma open_sound name w zinfo p w' :
  ZipFileRO.open codec name w = (Ok p, w') ->
  resolves name w zinfo ->
  0 <= ZipInfoRO.compress_size zinfo -> 0 <= ZipInfoRO.file_size zinfo ->
  let data := f_data (ZipFileRO.w_file w) in
  let start := data_start data zinfo in
  start + ZipInfoRO.compress_size zinfo <= len data ->
  sound (ZipFileRO.w_file w') p
  /\ position p = 0
  /\ _seekable p = true
  /\ content (ZipFileRO.w_file w') p
     = firstn (Z.to_nat (ZipInfoRO.file_size zinfo))
         (slice data start (start + ZipInfoRO.compress_size zinfo)).
Proof.
  intros H Hr Hcs Hfs data start Hpres.
  destruct (@open_ok_body name w zinfo p w' H Hr) as (zef' & Eb).
  destruct (@open_body_reader zinfo _ p _ zef' Eb) as (Hc & Hd & Hp & Hoff & Hwhole).
  fold data start in Hp.
  assert (Hstart : 0 <= start).
  { unfold start, data_start. cbv zeta.
    pose proof (len_nonneg (slice data (ZipInfoRO.header_offset zinfo + _FILE_HEADER_SIZE)
       (ZipInfoRO.header_offset zinfo + _FILE_HEADER_SIZE +
        FH_FILENAME_LENGTH (unpack_file_header
          (slice data (ZipInfoRO.header_offset zinfo)
             (ZipInfoRO.header_offset zinfo + _FILE_HEADER_SIZE)))))).
    pose proof (field_nonneg (slice data (ZipInfoRO.header_offset zinfo)
             (ZipInfoRO.header_offset zinfo + _FILE_HEADER_SIZE)) 28 2).
    unfold _FILE_HEADER_SIZE in *. cbn [FH_EXTRA_FIELD_LENGTH unpack_file_header]. lia. }
  subst p.
  assert (Hcontent : content (ZipFileRO.w_file w')
            (mk (SharedFileRO.mk true start) true (ZipInfoRO.compress_size zinfo)
               (ZipInfoRO.file_size zinfo) false [] 0 (ZipInfoRO.filename zinfo) true start
               (ZipInfoRO.compress_size zinfo) (ZipInfoRO.file_size zinfo) false None None)
          = firstn (Z.to_nat (ZipInfoRO.file_size zinfo))
              (slice data start (start + ZipInfoRO.compress_size zinfo))).
  { unfold content. cbn. rewrite Hd. fold data. rewrite slice_at by lia. reflexivity. }
  split; [| split; [unfold position; cbn; change (len (@nil byte)) with 0; lia
                   | split; [reflexivity | exact Hcontent]]].
  split.
  - constructor.
    + exact Hc.
    + reflexivity.
    + reflexivity.
    + exact Hstart.
    + cbn. change (len (@nil byte)) with 0. lia.
    + exact Hfs.
    + exact Hcs.
    + unfold source_pos. cbn. rewrite Hd. exact Hpres.
    + cbn. discriminate.
  - unfold position. cbn [_orig_file_size _left _readbuffer _offset].
    change (len (@nil byte)) with 0.
    split; [lia |].
    replace (ZipInfoRO.file_size zinfo - ZipInfoRO.file_size zinfo - 0 + 0 - 0) with 0 by lia.
    cbn [Z.to_nat skipn app]. rewrite Hcontent.
    unfold pending, source_pos. cbn. rewrite Hd. fold data.
    rewrite slice_at by lia. reflexivity.
Qed.
End OpenFacts.

Section ReaderUse.
Import ZipFilePartRO Stream.

(** A seek whose target, once brought into [0, _orig_file_size], lies in
    the buffer: only the offset moves. *)
Lemma seek_in_buffer offset whence f r :
  sound f r -> _seekable r = true ->
  whence = 0 \/ whence = 1 \/ whence = 2 ->
  let asked := if whence =? 0 then offset
               else if whence =? 1 then position r + offset
               else _orig_file_size r + offset in
  let target := Z.max 0 (Z.min asked (_orig_file_size r)) in
  let buff_offset := target - position r + _offset r in
  0 <= buff_offset < len (_readbuffer r) ->
  seek offset whence (f, r) = (Ok target, (f, set_offset buff_offset r))
  /\ sound f (set_offset buff_offset r)
  /\ position (set_offset buff_offset r) = target.
Proof.
  intros Hs Hsk Hw asked target bo Hbo.
  pose proof Hs as (Hok & Hbs & Hb).
  pose proof Hok as [Hc Hsh Ho Hp Hoff Hl Hcl0 Hpres Heof].
  assert (Hpos' : position (set_offset bo r) = target)
    by (unfold position; cbn; unfold bo, position; lia).
  split; [| split; [| exact Hpos']].
  - unfold seek. rewrite bind_eq. cbv [self]. cbn [fst snd]. rewrite Ho, Hsk. cbn [negb].
    rewrite bind_eq, (@tell_eval f r Ho Hsk). fold (position r).
    rewrite bind_eq.
    assert (Hask : (if whence =? 0 then ret offset
                    else if whence =? 1 then ret (position r + offset)
                    else if whence =? 2 then ret (_orig_file_size r + offset)
                    else raise (ValueError whence_msg)) (f, r) = (Ok asked, (f, r))).
    { unfold asked. destruct Hw as [-> | [-> | ->]]; reflexivity. }
    match goal with
    | |- (let (o, s') := ?X in _) = _ =>
        replace X with (@Ok Z asked, (f, r)) by (symmetry; exact Hask)
    end.
    cbv zeta.
    assert (Htarget : (if (if _orig_file_size r <? asked then _orig_file_size r else asked) <? 0
                       then 0
                       else if _orig_file_size r <? asked then _orig_file_size r else asked)
                      = target).
    { unfold target. destruct (_orig_file_size r <? asked) eqn:E1.
      - apply Z.ltb_lt in E1. destruct (_orig_file_size r <? 0) eqn:E2;
          [apply Z.ltb_lt in E2 | apply Z.ltb_ge in E2]; lia.
      - apply Z.ltb_ge in E1. destruct (asked <? 0) eqn:E2;
          [apply Z.ltb_lt in E2 | apply Z.ltb_ge in E2]; lia. }
    rewrite Htarget. fold bo.
    replace ((0 <=? bo) && (bo <? len (_readbuffer r))) with true
      by (symmetry; apply andb_true_iff; split; [apply Z.leb_le | apply Z.ltb_lt]; lia).
    rewrite !bind_eq. unfold upd at 1. unfold modify. cbn [fst snd].
    cbv [ret]. rewrite !bind_eq.
    change (seek_loop (seek_fuel 0) 0) with (@ret St unit tt). cbv [ret].
    rewrite (@tell_eval f (set_offset bo r) Ho Hsk).
    rewrite Hpos'. reflexivity.
  - split; [constructor; cbn; try assumption; lia |].
    rewrite Hpos'. cbn [_offset _readbuffer set_offset].
    change (pending f (set_offset bo r)) with (pending f r).
    change (content f (set_offset bo r)) with (content f r).
    replace (target - bo) with (position r - _offset r) by (unfold bo; lia).
    split; assumption.
Qed.

(** A closed reader: [read], [seek], [tell], [readable] and [seekable]
    raise [ValueError] and change nothing. *)
Lemma closed_reader f r :
  closed r = true ->
  (forall n, read n (f, r) = (Raise (ValueError "read from closed file."), (f, r)))
  /\ (forall offset whence,
        seek offset whence (f, r) = (Raise (ValueError "seek on closed file."), (f, r)))
  /\ tell (f, r) = (Raise (ValueError "tell on closed file."), (f, r))
  /\ ZipFilePartRO.readable (f, r) = (Raise (ValueError "I/O operation on closed file."), (f, r))
  /\ ZipFilePartRO.seekable (f, r) = (Raise (ValueError "I/O operation on closed file."), (f, r)).
Proof.
  intros Hc. repeat split; intros;
    unfold read, seek, tell, ZipFilePartRO.readable, ZipFilePartRO.seekable;
    rewrite bind_eq; cbv [self]; cbn [fst snd]; rewrite Hc; reflexivity.
Qed.

(** [close()] of a reader issued by a handle marks it closed, whatever
    becomes of the release of its share. *)
Lemma close_part_closed w p :
  closed (snd (snd (ZipFileRO.close_part (w, p)))) = true.
Proof.
  unfold ZipFileRO.close_part, close, try_finally.
  rewrite bind_eq. cbn [fst snd].
  destruct (_close_fileobj p); [| reflexivity].
  unfold zoom, SharedFileRO.close. cbn [fst snd]. rewrite bind_eq. cbn [fst snd].
  destruct (SharedFileRO._file (_fileobj p)); [| reflexivity].
  rewrite bind_eq. unfold modify at 1. cbn [fst snd].
  unfold zoom. cbn [fst snd].
  destruct (ZipFileRO._close w) as [[[] | e |] w1] eqn:E; cbn [fst snd]; try reflexivity.
  exfalso. apply (total__close w). rewrite E. reflexivity.
Qed.

(** A reader keeps its soundness when other users of the byte source move
    its cursor. *)
Lemma sound_other f f' r :
  sound f r -> f_data f' = f_data f -> f_closed f' = false -> sound f' r.
Proof.
  intros (Hok & Hbs & Hb) Hd Hc. destruct Hok.
  split; [constructor; try assumption; rewrite Hd; assumption |].
  split; [assumption |].
  unfold pending, content in *. rewrite Hd. assumption.
Qed.

(** Two readers on one byte source: a read on one and then a read on the
    other deliver what each would deliver alone. *)
Lemma reads_independent n m f p q :
  sound f p -> sound f q -> 0 <= n -> 0 <= m ->
  let out_p := firstn (Z.to_nat n) (skipn (Z.to_nat (position p)) (content f p)) in
  let out_q := firstn (Z.to_nat m) (skipn (Z.to_nat (position q)) (content f q)) in
  exists f1 p1 f2 q1,
    read (Some n) (f, p) = (Ok out_p, (f1, p1))
    /\ read (Some m) (f1, q) = (Ok out_q, (f2, q1))
    /\ sound f2 p1 /\ sound f2 q1
    /\ position p1 = position p + len out_p
    /\ position q1 = position q + len out_q
    /\ content f2 p1 = content f p /\ content f2 q1 = content f q.
Proof.
  intros Hp Hq Hn Hm out_p out_q.
  destruct (@read_sound n f p Hp Hn) as (f1 & p1 & E1 & Hs1 & Hpos1 & Hd1 & Hse1).
  assert (Hc1 : f_closed f1 = false) by (destruct Hs1 as ([] & _); assumption).
  pose proof (@sound_other f f1 q Hq Hd1 Hc1) as Hq1.
  destruct (@read_sound m f1 q Hq1 Hm) as (f2 & q1 & E2 & Hs2 & Hpos2 & Hd2 & Hse2).
  assert (Hcq : content f1 q = content f q) by (unfold content; rewrite Hd1; reflexivity).
  rewrite Hcq in E2, Hpos2.
  assert (Hc2 : f_closed f2 = false) by (destruct Hs2 as ([] & _); assumption).
  exists f1, p1, f2, q1.
  split; [exact E1 |]. split; [exact E2 |].
  split; [exact (@sound_other f1 f2 p1 Hs1 Hd2 Hc2) |]. split; [exact Hs2 |].
  split; [exact Hpos1 |]. split; [exact Hpos2 |].
  split.
  - rewrite <- (@content_same f f1 p p1 Hd1 Hse1). unfold content. rewrite Hd2. reflexivity.
  - rewrite <- Hcq. apply content_same; assumption.
Qed.
End ReaderUse.

Section Truncated.
Import ZipFilePartRO Stream.

(** The loop of an unbounded [read] on a byte source that ends before the
    entry does, with fewer bytes than the reader has yet to take: the read
    that finds nothing raises [EOFError]. *)
Lemma read_all_loop_truncated : forall fuel buf f r,
  f_closed f = false -> SharedFileRO._file (_fileobj r) = true ->
  0 <= source_pos r -> _eof r = false ->
  let avail := Z.max 0 (len (f_data f) - source_pos r) in
  avail < _compress_left r -> avail < _left r -> (Z.to_nat avail < fuel)%nat ->
  exists s', read_all_loop fuel buf (f, r) = (Raise EOFError, s').
Proof.
  induction fuel as [| k IH]; intros buf f r Hc Hsh Hp He avail Hcl Hl Hfuel; [lia |].
  cbn [read_all_loop]. rewrite bind_eq. cbv [self]. cbn [fst snd]. rewrite He.
  rewrite bind_eq.
  set (c := Z.min (Z.max MAX_N MIN_READ_SIZE) (_compress_left r)).
  assert (Hc1 : 1 <= c) by (unfold c, MAX_N, MIN_READ_SIZE; cbn; lia).
  set (chunk := firstn (Z.to_nat c) (skipn (Z.to_nat (source_pos r)) (f_data f))).
  assert (Hlen : len chunk = Z.min c avail)
    by (unfold chunk, avail; rewrite len_firstn, len_skipn; lia).
  assert (E2 : _read2 MAX_N (f, r)
               = match chunk with
                 | [] => (Raise EOFError,
                          (set_pos (source_pos r + len chunk) f,
                           set_compress_left (_compress_left r - len chunk)
                             (set_fileobj (SharedFileRO.mk true (source_pos r + len chunk)) r)))
                 | _ => (Ok chunk,
                         (set_pos (source_pos r + len chunk) f,
                          set_compress_left (_compress_left r - len chunk)
                            (set_fileobj (SharedFileRO.mk true (source_pos r + len chunk)) r)))
                 end).
  { unfold _read2. rewrite bind_eq. cbv [self]. cbn [fst snd].
    destruct (_compress_left r <=? 0) eqn:E; [apply Z.leb_le in E; unfold avail in *; lia |].
    cbv zeta. rewrite bind_eq, on_fileobj_eval. fold c.
    rewrite (@shared_read_nonneg c f (_fileobj r) Hc Hsh Hp) by lia.
    cbn [fst snd]. fold (source_pos r). fold chunk.
    rewrite bind_eq. unfold upd, modify. cbn [fst snd].
    destruct chunk; reflexivity. }
  unfold _read1. rewrite bind_eq. cbv [self]. cbn [fst snd]. rewrite He.
  change (MAX_N <=? 0) with false. cbn [orb].
  rewrite bind_eq, E2. clear E2. clearbody chunk.
  destruct chunk as [| x chunk']; [eexists; reflexivity |].
  cbv beta iota.
  set (chunk := x :: chunk') in *.
  assert (Hm : 1 <= len chunk <= avail).
  { assert (0 < len chunk) by (unfold chunk, len; cbn [length]; lia). lia. }
  clearbody chunk.
  unfold upd, modify, bind, ret, self.
  cbn [fst snd set_compress_left set_fileobj set_eof set_left _left _compress_left].
  assert (Ecl : (_compress_left r - len chunk <=? 0) = false) by (apply Z.leb_gt; lia).
  rewrite Ecl.
  assert (Hdata : slice_to chunk (_left r) = chunk).
  { unfold slice_to, clip. destruct (_left r <? 0) eqn:E; [apply Z.ltb_lt in E; lia |].
    apply firstn_all2. unfold len in *. lia. }
  cbn [_left set_eof]. rewrite Hdata.
  assert (El : (_left r - len chunk <=? 0) = false) by (apply Z.leb_gt; lia).
  rewrite El. cbn [fst snd].
  match goal with
  | |- exists s', read_all_loop k ?b (?f1, ?r1) = _ =>
      destruct (IH b f1 r1) as (s' & Es'); [.. | exists s'; exact Es']
  end.
  all: unfold avail, source_pos in *;
    cbn [_fileobj set_left set_eof set_compress_left set_fileobj SharedFileRO._pos
         SharedFileRO._file f_data f_closed set_pos _left _compress_left _eof];
    try reflexivity; try assumption; lia.
Qed.
End Truncated.

Section TruncatedRead.
Import ZipFilePartRO Stream.

Lemma read_truncated n f r :
  closed r = false ->
  match n with None => True | Some k => k < 0 end ->
  f_closed f = false -> SharedFileRO._file (_fileobj r) = true ->
  0 <= source_pos r -> _eof r = false ->
  let avail := Z.max 0 (len (f_data f) - source_pos r) in
  avail < _compress_left r -> avail < _left r ->
  exists s', read n (f, r) = (Raise EOFError, s').
Proof.
  intros Ho Hn Hc Hsh Hp He avail Hcl Hl.
  unfold read. rewrite bind_eq. cbv [self]. cbn [fst snd]. rewrite Ho.
  replace (match n with Some k => k <? 0 | None => true end) with true
    by (destruct n as [k |]; [symmetry; apply Z.ltb_lt; exact Hn | reflexivity]).
  cbv zeta.
  rewrite bind_eq. unfold upd at 1. unfold modify. cbn [fst snd].
  rewrite bind_eq. unfold upd at 1. unfold modify. cbn [fst snd].
  apply read_all_loop_truncated; try assumption.
  unfold read_fuel, source_pos in *. cbn. fold avail. lia.
Qed.
End TruncatedRead.

Section OpenRead.
Variable codec : Codec.
Import ZipFilePartRO Stream.

(** Opening an entry and reading it whole: the stored bytes; a further
    read finds the entry exhausted. *)
Lemma open_read name w zinfo p w' n :
  ZipFileRO.open codec name w = (Ok p, w') ->
  resolves name w zinfo ->
  0 <= ZipInfoRO.compress_size zinfo -> 0 <= ZipInfoRO.file_size zinfo ->
  let data := f_data (ZipFileRO.w_file w) in
  let start := data_start data zinfo in
  start + ZipInfoRO.compress_size zinfo <= len data ->
  0 <= n ->
  let stored := firstn (Z.to_nat (ZipInfoRO.file_size zinfo))
                  (slice data start (start + ZipInfoRO.compress_size zinfo)) in
  exists f1 p1 f2 p2,
    read None (ZipFileRO.w_file w', p) = (Ok stored, (f1, p1))
    /\ tell (f1, p1) = (Ok (len stored), (f1, p1))
    /\ read (Some n) (f1, p1) = (Ok [], (f2, p2)).
Proof.
  intros H Hr Hcs Hfs data start Hpres Hn stored.
  destruct (@open_sound codec name w zinfo p w' H Hr Hcs Hfs Hpres)
    as (Hs & Hpos & Hsk & Hcont).
  fold data start stored in Hcont.
  destruct (@read_all_sound None _ p Hs I) as (f1 & p1 & E1 & Hs1 & Hpos1 & _ & Hd1 & Hse1).
  rewrite Hpos in E1, Hpos1. cbn [Z.to_nat skipn] in E1, Hpos1.
  rewrite Hcont in E1, Hpos1. rewrite Z.add_0_l in Hpos1.
  destruct (@read_sound n f1 p1 Hs1 Hn) as (f2 & p2 & E2 & _).
  rewrite <- (@content_same _ f1 p p1 Hd1 Hse1) in Hcont.
  rewrite Hpos1, Hcont in E2.
  replace (skipn (Z.to_nat (len stored)) stored) with (@nil byte) in E2
    by (symmetry; apply skipn_all2; unfold len; lia).
  rewrite firstn_nil in E2.
  exists f1, p1, f2, p2. split; [exact E1 |]. split; [| exact E2].
  rewrite <- Hpos1. apply tell_eval.
  - destruct Hs1 as ([] & _). assumption.
  - destruct Hse1 as (_ & _ & _ & Hk & _). rewrite Hk. exact Hsk.
Qed.
End OpenRead.


(** * The handle and its directory *)

(** ** The entry table *)

Lemma str_eqb_eq a c : str_eqb a c = true <-> a = c.
Proof.
  revert c. induction a as [| x a IH]; intros [| y c]; cbn [str_eqb];
    try (split; [discriminate | discriminate]); [split; reflexivity |].
  rewrite andb_true_iff, N.eqb_eq, IH. split; [intros [-> ->]; reflexivity |].
  intros E. inversion E. split; reflexivity.
Qed.

Lemma str_eqb_refl a : str_eqb a a = true.
Proof. apply str_eqb_eq. reflexivity. Qed.

Lemma str_eqb_neq a c : str_eqb a c = false <-> a <> c.
Proof.
  split.
  - intros E Heq. apply str_eqb_eq in Heq. congruence.
  - intros Hne. destruct (str_eqb a c) eqn:E; [| reflexivity].
    apply str_eqb_eq in E. contradiction.
Qed.

Section DictFacts.
Variable V : Type.
Implicit Types (d : dict V) (k : str) (v : V).

Lemma dict_get_set d k v k' :
  dict_get (dict_set d k v) k' = if str_eqb k k' then Some v else dict_get d k'.
Proof.
  induction d as [| [k0 v0] d IH]; cbn [dict_set dict_get].
  - reflexivity.
  - destruct (str_eqb k0 k) eqn:E0; cbn [dict_get].
    + apply str_eqb_eq in E0. subst k0. destruct (str_eqb k k'); reflexivity.
    + destruct (str_eqb k0 k') eqn:E1.
      * apply str_eqb_eq in E1. subst k'.
        replace (str_eqb k k0) with false; [reflexivity |].
        symmetry. apply str_eqb_neq. intros ->. rewrite str_eqb_refl in E0. discriminate.
      * exact IH.
Qed.

Lemma dict_keys_set d k v :
  dict_keys (dict_set d k v)
  = if existsb (str_eqb k) (dict_keys d) then dict_keys d else dict_keys d ++ [k].
Proof.
  unfold dict_keys. induction d as [| [k0 v0] d IH]; cbn [dict_set map fst existsb].
  - reflexivity.
  - destruct (str_eqb k0 k) eqn:E0.
    + apply str_eqb_eq in E0. subst k0. rewrite str_eqb_refl. reflexivity.
    + replace (str_eqb k k0) with false
        by (symmetry; apply str_eqb_neq; intros ->; rewrite str_eqb_refl in E0; discriminate).
      cbn [orb map fst]. rewrite IH. destruct (existsb (str_eqb k) (map fst d)); reflexivity.
Qed.

Lemma existsb_str k l : existsb (str_eqb k) l = true <-> In k l.
Proof.
  rewrite existsb_exists. split.
  - intros (x & Hx & E). apply str_eqb_eq in E. subst x. exact Hx.
  - intros H. exists k. split; [exact H | apply str_eqb_refl].
Qed.

Lemma dict_keys_NoDup_set d k v :
  NoDup (dict_keys d) -> NoDup (dict_keys (dict_set d k v)).
Proof.
  intros H. rewrite dict_keys_set.
  destruct (existsb (str_eqb k) (dict_keys d)) eqn:E; [exact H |].
  apply NoDup_app; [exact H | constructor; [intros [] | constructor] |].
  intros x Hx [<- | []]. apply existsb_str in Hx. congruence.
Qed.

Lemma dict_get_In d k : dict_get d k <> None <-> In k (dict_keys d).
Proof.
  unfold dict_keys. induction d as [| [k0 v0] d IH]; cbn [dict_get map fst In].
  - split; [intros H; exact (H eq_refl) | intros []].
  - destruct (str_eqb k0 k) eqn:E.
    + apply str_eqb_eq in E. split; [intros _; left; exact E | discriminate].
    + rewrite IH. split; [intros H; right; exact H |].
      intros [-> | H]; [rewrite str_eqb_refl in E; discriminate | exact H].
Qed.

Lemma dict_get_value d k v : dict_get d k = Some v -> In v (dict_values d).
Proof.
  unfold dict_values. induction d as [| [k0 v0] d IH]; cbn [dict_get map snd In]; [discriminate |].
  destruct (str_eqb k0 k); [intros E; left; congruence | intros H; right; exact (IH H)].
Qed.
End DictFacts.

Section TableFacts.
Variable codec : Codec.

(** The directory loop on the bytes [data], when it ends without an error:
    every record it went through was accepted, and the table is the one
    it started from with those records added in order. *)
Lemma cd_loop_table size_cd concat data : forall fuel total fp d,
  f_data fp = data -> f_closed fp = false -> 0 <= total -> 0 <= f_pos fp ->
  (f_pos fp = total \/ len data <= f_pos fp) ->
  let r := ZipFileRO.cd_loop codec fuel size_cd concat total (fp, d) in
  fst r = Ok tt ->
  snd (snd r) = fold_left (EntryTable.add codec data concat)
                  (Directory.offsets fuel data size_cd total) d
  /\ Forall (EntryTable.accepted codec data) (Directory.offsets fuel data size_cd total).
Proof.
  induction fuel as [| k IH]; intros total fp d Hd Hc Ht Hp Hi.
  { cbn [ZipFileRO.cd_loop Directory.offsets].
    destruct (total <? size_cd); cbn; [discriminate |].
    intros _. split; [reflexivity | constructor]. }
  cbn [ZipFileRO.cd_loop Directory.offsets].
  destruct (total <? size_cd) eqn:Et;
    [| cbn; intros _; split; [reflexivity | constructor]].
  rewrite !bind_eq, !on_fp_eval.
  assert (H46 : 0 <= _CENTRAL_DIR_SIZE) by (unfold _CENTRAL_DIR_SIZE; lia).
  destruct (@f_read_inv fp _CENTRAL_DIR_SIZE total Hc H46 Hp)
    as (raw & fp1 & E1 & Hraw & Hl1 & Hd1 & Hc1 & Hp1 & Hi1);
    [rewrite Hd; exact Hi |].
  rewrite E1. cbn [fst snd].
  destruct (len raw =? _CENTRAL_DIR_SIZE) eqn:El; cbn [negb];
    [| cbn; discriminate].
  apply Z.eqb_eq in El.
  assert (Hwhole : total + _CENTRAL_DIR_SIZE <= len data).
  { rewrite Hd in Hl1. destruct Hi as [Hi | Hi]; unfold _CENTRAL_DIR_SIZE in *; lia. }
  assert (Hpos : f_pos fp = total).
  { destruct Hi as [Hi | Hi]; [exact Hi |]. rewrite Hd in Hl1.
    unfold _CENTRAL_DIR_SIZE in *. lia. }
  assert (Hrec : unpack_central_dir raw = Directory.record data total).
  { unfold Directory.record. rewrite slice_at.
    - rewrite Hraw, Hd, Hpos. reflexivity.
    - lia.
    - exact H46. }
  cbv zeta. set (cdir := unpack_central_dir raw) in *.
  destruct (bytes_eqb (CD_SIGNATURE cdir) _CENTRAL_DIR_STRING) eqn:Esig; cbn [negb];
    [| cbn; discriminate].
  rewrite !bind_eq, !on_fp_eval.
  assert (Hp1' : 0 <= f_pos fp1) by (pose proof (len_nonneg raw); lia).
  destruct (@f_read_inv fp1 (CD_FILENAME_LENGTH cdir) (total + _CENTRAL_DIR_SIZE) Hc1
              (field_nonneg _ _ _) Hp1')
    as (nm & fp2 & E2 & Hnm & Hl2 & Hd2 & Hc2 & Hp2 & Hi2);
    [rewrite Hd1, Hd; lia |].
  rewrite E2. cbn [fst snd]. rewrite !bind_eq.
  assert (Hslice : nm = slice data (total + _CENTRAL_DIR_SIZE)
                          (total + _CENTRAL_DIR_SIZE + CD_FILENAME_LENGTH cdir)).
  { rewrite slice_at; [| lia | apply field_nonneg].
    rewrite Hnm, Hd1, Hd. f_equal. f_equal. f_equal. lia. }
  assert (Hp2' : 0 <= f_pos fp2) by (pose proof (len_nonneg nm); lia).
  destruct (@f_read_inv fp2 (CD_EXTRA_FIELD_LENGTH cdir)
              (total + _CENTRAL_DIR_SIZE + CD_FILENAME_LENGTH cdir) Hc2
              (field_nonneg _ _ _) Hp2')
    as (ex & fp3 & E3 & _ & Hl3 & Hd3 & Hc3 & Hp3 & Hi3);
    [rewrite Hd2; exact Hi2 |].
  assert (Hp3' : 0 <= f_pos fp3) by (pose proof (len_nonneg ex); lia).
  destruct (@f_read_inv fp3 (CD_COMMENT_LENGTH cdir)
              (total + _CENTRAL_DIR_SIZE + CD_FILENAME_LENGTH cdir
               + CD_EXTRA_FIELD_LENGTH cdir) Hc3
              (field_nonneg _ _ _) Hp3')
    as (cm & fp4 & E4 & _ & Hl4 & Hd4 & Hc4 & Hp4 & Hi4);
    [rewrite Hd3; exact Hi3 |].
  assert (Hnext : total + _CENTRAL_DIR_SIZE + CD_FILENAME_LENGTH cdir
                  + CD_EXTRA_FIELD_LENGTH cdir + CD_COMMENT_LENGTH cdir
                  = Directory.next data total).
  { unfold Directory.next. cbv zeta. rewrite <- Hrec. reflexivity. }
  assert (Hrest : forall name d',
    EntryTable.name codec data total = Some name ->
    let r := bind (ZipFileRO.on_fp (f_read (Some (CD_EXTRA_FIELD_LENGTH cdir))))
               (fun _ => bind (ZipFileRO.on_fp (f_read (Some (CD_COMMENT_LENGTH cdir))))
               (fun _ =>
                  if negb (CD_COMPRESS_TYPE cdir =? ZIP_STORED) then raise AssertionError else
                  bind (modify (fun s : ZipFileRO.CdSt =>
                          (fst s, dict_set (snd s)
                             (ZipInfoRO.filename
                                (ZipInfoRO.mk name (CD_FLAG_BITS cdir)
                                   (CD_LOCAL_HEADER_OFFSET cdir + concat)
                                   (CD_COMPRESSED_SIZE cdir) (CD_UNCOMPRESSED_SIZE cdir)))
                             (ZipInfoRO.mk name (CD_FLAG_BITS cdir)
                                   (CD_LOCAL_HEADER_OFFSET cdir + concat)
                                   (CD_COMPRESSED_SIZE cdir) (CD_UNCOMPRESSED_SIZE cdir)))))
                    (fun _ => ZipFileRO.cd_loop codec k size_cd concat
                       (total + _CENTRAL_DIR_SIZE + CD_FILENAME_LENGTH cdir
                        + CD_EXTRA_FIELD_LENGTH cdir + CD_COMMENT_LENGTH cdir))))
               (fp2, d') in
    fst r = Ok tt ->
    snd (snd r) = fold_left (EntryTable.add codec data concat)
                    (total :: Directory.offsets k data size_cd (Directory.next data total)) d'
    /\ Forall (EntryTable.accepted codec data)
              (total :: Directory.offsets k data size_cd (Directory.next data total))).
  { intros name d' Hname. cbv zeta.
    rewrite !bind_eq, !on_fp_eval. rewrite E3. cbn [fst snd].
    rewrite !bind_eq, !on_fp_eval. rewrite E4. cbn [fst snd].
    destruct (CD_COMPRESS_TYPE cdir =? ZIP_STORED) eqn:Em; cbn [negb];
      [| cbn; discriminate].
    apply Z.eqb_eq in Em.
    rewrite bind_eq. cbn [modify fst snd].
    rewrite Hnext.
    assert (Hadd : EntryTable.add codec data concat d' total
                   = dict_set d' name
                       (ZipInfoRO.mk name (CD_FLAG_BITS cdir)
                          (CD_LOCAL_HEADER_OFFSET cdir + concat)
                          (CD_COMPRESSED_SIZE cdir) (CD_UNCOMPRESSED_SIZE cdir))).
    { unfold EntryTable.add, EntryTable.info. cbv zeta. rewrite Hname, <- Hrec. reflexivity. }
    cbn [fold_left]. rewrite Hadd.
    match goal with
    | |- context [ZipFileRO.cd_loop codec k size_cd concat _ (fp4, ?D)] =>
        pose proof (IH (Directory.next data total) fp4 D) as HIH
    end.
    cbv zeta in HIH. intros Hr.
    destruct HIH as [Htab Hacc]; try assumption.
    - rewrite Hd4, Hd3, Hd2, Hd1. exact Hd.
    - rewrite <- Hnext. pose proof (field_nonneg raw 28 2). pose proof (field_nonneg raw 30 2).
      pose proof (field_nonneg raw 32 2).
      unfold cdir, unpack_central_dir, _CENTRAL_DIR_SIZE. cbn [CD_FILENAME_LENGTH CD_EXTRA_FIELD_LENGTH CD_COMMENT_LENGTH]. lia.
    - pose proof (len_nonneg cm). lia.
    - rewrite <- Hnext. rewrite Hd3, Hd2, Hd1, Hd in Hi4. exact Hi4.
    - split; [exact Htab |]. constructor; [| exact Hacc].
      unfold EntryTable.accepted. rewrite <- Hrec. fold cdir.
      repeat split; try assumption. rewrite Hname. discriminate. }
  unfold ZipFileRO.decode_name.
  destruct (has_flag (CD_FLAG_BITS cdir) _MASK_UTF_FILENAME) eqn:Eu.
  - destruct (decode_utf8 codec nm) as [name |] eqn:En; [| cbn; discriminate].
    cbn [ret]. apply (Hrest name d).
    unfold EntryTable.name. cbv zeta. rewrite <- Hrec. fold cdir. rewrite Eu, <- Hslice. exact En.
  - cbn [ret]. apply (Hrest (decode_cp437 codec nm) d).
    unfold EntryTable.name. cbv zeta. rewrite <- Hrec. fold cdir. rewrite Eu, <- Hslice. reflexivity.
Qed.
End TableFacts.

Lemma dict_set_Forall {V} (P : str * V -> Prop) (d : dict V) k v :
  Forall P d -> P (k, v) -> Forall P (dict_set d k v).
Proof.
  intros Hd Hkv. induction d as [| [k0 v0] d IH]; cbn [dict_set].
  - constructor; [exact Hkv | constructor].
  - inversion Hd; subst. destruct (str_eqb k0 k) eqn:E.
    + apply str_eqb_eq in E. subst k0. constructor; assumption.
    + constructor; [assumption | apply IH; assumption].
Qed.

Section TableUse.
Variable codec : Codec.

Lemma extract_ok_open f r :
  fst (_extract_end_archive f) = Ok r -> f_closed f = false.
Proof.
  unfold _extract_end_archive. rewrite bind_eq. unfold f_seek.
  destruct (f_closed f); [discriminate | reflexivity].
Qed.

Lemma new_ok_endrec file_passed f w :
  ZipFileRO.new codec file_passed f = (Ok tt, w) ->
  f_closed f = false /\ exists endrec, fst (_extract_end_archive f) = Ok (Some endrec).
Proof.
  intros H. apply new_ok in H. destruct H as (H & _).
  unfold ZipFileRO._read_contents in H. rewrite bind_eq in H.
  unfold ZipFileRO.on_file at 1 in H. unfold zoom in H. cbn [ZipFileRO.w_file] in H.
  destruct (_extract_end_archive f) as [r f1] eqn:E.
  assert (Hr : exists endrec, r = Ok (Some endrec)).
  { destruct r as [[e |] | [] |]; try discriminate H. exists e. reflexivity. }
  destruct Hr as (endrec & ->).
  split; [| exists endrec; reflexivity].
  apply (@extract_ok_open f (Some endrec)). rewrite E. reflexivity.
Qed.

Lemma add_well_keyed data concat d off :
  well_keyed d -> well_keyed (EntryTable.add codec data concat d off).
Proof.
  intros [Hn Hf]. unfold EntryTable.add, EntryTable.info. cbv zeta.
  destruct (EntryTable.name codec data off) as [n |]; cbn [option_map]; [| split; assumption].
  cbn [ZipInfoRO.filename]. split.
  - apply dict_keys_NoDup_set. exact Hn.
  - apply dict_set_Forall; [exact Hf |]. cbn.
    split; [reflexivity |]. split; apply field_nonneg.
Qed.

Lemma table_well_keyed data size_cd concat :
  well_keyed (EntryTable.table codec data size_cd concat).
Proof.
  unfold EntryTable.table.
  assert (H : forall l d, well_keyed d -> well_keyed (fold_left (EntryTable.add codec data concat) l d)).
  { induction l as [| x l IH]; intros d Hd; cbn [fold_left]; [exact Hd |].
    apply IH, add_well_keyed, Hd. }
  apply H. split; [constructor | constructor].
Qed.

(** The table of a handle is the table of its directory. *)
Lemma new_table file_passed f endrec w :
  fst (_extract_end_archive f) = Ok (Some endrec) ->
  ZipFileRO.new codec file_passed f = (Ok tt, w) ->
  let start := ECD_OFFSET endrec + ZipFileRO.concat_of endrec in
  let data := Prefixed.directory_bytes f start (ECD_SIZE endrec) in
  ZipFileRO._name_to_info (ZipFileRO.w_zip w)
  = EntryTable.table codec data (ECD_SIZE endrec) (ZipFileRO.concat_of endrec)
  /\ Forall (EntryTable.accepted codec data)
            (Directory.offsets (ZipFileRO.cd_fuel data) data (ECD_SIZE endrec) 0)
  /\ ZipFileRO._start_dir (ZipFileRO.w_zip w) = Some start
  /\ 0 <= start.
Proof.
  intros He Hnew start data.
  pose proof (@extract_ok_open f _ He) as Hc.
  pose proof (proj2 (@new_of_read_contents codec file_passed f)) as Hrc.
  destruct (@read_contents_unfold codec f (ZipFileRO.fresh file_passed) endrec Hc He)
    as (f1 & f2 & Eq).
  fold start data in Eq.
  assert (Hfst : fst (ZipFileRO._read_contents codec
                        (ZipFileRO.mkWorld f (ZipFileRO.fresh file_passed))) = Ok tt).
  { rewrite <- (proj1 (@new_of_read_contents codec file_passed f)), Hnew. reflexivity. }
  rewrite (Hrc Hfst) in Hnew. rewrite Eq in Hnew, Hfst.
  destruct (start <? 0) eqn:Es; [discriminate Hfst |].
  apply Z.ltb_ge in Es. cbn [fst] in Hfst.
  apply pair_equal_spec in Hnew. destruct Hnew as [_ Hw]. subst w.
  cbn [ZipFileRO.w_zip ZipFileRO._name_to_info ZipFileRO.set_name_to_info
       ZipFileRO._start_dir ZipFileRO.set_start_dir ZipFileRO.fresh] in *.
  destruct (@cd_loop_table codec (ECD_SIZE endrec) (ZipFileRO.concat_of endrec) data
              (ZipFileRO.cd_fuel data) 0 (ZipFileRO.BytesIO_of data) [])
    as [Htab Hacc]; try reflexivity; try (cbn; lia); try exact Hfst.
  split; [exact Htab |]. split; [exact Hacc |]. split; [reflexivity | exact Es].
Qed.
End TableUse.

(** ** The concatenation offset *)

Section ConcatenationOffset.
Variable codec : Codec.
Import Prefixed.

(** An entry of a table built from the records at [l] was in the table
    before, or is the entry of one of those records, filed under its
    name. *)
Lemma fold_add_entries data concat : forall l d name zinfo,
  dict_get (fold_left (EntryTable.add codec data concat) l d) name = Some zinfo ->
  dict_get d name = Some zinfo
  \/ exists off, In off l
       /\ EntryTable.name codec data off = Some name
       /\ EntryTable.info codec data concat off = Some zinfo.
Proof.
  induction l as [| a l IH]; intros d name zinfo H; cbn [fold_left] in H; [left; exact H |].
  destruct (IH _ _ _ H) as [Hd | (off & Hin & Hn & Hi)].
  - unfold EntryTable.add in Hd.
    destruct (EntryTable.info codec data concat a) as [zi |] eqn:Ei; [| left; exact Hd].
    rewrite dict_get_set in Hd.
    destruct (str_eqb (ZipInfoRO.filename zi) name) eqn:Es; [| left; exact Hd].
    right. exists a. apply str_eqb_eq in Es. inversion Hd; subst zi.
    split; [left; reflexivity |]. split; [| exact Ei].
    unfold EntryTable.info in Ei. cbv zeta in Ei.
    destruct (EntryTable.name codec data a) as [n |]; [| discriminate Ei].
    cbn [option_map] in Ei. inversion Ei; subst zinfo.
    cbn [ZipInfoRO.filename] in Es. rewrite Es. reflexivity.
  - right. exists off. split; [right; exact Hin | split; assumption].
Qed.

(** Every entry of the table of a directory carries the local-header
    offset of a record of the walk, the one that bears its name, plus the
    concatenation offset. *)
Lemma table_entry_offset data size_cd concat name zinfo :
  dict_get (EntryTable.table codec data size_cd concat) name = Some zinfo ->
  exists off,
    In off (Directory.offsets (ZipFileRO.cd_fuel data) data size_cd 0)
    /\ EntryTable.name codec data off = Some name
    /\ ZipInfoRO.header_offset zinfo
       = CD_LOCAL_HEADER_OFFSET (Directory.record data off) + concat.
Proof.
  intros H. unfold EntryTable.table in H.
  destruct (fold_add_entries _ _ _ _ _ H) as [Hd | (off & Hin & Hn & Hi)];
    [discriminate Hd |].
  exists off. split; [exact Hin |]. split; [exact Hn |].
  unfold EntryTable.info in Hi. cbv zeta in Hi. rewrite Hn in Hi.
  cbn [option_map] in Hi. inversion Hi. reflexivity.
Qed.

(** C8. For an open byte source in which the locator returns the record
    [endrec]: the concatenation offset is [location - size - offset], less
    the 56 + 20 bytes of the ZIP64 record and locator when the record carries
    the ZIP64 signature; a negative start of the directory makes the
    constructor raise [BadZipFile("Bad offset for central directory")]; and
    when the handle is built, its directory start is [offset + concat], its
    table is the table of the records of the directory, each entry of it
    carrying the local-header offset that the record bearing its name
    states plus [concat], and -- provided the record lies at least 76
    bytes into the source, the room the two ZIP64 probes read, which any
    archive that holds an entry with its local header has -- the same
    source with any bytes [pre] put before it yields a handle too, with the
    same names in the same order and every local-header offset, like the
    directory start, larger by exactly [len pre]. *)
Theorem C8_concatenation_offset file_passed f endrec :
  f_closed f = false ->
  fst (_extract_end_archive f) = Ok (Some endrec) ->
  let concat := ZipFileRO.concat_of endrec in
  let start := ECD_OFFSET endrec + concat in
  let data := directory_bytes f start (ECD_SIZE endrec) in
  concat = ECD_LOCATION endrec - ECD_SIZE endrec - ECD_OFFSET endrec
           - (if bytes_eqb (ECD_SIGNATURE endrec) _END_ARCHIVE64_STRING
              then _END_ARCHIVE64_SIZE + _END_ARCHIVE64_LOCATOR_SIZE else 0)
  /\ (start < 0 ->
      fst (ZipFileRO.new codec file_passed f) = Raise (BadZipFile ZipFileRO.bad_offset_msg))
  /\ forall w1,
       ZipFileRO.new codec file_passed f = (Ok tt, w1) ->
       ZipFileRO._start_dir (ZipFileRO.w_zip w1) = Some start
       /\ ZipFileRO._name_to_info (ZipFileRO.w_zip w1)
          = EntryTable.table codec data (ECD_SIZE endrec) concat
       /\ (forall name zinfo,
             dict_get (ZipFileRO._name_to_info (ZipFileRO.w_zip w1)) name = Some zinfo ->
             exists off,
               In off (Directory.offsets (ZipFileRO.cd_fuel data) data (ECD_SIZE endrec) 0)
               /\ EntryTable.name codec data off = Some name
               /\ ZipInfoRO.header_offset zinfo
                  = CD_LOCAL_HEADER_OFFSET (Directory.record data off) + concat)
       /\ (probe_room <= ECD_LOCATION endrec ->
           forall pre, exists w2,
             ZipFileRO.new codec file_passed (prepend pre f) = (Ok tt, w2)
             /\ ZipFileRO._start_dir (ZipFileRO.w_zip w2) = Some (start + len pre)
             /\ ZipFileRO._name_to_info (ZipFileRO.w_zip w2)
                = shift_table (len pre) (ZipFileRO._name_to_info (ZipFileRO.w_zip w1))).
Proof.
  intros Hc He concat start data.
  destruct (new_of_read_contents codec file_passed f) as [Hfst Hok].
  destruct (@read_contents_unfold codec f (ZipFileRO.fresh file_passed) endrec Hc He)
    as (f1 & f2 & Hrc).
  fold concat start data in Hrc.
  cbn [ZipFileRO.fresh ZipFileRO._name_to_info] in Hrc.
  split; [| split].
  - subst concat. unfold ZipFileRO.concat_of.
    destruct (bytes_eqb (ECD_SIGNATURE endrec) _END_ARCHIVE64_STRING); lia.
  - intros Hneg. rewrite Hfst, Hrc.
    destruct (Z.ltb_spec start 0) as [_ | Hx]; [reflexivity | lia].
  - intros w1 Hnew.
    destruct (@new_table codec file_passed f endrec w1 He Hnew) as (Htab & _ & Hsd & _).
    fold concat start data in Htab, Hsd.
    split; [exact Hsd |]. split; [exact Htab |]. split.
    { intros name zinfo Hg. rewrite Htab in Hg. exact (table_entry_offset _ _ _ _ Hg). }
    assert (Hr1 : ZipFileRO._read_contents codec
                    (ZipFileRO.mkWorld f (ZipFileRO.fresh file_passed)) = (Ok tt, w1)).
    { rewrite <- Hnew. symmetry. apply Hok. rewrite <- Hfst, Hnew. reflexivity. }
    rewrite Hrc in Hr1.
    destruct (Z.ltb_spec start 0) as [Hx | Hstart]; [discriminate Hr1 |].
    apply pair_equal_spec in Hr1. destruct Hr1 as [Hrfst Hw1].
    match type of Hrfst with fst ?A = _ => set (r := A) in * end.
    assert (Hsn : forall n,
              ZipFileRO.cd_loop codec (ZipFileRO.cd_fuel data) (ECD_SIZE endrec)
                (concat + n) 0 (ZipFileRO.BytesIO_of data, [])
              = shift_state n r)
      by (intros n; exact (@cd_loop_shift codec n (ECD_SIZE endrec) concat
                             (ZipFileRO.cd_fuel data) 0 (ZipFileRO.BytesIO_of data) [])).
    clearbody r. rewrite <- Hw1.
    cbn [ZipFileRO.w_zip ZipFileRO._start_dir ZipFileRO._name_to_info
         ZipFileRO.set_name_to_info ZipFileRO.set_start_dir].
    intros Hroom pre.
    pose proof (@extract_prepend pre f endrec Hc He Hroom) as Heg.
    destruct (@read_contents_unfold codec (prepend pre f) (ZipFileRO.fresh file_passed)
                (shift_location (len pre) endrec) Hc Heg) as (g1 & g2 & Hrg).
    cbn [ZipFileRO.fresh ZipFileRO._name_to_info] in Hrg.
    rewrite concat_of_shift in Hrg. fold concat in Hrg.
    cbn [shift_location ECD_OFFSET ECD_SIZE] in Hrg.
    replace (ECD_OFFSET endrec + (concat + len pre)) with (start + len pre) in Hrg
      by (subst start; lia).
    pose proof (len_nonneg pre) as Hpre.
    destruct (Z.ltb_spec (start + len pre) 0) as [Hx | _]; [lia |].
    rewrite directory_bytes_prepend in Hrg by exact Hstart. fold data in Hrg.
    match type of Hrg with
    | _ = (fst ?C, _) =>
        assert (HC : C = shift_state (len pre) r) by exact (Hsn (len pre));
        rewrite HC in Hrg
    end.
    unfold shift_state in Hrg. cbn [fst snd] in Hrg. rewrite Hrfst in Hrg.
    destruct (new_of_read_contents codec file_passed (prepend pre f)) as [_ Hokg].
    rewrite Hrg in Hokg. specialize (Hokg eq_refl).
    eexists. split; [exact Hokg |].
    cbn [ZipFileRO.w_zip ZipFileRO._start_dir ZipFileRO._name_to_info
         ZipFileRO.set_name_to_info ZipFileRO.set_start_dir].
    split; reflexivity.
Qed.
End ConcatenationOffset.

(** The hypotheses of C8 hold for the sample archive, its record lies 5185
    bytes into the source, and the stub is put before it; the record of
    [overlong_directory] gives a negative directory start. *)
Lemma C8_concatenation_offset_witness :
  let f := Sample.raw_file Sample.archive in
  let endrec := mkEndRec _END_ARCHIVE_STRING 0 0 2 2 106 5079 0 [] 5185 in
  let g := Sample.raw_file Sample.overlong_directory in
  (f_closed f = false
   /\ fst (_extract_end_archive f) = Ok (Some endrec)
   /\ ZipFileRO.new PyCodec.python false f = (Ok tt, Scenario.world0)
   /\ Prefixed.probe_room <= ECD_LOCATION endrec
   /\ exists w2,
        ZipFileRO.new PyCodec.python false (Prefixed.prepend Sample.stub f) = (Ok tt, w2)
        /\ ZipFileRO._start_dir (ZipFileRO.w_zip w2) = Some (5079 + len Sample.stub)
        /\ ZipFileRO._name_to_info (ZipFileRO.w_zip w2)
           = Prefixed.shift_table (len Sample.stub)
               (ZipFileRO._name_to_info (ZipFileRO.w_zip Scenario.world0)))
  /\ (fst (_extract_end_archive g)
      = Ok (Some (mkEndRec _END_ARCHIVE_STRING 0 0 0 0 5 0 0 [] 0))
      /\ fst (ZipFileRO.new PyCodec.python false g)
         = Raise (BadZipFile ZipFileRO.bad_offset_msg)).
Proof.
  intros f endrec g.
  assert (H1 : f_closed f = false) by reflexivity.
  assert (H2 : fst (_extract_end_archive f) = Ok (Some endrec)) by (vm_compute; reflexivity).
  assert (H3 : ZipFileRO.new PyCodec.python false f = (Ok tt, Scenario.world0))
    by (vm_compute; reflexivity).
  assert (H4 : Prefixed.probe_room <= ECD_LOCATION endrec) by (vm_compute; discriminate).
  assert (G2 : fst (_extract_end_archive g)
               = Ok (Some (mkEndRec _END_ARCHIVE_STRING 0 0 0 0 5 0 0 [] 0)))
    by (vm_compute; reflexivity).
  split.
  - split; [exact H1 |]. split; [exact H2 |]. split; [exact H3 |]. split; [exact H4 |].
    exact (proj2 (proj2 (proj2 (proj2 (proj2 (@C8_concatenation_offset PyCodec.python false f
                                           endrec H1 H2))
                                  Scenario.world0 H3))) H4 Sample.stub).
  - split; [exact G2 |].
    apply (proj1 (proj2 (@C8_concatenation_offset PyCodec.python false g _ eq_refl G2))).
    vm_compute; reflexivity.
Defined.

(** The sample archive behind the 17-byte stub: same names, local headers
    at 17 and 57 instead of 0 and 40, directory at 5096 instead of 5079. *)
Example stub_before_sample :
  let w := snd (ZipFileRO.new PyCodec.python false
                  (Sample.raw_file (Sample.stub ++ Sample.archive))) in
  ZipFileRO._start_dir (ZipFileRO.w_zip w) = Some 5096
  /\ ZipFileRO._name_to_info (ZipFileRO.w_zip w)
     = [(Sample.name_a, ZipInfoRO.mk Sample.name_a 0 17 5 5);
        (Sample.name_b, ZipInfoRO.mk Sample.name_b 0 57 5000 5000)]
  /\ Scenario.with_part w Sample.name_a (ZipFilePartRO.read None) = Ok Sample.hello.
Proof. repeat split; vm_compute; reflexivity. Qed.

(** C8, without the room for the probes.  The archive with no entry is a
    22-byte source whose record lies at offset 0: behind 123 bytes that end
    as a ZIP64 archive does, the probes read those bytes and the handle
    lists an entry ["x"] that the archive does not have.  The in-memory
    source of a one-record directory has its record at offset 67: behind
    nine bytes that start with the ZIP64 signature, the second probe reads
    them and the handle loses the entry ["a"].  In neither case is the
    table of the source with the bytes before it the table of the source
    with every offset larger by their number. *)
Lemma C8_prefix_without_room :
  (let f := Sample.raw_file Sample.empty_archive in
   let pre := Sample.directory_like in
   let r1 := ZipFileRO.new PyCodec.python false f in
   let r2 := ZipFileRO.new PyCodec.python false (Prefixed.prepend pre f) in
   option_map ECD_LOCATION
     match fst (_extract_end_archive f) with Ok r => r | _ => None end = Some 0
   /\ fst r1 = Ok tt /\ fst r2 = Ok tt
   /\ ZipFileRO._name_to_info (ZipFileRO.w_zip (snd r1)) = []
   /\ ZipFileRO._name_to_info (ZipFileRO.w_zip (snd r2))
      = [(Sample.name_x, ZipInfoRO.mk Sample.name_x 0 0 0 0)]
   /\ ZipFileRO._name_to_info (ZipFileRO.w_zip (snd r2))
      <> Prefixed.shift_table (len pre) (ZipFileRO._name_to_info (ZipFileRO.w_zip (snd r1))))
  /\ (let f := Sample.memory_file Sample.directory_only in
      let pre := Sample.zip64_magic in
      let r1 := ZipFileRO.new PyCodec.python false f in
      let r2 := ZipFileRO.new PyCodec.python false (Prefixed.prepend pre f) in
      option_map ECD_LOCATION
        match fst (_extract_end_archive f) with Ok r => r | _ => None end = Some 67
      /\ fst r1 = Ok tt /\ fst r2 = Ok tt
      /\ ZipFileRO._name_to_info (ZipFileRO.w_zip (snd r1))
         = [(Sample.name_lone, ZipInfoRO.mk Sample.name_lone 0 0 0 0)]
      /\ ZipFileRO._name_to_info (ZipFileRO.w_zip (snd r2)) = []
      /\ ZipFileRO._name_to_info (ZipFileRO.w_zip (snd r2))
         <> Prefixed.shift_table (len pre)
              (ZipFileRO._name_to_info (ZipFileRO.w_zip (snd r1)))).
Proof.
  split; cbv zeta; repeat split; try (vm_compute; reflexivity); vm_compute; discriminate.
Qed.


(** ** What the locator returns *)

Lemma starts_with_firstn needle : forall data,
  starts_with needle data = true -> firstn (length needle) data = needle.
Proof.
  induction needle as [| x n IH]; intros [| y d]; cbn [starts_with firstn length];
    try reflexivity; try discriminate.
  intros H. apply andb_true_iff in H. destruct H as [Hxy Hr].
  apply Byte.byte_dec_bl in Hxy. subst y. f_equal. apply IH, Hr.
Qed.

Lemma rfind_starts data needle i :
  rfind data needle = Some i ->
  starts_with needle (skipn (Z.to_nat i) data) = true.
Proof.
  unfold rfind. intros H. pose proof (rfind_from_last needle data 0) as Hl.
  rewrite H in Hl. destruct Hl as [Hs _]. rewrite Z.sub_0_r in Hs. exact Hs.
Qed.

Lemma update_keeps o e : forall s r s',
  _end_archive_update_zip64 o e s = (Ok r, s') ->
  ECD_LOCATION r = ECD_LOCATION e
  /\ ECD_COMMENT r = ECD_COMMENT e
  /\ ECD_COMMENT_SIZE r = ECD_COMMENT_SIZE e.
Proof.
  intros s r s' H. unfold _end_archive_update_zip64 in H.
  repeat ok_step H.
  all: unfold ret in H; inversion H; repeat split.
Qed.

Lemma field_skipn data a off w :
  0 <= a -> 0 <= off -> 0 <= w -> a + off + w <= len data ->
  field (skipn (Z.to_nat a) data) off w = field data (a + off) w.
Proof.
  intros Ha Hoff Hw Hlen. unfold field. f_equal.
  rewrite !slice_at; try lia.
  - rewrite skipn_skipn. do 2 f_equal. lia.
  - rewrite len_skipn. lia.
Qed.

Lemma field_firstn (l : bytes) n off w :
  0 <= off -> 0 <= w -> off + w <= n -> off + w <= len l ->
  field (firstn (Z.to_nat n) l) off w = field l off w.
Proof.
  intros Hoff Hw Hn Hl. unfold field. f_equal.
  rewrite !slice_at; try lia.
  - rewrite skipn_firstn_comm, firstn_firstn. f_equal. lia.
  - rewrite len_firstn. lia.
Qed.

Lemma locate_located data e :
  LocatorSpec.locate data = Some e -> located data e.
Proof.
  unfold LocatorSpec.locate, LocatorSpec.fast. cbv zeta.
  set (tail := LocatorSpec.last_bytes LocatorSpec.EOCD_SIZE data).
  destruct ((len tail =? LocatorSpec.EOCD_SIZE) && LocatorSpec.signature_matches tail
            && (LocatorSpec.comment_length tail =? 0)) eqn:Efast.
  - (* the last 22 bytes *)
    intros H. inversion H; subst e. clear H.
    apply andb_true_iff in Efast. destruct Efast as [Efast Ecl].
    apply andb_true_iff in Efast. destruct Efast as [El Esig].
    apply Z.eqb_eq in El, Ecl.
    unfold LocatorSpec.signature_matches in Esig. apply bytes_eqb_eq in Esig.
    unfold LocatorSpec.comment_length in Ecl.
    unfold tail, LocatorSpec.last_bytes in *. rewrite len_skipn in El.
    unfold located, LocatorSpec.decode, unpack_end_archive.
    cbn [ECD_LOCATION ECD_COMMENT ECD_COMMENT_SIZE].
    unfold LocatorSpec.EOCD_SIZE, _END_ARCHIVE_SIZE in *.
    assert (Hsz : 22 <= len data) by lia.
    split; [lia |]. split; [lia |]. split.
    { rewrite slice_at by lia. exact Esig. }
    split; [apply field_skipn; lia |].
    rewrite Ecl. rewrite Z.add_0_r. unfold slice. rewrite Z.sub_diag. reflexivity.
  - (* the search of the window *)
    clear Efast tail. unfold LocatorSpec.scan. cbv zeta.
    set (m := Z.min (len data) (LocatorSpec.KiB64 + LocatorSpec.EOCD_SIZE)).
    set (window := LocatorSpec.last_bytes m data).
    destruct (rfind window _END_ARCHIVE_STRING) as [start |] eqn:Er; [| discriminate].
    pose proof (rfind_bounds _ _ Er) as Hb.
    pose proof (rfind_starts _ _ Er) as Hst.
    set (rec := firstn (Z.to_nat LocatorSpec.EOCD_SIZE) (skipn (Z.to_nat start) window)).
    destruct (len rec =? LocatorSpec.EOCD_SIZE) eqn:El; [| discriminate].
    apply Z.eqb_eq in El.
    intros H. inversion H; subst e. clear H.
    assert (Hm : 0 <= m <= len data)
      by (unfold m, LocatorSpec.KiB64, LocatorSpec.EOCD_SIZE; pose proof (len_nonneg data); lia).
    assert (Hlw : len window = m)
      by (unfold window, LocatorSpec.last_bytes; rewrite len_skipn; lia).
    assert (Hskip : forall a, 0 <= a ->
              skipn (Z.to_nat a) window = skipn (Z.to_nat (len data - m + a)) data).
    { intros a Ha. unfold window, LocatorSpec.last_bytes. rewrite skipn_skipn. f_equal. lia. }
    unfold rec in El. rewrite len_firstn, len_skipn in El.
    unfold located, LocatorSpec.decode, unpack_end_archive.
    cbn [ECD_LOCATION ECD_COMMENT ECD_COMMENT_SIZE]. rewrite Hlw.
    unfold LocatorSpec.EOCD_SIZE, _END_ARCHIVE_SIZE in *.
    assert (Hcl : LocatorSpec.comment_length rec = field data (len data - m + start + 20) 2).
    { unfold LocatorSpec.comment_length, rec.
      rewrite field_firstn by (rewrite ?len_skipn; lia).
      rewrite Hskip by lia. rewrite field_skipn by lia. reflexivity. }
    split; [lia |]. split; [lia |]. split.
    { rewrite slice_at by lia. rewrite <- Hskip by lia.
      apply (starts_with_firstn _END_ARCHIVE_STRING), Hst. }
    split; [exact Hcl |].
    rewrite slice_at; [| lia | apply field_nonneg].
    rewrite Hskip by lia. do 2 f_equal. lia.
Qed.

Lemma extract_located f e :
  fst (_extract_end_archive f) = Ok (Some e) -> located (f_data f) e.
Proof.
  intros H. pose proof (@extract_ok_open f _ H) as Hc.
  rewrite (@extract_refines f Hc) in H.
  destruct (LocatorSpec.locate (f_data f)) as [e0 |] eqn:El; [| discriminate H].
  apply locate_located in El. cbn [LocatorSpec.upgrade] in H.
  rewrite bind_eq in H.
  destruct (_end_archive_update_zip64 (ECD_LOCATION e0 - f_size f) e0 f)
    as [[r | x |] f1] eqn:Eu; try discriminate H.
  cbv [ret fst] in H. inversion H; subst r. clear H.
  apply update_keeps in Eu. destruct Eu as (E1 & E2 & E3).
  unfold located in *. rewrite E1, E2, E3. exact El.
Qed.

(** ** The constructor *)

Lemma total_update o e : total (_end_archive_update_zip64 o e).
Proof.
  unfold _end_archive_update_zip64. total_tac.
Qed.

Lemma total_scan n : total (_extract_end_archive_scan n).
Proof.
  unfold _extract_end_archive_scan.
  repeat (total_step; auto using total_update with total).
Qed.

Lemma total_extract : total _extract_end_archive.
Proof.
  unfold _extract_end_archive.
  repeat (total_step; auto using total_update, total_scan with total).
Qed.

Section Constructor.
Variable codec : Codec.

Lemma read_contents_total f z :
  fst (ZipFileRO._read_contents codec (ZipFileRO.mkWorld f z)) <> OutOfFuel.
Proof.
  destruct (fst (_extract_end_archive f)) as [[endrec |] | x |] eqn:Ex.
  - pose proof (@extract_ok_open f _ Ex) as Hc.
    destruct (@read_contents_unfold codec f z endrec Hc Ex) as (f1 & f2 & Eq).
    rewrite Eq.
    destruct (ECD_OFFSET endrec + ZipFileRO.concat_of endrec <? 0); [discriminate |].
    cbn [fst].
    set (data := Prefixed.directory_bytes f (ECD_OFFSET endrec + ZipFileRO.concat_of endrec)
                   (ECD_SIZE endrec)).
    apply (@cd_loop_stored codec (ECD_SIZE endrec) (ZipFileRO.concat_of endrec) data
             (ZipFileRO.cd_fuel data) 0 (ZipFileRO.BytesIO_of data));
      try reflexivity; try (cbn; lia).
    cbn [ZipFileRO.BytesIO_of f_pos]. unfold ZipFileRO.cd_fuel, len. lia.
  - rewrite (@read_contents_not_found codec f z Ex). discriminate.
  - unfold ZipFileRO._read_contents. rewrite bind_eq.
    unfold ZipFileRO.on_file at 1. unfold zoom. cbn [ZipFileRO.w_file].
    destruct (_extract_end_archive f) as [r f1]. cbn [fst] in Ex. subst r.
    destruct x; discriminate.
  - exfalso. exact (total_extract f Ex).
Qed.

(** [ZipFileRO(file)] either returns an open handle that holds the one
    reference, the byte source untouched but for its cursor, or raises and
    leaves the handle closed with no reference, the byte source closed if
    the constructor had opened it and as it was if the caller passed it. *)
Lemma new_outcome file_passed f :
  match ZipFileRO.new codec file_passed f with
  | (Ok _, w) =>
      ZipFileRO._file (ZipFileRO.w_zip w) = true
      /\ ZipFileRO._file_ref_count (ZipFileRO.w_zip w) = 1
      /\ ZipFileRO._file_passed (ZipFileRO.w_zip w) = file_passed
      /\ file_frame f (ZipFileRO.w_file w)
  | (Raise e, w) =>
      ZipFileRO._file (ZipFileRO.w_zip w) = false
      /\ ZipFileRO._file_ref_count (ZipFileRO.w_zip w) = 0
      /\ f_data (ZipFileRO.w_file w) = f_data f
      /\ f_closed (ZipFileRO.w_file w) = negb file_passed || f_closed f
      /\ f_close_calls (ZipFileRO.w_file w)
         = (f_close_calls f + if file_passed then 0 else 1)%nat
  | (OutOfFuel, _) => False
  end.
Proof.
  unfold ZipFileRO.new, ZipFileRO.init, try_except.
  pose proof (@read_contents_total f (ZipFileRO.fresh file_passed)) as Htot.
  destruct (ZipFileRO._read_contents codec (ZipFileRO.mkWorld f (ZipFileRO.fresh file_passed)))
    as [r w1] eqn:E.
  apply read_contents_frame in E. destruct E as (Hff & Hfile & Hpassed & Hcount).
  cbn [ZipFileRO.w_file ZipFileRO.w_zip ZipFileRO.fresh ZipFileRO._file
       ZipFileRO._file_passed ZipFileRO._file_ref_count] in *.
  destruct r as [[] | e |]; cbn [fst] in Htot.
  - repeat split; try assumption; apply Hff.
  - rewrite bind_eq. unfold ZipFileRO.upd at 1. unfold modify. cbv beta iota.
    rewrite bind_eq. rewrite _close_spec by (cbn; lia).
    cbn [ZipFileRO.w_zip ZipFileRO.w_file ZipFileRO.set_file ZipFileRO.set_ref_count
         ZipFileRO._file ZipFileRO._file_ref_count ZipFileRO._file_passed].
    rewrite Hcount, Hpassed. change (1 - 1 =? 0) with true. cbn [andb].
    cbv [raise]. cbn [ZipFileRO.w_zip ZipFileRO.w_file ZipFileRO._file ZipFileRO._file_ref_count
                       ZipFileRO.set_ref_count].
    destruct Hff as (Hd & _ & _ & Hc & Hcalls).
    destruct file_passed; cbn [negb orb f_close snd f_data f_closed f_close_calls].
    + repeat split; try assumption. lia.
    + repeat split; try assumption. lia.
  - contradiction.
Qed.
End Constructor.

Lemma firstn_starts_with needle : forall data,
  firstn (length needle) data = needle -> starts_with needle data = true.
Proof.
  induction needle as [| x n IH]; intros [| y d]; cbn [starts_with firstn length];
    try reflexivity; try discriminate.
  intros H. inversion H; subst. apply andb_true_iff. split.
  - apply Byte.byte_dec_lb. reflexivity.
  - rewrite H2. apply IH. exact H2.
Qed.

Section NotAnArchive.
Variable codec : Codec.

Lemma not_found_not_zip file_passed f :
  f_closed f = false ->
  LocatorSpec.locate (f_data f) = None ->
  fst (_extract_end_archive f) = Ok None
  /\ fst (ZipFileRO.new codec file_passed f) = Raise (BadZipFile ZipFileRO.not_zip_msg).
Proof.
  intros Hc Hl.
  assert (Hx : fst (_extract_end_archive f) = Ok None).
  { rewrite (@extract_refines f Hc), Hl. reflexivity. }
  split; [exact Hx |].
  rewrite (proj1 (@new_of_read_contents codec file_passed f)).
  apply read_contents_not_found. exact Hx.
Qed.

Lemma locate_short data :
  len data < _END_ARCHIVE_SIZE -> LocatorSpec.locate data = None.
Proof.
  intros H. unfold LocatorSpec.locate.
  rewrite fast_short, scan_short by exact H. reflexivity.
Qed.

Lemma locate_no_signature data :
  let window := LocatorSpec.last_bytes
                  (Z.min (len data) (LocatorSpec.KiB64 + LocatorSpec.EOCD_SIZE)) data in
  (forall k, (k < length window)%nat ->
             starts_with _END_ARCHIVE_STRING (skipn k window) = false) ->
  LocatorSpec.locate data = None.
Proof.
  intros window Hno.
  unfold LocatorSpec.locate, LocatorSpec.fast. cbv zeta.
  set (tail := LocatorSpec.last_bytes LocatorSpec.EOCD_SIZE data).
  destruct ((len tail =? LocatorSpec.EOCD_SIZE) && LocatorSpec.signature_matches tail
            && (LocatorSpec.comment_length tail =? 0)) eqn:Efast.
  - exfalso.
    apply andb_true_iff in Efast. destruct Efast as [Efast _].
    apply andb_true_iff in Efast. destruct Efast as [El Esig].
    apply Z.eqb_eq in El.
    unfold LocatorSpec.signature_matches in Esig. apply bytes_eqb_eq in Esig.
    unfold tail, window, LocatorSpec.last_bytes, LocatorSpec.EOCD_SIZE, LocatorSpec.KiB64 in *.
    rewrite len_skipn in El.
    set (m := Z.min (len data) (65536 + 22)) in *.
    assert (Hm : 22 <= m <= len data) by (unfold m; lia).
    specialize (Hno (Z.to_nat (m - 22))).
    rewrite skipn_skipn in Hno.
    replace (Z.to_nat (m - 22) + Z.to_nat (len data - m))%nat
      with (Z.to_nat (len data - 22)) in Hno by lia.
    rewrite (@firstn_starts_with _END_ARCHIVE_STRING _ Esig) in Hno.
    assert (Hk : (Z.to_nat (m - 22) < length (skipn (Z.to_nat (len data - m)) data))%nat)
      by (rewrite length_skipn; unfold len in *; lia).
    specialize (Hno Hk). discriminate.
  - unfold LocatorSpec.scan. cbv zeta. fold window.
    destruct (rfind window _END_ARCHIVE_STRING) as [start |] eqn:Er; [| reflexivity].
    exfalso. pose proof (rfind_bounds _ _ Er) as Hb. pose proof (rfind_starts _ _ Er) as Hs.
    rewrite Hno in Hs; [discriminate | unfold len in Hb; lia].
Qed.
End NotAnArchive.

(** ** The queries of a handle *)

Lemma dict_get_pair {V} (d : dict V) k v : dict_get d k = Some v -> In (k, v) d.
Proof.
  induction d as [| [k0 v0] d IH]; cbn [dict_get]; [discriminate |].
  destruct (str_eqb k0 k) eqn:E.
  - intros H. inversion H; subst. apply str_eqb_eq in E. subst. left. reflexivity.
  - intros H. right. apply IH, H.
Qed.

Section Queries.
Variable codec : Codec.

Lemma well_keyed_names d :
  well_keyed d -> map ZipInfoRO.filename (dict_values d) = dict_keys d.
Proof.
  intros [_ Hf]. unfold dict_values, dict_keys. rewrite map_map.
  apply map_ext_in. intros kv Hin.
  rewrite Forall_forall in Hf. apply (Hf kv Hin).
Qed.

Lemma handle_queries file_passed f w :
  ZipFileRO.new codec file_passed f = (Ok tt, w) ->
  exists names infos,
    ZipFileRO.namelist w = (Ok names, w)
    /\ ZipFileRO.infolist w = (Ok infos, w)
    /\ NoDup names
    /\ map ZipInfoRO.filename infos = names
    /\ (forall n, In n names ->
          exists zinfo, ZipFileRO.getinfo n w = (Ok zinfo, w)
                        /\ ZipInfoRO.filename zinfo = n /\ In zinfo infos
                        /\ 0 <= ZipInfoRO.compress_size zinfo
                        /\ 0 <= ZipInfoRO.file_size zinfo)
    /\ (forall n, ~ In n names ->
          ZipFileRO.getinfo n w = (Raise KeyError, w)
          /\ ZipFileRO.open codec (inl n) w = (Raise KeyError, w)).
Proof.
  intros Hnew.
  destruct (@new_ok_endrec codec file_passed f w Hnew) as (Hc & endrec & He).
  destruct (@new_table codec file_passed f endrec w He Hnew) as (Htab & _).
  pose proof (@table_well_keyed codec
                (Prefixed.directory_bytes f (ECD_OFFSET endrec + ZipFileRO.concat_of endrec)
                   (ECD_SIZE endrec))
                (ECD_SIZE endrec) (ZipFileRO.concat_of endrec)) as Hwk.
  rewrite <- Htab in Hwk.
  pose proof (@new_outcome codec file_passed f) as Hout. rewrite Hnew in Hout.
  destruct Hout as (Hfile & _).
  set (d := ZipFileRO._name_to_info (ZipFileRO.w_zip w)) in *.
  exists (dict_keys d), (dict_values d).
  split; [reflexivity |]. split; [reflexivity |].
  split; [exact (proj1 Hwk) |]. split; [exact (well_keyed_names Hwk) |].
  split.
  - intros n Hin. apply dict_get_In in Hin.
    destruct (dict_get d n) as [zinfo |] eqn:Eg; [| congruence].
    exists zinfo. split.
    { unfold ZipFileRO.getinfo. rewrite bind_eq. cbv [ZipFileRO.self]. cbn [fst snd].
      fold d. rewrite Eg. reflexivity. }
    pose proof (dict_get_pair _ _ Eg) as Hp.
    destruct Hwk as [_ Hf]. rewrite Forall_forall in Hf. specialize (Hf _ Hp).
    cbn [fst snd] in Hf. destruct Hf as (Hn & Hcs & Hfs).
    split; [exact Hn |]. split; [exact (dict_get_value _ _ Eg) |]. split; assumption.
  - intros n Hnin.
    assert (Eg : dict_get d n = None).
    { destruct (dict_get d n) eqn:Eg; [| reflexivity].
      exfalso. apply Hnin. apply dict_get_In. congruence. }
    assert (Hget : ZipFileRO.getinfo n w = (Raise KeyError, w)).
    { unfold ZipFileRO.getinfo. rewrite bind_eq. cbv [ZipFileRO.self]. cbn [fst snd].
      fold d. rewrite Eg. reflexivity. }
    split; [exact Hget |].
    unfold ZipFileRO.open. rewrite bind_eq. cbv [ZipFileRO.self]. cbn [fst snd].
    rewrite Hfile. cbn [negb]. rewrite bind_eq, Hget. reflexivity.
Qed.
End Queries.

(** ** Archives that span disks *)

Lemma update_multi_disk o e f :
  f_closed f = false ->
  0 <= f_size f + o - _END_ARCHIVE64_LOCATOR_SIZE -> o <= 0 ->
  let at_ := f_size f + o - _END_ARCHIVE64_LOCATOR_SIZE in
  let locator := slice (f_data f) at_ (at_ + _END_ARCHIVE64_LOCATOR_SIZE) in
  slice locator 0 4 = _END_ARCHIVE64_LOCATOR_STRING ->
  field locator 4 4 <> 0 \/ 1 < field locator 16 4 ->
  fst (_end_archive_update_zip64 o e f) = Raise (BadZipFile multi_disk_msg).
Proof.
  intros Hc Hat Ho at_ locator Hsig Hdisk.
  unfold _end_archive_update_zip64. rewrite bind_eq.
  unfold except_OSError. rewrite bind_eq.
  assert (Hseek : 0 <= f_size f + (o - _END_ARCHIVE64_LOCATOR_SIZE)) by lia.
  rewrite (@f_seek_end f (o - _END_ARCHIVE64_LOCATOR_SIZE) Hc Hseek).
  replace (f_size f + (o - _END_ARCHIVE64_LOCATOR_SIZE)) with at_ by (unfold at_; lia).
  cbv [ret]. cbn [negb fst snd]. rewrite bind_eq.
  assert (Hr : readable_length (set_pos at_ f) (Some _END_ARCHIVE64_LOCATOR_SIZE))
    by (left; unfold _END_ARCHIVE64_LOCATOR_SIZE; lia).
  rewrite (@f_read_eval (set_pos at_ f) (Some _END_ARCHIVE64_LOCATOR_SIZE) Hc Hr).
  cbv zeta. change (_END_ARCHIVE64_LOCATOR_SIZE <? 0) with false. cbv iota.
  change (f_pos (set_pos at_ f)) with at_. change (f_data (set_pos at_ f)) with (f_data f).
  assert (Hloc : locator = firstn (Z.to_nat _END_ARCHIVE64_LOCATOR_SIZE)
                             (skipn (Z.to_nat at_) (f_data f))).
  { unfold locator. apply slice_at; [| unfold _END_ARCHIVE64_LOCATOR_SIZE; lia].
    unfold at_, f_size, _END_ARCHIVE64_LOCATOR_SIZE in *. lia. }
  rewrite <- Hloc. cbn [fst snd].
  assert (Hlen : len locator = _END_ARCHIVE64_LOCATOR_SIZE).
  { rewrite Hloc. unfold len. rewrite length_firstn, length_skipn.
    unfold at_, f_size, len, _END_ARCHIVE64_LOCATOR_SIZE in *. lia. }
  rewrite Hlen, Z.eqb_refl. cbn [negb]. cbv zeta.
  rewrite Hsig.
  replace (bytes_eqb _END_ARCHIVE64_LOCATOR_STRING _END_ARCHIVE64_LOCATOR_STRING)
    with true by reflexivity.
  cbn [negb].
  replace (negb (field locator 4 4 =? 0) || (1 <? field locator 16 4)) with true.
  - reflexivity.
  - symmetry. apply orb_true_iff. destruct Hdisk as [H | H].
    + left. apply negb_true_iff, Z.eqb_neq, H.
    + right. apply Z.ltb_lt, H.
Qed.

Section MultiDisk.
Variable codec : Codec.

Lemma read_contents_raise f z msg :
  fst (_extract_end_archive f) = Raise (BadZipFile msg) ->
  fst (ZipFileRO._read_contents codec (ZipFileRO.mkWorld f z)) = Raise (BadZipFile msg).
Proof.
  intros H. unfold ZipFileRO._read_contents. rewrite bind_eq.
  unfold ZipFileRO.on_file, zoom. cbn [ZipFileRO.w_file].
  destruct (_extract_end_archive f) as [r f'] eqn:E. cbn [fst] in H. subst r.
  reflexivity.
Qed.

Lemma multi_disk_rejected file_passed f e :
  f_closed f = false ->
  LocatorSpec.locate (f_data f) = Some e ->
  _END_ARCHIVE64_LOCATOR_SIZE <= ECD_LOCATION e ->
  let locator := slice (f_data f) (ECD_LOCATION e - _END_ARCHIVE64_LOCATOR_SIZE)
                   (ECD_LOCATION e) in
  slice locator 0 4 = _END_ARCHIVE64_LOCATOR_STRING ->
  field locator 4 4 <> 0 \/ 1 < field locator 16 4 ->
  fst (_extract_end_archive f) = Raise (BadZipFile multi_disk_msg)
  /\ fst (ZipFileRO.new codec file_passed f) = Raise (BadZipFile multi_disk_msg).
Proof.
  intros Hc Hl Hroom locator Hsig Hdisk.
  pose proof (locate_located _ Hl) as (H0 & Hend & _).
  assert (Hx : fst (_extract_end_archive f) = Raise (BadZipFile multi_disk_msg)).
  { rewrite (@extract_refines f Hc), Hl. cbn [LocatorSpec.upgrade].
    rewrite bind_eq.
    assert (Hu : fst (_end_archive_update_zip64 (ECD_LOCATION e - f_size f) e f)
                 = Raise (BadZipFile multi_disk_msg)).
    { apply update_multi_disk; try assumption.
      - lia.
      - unfold f_size, _END_ARCHIVE_SIZE in *. lia.
      - replace (f_size f + (ECD_LOCATION e - f_size f) - _END_ARCHIVE64_LOCATOR_SIZE)
          with (ECD_LOCATION e - _END_ARCHIVE64_LOCATOR_SIZE) by lia.
        replace (ECD_LOCATION e - _END_ARCHIVE64_LOCATOR_SIZE + _END_ARCHIVE64_LOCATOR_SIZE)
          with (ECD_LOCATION e) by lia.
        exact Hsig.
      - replace (f_size f + (ECD_LOCATION e - f_size f) - _END_ARCHIVE64_LOCATOR_SIZE)
          with (ECD_LOCATION e - _END_ARCHIVE64_LOCATOR_SIZE) by lia.
        replace (ECD_LOCATION e - _END_ARCHIVE64_LOCATOR_SIZE + _END_ARCHIVE64_LOCATOR_SIZE)
          with (ECD_LOCATION e) by lia.
        exact Hdisk. }
    destruct (_end_archive_update_zip64 (ECD_LOCATION e - f_size f) e f) as [r f1].
    cbn [fst] in Hu. subst r. reflexivity. }
  split; [exact Hx |].
  rewrite (proj1 (@new_of_read_contents codec file_passed f)).
  apply read_contents_raise. exact Hx.
Qed.
End MultiDisk.


(** * The behaviour of the reader and of the handle *)

(** ** Readers of the sample archive *)

Lemma reader_a_opened :
  ZipFileRO.open PyCodec.python (inl Sample.name_a) Scenario.world0
  = (Ok Scenario.reader_a, Scenario.world_a).
Proof. vm_compute. reflexivity. Qed.

Lemma reader_b_opened :
  fst (ZipFileRO.open PyCodec.python (inl Sample.name_b) Scenario.world0)
  = Ok Scenario.reader_b.
Proof. vm_compute. reflexivity. Qed.

Ltac sample_sound :=
  repeat split; vm_compute; try reflexivity;
  first [ let H := fresh in intro H; discriminate H
        | let H := fresh in intros _; left; intro H; discriminate H ].

Lemma reader_a_sound : Stream.sound (Sample.raw_file Sample.archive) Scenario.reader_a.
Proof. sample_sound. Qed.

Lemma reader_b_sound : Stream.sound (Sample.raw_file Sample.archive) Scenario.reader_b.
Proof. sample_sound. Qed.

Lemma after_read2_sound :
  Stream.sound (fst Scenario.after_read2) (snd Scenario.after_read2).
Proof. sample_sound. Qed.

(** ** The shared handle *)

(** X1. [_SharedFileRO.read(n)] on an open source, through a handle that
    holds it: the bytes are read at the handle's own position, wherever
    the cursor of the source stands ([n] of them, fewer at the end of the
    source, all that follow for [n = -1] and, on an [io.BytesIO], for any
    negative [n]); the handle's position and the cursor of the source both
    end after the bytes read.  A length below [-1] on a raw file raises
    [ValueError]: the cursor of the source has then moved to the handle's
    position and the handle is as it was. *)
Theorem X1_shared_read n f o :
  f_closed f = false -> SharedFileRO._file o = true -> 0 <= SharedFileRO._pos o ->
  let rest := skipn (Z.to_nat (SharedFileRO._pos o)) (f_data f) in
  let data := if n <? 0 then rest else firstn (Z.to_nat n) rest in
  SharedFileRO.read n (f, o)
  = if (n <? -1) && match f_kind f with RawFile => true | BytesIO => false end
    then (Raise (ValueError read_length_msg), (set_pos (SharedFileRO._pos o) f, o))
    else (Ok data, (set_pos (SharedFileRO._pos o + len data) f,
                    SharedFileRO.mk true (SharedFileRO._pos o + len data))).
Proof.
  intros Hc Hf Hp rest data.
  destruct (n <? -1) eqn:En; cbn [andb].
  - apply Z.ltb_lt in En. destruct (f_kind f) eqn:Ek.
    + exact (@shared_read_below n f o Hc Hf Hp En Ek).
    + exact (@shared_read_eval n f o Hc Hf Hp (or_intror Ek)).
  - apply Z.ltb_ge in En.
    exact (@shared_read_eval n f o Hc Hf Hp (or_introl En)).
Qed.

(** X1 on the sample archive, with the cursor of the source elsewhere:
    three bytes at position 35, and a length of [-2]. *)
Lemma X1_shared_read_witness :
  let f := set_pos 1000 (Sample.raw_file Sample.archive) in
  let o := SharedFileRO.mk true 35 in
  SharedFileRO.read 3 (f, o)
  = (Ok (Sample.ascii "hel"), (set_pos 38 f, SharedFileRO.mk true 38))
  /\ SharedFileRO.read (-2) (f, o)
     = (Raise (ValueError read_length_msg), (set_pos 35 f, o))
  /\ fst (SharedFileRO.read (-2) (Sample.memory_file Sample.archive, o))
     = Ok (skipn 35 Sample.archive).
Proof.
  intros f o.
  assert (Hp : 0 <= SharedFileRO._pos o) by (cbn; lia).
  split; [| split].
  - rewrite (@X1_shared_read 3 f o eq_refl eq_refl Hp). vm_compute. reflexivity.
  - rewrite (@X1_shared_read (-2) f o eq_refl eq_refl Hp). reflexivity.
  - rewrite (@X1_shared_read (-2) (Sample.memory_file Sample.archive) o eq_refl eq_refl Hp).
    vm_compute. reflexivity.
Defined.

(** ** Reading an entry *)

(** X2. [read(n)], [n >= 0], on a sound reader at position [p] returns
    the bytes [p .. p+n) of the entry (those that remain, at its end); the
    reader stays sound, on the same entry, and its position advances by
    the number of bytes returned; the bytes of the source are untouched. *)
Theorem X2_read_bounded n f r :
  Stream.sound f r -> 0 <= n ->
  let out := firstn (Z.to_nat n)
               (skipn (Z.to_nat (Stream.position r)) (Stream.content f r)) in
  exists f' r',
    ZipFilePartRO.read (Some n) (f, r) = (Ok out, (f', r'))
    /\ Stream.sound f' r'
    /\ Stream.position r' = Stream.position r + len out
    /\ f_data f' = f_data f
    /\ Stream.same_entry r r'.
Proof. intros Hs Hn. exact (@read_sound n f r Hs Hn). Qed.

(** X2 on the reader of ["a.txt"]: [read(3)] returns [b"hel"]. *)
Lemma X2_read_bounded_witness :
  let f := Sample.raw_file Sample.archive in
  let r := Scenario.reader_a in
  let out := firstn (Z.to_nat 3)
               (skipn (Z.to_nat (Stream.position r)) (Stream.content f r)) in
  out = Sample.ascii "hel"
  /\ exists f' r',
       ZipFilePartRO.read (Some 3) (f, r) = (Ok out, (f', r'))
       /\ Stream.sound f' r'
       /\ Stream.position r' = Stream.position r + len out
       /\ f_data f' = f_data f
       /\ Stream.same_entry r r'.
Proof.
  intros f r out. split; [vm_compute; reflexivity |].
  apply (@X2_read_bounded 3 f r); [exact reader_a_sound | lia].
Defined.

(** X3. [read()] and [read(n)] with a negative [n] on a sound reader at
    position [p] return the entry from [p] to its end; nothing remains to
    deliver, and the reader stays sound at the end of the entry. *)
Theorem X3_read_all n f r :
  Stream.sound f r -> match n with None => True | Some k => k < 0 end ->
  let out := skipn (Z.to_nat (Stream.position r)) (Stream.content f r) in
  exists f' r',
    ZipFilePartRO.read n (f, r) = (Ok out, (f', r'))
    /\ Stream.sound f' r'
    /\ Stream.position r' = Stream.position r + len out
    /\ Stream.remaining f' r' = []
    /\ f_data f' = f_data f
    /\ Stream.same_entry r r'.
Proof. intros Hs Hn. exact (@read_all_sound n f r Hs Hn). Qed.

(** X3 on the reader of ["a.txt"] after [read(2)]: [read(-1)] returns
    [b"llo"]. *)
Lemma X3_read_all_witness :
  let f := fst Scenario.after_read2 in
  let r := snd Scenario.after_read2 in
  let out := skipn (Z.to_nat (Stream.position r)) (Stream.content f r) in
  out = Sample.ascii "llo"
  /\ exists f' r',
       ZipFilePartRO.read (Some (-1)) (f, r) = (Ok out, (f', r'))
       /\ Stream.sound f' r'
       /\ Stream.position r' = Stream.position r + len out
       /\ Stream.remaining f' r' = []
       /\ f_data f' = f_data f
       /\ Stream.same_entry r r'.
Proof.
  intros f r out. split; [vm_compute; reflexivity |].
  apply (@X3_read_all (Some (-1)) f r); [exact after_read2_sound | lia].
Defined.

(** X4. [peek(n)] on a sound reader returns a prefix of what remains of
    the entry, of at most 512 bytes and of at least [min(n, 512)] bytes
    when that many remain; the reader stays sound at the same position. *)
Theorem X4_peek n f r :
  Stream.sound f r ->
  let rest := skipn (Z.to_nat (Stream.position r)) (Stream.content f r) in
  exists out f' r',
    ZipFilePartRO.peek n (f, r) = (Ok out, (f', r'))
    /\ Stream.sound f' r'
    /\ Stream.position r' = Stream.position r
    /\ f_data f' = f_data f
    /\ Stream.same_entry r r'
    /\ out = firstn (length out) rest
    /\ len out <= 512
    /\ Z.min (Z.min n 512) (len rest) <= len out.
Proof. intros Hs. exact (@peek_sound n f r Hs). Qed.

(** X4 on the reader of ["dir/b.bin"]: [peek(1)]. *)
Lemma X4_peek_witness :
  let f := Sample.raw_file Sample.archive in
  let r := Scenario.reader_b in
  let rest := skipn (Z.to_nat (Stream.position r)) (Stream.content f r) in
  exists out f' r',
    ZipFilePartRO.peek 1 (f, r) = (Ok out, (f', r'))
    /\ Stream.sound f' r'
    /\ Stream.position r' = Stream.position r
    /\ f_data f' = f_data f
    /\ Stream.same_entry r r'
    /\ out = firstn (length out) rest
    /\ len out <= 512
    /\ Z.min (Z.min 1 512) (len rest) <= len out.
Proof.
  intros f r. apply (@X4_peek 1 f r). exact reader_b_sound.
Defined.

(** X5. [seek(offset, whence)] on a sound, seekable reader, when the
    target (brought into [0 .. file_size]) lies in the bytes the buffer
    holds: the target is returned, only the buffer offset moves, and
    [tell()] then gives the target. *)
Theorem X5_seek_in_buffer offset whence f r :
  Stream.sound f r -> ZipFilePartRO._seekable r = true ->
  whence = 0 \/ whence = 1 \/ whence = 2 ->
  let asked := if whence =? 0 then offset
               else if whence =? 1 then Stream.position r + offset
               else ZipFilePartRO._orig_file_size r + offset in
  let target := Z.max 0 (Z.min asked (ZipFilePartRO._orig_file_size r)) in
  let buff_offset := target - Stream.position r + ZipFilePartRO._offset r in
  0 <= buff_offset < len (ZipFilePartRO._readbuffer r) ->
  ZipFilePartRO.seek offset whence (f, r)
  = (Ok target, (f, ZipFilePartRO.set_offset buff_offset r))
  /\ Stream.sound f (ZipFilePartRO.set_offset buff_offset r)
  /\ ZipFilePartRO.tell (f, ZipFilePartRO.set_offset buff_offset r)
     = (Ok target, (f, ZipFilePartRO.set_offset buff_offset r)).
Proof.
  intros Hs Hsk Hw asked target bo Hbo.
  destruct (@seek_in_buffer offset whence f r Hs Hsk Hw Hbo) as (E & Hs' & Hp).
  split; [exact E |]. split; [exact Hs' |].
  fold asked target bo in Hp. rewrite <- Hp. apply tell_eval.
  - destruct Hs as ([] & _). assumption.
  - exact Hsk.
Qed.

(** X5 on the reader of ["a.txt"] after [read(2)]: [seek(-1, 2)] lands on
    the last byte of the entry, inside the buffer. *)
Lemma X5_seek_in_buffer_witness :
  let f := fst Scenario.after_read2 in
  let r := snd Scenario.after_read2 in
  let asked := if 2 =? 0 then -1
               else if 2 =? 1 then Stream.position r + -1
               else ZipFilePartRO._orig_file_size r + -1 in
  let target := Z.max 0 (Z.min asked (ZipFilePartRO._orig_file_size r)) in
  let buff_offset := target - Stream.position r + ZipFilePartRO._offset r in
  target = 4
  /\ ZipFilePartRO.seek (-1) 2 (f, r)
     = (Ok target, (f, ZipFilePartRO.set_offset buff_offset r))
  /\ Stream.sound f (ZipFilePartRO.set_offset buff_offset r)
  /\ ZipFilePartRO.tell (f, ZipFilePartRO.set_offset buff_offset r)
     = (Ok target, (f, ZipFilePartRO.set_offset buff_offset r)).
Proof.
  intros f r asked target buff_offset. split; [vm_compute; reflexivity |].
  apply (@X5_seek_in_buffer (-1) 2 f r).
  - exact after_read2_sound.
  - vm_compute. reflexivity.
  - right. right. reflexivity.
  - vm_compute. split; [intro H; discriminate H | reflexivity].
Defined.

(** X6. Two sound readers on one byte source do not disturb each other:
    a read on the first and then a read on the second return what each
    would return alone, and both stay sound on their entries. *)
Theorem X6_reads_independent n m f p q :
  Stream.sound f p -> Stream.sound f q -> 0 <= n -> 0 <= m ->
  let out_p := firstn (Z.to_nat n)
                 (skipn (Z.to_nat (Stream.position p)) (Stream.content f p)) in
  let out_q := firstn (Z.to_nat m)
                 (skipn (Z.to_nat (Stream.position q)) (Stream.content f q)) in
  exists f1 p1 f2 q1,
    ZipFilePartRO.read (Some n) (f, p) = (Ok out_p, (f1, p1))
    /\ ZipFilePartRO.read (Some m) (f1, q) = (Ok out_q, (f2, q1))
    /\ Stream.sound f2 p1 /\ Stream.sound f2 q1
    /\ Stream.position p1 = Stream.position p + len out_p
    /\ Stream.position q1 = Stream.position q + len out_q
    /\ Stream.content f2 p1 = Stream.content f p
    /\ Stream.content f2 q1 = Stream.content f q.
Proof. intros Hp Hq Hn Hm. exact (@reads_independent n m f p q Hp Hq Hn Hm). Qed.

(** X6 on the readers of ["a.txt"] and ["dir/b.bin"]. *)
Lemma X6_reads_independent_witness :
  let f := Sample.raw_file Sample.archive in
  let p := Scenario.reader_a in
  let q := Scenario.reader_b in
  let out_p := firstn (Z.to_nat 3)
                 (skipn (Z.to_nat (Stream.position p)) (Stream.content f p)) in
  let out_q := firstn (Z.to_nat 10)
                 (skipn (Z.to_nat (Stream.position q)) (Stream.content f q)) in
  exists f1 p1 f2 q1,
    ZipFilePartRO.read (Some 3) (f, p) = (Ok out_p, (f1, p1))
    /\ ZipFilePartRO.read (Some 10) (f1, q) = (Ok out_q, (f2, q1))
    /\ Stream.sound f2 p1 /\ Stream.sound f2 q1
    /\ Stream.position p1 = Stream.position p + len out_p
    /\ Stream.position q1 = Stream.position q + len out_q
    /\ Stream.content f2 p1 = Stream.content f p
    /\ Stream.content f2 q1 = Stream.content f q.
Proof.
  intros f p q.
  apply (@X6_reads_independent 3 10 f p q);
    [exact reader_a_sound | exact reader_b_sound | lia | lia].
Defined.

(** X7. After [close()] of a reader issued by a handle, whatever state the
    handle and the reader were in, [read], [seek], [tell], [readable] and
    [seekable] raise [ValueError] and change nothing. *)
Theorem X7_closed_reader w p :
  let s := snd (ZipFileRO.close_part (w, p)) in
  let st := (ZipFileRO.w_file (fst s), snd s) in
  (forall n, ZipFilePartRO.read n st = (Raise (ValueError "read from closed file."), st))
  /\ (forall offset whence,
        ZipFilePartRO.seek offset whence st
        = (Raise (ValueError "seek on closed file."), st))
  /\ ZipFilePartRO.tell st = (Raise (ValueError "tell on closed file."), st)
  /\ ZipFilePartRO.readable st
     = (Raise (ValueError "I/O operation on closed file."), st)
  /\ ZipFilePartRO.seekable st
     = (Raise (ValueError "I/O operation on closed file."), st).
Proof.
  intros s st. apply closed_reader. apply close_part_closed.
Qed.

(** X8. A reader whose source ends before the bytes the directory
    promises: [read()] raises [EOFError]. *)
Theorem X8_read_truncated n f r :
  ZipFilePartRO.closed r = false ->
  match n with None => True | Some k => k < 0 end ->
  f_closed f = false -> SharedFileRO._file (ZipFilePartRO._fileobj r) = true ->
  0 <= Stream.source_pos r -> ZipFilePartRO._eof r = false ->
  let avail := Z.max 0 (len (f_data f) - Stream.source_pos r) in
  avail < ZipFilePartRO._compress_left r -> avail < ZipFilePartRO._left r ->
  exists s', ZipFilePartRO.read n (f, r) = (Raise EOFError, s').
Proof.
  intros Ho Hn Hc Hsh Hp He avail Hcl Hl.
  exact (@read_truncated n f r Ho Hn Hc Hsh Hp He Hcl Hl).
Qed.

(** X8 on the reader of ["a.txt"] over the sample archive cut after the
    first two bytes of the entry. *)
Lemma X8_read_truncated_witness :
  exists s',
    ZipFilePartRO.read None (Sample.raw_file (firstn 37 Sample.archive), Scenario.reader_a)
    = (Raise EOFError, s').
Proof.
  apply (@X8_read_truncated None (Sample.raw_file (firstn 37 Sample.archive))
           Scenario.reader_a);
    try reflexivity; try exact I; vm_compute; try reflexivity; intro H; discriminate H.
Defined.

(** ** Opening an entry *)

(** X9. The reader a successful [open] returns, for an entry whose sizes
    are not negative and whose bytes the source holds: it is sound, stands
    at position 0, is seekable, and its entry is the first [file_size] of
    the [compress_size] bytes that follow the local header, its name and
    its extra field. *)
Theorem X9_open_reader codec name w zinfo p w' :
  ZipFileRO.open codec name w = (Ok p, w') ->
  resolves name w zinfo ->
  0 <= ZipInfoRO.compress_size zinfo -> 0 <= ZipInfoRO.file_size zinfo ->
  let data := f_data (ZipFileRO.w_file w) in
  let start := Stream.data_start data zinfo in
  start + ZipInfoRO.compress_size zinfo <= len data ->
  Stream.sound (ZipFileRO.w_file w') p
  /\ Stream.position p = 0
  /\ ZipFilePartRO._seekable p = true
  /\ Stream.content (ZipFileRO.w_file w') p
     = firstn (Z.to_nat (ZipInfoRO.file_size zinfo))
         (slice data start (start + ZipInfoRO.compress_size zinfo)).
Proof.
  intros H Hr Hcs Hfs data start Hpres.
  exact (@open_sound codec name w zinfo p w' H Hr Hcs Hfs Hpres).
Qed.

(** X9 on the sample handle: [open("a.txt")]. *)
Lemma X9_open_reader_witness :
  let w := Scenario.world0 in
  let zinfo := Sample.info_a in
  let p := Scenario.reader_a in
  let w' := Scenario.world_a in
  let data := f_data (ZipFileRO.w_file w) in
  let start := Stream.data_start data zinfo in
  Stream.sound (ZipFileRO.w_file w') p
  /\ Stream.position p = 0
  /\ ZipFilePartRO._seekable p = true
  /\ Stream.content (ZipFileRO.w_file w') p
     = firstn (Z.to_nat (ZipInfoRO.file_size zinfo))
         (slice data start (start + ZipInfoRO.compress_size zinfo)).
Proof.
  intros w zinfo p w' data start.
  apply (@X9_open_reader PyCodec.python (inl Sample.name_a) w zinfo p w').
  - vm_compute. reflexivity.
  - vm_compute. reflexivity.
  - vm_compute. intro H. discriminate H.
  - vm_compute. intro H. discriminate H.
  - vm_compute. intro H. discriminate H.
Defined.

(** X10. Opening an entry and reading it whole returns the bytes stored
    for it: the first [file_size] of the [compress_size] bytes after its
    local header; [tell()] then gives their number and a further read
    returns [b""]. *)
Theorem X10_open_read codec name w zinfo p w' n :
  ZipFileRO.open codec name w = (Ok p, w') ->
  resolves name w zinfo ->
  0 <= ZipInfoRO.compress_size zinfo -> 0 <= ZipInfoRO.file_size zinfo ->
  let data := f_data (ZipFileRO.w_file w) in
  let start := Stream.data_start data zinfo in
  start + ZipInfoRO.compress_size zinfo <= len data ->
  0 <= n ->
  let stored := firstn (Z.to_nat (ZipInfoRO.file_size zinfo))
                  (slice data start (start + ZipInfoRO.compress_size zinfo)) in
  exists f1 p1 f2 p2,
    ZipFilePartRO.read None (ZipFileRO.w_file w', p) = (Ok stored, (f1, p1))
    /\ ZipFilePartRO.tell (f1, p1) = (Ok (len stored), (f1, p1))
    /\ ZipFilePartRO.read (Some n) (f1, p1) = (Ok [], (f2, p2)).
Proof.
  intros H Hr Hcs Hfs data start Hpres Hn.
  exact (@open_read codec name w zinfo p w' n H Hr Hcs Hfs Hpres Hn).
Qed.

(** X10 on the sample handle: [open("a.txt")], [read()], [read(7)]. *)
Lemma X10_open_read_witness :
  let w := Scenario.world0 in
  let zinfo := Sample.info_a in
  let p := Scenario.reader_a in
  let w' := Scenario.world_a in
  let data := f_data (ZipFileRO.w_file w) in
  let start := Stream.data_start data zinfo in
  let stored := firstn (Z.to_nat (ZipInfoRO.file_size zinfo))
                  (slice data start (start + ZipInfoRO.compress_size zinfo)) in
  stored = Sample.hello
  /\ exists f1 p1 f2 p2,
       ZipFilePartRO.read None (ZipFileRO.w_file w', p) = (Ok stored, (f1, p1))
       /\ ZipFilePartRO.tell (f1, p1) = (Ok (len stored), (f1, p1))
       /\ ZipFilePartRO.read (Some 7) (f1, p1) = (Ok [], (f2, p2)).
Proof.
  intros w zinfo p w' data start stored. split; [vm_compute; reflexivity |].
  apply (@X10_open_read PyCodec.python (inl Sample.name_a) w zinfo p w' 7).
  - vm_compute. reflexivity.
  - vm_compute. reflexivity.
  - vm_compute. intro H. discriminate H.
  - vm_compute. intro H. discriminate H.
  - vm_compute. intro H. discriminate H.
  - lia.
Defined.

(** ** The handle *)

(** X11. The entry table of a handle that [ZipFileRO(file)] builds is the
    table of the directory the end record points at: its records, walked
    from the first by their declared lengths, each added under its decoded
    name (a later record of the same name replacing an earlier one); each
    of them is whole, carries the directory signature, has a name that
    decodes and the stored method; [_start_dir] is the directory's start,
    which is not negative. *)
Theorem X11_directory_table codec file_passed f w :
  ZipFileRO.new codec file_passed f = (Ok tt, w) ->
  exists endrec,
    fst (_extract_end_archive f) = Ok (Some endrec)
    /\ let start := ECD_OFFSET endrec + ZipFileRO.concat_of endrec in
       let data := Prefixed.directory_bytes f start (ECD_SIZE endrec) in
       ZipFileRO._name_to_info (ZipFileRO.w_zip w)
       = EntryTable.table codec data (ECD_SIZE endrec) (ZipFileRO.concat_of endrec)
       /\ Forall (EntryTable.accepted codec data)
                 (Directory.offsets (ZipFileRO.cd_fuel data) data (ECD_SIZE endrec) 0)
       /\ ZipFileRO._start_dir (ZipFileRO.w_zip w) = Some start
       /\ 0 <= start.
Proof.
  intros Hnew.
  destruct (@new_ok_endrec codec file_passed f w Hnew) as (_ & endrec & He).
  exists endrec. split; [exact He |].
  exact (@new_table codec file_passed f endrec w He Hnew).
Qed.

(** X11 on the sample archive. *)
Lemma X11_directory_table_witness :
  let codec := PyCodec.python in
  let f := Sample.raw_file Sample.archive in
  let w := Scenario.world0 in
  exists endrec,
    fst (_extract_end_archive f) = Ok (Some endrec)
    /\ let start := ECD_OFFSET endrec + ZipFileRO.concat_of endrec in
       let data := Prefixed.directory_bytes f start (ECD_SIZE endrec) in
       ZipFileRO._name_to_info (ZipFileRO.w_zip w)
       = EntryTable.table codec data (ECD_SIZE endrec) (ZipFileRO.concat_of endrec)
       /\ Forall (EntryTable.accepted codec data)
                 (Directory.offsets (ZipFileRO.cd_fuel data) data (ECD_SIZE endrec) 0)
       /\ ZipFileRO._start_dir (ZipFileRO.w_zip w) = Some start
       /\ 0 <= start.
Proof.
  intros codec f w.
  apply (@X11_directory_table codec false f w). vm_compute. reflexivity.
Defined.

(** X12. On a handle that [ZipFileRO(file)] builds, [namelist()] holds no
    name twice and lists the names of [infolist()] in the same order;
    [getinfo(name)] of a listed name returns the entry filed under it,
    whose [filename] is that name and whose sizes are not negative;
    [getinfo] and [open] of a name that is not listed raise [KeyError] and
    change nothing. *)
Theorem X12_handle_queries codec file_passed f w :
  ZipFileRO.new codec file_passed f = (Ok tt, w) ->
  exists names infos,
    ZipFileRO.namelist w = (Ok names, w)
    /\ ZipFileRO.infolist w = (Ok infos, w)
    /\ NoDup names
    /\ map ZipInfoRO.filename infos = names
    /\ (forall n, In n names ->
          exists zinfo, ZipFileRO.getinfo n w = (Ok zinfo, w)
                        /\ ZipInfoRO.filename zinfo = n /\ In zinfo infos
                        /\ 0 <= ZipInfoRO.compress_size zinfo
                        /\ 0 <= ZipInfoRO.file_size zinfo)
    /\ (forall n, ~ In n names ->
          ZipFileRO.getinfo n w = (Raise KeyError, w)
          /\ ZipFileRO.open codec (inl n) w = (Raise KeyError, w)).
Proof. intros Hnew. exact (@handle_queries codec file_passed f w Hnew). Qed.

(** X12 on the sample handle. *)
Lemma X12_handle_queries_witness :
  let codec := PyCodec.python in
  let w := Scenario.world0 in
  exists names infos,
    ZipFileRO.namelist w = (Ok names, w)
    /\ ZipFileRO.infolist w = (Ok infos, w)
    /\ NoDup names
    /\ map ZipInfoRO.filename infos = names
    /\ (forall n, In n names ->
          exists zinfo, ZipFileRO.getinfo n w = (Ok zinfo, w)
                        /\ ZipInfoRO.filename zinfo = n /\ In zinfo infos
                        /\ 0 <= ZipInfoRO.compress_size zinfo
                        /\ 0 <= ZipInfoRO.file_size zinfo)
    /\ (forall n, ~ In n names ->
          ZipFileRO.getinfo n w = (Raise KeyError, w)
          /\ ZipFileRO.open codec (inl n) w = (Raise KeyError, w)).
Proof.
  intros codec w.
  apply (@X12_handle_queries codec false (Sample.raw_file Sample.archive) w).
  vm_compute. reflexivity.
Defined.

(** X13. [ZipFileRO(file)] always ends, and accounts for the byte source
    either way.  When it returns, the handle holds the source with a
    reference count of 1 and the source is as it was but for its cursor.
    When it raises, the handle holds nothing, the count is 0, the bytes of
    the source are untouched, and the source has been closed exactly when
    the constructor had opened it itself: a source the caller passed is
    left open. *)
Theorem X13_constructor_outcome codec file_passed f :
  match ZipFileRO.new codec file_passed f with
  | (Ok _, w) =>
      ZipFileRO._file (ZipFileRO.w_zip w) = true
      /\ ZipFileRO._file_ref_count (ZipFileRO.w_zip w) = 1
      /\ ZipFileRO._file_passed (ZipFileRO.w_zip w) = file_passed
      /\ file_frame f (ZipFileRO.w_file w)
  | (Raise e, w) =>
      ZipFileRO._file (ZipFileRO.w_zip w) = false
      /\ ZipFileRO._file_ref_count (ZipFileRO.w_zip w) = 0
      /\ f_data (ZipFileRO.w_file w) = f_data f
      /\ f_closed (ZipFileRO.w_file w) = negb file_passed || f_closed f
      /\ f_close_calls (ZipFileRO.w_file w)
         = (f_close_calls f + if file_passed then 0 else 1)%nat
  | (OutOfFuel, _) => False
  end.
Proof. exact (@new_outcome codec file_passed f). Qed.

(** ** The directory locator *)

(** X14. A record the locator returns lies in the source: it starts at
    [ECD_LOCATION], with the end-of-central-directory signature, all of
    its 22 bytes are there, and its comment is the bytes that follow it,
    as many as its comment-length field says (fewer when the source ends
    before). *)
Theorem X14_located f e :
  fst (_extract_end_archive f) = Ok (Some e) -> located (f_data f) e.
Proof. intros H. exact (@extract_located f e H). Qed.

(** X14 on the sample archive with a comment. *)
Lemma X14_located_witness :
  let data := Sample.commented in
  let e := LocatorSpec.decode (slice data (len Sample.archive - 22) (len Sample.archive))
             (Sample.ascii "hi!") (len Sample.archive - 22) in
  located (f_data (Sample.raw_file data)) e.
Proof.
  intros data e. apply (@X14_located (Sample.raw_file data) e).
  vm_compute. reflexivity.
Defined.

(** X15. A source that is shorter than an end-of-central-directory
    record, or whose last 64KiB + 22 bytes hold the record signature
    nowhere, is no archive: the locator returns [None] and
    [ZipFileRO(file)] raises [BadZipFile("File is not a zip file")]. *)
Theorem X15_not_an_archive codec file_passed f :
  f_closed f = false ->
  let window := LocatorSpec.last_bytes
                  (Z.min (f_size f) (LocatorSpec.KiB64 + LocatorSpec.EOCD_SIZE))
                  (f_data f) in
  f_size f < _END_ARCHIVE_SIZE
  \/ (forall k, (k < length window)%nat ->
                starts_with _END_ARCHIVE_STRING (skipn k window) = false) ->
  fst (_extract_end_archive f) = Ok None
  /\ fst (ZipFileRO.new codec file_passed f) = Raise (BadZipFile ZipFileRO.not_zip_msg).
Proof.
  intros Hc window H. apply not_found_not_zip; [exact Hc |].
  destruct H as [H | H]; [apply locate_short; exact H | apply locate_no_signature; exact H].
Qed.

(** X15 on thirty bytes of text. *)
Lemma X15_not_an_archive_witness :
  let f := Sample.memory_file Sample.garbage in
  fst (_extract_end_archive f) = Ok None
  /\ fst (ZipFileRO.new PyCodec.python true f) = Raise (BadZipFile ZipFileRO.not_zip_msg).
Proof.
  intros f. apply (@X15_not_an_archive PyCodec.python true f); [reflexivity |].
  right. intros k Hk.
  do 30 (destruct k as [| k]; [vm_compute; reflexivity |]).
  vm_compute in Hk. lia.
Defined.

(** X16. An archive whose ZIP64 locator, the 20 bytes before the record
    found, names a disk other than 0 or counts more than one disk is
    refused: the locator and [ZipFileRO(file)] raise [BadZipFile] with the
    message that multi-disk archives are not supported. *)
Theorem X16_multi_disk codec file_passed f e :
  f_closed f = false ->
  LocatorSpec.locate (f_data f) = Some e ->
  _END_ARCHIVE64_LOCATOR_SIZE <= ECD_LOCATION e ->
  let locator := slice (f_data f) (ECD_LOCATION e - _END_ARCHIVE64_LOCATOR_SIZE)
                   (ECD_LOCATION e) in
  slice locator 0 4 = _END_ARCHIVE64_LOCATOR_STRING ->
  field locator 4 4 <> 0 \/ 1 < field locator 16 4 ->
  fst (_extract_end_archive f) = Raise (BadZipFile multi_disk_msg)
  /\ fst (ZipFileRO.new codec file_passed f) = Raise (BadZipFile multi_disk_msg).
Proof.
  intros Hc Hl Hroom locator Hsig Hdisk.
  exact (@multi_disk_rejected codec file_passed f e Hc Hl Hroom Hsig Hdisk).
Qed.

(** X16 on a source whose ZIP64 locator counts two disks. *)
Lemma X16_multi_disk_witness :
  let f := Sample.raw_file Sample.two_disks in
  fst (_extract_end_archive f) = Raise (BadZipFile multi_disk_msg)
  /\ fst (ZipFileRO.new PyCodec.python false f) = Raise (BadZipFile multi_disk_msg).
Proof.
  intros f.
  apply (@X16_multi_disk PyCodec.python false f
           (LocatorSpec.decode (Sample.end_record 0 0 0 []) [] 76)).
  - reflexivity.
  - vm_compute. reflexivity.
  - vm_compute. intro H. discriminate H.
  - vm_compute. reflexivity.
  - right. vm_compute. reflexivity.
Defined.
